(** * go-digitaltwin: content addressing, assemblies, change engine, assertions

    A shallow embedding of the parts of the go-digitaltwin repository that
    compute content addresses (contentaddress.go), build and hash assemblies
    (the assembly builder and AssemblyGraph), diff and update the engine's
    snapshot (neo4jengine) and compile cardinality assertions (assert),
    together with the properties the specification states about them. *)

From Stdlib.Strings Require Import Byte.
From Stdlib Require Import NArith ZArith.
From stdpp Require Import gmap strings list sorting pretty.

Open Scope N_scope.

(** ** Bytes

    A Go [byte] is [Byte.byte]; a [[]byte] is a list of them. *)

Abbreviation bytes := (list byte).

Definition byte_of_N (n : N) : byte :=
  match Byte.of_N (n mod 256) with Some b => b | None => x00 end.

#[global] Instance byte_eq_dec : EqDecision byte := Byte.byte_eq_dec.

#[global] Program Instance byte_countable : Countable byte :=
  inj_countable Byte.to_N Byte.of_N _.
Next Obligation. intros b. apply Byte.of_to_N. Qed.

(** ** crypto/sha1

    Every hash of the library is a SHA-1 sum.  [sha1.New()] followed by
    [hash_Write]s and a final [Sum(nil)] digests the concatenation of everything
    written, so a [hash.Hash] is modelled by the bytes written so far and
    [sha1_Sum] is FIPS 180-4 SHA-1 over 32-bit words held in [N]. *)

Module SHA1.

Definition mask32 : N := 4294967295.
Definition add32 (a b : N) : N := N.land (a + b) mask32.
Definition rotl (k : N) (x : N) : N :=
  N.lor (N.land (N.shiftl x k) mask32) (N.shiftr x (32 - k)).
Definition not32 (x : N) : N := N.lxor x mask32.

(** Big-endian encoding of the [k] low bytes of [n]. *)
Fixpoint be_bytes (k : nat) (n : N) : bytes :=
  match k with
  | O => []
  | S k' => be_bytes k' (N.shiftr n 8) ++ [byte_of_N n]
  end.

Definition be_word (bs : bytes) : N :=
  foldl (λ acc b, N.lor (N.shiftl acc 8) (Byte.to_N b)) 0 bs.

(** Message padding: a single 0x80, zeros up to 56 mod 64, then the
    bit length on 8 bytes. *)
Definition pad (msg : bytes) : bytes :=
  let len := length msg in
  let zeros := (Nat.modulo (119 - Nat.modulo len 64) 64)%nat in
  msg ++ [x80] ++ replicate zeros x00 ++ be_bytes 8 (8 * N.of_nat len).

Fixpoint words (fuel : nat) (bs : bytes) : list N :=
  match fuel with
  | O => []
  | S fuel' =>
      match bs with
      | [] => []
      | _ => be_word (take 4 bs) :: words fuel' (drop 4 bs)
      end
  end.

Fixpoint blocks (fuel : nat) (ws : list N) : list (list N) :=
  match fuel with
  | O => []
  | S fuel' =>
      match ws with
      | [] => []
      | _ => take 16 ws :: blocks fuel' (drop 16 ws)
      end
  end.

Definition nthw (i : nat) (ws : list N) : N := default 0 (ws !! i).

(** The message schedule, most recent word first: [w] holds
    w(t-1), w(t-2), ..., so w(t-3) is at index 2 and w(t-16) at 15. *)
Definition next_w (w : list N) : N :=
  rotl 1 (N.lxor (N.lxor (nthw 2 w) (nthw 7 w))
                 (N.lxor (nthw 13 w) (nthw 15 w))).

Definition f_k (t : nat) (b c d : N) : N * N :=
  if (t <? 20)%nat then
    (N.lor (N.land b c) (N.land (not32 b) d), 1518500249)
  else if (t <? 40)%nat then
    (N.lxor (N.lxor b c) d, 1859775393)
  else if (t <? 60)%nat then
    (N.lor (N.lor (N.land b c) (N.land b d)) (N.land c d), 2400959708)
  else
    (N.lxor (N.lxor b c) d, 3395469782).

Record regs := Regs { ra : N; rb : N; rc : N; rd : N; re : N }.

Definition round (t : nat) (wt : N) (r : regs) : regs :=
  let '(f, k) := f_k t (rb r) (rc r) (rd r) in
  let tmp := add32 (add32 (add32 (add32 (rotl 5 (ra r)) f) (re r)) k) wt in
  Regs tmp (ra r) (rotl 30 (rb r)) (rc r) (rd r).

(** Rounds [t], [t+1], ..., 79; [w] is the reversed schedule so far and
    [rest] the words of the block not yet consumed. *)
Fixpoint rounds (n : nat) (t : nat) (w rest : list N) (r : regs) : regs :=
  match n with
  | O => r
  | S n' =>
      let '(wt, rest') :=
        match rest with
        | x :: rest' => (x, rest')
        | [] => (next_w w, [])
        end in
      rounds n' (S t) (take 16 (wt :: w)) rest' (round t wt r)
  end.

Definition compress (h : regs) (block : list N) : regs :=
  let r := rounds 80 0 [] block h in
  Regs (add32 (ra h) (ra r)) (add32 (rb h) (rb r)) (add32 (rc h) (rc r))
       (add32 (rd h) (rd r)) (add32 (re h) (re r)).

Definition init : regs :=
  Regs 1732584193 4023233417 2562383102 271733878 3285377520.

Definition Sum (msg : bytes) : bytes :=
  let p := pad msg in
  let ws := words (length p) p in
  let h := foldl compress init (blocks (length ws) ws) in
  be_bytes 4 (ra h) ++ be_bytes 4 (rb h) ++ be_bytes 4 (rc h) ++
  be_bytes 4 (rd h) ++ be_bytes 4 (re h).

End SHA1.

Definition sha1_Sum (written : bytes) : bytes := SHA1.Sum written.
#[global] Arguments sha1_Sum : simpl never.

(** [hex.EncodeToString], for reading test vectors. *)
Definition hex_digit (n : N) : byte :=
  if n <? 10 then byte_of_N (48 + n) else byte_of_N (87 + n).
Definition hex_Encode (bs : bytes) : string :=
  String.string_of_list_byte
    (mjoin (map (λ b, [hex_digit (Byte.to_N b / 16);
                       hex_digit (Byte.to_N b mod 16)]) bs)).

(** ** Content addresses (contentaddress.go)

    [contentAddress] is [[sha1.Size]byte]; [NodeHash], [ComponentID],
    [ComponentHash] and [ForestHash] are distinct Go types over it.  They
    are all byte strings here (the Go type system only keeps them apart). *)

Abbreviation contentAddress := (list byte).
Abbreviation NodeHash := (list byte).
Abbreviation ComponentID := (list byte).
Abbreviation ComponentHash := (list byte).
Abbreviation ForestHash := (list byte).

(** The zero value of a [[20]byte] array. *)
Definition zeroAddress : contentAddress := replicate 20 x00.

(** [bytes.Compare]: lexicographic comparison, -1, 0 or +1. *)
Fixpoint bytes_Compare (a b : bytes) : Z :=
  match a, b with
  | [], [] => 0%Z
  | [], _ :: _ => (-1)%Z
  | _ :: _, [] => 1%Z
  | x :: a', y :: b' =>
      if Byte.to_N x <? Byte.to_N y then (-1)%Z
      else if Byte.to_N y <? Byte.to_N x then 1%Z
      else bytes_Compare a' b'
  end.

(** The comparison closure given to [sort.Slice] for hashes:
    [bytes.Compare(x[i][:], x[j][:]) < 0]. *)
Definition hash_less (a b : bytes) : bool := (bytes_Compare a b <? 0)%Z.

(** [sort.Slice(x, less)].  Go's sort is not stable; it returns some
    permutation in which no element is [less] than an earlier one.  The
    model is a merge sort for the relation "[y] is not less than [x]"; when
    [less] tells all elements of the slice apart (as it does for hashes, and
    for the field names of one struct) that permutation is the only one. *)
Definition not_after {A} (less : A → A → bool) : relation A :=
  λ x y, less y x = false.

#[global] Instance not_after_dec {A} (less : A → A → bool) x y :
  Decision (not_after less x y).
Proof. unfold not_after. apply _. Defined.

Definition sort_Slice {A} (less : A → A → bool) (l : list A) : list A :=
  merge_sort (not_after less) l.

(** What the proofs need of a comparison closure. *)
Class StrictWeak {A} (less : A → A → bool) := {
  less_asym x y : less x y = true → less y x = false;
  less_negtrans x y z : less y x = false → less z y = false → less z x = false;
}.

(** *** hash.Hash and Go maps *)

(** A [hash.Hash] under construction: the bytes written so far. *)
Abbreviation hash_Hash := (list byte).
Definition hash_Write (h : hash_Hash) (p : bytes) : hash_Hash := h ++ p.

(** [m[k]] on a Go map of hashes: the zero array when [k] is absent. *)
Definition map_index (m : gmap contentAddress contentAddress) (k : contentAddress)
  : contentAddress := default zeroAddress (m !! k).

(** [for k, v := range m]: Go leaves the order unspecified.  [range_map]
    is the order the model iterates in; functions whose result could depend
    on the order also come in a form that takes the order as an argument. *)
Definition range_map {V} (m : gmap contentAddress V) : list (contentAddress * V) :=
  map_to_list m.
Definition range_keys {V} (m : gmap contentAddress V) : list contentAddress :=
  (range_map m).*1.

(** *** HashComponents *)

(** [HashComponents], with the order in which [for id := range components]
    visited the keys made explicit. *)
Definition HashComponentsIn (order : list ComponentID)
    (components : gmap ComponentID ComponentHash) : ForestHash :=
  let refs := foldl (λ refs id, refs ++ [id]) [] order in
  let refs := sort_Slice hash_less refs in
  let h := foldl (λ h ref, let x := map_index components ref in hash_Write h x) [] refs in
  sha1_Sum h.

Definition HashComponents (components : gmap ComponentID ComponentHash) : ForestHash :=
  HashComponentsIn (range_keys components) components.

(** [ComputeForestHash] (assembly.go), on precomputed references. *)
Definition ComputeForestHash (components : list (ComponentID * ComponentHash)) : ForestHash :=
  let precomputed :=
    foldl (λ m c, <[c.1 := c.2]> m) (∅ : gmap ComponentID ComponentHash) components in
  HashComponents precomputed.

Definition pad20 (bs : bytes) : contentAddress := take 20 (bs ++ replicate 20 x00).


(** ** Results of fallible code

    A Go call returns normally, returns a non-nil [error], or panics. *)

Inductive error : Type :=
| Error (msg : string)
| Wrap (context : string) (cause : error).   (* fmt.Errorf("context: %w", cause) *)

Inductive result (A : Type) : Type :=
| Ok (a : A)
| Err (e : error)
| Panic (msg : string).
Arguments Ok {A} a.
Arguments Err {A} e.
Arguments Panic {A} msg.

Definition bind {A B} (r : result A) (k : A → result B) : result B :=
  match r with
  | Ok a => k a
  | Err e => Err e
  | Panic msg => Panic msg
  end.

(** [if err != nil { return fmt.Errorf("context: %w", err) }] *)
Definition wrapErr {A} (context : string) (r : result A) : result A :=
  match r with
  | Err e => Err (Wrap context e)
  | _ => r
  end.

#[global] Instance result_bind : MBind result := λ A B k r, bind r k.
#[global] Instance result_ret : MRet result := @Ok.

(** ** encoding/binary *)

(** [binary.PutUvarint]: seven bits per byte, least significant group
    first, the high bit set on every byte but the last.  A uint64 needs at
    most [MaxVarintLen64] = 10 bytes. *)
Fixpoint PutUvarint_loop (fuel : nat) (x : N) : bytes :=
  match fuel with
  | O => [byte_of_N x]
  | S fuel' =>
      if 128 <=? x
      then byte_of_N (N.lor (x mod 256) 128) :: PutUvarint_loop fuel' (N.shiftr x 7)
      else [byte_of_N x]
  end.
Definition PutUvarint (x : N) : bytes := PutUvarint_loop 9 (x mod 2 ^ 64).

(** [binary.PutVarint]: [ux := uint64(x) << 1; if x < 0 { ux = ^ux }]. *)
Definition PutVarint (x : Z) : bytes :=
  let u64 := Z.to_N (x mod 2 ^ 64)%Z in
  let ux := (N.shiftl u64 1) mod 2 ^ 64 in
  let ux := if (x <? 0)%Z then N.lxor ux (2 ^ 64 - 1) else ux in
  PutUvarint ux.

(** The fixed-size values [binary.Write] accepts: booleans, sized
    integers, and floats (given by their IEEE 754 bits). *)
Inductive fixed : Type :=
| FBool (b : bool)
| FInt (size : nat) (z : Z)        (* int8 .. int64: size in bytes *)
| FUint (size : nat) (n : N)       (* uint8 .. uint64 *)
| FFloat (size : nat) (bits : N).  (* float32, float64 *)

(** [binary.Write(w, binary.BigEndian, v)] *)
Definition binary_Write (v : fixed) : bytes :=
  match v with
  | FBool b => [if b then x01 else x00]
  | FInt size z => SHA1.be_bytes size (Z.to_N (z mod 2 ^ (8 * Z.of_nat size))%Z)
  | FUint size n => SHA1.be_bytes size n
  | FFloat size bits => SHA1.be_bytes size bits
  end.

(** ** Values as reflection sees them (package reflect)

    [methods] records, for a value whose dynamic type implements
    [ContentAddresser] or [encoding.BinaryMarshaler], what the call does:
    the bytes it writes (or returns), an error, or a panic. *)

Record methods := Methods {
  ContentAddresser : option (result bytes);   (* x.ContentAddress(digest) *)
  BinaryMarshaler : option (result bytes);    (* x.MarshalBinary() *)
}.
Definition no_methods : methods := Methods None None.

(** [reflect.StructField], as far as the hasher reads it. *)
Record StructField := Field {
  Name : string;
  IsExported : bool;
  (* field.Type == reflect.TypeOf(InformationElement{}) *)
  IsInformationElement : bool;
}.

(** The elements of an array or slice, by element kind. *)
Inductive elems : Type :=
| ElemInt (l : list Z)
| ElemUint (l : list N)
| ElemFixed (l : list fixed)
| ElemString (l : list string)
| ElemOther (elem : string).

(** A [reflect.Value]: the method set of its type and its kind with the
    data of that kind.  [KStruct] lists [reflect.VisibleFields] in
    declaration order, each with [node.FieldByIndex(field.Index)].  [KPtr]
    carries [reflect.New(value.Type().Elem()).Elem()], the zero value of the
    pointed-to type, beside the pointee. *)
#[local] Set Warnings "-register-all".
Inductive rvalue : Type :=
| RV (m : methods) (s : shape)
with shape : Type :=
| KStruct (fields : list (StructField * rvalue))
| KString (s : string)
| KInt (z : Z)
| KUint (n : N)
| KFixed (x : fixed)
| KSeq (xs : elems)
| KInterface (dyn : option rvalue)
| KPtr (zero : shape) (pointee : option shape)
| KOther (kind : string).

Definition shape_of (value : rvalue) : shape := let 'RV _ s := value in s.

(** What [value.Interface().(T)] sees: the method set of the dynamic value
    (none for a nil interface). *)
Definition methods_of (value : rvalue) : methods :=
  match value with
  | RV _ (KInterface None) => no_methods
  | RV _ (KInterface (Some (RV m _))) => m
  | RV m _ => m
  end.

(** [fields[i].Name < fields[j].Name]: Go compares strings bytewise. *)
Definition string_less (a b : string) : bool :=
  hash_less (String.list_byte_of_string a) (String.list_byte_of_string b).

Definition field_less {T} (a b : StructField * T) : bool :=
  string_less (Name a.1) (Name b.1).

Definition string_bytes (s : string) : bytes := String.list_byte_of_string s.

(** ** reflectiveContentAddress *)

(** The kind switch on an array or slice. *)
Definition writeElems (digest : hash_Hash) (field : StructField) (xs : elems)
  : result hash_Hash :=
  match xs with
  | ElemInt l => Ok (foldl (λ d x, hash_Write d (PutVarint x)) digest l)
  | ElemUint l => Ok (foldl (λ d x, hash_Write d (PutUvarint x)) digest l)
  | ElemFixed l => Ok (foldl (λ d x, hash_Write d (binary_Write x)) digest l)
  | ElemString l => Ok (foldl (λ d x, hash_Write d (string_bytes x)) digest l)
  | ElemOther elem =>
      Err (Error ("field " +:+ Name field +:+ ": unsupported slice of " +:+ elem))
  end.

(** [reflectiveContentAddress(digest, node)] on the kind data of [node],
    and [fieldValue], the body of its loop from the ContentAddresser
    look-up on.  The loop runs over the fields sorted by name; so that the
    recursion stays structural, each field is paired with the continuation
    that hashes its value before the sort, and the loop calls the
    continuations in sorted order. *)
Fixpoint reflectiveContentAddress (digest : hash_Hash) (node : shape) {struct node}
  : result hash_Hash :=
  match node with
  | KStruct fields =>
      let fields :=
        (λ fv : StructField * rvalue,
           let '(field, value) := fv in
           (field, λ digest, fieldValue digest field value)) <$> fields in
      let fields := sort_Slice field_less fields in
      foldl (λ (acc : result _) (fv : StructField * (_ → result _)),
               digest ← acc;
               let '(field, hashValue) := fv in
               if negb (IsExported field) then Ok digest
               else if (Name field =? "InformationElement")%string
                       && IsInformationElement field then Ok digest
               else
                 let digest := hash_Write digest (string_bytes (Name field)) in
                 hashValue digest)
            (Ok digest) fields
  | _ =>
      Panic "digitaltwin: reflection-based content-address supports only structs"
  end
with fieldValue (digest : hash_Hash) (field : StructField) (value : rvalue)
    {struct value} : result hash_Hash :=
  match ContentAddresser (methods_of value) with
  | Some r =>
      written ← wrapErr ("content-addresser field " +:+ Name field) r;
      Ok (hash_Write digest written)
  | None =>
  match BinaryMarshaler (methods_of value) with
  | Some r =>
      b ← wrapErr ("binary field " +:+ Name field) r;
      Ok (hash_Write digest b)
  | None =>
  match value with
  | RV _ (KInterface None) => Ok digest
  | RV _ s =>
      (* unpack interfaces to their underlying values *)
      let s := match s with KInterface (Some (RV _ s')) => s' | _ => s end in
      (* unpack pointers to their underlying values (including nil pointers) *)
      let s := match s with
               | KPtr _ (Some pointee) => pointee
               | KPtr zero None => zero
               | _ => s
               end in
      match s with
      | KStruct _ =>
          wrapErr ("struct field " +:+ Name field) (reflectiveContentAddress digest s)
      | KString str => Ok (hash_Write digest (string_bytes str))
      | KInt z => Ok (hash_Write digest (PutVarint z))
      | KUint n => Ok (hash_Write digest (PutUvarint n))
      | KFixed x => Ok (hash_Write digest (binary_Write x))
      | KSeq xs => writeElems digest field xs
      | KInterface _ | KPtr _ _ | KOther _ =>
          Err (Error ("field " +:+ Name field +:+ ": unsupported"))
      end
  end
  end
  end.

(** ** ContentAddress *)

(** A [Value]: a non-nil interface value, with the package path and name
    of its dynamic type ([reflect.TypeOf(node)]). *)
Record Value := MkValue {
  PkgPath : string;
  TypeName : string;
  reflected : rvalue;     (* reflect.ValueOf(node) *)
}.

Definition newNodeHash (node : Value) : hash_Hash :=
  let h : hash_Hash := [] in
  let h := hash_Write h (string_bytes (PkgPath node)) in
  let h := hash_Write h (string_bytes (TypeName node)) in
  h.

Definition ContentAddress (node : Value) : result NodeHash :=
  let h := newNodeHash node in
  match ContentAddresser (methods_of (reflected node)) with
  | Some r =>
      written ← r;
      Ok (sha1_Sum (hash_Write h written))
  | None =>
      h ← reflectiveContentAddress h (shape_of (reflected node));
      Ok (sha1_Sum h)
  end.

Definition MustContentAddress (node : Value) : result NodeHash :=
  match ContentAddress node with
  | Err _ => Panic "digitaltwin: un-hashable node"
  | r => r
  end.

(** ** The Go heap

    Slices and maps are references: two slice headers may share a backing
    array, and a struct copied by value still points at the same arrays and
    maps.  Every object that the assembly builder and AssemblyGraph reach
    through a reference lives in a heap indexed by addresses. *)

Abbreviation loc := positive.

(** A slice header: nil, or a backing array and a length (the slices of
    this code all start at index 0 of their array; the capacity is the
    length of the array). *)
Inductive slice : Type :=
| nil_slice
| Slice (array : loc) (len : nat).

(** [AssemblyBuilder] (the struct itself; methods take its address). *)
Record AssemblyBuilder := Builder {
  roots : slice;                 (* []NodeHash *)
  nodes : option loc;            (* map[NodeHash]Value, None = nil *)
  neighbours : option loc;       (* map[NodeHash]map[NodeHash]struct{} *)
  addr : option loc;             (* *AssemblyBuilder, of receiver *)
}.
Definition zeroBuilder : AssemblyBuilder := Builder nil_slice None None None.

Inductive object : Type :=
| OBuilder (b : AssemblyBuilder)
| OArray (xs : list NodeHash)               (* backing array of a []NodeHash *)
| ONodes (m : gmap NodeHash Value)          (* map[NodeHash]Value *)
| OEdgeSets (m : gmap NodeHash loc)         (* map[NodeHash]map[NodeHash]struct{} *)
| OEdgeSet (s : gset NodeHash)              (* map[NodeHash]struct{} *)
| OAdjacency (m : gmap NodeHash slice).     (* map[NodeHash][]NodeHash *)

Abbreviation heap := (gmap loc object).

(** Code that reads and writes the heap and may panic.  After a panic
    the heap is the one the panic left behind. *)
Definition Go (A : Type) : Type := heap → result A * heap.

Definition go_ret {A} (a : A) : Go A := λ h, (Ok a, h).
Definition go_bind {A B} (c : Go A) (k : A → Go B) : Go B :=
  λ h, match c h with
       | (Ok a, h') => k a h'
       | (Err e, h') => (Err e, h')
       | (Panic msg, h') => (Panic msg, h')
       end.
#[global] Instance Go_ret : MRet Go := @go_ret.
#[global] Instance Go_bind : MBind Go := λ A B k c, go_bind c k.

Definition panic {A} (msg : string) : Go A := λ h, (Panic msg, h).
Definition lift {A} (r : result A) : Go A := λ h, (r, h).

(** [new]/[make]: a fresh address. *)
Definition alloc (o : object) : Go loc :=
  λ h, let l := fresh (dom h) in (Ok l, <[l := o]> h).
Definition load (l : loc) : Go object :=
  λ h, match h !! l with
       | Some o => (Ok o, h)
       | None => (Panic "invalid memory address", h)
       end.
Definition store (l : loc) (o : object) : Go unit :=
  λ h, match h !! l with
       | Some _ => (Ok (), <[l := o]> h)
       | None => (Panic "invalid memory address", h)
       end.

(** Typed loads; Go's types rule the failing cases out. *)
Definition load_builder (b : loc) : Go AssemblyBuilder :=
  o ← load b; match o with OBuilder x => mret x | _ => panic "type confusion" end.
Definition load_array (l : loc) : Go (list NodeHash) :=
  o ← load l; match o with OArray xs => mret xs | _ => panic "type confusion" end.
Definition load_nodes (l : loc) : Go (gmap NodeHash Value) :=
  o ← load l; match o with ONodes m => mret m | _ => panic "type confusion" end.
Definition load_edgesets (l : loc) : Go (gmap NodeHash loc) :=
  o ← load l; match o with OEdgeSets m => mret m | _ => panic "type confusion" end.
Definition load_edgeset (l : loc) : Go (gset NodeHash) :=
  o ← load l; match o with OEdgeSet s => mret s | _ => panic "type confusion" end.
Definition load_adjacency (l : loc) : Go (gmap NodeHash slice) :=
  o ← load l; match o with OAdjacency m => mret m | _ => panic "type confusion" end.

(** [for _, x := range xs { body }] *)
Fixpoint go_for {A} (xs : list A) (body : A → Go unit) : Go unit :=
  match xs with
  | [] => mret ()
  | x :: xs' => body x;; go_for xs' body
  end.

(** *** Slices *)

Definition slice_len (s : slice) : nat :=
  match s with nil_slice => 0 | Slice _ n => n end.

(** The elements of a slice. *)
Definition slice_read (s : slice) : Go (list NodeHash) :=
  match s with
  | nil_slice => mret []
  | Slice a n => xs ← load_array a; mret (take n xs)
  end.

(** [s[i] = x] *)
Definition slice_set (s : slice) (i : nat) (x : NodeHash) : Go unit :=
  match s with
  | nil_slice => panic "index out of range"
  | Slice a n =>
      if decide (i < n)%nat
      then xs ← load_array a; store a (OArray (<[i := x]> xs))
      else panic "index out of range"
  end.

(** [make([]NodeHash, n, cap)] *)
Definition make_slice (n cap : nat) : Go slice :=
  a ← alloc (OArray (replicate cap zeroAddress)); mret (Slice a n).

(** [append(s, x)]: in place while the capacity lasts, else into a new,
    larger array. *)
Definition append (s : slice) (x : NodeHash) : Go slice :=
  match s with
  | nil_slice => a ← alloc (OArray [x]); mret (Slice a 1)
  | Slice a n =>
      xs ← load_array a;
      if decide (n < length xs)%nat
      then store a (OArray (<[n := x]> xs));; mret (Slice a (S n))
      else a' ← alloc (OArray (take n xs ++ [x])); mret (Slice a' (S n))
  end.

(** [sort.Slice(s, less)] on hashes: sorts the elements of [s] inside
    their backing array. *)
Definition sort_in_place (s : slice) : Go unit :=
  match s with
  | nil_slice => mret ()
  | Slice a n =>
      xs ← load_array a;
      store a (OArray (sort_Slice hash_less (take n xs) ++ drop n xs))
  end.

(** ** AssemblyBuilder

    The methods have pointer receivers: [b] is the address of the builder. *)

Definition copyCheck (b : loc) : Go unit :=
  x ← load_builder b;
  match addr x with
  | None =>
      store b (OBuilder (Builder (roots x) (nodes x) (neighbours x) (Some b)))
  | Some a =>
      if decide (a ≠ b)
      then panic "digitaltwin: illegal use of non-zero AssemblyBuilder copied by value"
      else mret ()
  end.

(** [len(m)] of a map reference. *)
Definition len_nodes (m : option loc) : Go nat :=
  match m with
  | None => mret 0%nat
  | Some l => m ← load_nodes l; mret (size m)
  end.
Definition len_edgesets (m : option loc) : Go nat :=
  match m with
  | None => mret 0%nat
  | Some l => m ← load_edgesets l; mret (size m)
  end.

(** [m[id] = n] on a map[NodeHash]Value reference. *)
Definition nodes_set (m : option loc) (id : NodeHash) (n : Value) : Go unit :=
  match m with
  | None => panic "assignment to entry in nil map"
  | Some l => m ← load_nodes l; store l (ONodes (<[id := n]> m))
  end.

Definition Nodes (b : loc) (node : list Value) : Go unit :=
  copyCheck b;;
  x ← load_builder b;
  (if nodes x is None
   then l ← alloc (ONodes ∅);
        store b (OBuilder (Builder (roots x) (Some l) (neighbours x) (addr x)))
   else mret ());;
  go_for node (λ n,
    id ← lift (MustContentAddress n);
    x ← load_builder b;
    nodes_set (nodes x) id n).

Definition Connect (b : loc) (source target : Value) : Go unit :=
  copyCheck b;;
  Nodes b [source; target];;
  from ← lift (MustContentAddress source);
  to ← lift (MustContentAddress target);
  x ← load_builder b;
  (if neighbours x is None
   then l ← alloc (OEdgeSets ∅);
        store b (OBuilder (Builder (roots x) (nodes x) (Some l) (addr x)))
   else mret ());;
  x ← load_builder b;
  match neighbours x with
  | None => panic "assignment to entry in nil map"
  | Some l =>
      outer ← load_edgesets l;
      (if outer !! from is None
       then s ← alloc (OEdgeSet ∅); store l (OEdgeSets (<[from := s]> outer))
       else mret ());;
      outer ← load_edgesets l;
      match outer !! from with
      | None => panic "assignment to entry in nil map"
      | Some s => inner ← load_edgeset s; store s (OEdgeSet ({[to]} ∪ inner))
      end
  end.

Definition Roots (b : loc) (root : list Value) : Go unit :=
  copyCheck b;;
  Nodes b root;;
  x ← load_builder b;
  (if decide (length root < slice_len (roots x))%nat
   then
     match roots x with
     | nil_slice => panic "slice bounds out of range"
     | Slice a _ =>
         store b (OBuilder (Builder (Slice a (length root)) (nodes x)
                                    (neighbours x) (addr x)))
     end
   else
     s ← make_slice (length root) (length root);
     store b (OBuilder (Builder s (nodes x) (neighbours x) (addr x))));;
  go_for (imap (λ i n, (i, n)) root) (λ '(i, n),
    id ← lift (MustContentAddress n);
    x ← load_builder b;
    slice_set (roots x) i id).

Definition Reset (b : loc) : Go unit :=
  _ ← load_builder b;
  store b (OBuilder (Builder nil_slice None None None)).

Definition hintNodes (b : loc) (n : nat) : Go unit :=
  x ← load_builder b;
  l ← alloc (ONodes ∅);
  old ← match nodes x with None => mret ∅ | Some l0 => load_nodes l0 end;
  go_for (range_map old) (λ '(k, v), nodes_set (Some l) k v);;
  store b (OBuilder (Builder (roots x) (Some l) (neighbours x) (addr x))).

Definition Hint (b : loc) (n e : Z) : Go unit :=
  copyCheck b;;
  (if (n <? 0)%Z then panic "digitaltwin.AssemblyBuilder.Grow: negative node count"
   else mret ());;
  x ← load_builder b;
  k ← len_nodes (nodes x);
  (if (Z.of_nat k <? n)%Z then hintNodes b (Z.to_nat n) else mret ());;
  (if (e <? 0)%Z then panic "digitaltwin.AssemblyBuilder.Grow: negative edge count"
   else mret ()).

(** ** AssemblyGraph *)

(** The struct: a slice header and two map references. *)
Record AssemblyGraph := Graph {
  Root : slice;                    (* []NodeHash *)
  Vertices : option loc;           (* map[NodeHash]Value *)
  Neighbours : option loc;         (* map[NodeHash][]NodeHash *)
}.

(** [g.Neighbours[id] = s] *)
Definition adjacency_set (m : loc) (id : NodeHash) (s : slice) : Go unit :=
  adj ← load_adjacency m; store m (OAdjacency (<[id := s]> adj)).
(** [g.Neighbours[id]]: the nil slice when absent (or when the map is nil). *)
Definition adjacency_get (m : option loc) (id : NodeHash) : Go slice :=
  match m with
  | None => mret nil_slice
  | Some l => adj ← load_adjacency l; mret (default nil_slice (adj !! id))
  end.

Definition Assemble (b : loc) : Go AssemblyGraph :=
  x ← load_builder b;
  (* copy roots slice to allow further modifications to the builder *)
  gRoot ← (if decide (slice_len (roots x) ≠ 0)%nat
           then s ← make_slice (slice_len (roots x)) (slice_len (roots x));
                xs ← slice_read (roots x);
                go_for (imap (λ i r, (i, r)) xs) (λ '(i, r), slice_set s i r);;
                mret s
           else mret nil_slice);
  (* copy nodes map to allow further modifications to the builder *)
  k ← len_nodes (nodes x);
  gVertices ← (if decide (k ≠ 0)%nat
               then l ← alloc (ONodes ∅);
                    m ← match nodes x with None => mret ∅ | Some l0 => load_nodes l0 end;
                    go_for (range_map m) (λ '(id, n), nodes_set (Some l) id n);;
                    mret (Some l)
               else mret None);
  (* copy edges map to allow further modifications to the builder *)
  k ← len_edgesets (neighbours x);
  gNeighbours ← (if decide (k ≠ 0)%nat
                 then l ← alloc (OAdjacency ∅);
                      outer ← match neighbours x with
                              | None => mret ∅
                              | Some l0 => load_edgesets l0
                              end;
                      go_for (range_map outer) (λ '(id, set),
                        inner ← load_edgeset set;
                        s ← make_slice 0 (size inner);
                        adjacency_set l id s;;
                        go_for (elements inner) (λ n,
                          s ← adjacency_get (Some l) id;
                          s ← append s n;
                          adjacency_set l id s));;
                      mret (Some l)
                 else mret None);
  mret (Graph gRoot gVertices gNeighbours).

(** [Roots()] returns the slice header itself; its elements are read
    through the heap. *)
Definition AssemblyGraph_Roots (a : AssemblyGraph) : slice := Root a.
Definition AssemblyGraph_Nodes (a : AssemblyGraph) : option loc := Vertices a.
Definition AssemblyGraph_Value (a : AssemblyGraph) (n : NodeHash) : Go (option Value) :=
  match Vertices a with
  | None => mret None
  | Some l => m ← load_nodes l; mret (m !! n)
  end.
Definition AssemblyGraph_EdgesOf (a : AssemblyGraph) (n : NodeHash) : Go slice :=
  adjacency_get (Neighbours a) n.

(** [AssemblyID]: the receiver is a copy of the struct, whose [Root]
    shares its backing array with the original. *)
Definition AssemblyID (a : AssemblyGraph) : Go ComponentID :=
  let h : hash_Hash := [] in
  (* sort lexicographically to achieve consistency *)
  sort_in_place (Root a);;
  (* hash root nodes in sorted order *)
  rs ← slice_read (Root a);
  let h := foldl (λ h r, hash_Write h r) h rs in
  mret (sha1_Sum h).

Definition AssemblyHash (a : AssemblyGraph) : Go ComponentHash :=
  let h : hash_Hash := [] in
  (* don't forget to hash the ID (roots) *)
  id ← AssemblyID a;
  let h := hash_Write h id in
  (* sort nodes lexicographically *)
  vs ← match Vertices a with None => mret ∅ | Some l => load_nodes l end;
  let nodes := foldl (λ nodes n, nodes ++ [n]) [] (range_keys vs) in
  let nodes := sort_Slice hash_less nodes in
  (* hash nodes in sorted order, then hash their sorted neighbours *)
  h ← foldl (λ (acc : Go hash_Hash) from,
               h ← acc;
               let h := hash_Write h from in
               neighbours ← adjacency_get (Neighbours a) from;
               sort_in_place neighbours;;
               ns ← slice_read neighbours;
               mret (foldl (λ h to, hash_Write h to) h ns))
            (mret h) nodes;
  mret (sha1_Sum h).

(** ** Assemblies as the engine sees them

    [digitaltwin.Assembly] is an interface.  The change engine calls three
    of its methods, [AssemblyID], [AssemblyHash] and [Roots] (for its
    length); an interface value is modelled by what those calls return. *)
Record Assembly := MkAssembly {
  Assembly_AssemblyID : ComponentID;
  Assembly_AssemblyHash : ComponentHash;
  Assembly_Roots : list NodeHash;
}.

(** The messages of a changeset.  [AssemblyCreated] and [AssemblyUpdated]
    embed the interface, which may be nil. *)
Record AssemblyCreated := MkCreated {
  created_Assembly : option Assembly;
}.
Record AssemblyUpdated := MkUpdated {
  Baseline : ComponentHash;
  updated_Assembly : option Assembly;
}.
Record AssemblyRemoved := MkRemoved {
  removed_ID : ComponentID;
  removed_Hash : ComponentHash;
}.
Record GraphChanged := MkGraphChanged {
  GraphBefore : ForestHash;
  Created : list AssemblyCreated;
  Updated : list AssemblyUpdated;
  Removed : list AssemblyRemoved;
  GraphAfter : ForestHash;
  Timestamp : Z;
}.
Definition zeroGraphChanged : GraphChanged :=
  MkGraphChanged zeroAddress [] [] [] zeroAddress 0.

(** A method call through an embedded interface panics when it is nil. *)
Definition call_AssemblyID (a : option Assembly) : result ComponentID :=
  match a with
  | Some a => Ok (Assembly_AssemblyID a)
  | None => Panic "invalid memory address or nil pointer dereference"
  end.
Definition call_AssemblyHash (a : option Assembly) : result ComponentHash :=
  match a with
  | Some a => Ok (Assembly_AssemblyHash a)
  | None => Panic "invalid memory address or nil pointer dereference"
  end.

(** ** The change engine (package neo4jengine) *)

Module neo4jengine.

(** [RawNode]; the field [ContentAddress] is [Address] here. *)
Record RawNode := MkRawNode {
  Label : string;
  Address : NodeHash;
  Props : list (string * string);
  Metadata : list (string * string);
}.

Abbreviation snapshot := (gmap ComponentID ComponentHash).

Definition GraphHash (s : snapshot) : ForestHash := HashComponents s.

Definition ContainsAssembly (s : snapshot) (a : Assembly) : bool :=
  match s !! Assembly_AssemblyID a with
  | Some hash => bool_decide (hash = Assembly_AssemblyHash a)
  | None => false
  end.

(** [PartialDiff], with the order of [for id, newHash := range partial]
    given. *)
Definition PartialDiffIn (order : list (ComponentID * ComponentHash))
    (s partial : snapshot) (dirtyRoots : list ComponentID)
  : list ComponentID * list ComponentID * list ComponentID :=
  let '(created, updated) :=
    foldl (λ '(created, updated) '(id, newHash),
             match s !! id with
             | None => (created ++ [id], updated)
             | Some oldHash =>
                 if decide (oldHash ≠ newHash) then (created, updated ++ [id])
                 else (created, updated)
             end)
          ([], []) order in
  let removed :=
    foldl (λ removed id,
             let wasRoot := bool_decide (is_Some (s !! id)) in
             let nowRoot := bool_decide (is_Some (partial !! id)) in
             if negb nowRoot && wasRoot then removed ++ [id] else removed)
          [] dirtyRoots in
  (created, updated, removed).

Definition PartialDiff (s partial : snapshot) (dirtyRoots : list ComponentID) :=
  PartialDiffIn (range_map partial) s partial dirtyRoots.

(** [Update] writes into the map [s]; it panics when a created or updated
    entry holds a nil assembly. *)
Definition Update (s : snapshot) (changes : GraphChanged) : result snapshot :=
  s ← foldl (λ (acc : result snapshot) created,
               s ← acc;
               id ← call_AssemblyID (created_Assembly created);
               hash ← call_AssemblyHash (created_Assembly created);
               Ok (<[id := hash]> s))
            (Ok s) (Created changes);
  s ← foldl (λ (acc : result snapshot) updated,
               s ← acc;
               id ← call_AssemblyID (updated_Assembly updated);
               hash ← call_AssemblyHash (updated_Assembly updated);
               Ok (<[id := hash]> s))
            (Ok s) (Updated changes);
  Ok (foldl (λ s removed, delete (removed_ID removed) s) s (Removed changes)).

(** A transaction of the database, as [work] uses it.  For the query of
    one taint ([tx.Run], the loop over [result.Next] with
    [safelyParseAssembly], then [result.Err]) it gives the assemblies
    parsed from the records, in order, and how the iteration ended: [Ok]
    when the cursor was exhausted, the error that [work] returns (of
    [tx.Run], with no record, of parsing, or of the cursor, wrapped as
    [work] wraps it), or the panic of [safelyParseAssembly]. *)
Abbreviation transaction := (RawNode → list Assembly * result unit).

(** [s.ExecuteRead(ctx, work)] is the managed transaction of the neo4j
    driver, which is not part of the repository.  A session is given by
    what it does when asked to run [work]: it fails without opening a
    transaction, or it opens one, runs [work] in it and commits; when
    [work] returns an error or the commit fails, it returns that error or
    tries again, as [retry] says. *)
Inductive session : Type :=
| Unavailable (err : error)
| Transaction (tx : transaction) (commit : option error) (retry : option session).

Fixpoint ExecuteRead (s : session)
    (work : transaction → list Assembly → result unit * list Assembly)
    (assemblies : list Assembly) : result unit * list Assembly :=
  match s with
  | Unavailable err => (Err err, assemblies)
  | Transaction tx commit retry =>
      let again (err : error) (assemblies : list Assembly) :=
        match retry with
        | Some s => ExecuteRead s work assemblies
        | None => (Err err, assemblies)
        end in
      match work tx assemblies with
      | (Ok _, assemblies) =>
          match commit with
          | None => (Ok (), assemblies)
          | Some err => again err assemblies
          end
      | (Err err, assemblies) => again err assemblies
      | (Panic msg, assemblies) => (Panic msg, assemblies)
      end
  end.

(** Everything outside the process: the session that
    fetchTaintedAssemblies opens on the graph database, the node
    registry's decoder, and the clock. *)
Record Backend := MkBackend {
  read_session : session;
  decode : RawNode → result Value;     (* registry look-up and parseProperties *)
  now : Z;                             (* time.Now().UTC() *)
}.

(** [ParseNode], from the decoded value on: the defensive re-hash. *)
Definition ParseNode (env : Backend) (n : RawNode) : result Value :=
  v ← decode env n;
  h ← wrapErr "content address" (ContentAddress v);
  if decide (h ≠ Address n)
  then Err (Error "defensive: content address mismatch")
  else Ok v.

(** [componentID]: a fresh builder with the node as its only root. *)
Definition componentID (env : Backend) (taint : RawNode) : result ComponentID :=
  v ← wrapErr "parse taint" (ParseNode env taint);
  fst ((b ← alloc (OBuilder zeroBuilder);
        Roots b [v];;
        g ← Assemble b;
        AssemblyID g) ∅).

(** The engine: its snapshot and its taint set ([nodeMap.m], nil or a
    map).  The driver, the database name and the mutexes are left out. *)
Record Engine := MkEngine {
  engine_snapshot : snapshot;
  taintedNodes : option (gmap NodeHash RawNode);
}.

Definition Taint (nodes : list RawNode) (e : Engine) : Engine :=
  let m := default ∅ (taintedNodes e) in
  MkEngine (engine_snapshot e)
           (Some (foldl (λ m node, <[Address node := node]> m) m nodes)).

Definition ClearTaints (e : Engine) : list RawNode * Engine :=
  match taintedNodes e with
  | None => ([], e)
  | Some m =>
      let nodes := foldl (λ nodes kv, nodes ++ [kv.2]) [] (range_map m) in
      (nodes, MkEngine (engine_snapshot e) None)
  end.

(** The body of the loop over the records of one query: an assembly is
    kept the first time its id is seen; seeing the id again with another
    hash is a panic.  [assemblies] is the named result of
    fetchPartialAssemblies, which [work] appends to; [seen] is the map of
    the running [work], or the failure that ended it. *)
Definition collectAssembly (acc : result snapshot * list Assembly) (a : Assembly)
  : result snapshot * list Assembly :=
  match acc with
  | (Ok seen, assemblies) =>
      let id := Assembly_AssemblyID a in
      match seen !! id with
      | None => (Ok (<[id := Assembly_AssemblyHash a]> seen), assemblies ++ [a])
      | Some h =>
          if decide (h ≠ Assembly_AssemblyHash a)
          then (Panic "seek developer attention: a neo4j transaction isolation was violated",
                assemblies)
          else (Ok seen, assemblies)
      end
  | failed => failed
  end.

(** The closure [work] of fetchPartialAssemblies: [seen] is made anew
    each time it is called, [assemblies] is what the enclosing function
    holds at that time. *)
Definition work (taints : list RawNode) (tx : transaction) (assemblies : list Assembly)
  : result unit * list Assembly :=
  let '(seen, assemblies) :=
    foldl (λ (acc : result snapshot * list Assembly) taint,
             match acc with
             | (Ok seen, assemblies) =>
                 let '(records, ended) := tx taint in
                 match foldl collectAssembly (Ok seen, assemblies) records with
                 | (Ok seen, assemblies) =>
                     match ended with
                     | Ok _ => (Ok seen, assemblies)
                     | Err err => (Err err, assemblies)
                     | Panic msg => (Panic msg, assemblies)
                     end
                 | failed => failed
                 end
             | failed => failed
             end)
          (Ok ∅, assemblies) taints in
  (seen ≫= λ _, Ok (), assemblies).

Definition fetchPartialAssemblies (env : Backend) (taints : list RawNode)
  : result (list Assembly) :=
  match ExecuteRead (read_session env) (work taints) [] with
  | (Ok _, assemblies) => Ok assemblies
  | (Err err, _) => Err (Wrap "execute read" err)
  | (Panic msg, _) => Panic msg
  end.

Definition fetchTaintedAssemblies (env : Backend) (e : Engine)
  : result (list RawNode * list Assembly) * Engine :=
  let '(taints, e) := ClearTaints e in
  match fetchPartialAssemblies env taints with
  | Ok assemblies => (Ok (taints, assemblies), e)
  | Err err => (Err err, e)
  | Panic msg => (Panic msg, e)
  end.

Definition errFoundRootlessAssemblies : error :=
  Error "found rootless assemblies while sweeping the graph".

(** [WhatChanged]: what it returns (the changeset and the error, or a
    panic) and the engine afterwards. *)
Definition WhatChanged (env : Backend) (e : Engine)
  : result (GraphChanged * option error) * Engine :=
  let '(fetched, e) := fetchTaintedAssemblies env e in
  match fetched with
  | Panic msg => (Panic msg, e)
  | Err err => (Ok (zeroGraphChanged, Some (Wrap "fetch tainted assemblies" err)), e)
  | Ok (taints, assemblies) =>
      let '(next, changedAssemblies, rootlessAssemblies) :=
        foldl (λ '(next, changedAssemblies, rootlessAssemblies) a,
                 let next : snapshot :=
                   <[Assembly_AssemblyID a := Assembly_AssemblyHash a]> next in
                 let changedAssemblies : gmap ComponentID Assembly :=
                   if negb (ContainsAssembly (engine_snapshot e) a)
                   then <[Assembly_AssemblyID a := a]> changedAssemblies
                   else changedAssemblies in
                 let rootlessAssemblies :=
                   if decide (length (Assembly_Roots a) = 0)%nat
                   then S rootlessAssemblies else rootlessAssemblies in
                 (next, changedAssemblies, rootlessAssemblies))
              (∅, ∅, 0%nat) assemblies in
      let dirtyRoots :=
        foldl (λ (acc : result (list ComponentID)) n,
                 dirtyRoots ← acc;
                 id ← wrapErr "component from" (componentID env n);
                 Ok (dirtyRoots ++ [id]))
              (Ok []) taints in
      match dirtyRoots with
      | Panic msg => (Panic msg, e)
      | Err err => (Ok (zeroGraphChanged, Some err), e)
      | Ok dirtyRoots =>
          let s := engine_snapshot e in
          let '(created, updated, removed) := PartialDiff s next dirtyRoots in
          let changes :=
            MkGraphChanged
              (GraphHash s)
              ((λ id, MkCreated (changedAssemblies !! id)) <$> created)
              ((λ id, MkUpdated (map_index s id) (changedAssemblies !! id)) <$> updated)
              ((λ id, MkRemoved id (map_index s id)) <$> removed)
              zeroAddress
              (now env) in
          if decide (0 < rootlessAssemblies)%nat
          then (Ok (changes, Some errFoundRootlessAssemblies), e)
          else
            match Update s changes with
            | Panic msg => (Panic msg, e)
            | Err err => (Err err, e)
            | Ok s' =>
                let e := MkEngine s' (taintedNodes e) in
                let changes :=
                  MkGraphChanged (GraphBefore changes) (Created changes)
                                 (Updated changes) (Removed changes)
                                 (GraphHash (engine_snapshot e)) (Timestamp changes) in
                (Ok (changes, None), e)
            end
      end
  end.

End neo4jengine.

(** ** Relationship assertions (package assert) *)

Module assert.

(** A [reflect.Type], by package path and name. *)
Abbreviation GoType := (string * string)%type.
Definition TypeOf (v : Value) : GoType := (PkgPath v, TypeName v).

(** What a call of a writer method does: it returns its results, the
    last of them an [error] (nil or not), or it panics. *)
Inductive returns (A : Type) : Type :=
| Return (a : A) (err : option error)
| Panicked (msg : string).
Arguments Return {A} a err.
Arguments Panicked {A} msg.

(** [digitaltwin.GraphWriter] over a writer with state [W], together
    with the optional interfaces of this package a writer may implement
    ([None] when it does not). *)
Class GraphWriter (W : Type) := {
  AssertNode : Value → W → returns unit * W;
  RetractNode : Value → W → returns unit * W;
  AssertEdge : Value → Value → W → returns unit * W;
  RetractEdges : Value → GoType → W → returns Z * W;
  AssertOneToOne : option (Value → Value → W → returns unit * W);
  AssertOneToMany : option (Value → Value → W → returns unit * W);
  AssertManyToOne : option (Value → Value → W → returns unit * W);
  AssertManyToMany : option (Value → Value → W → returns unit * W);
}.

Definition graphIntegrityMessage (relationship direction : string)
    (affectedEdges : Z) : string :=
  "inconsistent graph detected: relationship " +:+ relationship +:+
  " was violated with " +:+ pretty affectedEdges +:+ " affected edges " +:+ direction.

Definition newGraphIntegrityError (relationship direction : string)
    (affectedEdges : Z) : result error :=
  if bool_decide (relationship ∈ ["one-to-one"; "one-to-many"; "many-to-one"])
  then
    if bool_decide (direction ∈ ["from source"; "to target"])
    then Ok (Error (graphIntegrityMessage relationship direction affectedEdges))
    else Panic ("github.com/go-digitaltwin/go-digitaltwin/assert: unknown direction: "
                +:+ direction)
  else Panic ("github.com/go-digitaltwin/go-digitaltwin/assert: unknown relationship: "
              +:+ relationship).

Fixpoint error_string (e : error) : string :=
  match e with
  | Error msg => msg
  | Wrap context cause => context +:+ ": " +:+ error_string cause
  end.

(** [panic(newGraphIntegrityError(...))] *)
Definition panicIntegrity {A} (relationship direction : string) (affectedEdges : Z)
  : returns A :=
  match newGraphIntegrityError relationship direction affectedEdges with
  | Ok err => Panicked (error_string err)
  | Err err => Panicked (error_string err)
  | Panic msg => Panicked msg
  end.

(** [err = a.AssertEdge(ctx, source, target); if err != nil { return
    fmt.Errorf("assert edge: %w", err) }; return nil] *)
Definition assertEdge `{GraphWriter W} (source target : Value) (w : W)
  : returns unit * W :=
  match AssertEdge source target w with
  | (Return _ (Some err), w) => (Return () (Some (Wrap "assert edge" err)), w)
  | (Return _ None, w) => (Return () None, w)
  | (Panicked msg, w) => (Panicked msg, w)
  end.

Definition OneToOne `{GraphWriter W} (source target : Value) (w : W)
  : returns unit * W :=
  match AssertOneToOne with
  | Some x => x source target w
  | None =>
      match RetractEdges source (TypeOf target) w with
      | (Panicked msg, w) => (Panicked msg, w)
      | (Return _ (Some err), w) => (Return () (Some (Wrap "retract edges from" err)), w)
      | (Return edgesFrom None, w) =>
          if (1 <? edgesFrom)%Z
          then (panicIntegrity "one-to-one" "from source" edgesFrom, w)
          else
            match RetractEdges target (TypeOf source) w with
            | (Panicked msg, w) => (Panicked msg, w)
            | (Return _ (Some err), w) =>
                (Return () (Some (Wrap "retract edges to" err)), w)
            | (Return edgesTo None, w) =>
                if (1 <? edgesTo)%Z
                then (panicIntegrity "one-to-one" "to target" edgesTo, w)
                else assertEdge source target w
            end
      end
  end.

Definition OneToMany `{GraphWriter W} (source target : Value) (w : W)
  : returns unit * W :=
  match AssertOneToMany with
  | Some x => x source target w
  | None =>
      match RetractEdges target (TypeOf source) w with
      | (Panicked msg, w) => (Panicked msg, w)
      | (Return _ (Some err), w) => (Return () (Some (Wrap "retract edges to" err)), w)
      | (Return edgesTo None, w) =>
          if (1 <? edgesTo)%Z
          then (panicIntegrity "one-to-many" "to target" edgesTo, w)
          else assertEdge source target w
      end
  end.

Definition ManyToOne `{GraphWriter W} (source target : Value) (w : W)
  : returns unit * W :=
  match AssertManyToOne with
  | Some x => x source target w
  | None =>
      match RetractEdges source (TypeOf target) w with
      | (Panicked msg, w) => (Panicked msg, w)
      | (Return _ (Some err), w) => (Return () (Some (Wrap "retract edges from" err)), w)
      | (Return edgesFrom None, w) =>
          if (1 <? edgesFrom)%Z
          then (panicIntegrity "many-to-one" "from source" edgesFrom, w)
          else assertEdge source target w
      end
  end.

Definition ManyToMany `{GraphWriter W} (source target : Value) (w : W)
  : returns unit * W :=
  match AssertManyToMany with
  | Some x => x source target w
  | None => assertEdge source target w
  end.

(** A writer that records the calls it receives and answers each from a
    script: the answer to a call may depend on the calls before it. *)
Inductive call : Type :=
| CallAssertNode (node : Value)
| CallRetractNode (node : Value)
| CallAssertEdge (from to : Value)
| CallRetractEdges (node : Value) (kind : GoType).

Record scripted := Scripted {
  calls : list call;
  script : list call → call → Z * option error;
}.

Definition answer (c : call) (w : scripted) : Z * option error * scripted :=
  (script w (calls w) c, Scripted (calls w ++ [c]) (script w)).

#[global] Instance scripted_writer : GraphWriter scripted := {
  AssertNode node w :=
    let '(_, err, w) := answer (CallAssertNode node) w in (Return () err, w);
  RetractNode node w :=
    let '(_, err, w) := answer (CallRetractNode node) w in (Return () err, w);
  AssertEdge from to w :=
    let '(_, err, w) := answer (CallAssertEdge from to) w in (Return () err, w);
  RetractEdges node kind w :=
    let '(n, err, w) := answer (CallRetractEdges node kind) w in (Return n err, w);
  AssertOneToOne := None;
  AssertOneToMany := None;
  AssertManyToOne := None;
  AssertManyToMany := None;
}.

End assert.

(** ** Text form of content addresses (contentaddress.go)

    [hex.Decode(dst, src)] of the standard library: pairs of digits are
    decoded in order into [dst[i]]; the loop stops at the first byte that
    is no hex digit; a trailing odd byte is [ErrLength]; writing past the
    end of [dst] is a run-time panic.  The result is what [dst] holds
    when the call ends, the number of bytes written, and how it ended. *)

Definition fromHexChar (c : byte) : option N :=
  let n := Byte.to_N c in
  if (48 <=? n) && (n <=? 57) then Some (n - 48)          (* '0' .. '9' *)
  else if (97 <=? n) && (n <=? 102) then Some (n - 97 + 10)   (* 'a' .. 'f' *)
  else if (65 <=? n) && (n <=? 70) then Some (n - 65 + 10)    (* 'A' .. 'F' *)
  else None.

Definition InvalidByteError (c : byte) : error :=
  Error ("encoding/hex: invalid byte: " +:+ pretty (Byte.to_N c)).
Definition ErrLength : error := Error "encoding/hex: odd length hex string".
Definition ErrUnexpectedEOF : error := Error "unexpected EOF".

Fixpoint hex_Decode (dst : bytes) (i : nat) (src : bytes) : bytes * nat * result unit :=
  match src with
  | [] => (dst, i, Ok ())
  | [p] =>
      match fromHexChar p with
      | None => (dst, i, Err (InvalidByteError p))
      | Some _ => (dst, i, Err ErrLength)
      end
  | p :: q :: rest =>
      match fromHexChar p, fromHexChar q with
      | None, _ => (dst, i, Err (InvalidByteError p))
      | Some _, None => (dst, i, Err (InvalidByteError q))
      | Some a, Some b =>
          if decide (i < length dst)%nat
          then hex_Decode (<[i := byte_of_N (a * 16 + b)]> dst) (S i) rest
          else (dst, i, Panic "index out of range")
      end
  end.

(** [contentAddress.MarshalText]: never fails. *)
Definition MarshalText (h : contentAddress) : bytes :=
  String.list_byte_of_string (hex_Encode h).

(** [UnmarshalText], on a pointer receiver: decodes straight into the
    receiver; the pair is the receiver after the call and the outcome. *)
Definition UnmarshalText (h : contentAddress) (text : bytes)
  : contentAddress * result unit :=
  let '(h, n, r) := hex_Decode h 0 text in
  match r with
  | Err err => (h, Err (Wrap "decode hex" err))
  | Panic msg => (h, Panic msg)
  | Ok _ =>
      if decide (n ≠ 20%nat)
      then (h, Err (Wrap "not enough bytes" ErrUnexpectedEOF))
      else (h, Ok ())
  end.

(** [contentAddress.String] and [IsZero]; the typed hashes wrap the first. *)
Definition contentAddress_String (h : contentAddress) : string := hex_Encode h.
Definition IsZero (h : contentAddress) : bool := bool_decide (h = zeroAddress).
Definition NodeHash_String (h : NodeHash) : string :=
  "node(" +:+ contentAddress_String h +:+ ")".

(** ** Full snapshot diff (package neo4jengine, snapshot.go) *)

Module neo4jengine_snapshot.
Import neo4jengine.

(** [Diff], with the orders of its two range loops given: over [newer]
    and over [s]. *)
Definition DiffIn (order : list (ComponentID * ComponentHash))
    (orderOld : list ComponentID) (s newer : snapshot)
  : list ComponentID * list ComponentID * list ComponentID :=
  let '(created, updated) :=
    foldl (λ '(created, updated) '(id, newHash),
             match s !! id with
             | None => (created ++ [id], updated)
             | Some oldHash =>
                 if decide (oldHash ≠ newHash) then (created, updated ++ [id])
                 else (created, updated)
             end)
          ([], []) order in
  let removed :=
    foldl (λ removed id,
             if bool_decide (is_Some (newer !! id)) then removed else removed ++ [id])
          [] orderOld in
  (created, updated, removed).

Definition Diff (s newer : snapshot) :=
  DiffIn (range_map newer) (range_keys s) s newer.

End neo4jengine_snapshot.

(** ** The node registry (package neo4jengine, noderegistry.go)

    Two [sync.Map]s, from label to Go type and back.  A Go type is told
    by its package path and name. *)

Module noderegistry.

Abbreviation GoType := (string * string)%type.

Record nodeRegistry := MkRegistry {
  mLabelToType : gmap string GoType;
  mTypeToLabel : gmap GoType string;
}.

(** The zero value, as [globalNodeRegistry] starts. *)
Definition emptyRegistry : nodeRegistry := MkRegistry ∅ ∅.

(** [sync.Map.LoadOrStore]: the map afterwards, the value now stored
    under the key, and whether it was there before. *)
Definition LoadOrStore {K} `{Countable K} {V} (m : gmap K V) (key : K) (value : V)
  : gmap K V * V * bool :=
  match m !! key with
  | Some actual => (m, actual, true)
  | None => (<[key := value]> m, value, false)
  end.

Definition RegisterLabel (label : string) (rt : GoType) (r : nodeRegistry)
  : result unit * nodeRegistry :=
  (* Store the label and type provided by the user *)
  let '(labelToType, t, dup) := LoadOrStore (mLabelToType r) label rt in
  if dup && bool_decide (t ≠ rt)
  then (Panic ("digitaltwin/engine: registering duplicate types for " +:+ label),
        MkRegistry labelToType (mTypeToLabel r))
  else
    let '(typeToLabel, l, dup) := LoadOrStore (mTypeToLabel r) rt label in
    if dup && bool_decide (l ≠ label)
    then (* Important to rollback. *)
         (Panic ("digitaltwin/engine: registering duplicate names for " +:+ rt.2),
          MkRegistry (delete label labelToType) typeToLabel)
    else (Ok (), MkRegistry labelToType typeToLabel).

(** [Register(node)]: the name of the type within its package is the label. *)
Definition Register (node : Value) (r : nodeRegistry) : result unit * nodeRegistry :=
  RegisterLabel (TypeName node) (PkgPath node, TypeName node) r.

Definition TypeOf (r : nodeRegistry) (label : string) : option GoType :=
  mLabelToType r !! label.
Definition LabelOf (r : nodeRegistry) (rt : GoType) : option string :=
  mTypeToLabel r !! rt.

(** [KnownLabels]: the labels, in the order the range visits them. *)
Definition KnownLabels (r : nodeRegistry) : list string :=
  foldl (λ labels kv, labels ++ [kv.1]) [] (map_to_list (mLabelToType r)).

(** The registry after a sequence of [RegisterLabel] calls, each of which
    may panic (and be recovered from). *)
Definition registrations (calls : list (string * GoType)) (r : nodeRegistry)
  : nodeRegistry :=
  foldl (λ r c, (RegisterLabel c.1 c.2 r).2) r calls.

End noderegistry.

(** ** Component changes (disassembler.go) and attribute maps
       (attributemap.go) *)

(** A value held in an [Assembly] interface, by its dynamic type: one of
    the three change messages, or any other assembly. *)
Inductive AssemblyValue : Type :=
| OfCreated (c : AssemblyCreated)
| OfUpdated (u : AssemblyUpdated)
| OfRemoved (r : AssemblyRemoved)
| OfAssembly (a : Assembly).

(** [AssemblyID()] through the interface: the change messages pass the
    call on to the assembly they embed (a panic when it is nil);
    [AssemblyRemoved] answers with its own [ID]. *)
Definition AssemblyValue_AssemblyID (v : AssemblyValue) : result ComponentID :=
  match v with
  | OfCreated c => call_AssemblyID (created_Assembly c)
  | OfUpdated u => call_AssemblyID (updated_Assembly u)
  | OfRemoved r => Ok (removed_ID r)
  | OfAssembly a => Ok (Assembly_AssemblyID a)
  end.

Record ComponentChanged := MkComponentChanged {
  changed_Assembly : option AssemblyValue;   (* the embedded interface *)
  changed_GraphHash : ForestHash;
  changed_Timestamp : Z;
}.

Definition IsCreated (c : ComponentChanged) : bool :=
  match changed_Assembly c with Some (OfCreated _) => true | _ => false end.
Definition IsUpdated (c : ComponentChanged) : bool :=
  match changed_Assembly c with Some (OfUpdated _) => true | _ => false end.
Definition IsRemoved (c : ComponentChanged) : bool :=
  match changed_Assembly c with Some (OfRemoved _) => true | _ => false end.

(** [GraphChanged.IsEmpty] *)
Definition IsEmpty (c : GraphChanged) : bool :=
  bool_decide (GraphAfter c = GraphBefore c).

Definition disassembleGraph (graph : GraphChanged) : list ComponentChanged :=
  let changes := [] in
  let changes :=
    foldl (λ changes c,
             changes ++ [MkComponentChanged (Some (OfCreated c))
                                            (GraphAfter graph) (Timestamp graph)])
          changes (Created graph) in
  let changes :=
    foldl (λ changes c,
             changes ++ [MkComponentChanged (Some (OfUpdated c))
                                            (GraphAfter graph) (Timestamp graph)])
          changes (Updated graph) in
  let changes :=
    foldl (λ changes c,
             changes ++ [MkComponentChanged (Some (OfRemoved c))
                                            (GraphAfter graph) (Timestamp graph)])
          changes (Removed graph) in
  changes.

(** What [handleMessage] sends for a decoded message: nothing for an
    empty changeset, else one notification per component change (they
    are sent concurrently; the list is the set of them). *)
Definition notifications (changed : GraphChanged) : list ComponentChanged :=
  if IsEmpty changed then [] else disassembleGraph changed.

(** *** AttributeMap *)

Section AttributeMap.
Context {V : Type}.

(** An [AttributeFunc]: the value and whether it is valid; the function
    is the caller's and may panic. *)
Definition AttributeFunc := AssemblyValue → result (V * bool).

Record AttributeMap := MkAttributeMap {
  attr_m : gmap ComponentID V;
  attributeOf : AttributeFunc;
}.

(** [NewAttributeMap]: the entries of [m] (nil or not) are copied. *)
Definition NewAttributeMap (attr : AttributeFunc) (m : option (gmap ComponentID V))
  : AttributeMap :=
  let newMap := ∅ in
  let newMap := match m with
                | Some m => foldl (λ dst kv, <[kv.1 := kv.2]> dst) newMap (map_to_list m)
                | None => newMap
                end in
  MkAttributeMap newMap attr.

Definition Find (a : AttributeMap) (id : ComponentID) : option V := attr_m a !! id.

(** [Update]: the map afterwards; a panic of the attribute function or
    of [AssemblyID] leaves the map as it was. *)
Definition AttributeMap_Update (a : AttributeMap) (assembly : AssemblyValue)
  : result unit * AttributeMap :=
  match attributeOf a assembly with
  | Ok (v, ok) =>
      match AssemblyValue_AssemblyID assembly with
      | Ok id =>
          if ok then (Ok (), MkAttributeMap (<[id := v]> (attr_m a)) (attributeOf a))
          else (Ok (), MkAttributeMap (delete id (attr_m a)) (attributeOf a))
      | Err e => (Err e, a)
      | Panic msg => (Panic msg, a)
      end
  | Err e => (Err e, a)
  | Panic msg => (Panic msg, a)
  end.

(** One round of the loop of [TrackAttribute]: what [Receive] and the
    decoder gave. *)
Inductive received : Type :=
| ReceiveCanceled                   (* errors.Is(err, context.Canceled) *)
| ReceiveFailed                     (* any other error of Receive *)
| Undecodable                       (* the gob decoder failed *)
| Decoded (graphChanged : GraphChanged).

(** How the procedure stands after a round. *)
Inductive tracking : Type :=
| Running (trackedGraph : ForestHash) (m : AttributeMap)
| Returned (m : AttributeMap)                       (* context cancelled *)
| Fatal (reason : string) (m : AttributeMap)        (* l.Fatalf *)
| Crashed (msg : string) (m : AttributeMap).        (* a panic in Update *)

Definition updateAll {A} (wrap : A → AssemblyValue) (l : list A)
    (acc : result unit * AttributeMap) : result unit * AttributeMap :=
  foldl (λ (acc : result unit * AttributeMap) x,
           match acc with
           | (Ok _, m) => AttributeMap_Update m (wrap x)
           | bad => bad
           end) acc l.

Definition trackRound (trackedGraph : ForestHash) (m : AttributeMap) (msg : received)
  : tracking :=
  match msg with
  | ReceiveCanceled => Returned m
  | ReceiveFailed => Running trackedGraph m
  | Undecodable => Fatal "Failed to unmarshal graph changes; stopping attribute tracking" m
  | Decoded graphChanged =>
      if negb (bool_decide (trackedGraph = zeroAddress))
         && negb (bool_decide (trackedGraph = GraphBefore graphChanged))
      then Fatal "Exiting due to detected discontinuity" m
      else
        match updateAll OfUpdated (Updated graphChanged)
                (updateAll OfCreated (Created graphChanged) (Ok (), m)) with
        | (Ok _, m) => Running trackedGraph m
        | (Err e, m) => Crashed "error" m
        | (Panic p, m) => Crashed p m
        end
  end.

(** [TrackAttribute]: [var trackedGraph ForestHash], then the rounds. *)
Definition TrackAttribute (m : AttributeMap) (msgs : list received) : tracking :=
  foldl (λ st msg,
           match st with
           | Running trackedGraph m => trackRound trackedGraph m msg
           | stopped => stopped
           end)
        (Running zeroAddress m) msgs.

End AttributeMap.
Arguments AttributeFunc V : clear implicits.
Arguments AttributeMap V : clear implicits.
Arguments tracking V : clear implicits.

(** ** Recorded compilations (package compilation) *)

Module compilation.
Import assert.

(** The eight [Step] implementations of steps.go. *)
Inductive Step : Type :=
| assertNode (Node : Value)
| retractNode (Node : Value)
| assertEdge (From To : Value)
| retractEdges (Node : Value) (Kind : GoType)
| assertOneToOne (Source Target : Value)
| assertOneToMany (Source Target : Value)
| assertManyToOne (Source Target : Value)
| assertManyToMany (Source Target : Value).

(** [Step.Do] *)
Definition Do `{GraphWriter W} (s : Step) (w : W) : returns unit * W :=
  match s with
  | assertNode node => AssertNode node w
  | retractNode node => RetractNode node w
  | assertEdge from to => AssertEdge from to w
  | retractEdges node kind =>
      (* the count of retracted edges is dropped *)
      match RetractEdges node kind w with
      | (Return _ err, w) => (Return () err, w)
      | (Panicked msg, w) => (Panicked msg, w)
      end
  | assertOneToOne source target => OneToOne source target w
  | assertOneToMany source target => OneToMany source target w
  | assertManyToOne source target => ManyToOne source target w
  | assertManyToMany source target => ManyToMany source target w
  end.

(** [Step.Targets], as the values it yields when never told to stop. *)
Definition Step_Targets (s : Step) : list Value :=
  match s with
  | assertNode node | retractNode node | retractEdges node _ => [node]
  | assertEdge from to => [from; to]
  | assertOneToOne source target | assertOneToMany source target
  | assertManyToOne source target | assertManyToMany source target => [source; target]
  end.

(** [Replay(steps)], the compilation it returns, applied to a writer. *)
Fixpoint Replay `{GraphWriter W} (steps : list Step) (w : W) : returns unit * W :=
  match steps with
  | [] => (Return () None, w)
  | step :: steps =>
      match Do step w with
      | (Return _ None, w) => Replay steps w
      | (Return _ (Some err), w) => (Return () (Some err), w)
      | (Panicked msg, w) => (Panicked msg, w)
      end
  end.

(** [Recorder]: the steps recorded so far. *)
Record Recorder := MkRecorder { steps : list Step }.
Definition zeroRecorder : Recorder := MkRecorder [].
Definition Recorder_Reset (r : Recorder) : Recorder := MkRecorder [].
Definition Recorder_Steps (r : Recorder) : list Step := steps r.
Definition record (s : Step) (r : Recorder) : Recorder := MkRecorder (steps r ++ [s]).

(** [Targets(steps)] run against a consumer: [yield] is asked with the
    values it was given before and answers whether to go on.  The state
    of the two loops is the set of content addresses seen, the values
    yielded, and whether the consumer has stopped the iteration;
    [MustContentAddress] may panic. *)
Definition Targets (steps : list Step) (yield : list Value → Value → bool)
  : result (list Value) :=
  '(_, yielded, _) ←
    foldl (λ (acc : result (gset NodeHash * list Value * bool)) target,
             '(seen, yielded, stopped) ← acc;
             if stopped : bool then Ok (seen, yielded, stopped)
             else
               ca ← MustContentAddress target;
               (* Ensure we only yield each target node once. *)
               if decide (ca ∈ seen) then Ok (seen, yielded, stopped)
               else
                 let seen := {[ca]} ∪ seen in
                 Ok (seen, yielded ++ [target], negb (yield yielded target)))
          (Ok (∅, [], false)) (steps ≫= Step_Targets);
  Ok yielded.

End compilation.

(** ** Walking an assembly (Walk, WalkSubtree, Inspect) *)

Module walk.

(** The methods of the [Assembly] interface that [Walk] calls; [Value]
    returns nil for a node the assembly does not have. *)
Record Tree := MkTree {
  tree_Roots : list NodeHash;
  tree_Value : NodeHash → option Value;
  tree_EdgesOf : NodeHash → list NodeHash;
}.

(** The [Visitor] interface: [Visit] is given a node, or nil, may change
    the state [S] of the program, and returns the visitor for the
    children of the node, or nil. *)
Class Visitor (V S : Type) := Visit : V → option Value → S → option V * S.

Section walk.
Context {V S : Type} `{Visitor V S}.

(** [WalkSubtree]; the recursion of the source has no bound, [fuel]
    bounds its depth here, and [None] is a walk that did not return
    within that depth. *)
Fixpoint WalkSubtree (fuel : nat) (v : V) (tree : Tree) (node : NodeHash) (s : S)
  : option S :=
  match fuel with
  | O => None
  | Datatypes.S fuel =>
      (* Start by calling v.Visit(node). *)
      let '(v, s) := Visit v (tree_Value tree node) s in
      match v with
      | None => Some s
      | Some v =>
          (* Then traverse the tree of the given node, depth-first. *)
          s ← foldl (λ (acc : option S) child,
                       s ← acc; WalkSubtree fuel v tree child s)
                    (Some s) (tree_EdgesOf tree node);
          (* Finally, call v.Visit(nil). *)
          Some (Visit v None s).2
      end
  end.

Definition Walk (fuel : nat) (v : V) (tree : Tree) (s : S) : option S :=
  foldl (λ (acc : option S) root, s ← acc; WalkSubtree fuel v tree root s)
        (Some s) (tree_Roots tree).

End walk.

(** [inspector]: a function used as a visitor. *)
Definition inspector (S : Type) : Type := option Value → S → bool * S.

#[global] Instance inspector_Visit {S} : Visitor (inspector S) S :=
  λ f node s, let '(descend, s) := f node s in
              (if descend then Some f else None, s).

Definition Inspect {S} (fuel : nat) (tree : Tree) (f : inspector S) (s : S) : option S :=
  Walk fuel f tree s.

End walk.
(** * Properties *)

(** ** Bytes and SHA-1 *)

Lemma to_N_byte_of_N n : n < 256 → Byte.to_N (byte_of_N n) = n.
Proof.
  intros Hn. unfold byte_of_N. rewrite N.mod_small by done.
  destruct (Byte.of_N n) as [b|] eqn:E.
  - by apply Byte.to_of_N.
  - apply Byte.of_N_None_iff in E. lia.
Qed.

Example sha1_empty :
  hex_Encode (sha1_Sum []) = "da39a3ee5e6b4b0d3255bfef95601890afd80709"%string.
Proof. vm_compute. reflexivity. Qed.

Example sha1_abc :
  hex_Encode (sha1_Sum (String.list_byte_of_string "abc")) =
  "a9993e364706816aba3e25717850c26c9cd0d89d"%string.
Proof. vm_compute. reflexivity. Qed.

Example sha1_two_blocks :
  hex_Encode (sha1_Sum (String.list_byte_of_string
    "abcdbcdecdefdefgefghfghighijhijkijkljklmklmnlmnomnopnopq")) =
  "84983e441c3bd26ebaae4aa1f95129e5e54670f1"%string.
Proof. vm_compute. reflexivity. Qed.

(** ** Sorting *)

Section sort_Slice.
Context {A} (less : A → A → bool) `{!StrictWeak less}.

#[local] Instance not_after_total : Total (not_after less).
Proof.
  intros x y. unfold not_after.
  destruct (less y x) eqn:E; [right; by apply less_asym | by left].
Qed.

#[local] Instance not_after_trans : Transitive (not_after less).
Proof. intros x y z. unfold not_after. apply less_negtrans. Qed.

Lemma sort_Slice_Permutation l : sort_Slice less l ≡ₚ l.
Proof. apply merge_sort_Permutation. Qed.

Lemma sort_Slice_sorted l : StronglySorted (not_after less) (sort_Slice less l).
Proof. apply StronglySorted_merge_sort; apply _. Qed.

(** Two slices holding the same elements sort to the same slice, as
    long as [less] separates distinct elements. *)
Lemma sort_Slice_perm_eq l1 l2 :
  (∀ x y, x ∈ l1 → y ∈ l1 → less x y = false → less y x = false → x = y) →
  l1 ≡ₚ l2 → sort_Slice less l1 = sort_Slice less l2.
Proof.
  intros Hsep Hp.
  apply (StronglySorted_unique_strong (not_after less)).
  - intros x y Hx Hy Hxy Hyx.
    rewrite sort_Slice_Permutation in Hx.
    rewrite sort_Slice_Permutation, <-Hp in Hy.
    by apply Hsep.
  - apply sort_Slice_sorted.
  - apply sort_Slice_sorted.
  - by rewrite !sort_Slice_Permutation.
Qed.

Lemma sort_Slice_sorted_id l :
  (∀ x y, x ∈ l → y ∈ l → less x y = false → less y x = false → x = y) →
  StronglySorted (not_after less) l → sort_Slice less l = l.
Proof.
  intros Hsep Hs.
  apply (StronglySorted_unique_strong (not_after less)).
  - intros x y Hx Hy Hxy Hyx. rewrite sort_Slice_Permutation in Hx. by apply Hsep.
  - apply sort_Slice_sorted.
  - done.
  - apply sort_Slice_Permutation.
Qed.
End sort_Slice.

(** *** [bytes.Compare] is a total order on byte strings *)

Lemma to_N_inj a b : Byte.to_N a = Byte.to_N b → a = b.
Proof.
  intros H. apply (inj Some). by rewrite <-(Byte.of_to_N a), <-(Byte.of_to_N b), H.
Qed.

Lemma bytes_Compare_range a b :
  bytes_Compare a b = (-1)%Z ∨ bytes_Compare a b = 0%Z ∨ bytes_Compare a b = 1%Z.
Proof.
  revert b. induction a as [|x a IH]; intros [|y b]; simpl; auto.
  repeat case_match; auto.
Qed.

Lemma bytes_Compare_antisym a b : bytes_Compare b a = (- bytes_Compare a b)%Z.
Proof.
  revert b. induction a as [|x a IH]; intros [|y b]; simpl; try done.
  destruct (N.ltb_spec (Byte.to_N x) (Byte.to_N y)),
           (N.ltb_spec (Byte.to_N y) (Byte.to_N x)); try done; try lia; auto.
Qed.

Lemma bytes_Compare_eq a b : bytes_Compare a b = 0%Z ↔ a = b.
Proof.
  revert b. induction a as [|x a IH]; intros [|y b]; simpl; try done.
  destruct (N.ltb_spec (Byte.to_N x) (Byte.to_N y)),
           (N.ltb_spec (Byte.to_N y) (Byte.to_N x)); try lia.
  - split; [done|]. intros [= -> _]. lia.
  - split; [done|]. intros [= -> _]. lia.
  - assert (x = y) as Hxy by (apply to_N_inj; lia).
    rewrite IH, Hxy. split; [by intros ->|by intros [= ->]].
Qed.

Lemma bytes_Compare_le_trans a b c :
  (bytes_Compare a b ≤ 0)%Z → (bytes_Compare b c ≤ 0)%Z → (bytes_Compare a c ≤ 0)%Z.
Proof.
  revert b c. induction a as [|x a IH]; intros [|y b] [|z c]; simpl; try done.
  destruct (N.ltb_spec (Byte.to_N x) (Byte.to_N y)),
           (N.ltb_spec (Byte.to_N y) (Byte.to_N x)),
           (N.ltb_spec (Byte.to_N y) (Byte.to_N z)),
           (N.ltb_spec (Byte.to_N z) (Byte.to_N y)),
           (N.ltb_spec (Byte.to_N x) (Byte.to_N z)),
           (N.ltb_spec (Byte.to_N z) (Byte.to_N x)); try done; try lia.
  apply IH.
Qed.

#[global] Instance hash_less_strict : StrictWeak hash_less.
Proof.
  split; unfold hash_less.
  - intros x y H. rewrite bytes_Compare_antisym. lia.
  - intros x y z H1 H2.
    assert (bytes_Compare x y ≤ 0)%Z by (rewrite bytes_Compare_antisym; lia).
    assert (bytes_Compare y z ≤ 0)%Z by (rewrite bytes_Compare_antisym; lia).
    pose proof (bytes_Compare_le_trans x y z).
    rewrite (bytes_Compare_antisym x z). lia.
Qed.

Lemma hash_less_separates a b :
  hash_less a b = false → hash_less b a = false → a = b.
Proof.
  unfold hash_less. intros H1 H2. apply bytes_Compare_eq.
  rewrite (bytes_Compare_antisym a b) in H2. lia.
Qed.

(** Sorting hashes depends on the multiset of hashes only. *)
Lemma sort_hashes_perm (l1 l2 : list contentAddress) :
  l1 ≡ₚ l2 → sort_Slice hash_less l1 = sort_Slice hash_less l2.
Proof.
  apply sort_Slice_perm_eq; [apply _|]. intros; by apply hash_less_separates.
Qed.

Lemma sort_hashes_idemp (l : list contentAddress) :
  sort_Slice hash_less (sort_Slice hash_less l) = sort_Slice hash_less l.
Proof. apply sort_hashes_perm, sort_Slice_Permutation. Qed.

Lemma foldl_Write {A} (f : A → bytes) (l : list A) (h : hash_Hash) :
  foldl (λ h x, hash_Write h (f x)) h l = h ++ mjoin (f <$> l).
Proof.
  revert h. induction l as [|x l IH]; intros h; simpl.
  - by rewrite app_nil_r.
  - rewrite IH. unfold hash_Write. by rewrite <-app_assoc.
Qed.

(** The vectors of TestHashComponents. *)
Example HashComponents_test_empty :
  hex_Encode (HashComponents ∅) = "da39a3ee5e6b4b0d3255bfef95601890afd80709"%string.
Proof. vm_compute. reflexivity. Qed.

Example HashComponents_test_single :
  hex_Encode (HashComponents {[ pad20 [x01; x02; x03] := pad20 [x04; x05; x06] ]})
  = "3d6b7a1ab3486067137f246f9d173291a108e87f"%string.
Proof. vm_compute. reflexivity. Qed.

Example HashComponents_test_multiple :
  hex_Encode (HashComponents (<[ pad20 [x01; x02; x03] := pad20 [x04; x05; x06] ]>
                               {[ pad20 [x07; x08; x09] := pad20 [x0a; x0b; x0c] ]}))
  = "40b4ed6dcc81f074edb81dc3aa00712c4f5930a3"%string.
Proof. vm_compute. reflexivity. Qed.

Example HashComponents_test_multiple_reversed :
  hex_Encode (HashComponents (<[ pad20 [x07; x08; x09] := pad20 [x0a; x0b; x0c] ]>
                               {[ pad20 [x01; x02; x03] := pad20 [x04; x05; x06] ]}))
  = "40b4ed6dcc81f074edb81dc3aa00712c4f5930a3"%string.
Proof. vm_compute. reflexivity. Qed.

(** *** Properties of HashComponents *)

Lemma StronglySorted_mono {A} (R1 R2 : relation A) l :
  (∀ x y, R1 x y → R2 x y) → StronglySorted R1 l → StronglySorted R2 l.
Proof.
  intros HR. induction 1 as [|x l Hs IH Hx]; constructor; [done|].
  eapply Forall_impl; [exact Hx|]. intros y. apply HR.
Qed.

Lemma collect_refs (order : list ComponentID) :
  foldl (λ refs id, refs ++ [id]) [] order = order.
Proof.
  assert (∀ acc, foldl (λ refs id, refs ++ [id]) acc order = acc ++ order) as H.
  { induction order as [|x l IH]; intros acc; simpl.
    - by rewrite app_nil_r.
    - by rewrite IH, <-app_assoc. }
  apply H.
Qed.

Lemma HashComponentsIn_unfold order components :
  HashComponentsIn order components =
  sha1_Sum (mjoin (map_index components <$> sort_Slice hash_less order)).
Proof.
  unfold HashComponentsIn. cbv zeta. by rewrite collect_refs, foldl_Write.
Qed.

Lemma HashComponentsIn_perm order1 order2 components :
  order1 ≡ₚ order2 →
  HashComponentsIn order1 components = HashComponentsIn order2 components.
Proof.
  intros Hp. rewrite !HashComponentsIn_unfold. by rewrite (sort_hashes_perm _ _ Hp).
Qed.

(** C5. HashComponents depends only on the {ComponentID -> ComponentHash}
    pairs: whatever order the range over the map visits the keys in, the
    result is the SHA-1 sum of the ComponentHashes concatenated in the
    lexicographic order of their ComponentIDs; two maps filled with the same
    pairs in different insertion orders hash identically; and the empty map
    hashes to the sum of the empty input. *)
Theorem HashComponents_depends_on_pairs_only :
  (∀ (components : gmap ComponentID ComponentHash) (order : list ComponentID),
     order ≡ₚ range_keys components →
     HashComponentsIn order components =
       sha1_Sum (mjoin (map_index components <$>
                          sort_Slice hash_less (range_keys components)))
     ∧ StronglySorted (λ a b, (bytes_Compare a b ≤ 0)%Z)
                      (sort_Slice hash_less (range_keys components))
     ∧ HashComponentsIn order components = HashComponents components)
  ∧ (∀ (pairs1 pairs2 : list (ComponentID * ComponentHash)) order1 order2,
       NoDup pairs1.*1 → pairs1 ≡ₚ pairs2 →
       order1 ≡ₚ range_keys (list_to_map pairs1 : gmap ComponentID ComponentHash) →
       order2 ≡ₚ range_keys (list_to_map pairs2 : gmap ComponentID ComponentHash) →
       HashComponentsIn order1 (list_to_map pairs1) =
       HashComponentsIn order2 (list_to_map pairs2))
  ∧ HashComponents ∅ = sha1_Sum [].
Proof.
  split; [|split].
  - intros components order Hp. split; [|split].
    + rewrite HashComponentsIn_unfold. by rewrite (sort_hashes_perm _ _ Hp).
    + eapply StronglySorted_mono; [|apply (sort_Slice_sorted hash_less)].
      intros a b. unfold not_after, hash_less.
      rewrite (bytes_Compare_antisym a b). lia.
    + unfold HashComponents. by apply HashComponentsIn_perm.
  - intros pairs1 pairs2 order1 order2 Hnd Hp H1 H2.
    assert ((list_to_map pairs1 : gmap ComponentID ComponentHash) = list_to_map pairs2)
      as Heq by (by apply list_to_map_proper).
    rewrite <-Heq in H2 |- *. apply HashComponentsIn_perm. by rewrite H1, H2.
  - unfold HashComponents, range_keys, range_map. rewrite map_to_list_empty.
    by rewrite HashComponentsIn_unfold.
Qed.

(** ** Reflective content addressing *)

Lemma string_bytes_inj a b : string_bytes a = string_bytes b → a = b.
Proof.
  unfold string_bytes. intros H.
  by rewrite <-(String.string_of_list_byte_of_string a),
             <-(String.string_of_list_byte_of_string b), H.
Qed.

Lemma string_less_separates a b :
  string_less a b = false → string_less b a = false → a = b.
Proof. intros H1 H2. apply string_bytes_inj. by apply hash_less_separates. Qed.

#[global] Instance field_less_strict {T} : StrictWeak (@field_less T).
Proof.
  split; unfold field_less, string_less.
  - intros x y. apply less_asym.
  - intros x y z. apply less_negtrans.
Qed.

(** The names of the visible fields of a struct. *)
Definition field_names {T} (fields : list (StructField * T)) : list string :=
  (λ fv, Name fv.1) <$> fields.

Lemma field_names_unique {T} (fields : list (StructField * T)) x y :
  NoDup (field_names fields) → x ∈ fields → y ∈ fields →
  Name x.1 = Name y.1 → x = y.
Proof.
  unfold field_names. induction fields as [|z l IH]; simpl.
  - by intros _ ?%elem_of_nil.
  - intros [Hz Hl]%NoDup_cons [->|Hx]%elem_of_cons [->|Hy]%elem_of_cons Hn; auto.
    + exfalso. apply Hz. rewrite Hn. apply list_elem_of_fmap. by exists y.
    + exfalso. apply Hz. rewrite <-Hn. apply list_elem_of_fmap. by exists x.
Qed.

Lemma field_less_separates {T} (fields : list (StructField * T)) x y :
  NoDup (field_names fields) → x ∈ fields → y ∈ fields →
  field_less x y = false → field_less y x = false → x = y.
Proof.
  intros Hnd Hx Hy H1 H2. eapply field_names_unique; eauto.
  by apply string_less_separates.
Qed.

(** Sorting by name sees the names only, so it commutes with any change
    of the data attached to the fields. *)
Lemma sort_fields_fmap {T U} (f : StructField * T → StructField * U)
    (fields : list (StructField * T)) :
  (∀ x, (f x).1 = x.1) → NoDup (field_names fields) →
  sort_Slice field_less (f <$> fields) = f <$> sort_Slice field_less fields.
Proof.
  intros Hf Hnd.
  assert (Hnames : field_names (f <$> fields) = field_names fields).
  { unfold field_names. rewrite <-list_fmap_compose. apply list_fmap_ext.
    intros i x _. simpl. by rewrite Hf. }
  apply (StronglySorted_unique_strong (not_after field_less)).
  - intros x y Hx Hy Hxy Hyx.
    rewrite sort_Slice_Permutation in Hx by apply _.
    assert (y ∈ f <$> fields) as Hy'.
    { apply list_elem_of_fmap in Hy as (y' & -> & Hy').
      rewrite sort_Slice_Permutation in Hy' by apply _.
      apply list_elem_of_fmap. by exists y'. }
    apply (field_less_separates (f <$> fields)); auto. by rewrite Hnames.
  - apply sort_Slice_sorted, _.
  - pose proof (sort_Slice_sorted field_less fields) as Hs.
    induction Hs as [|x l Hs IH Hx]; simpl; constructor; [done|].
    apply Forall_fmap. eapply Forall_impl; [exact Hx|].
    intros y. unfold not_after, field_less. simpl. by rewrite !Hf.
  - rewrite !sort_Slice_Permutation by apply _. done.
Qed.

(** The body of the loop of reflectiveContentAddress for one field. *)
Definition hashField (acc : result hash_Hash) (fv : StructField * rvalue)
  : result hash_Hash :=
  digest ← acc;
  let '(field, value) := fv in
  if negb (IsExported field) then Ok digest
  else if (Name field =? "InformationElement")%string
          && IsInformationElement field then Ok digest
  else fieldValue (hash_Write digest (string_bytes (Name field))) field value.

Lemma reflectiveContentAddress_struct digest fields :
  reflectiveContentAddress digest (KStruct fields) =
  foldl (λ (acc : result hash_Hash) (fv : StructField * (hash_Hash → result hash_Hash)),
           digest ← acc;
           let '(field, hashValue) := fv in
           if negb (IsExported field) then Ok digest
           else if (Name field =? "InformationElement")%string
                   && IsInformationElement field then Ok digest
           else hashValue (hash_Write digest (string_bytes (Name field))))
        (Ok digest)
        (sort_Slice field_less
           ((λ fv : StructField * rvalue,
               let '(field, value) := fv in
               (field, λ digest, fieldValue digest field value)) <$> fields)).
Proof. reflexivity. Qed.

(** With unique field names, reflectiveContentAddress runs [hashField]
    over the fields in ascending order of their names. *)
Lemma reflectiveContentAddress_sorted digest fields :
  NoDup (field_names fields) →
  reflectiveContentAddress digest (KStruct fields) =
  foldl hashField (Ok digest) (sort_Slice field_less fields).
Proof.
  intros Hnd. rewrite reflectiveContentAddress_struct.
  rewrite sort_fields_fmap; [|by intros [??]|done].
  generalize (Ok digest : result hash_Hash) as acc.
  induction (sort_Slice field_less fields) as [|[field value] l IH]; intros acc;
    simpl; [done|].
  rewrite IH. f_equal.
Qed.

(** The three struct types of TestContentAddress_reflectionOrder. *)
Definition int_field (name : string) (z : Z) : StructField * rvalue :=
  (Field name true false, RV no_methods (KInt z)).
Example reflectionOrder_someOrder :
  reflectiveContentAddress []
    (KStruct [int_field "A" 1; int_field "B" 2; int_field "C" 3])
  = Ok (string_bytes "A" ++ [x02] ++ string_bytes "B" ++ [x04]
        ++ string_bytes "C" ++ [x06]).
Proof. vm_compute. reflexivity. Qed.
Example reflectionOrder_otherOrder :
  reflectiveContentAddress []
    (KStruct [int_field "C" 3; int_field "A" 1; int_field "B" 2])
  = reflectiveContentAddress []
    (KStruct [int_field "A" 1; int_field "B" 2; int_field "C" 3]).
Proof. vm_compute. reflexivity. Qed.

(** C6. The reflective content-addresser visits the fields of a struct in
    ascending field-name order; hence two struct types with the same package
    path, name and fields, declared in different orders, give equal values
    the same NodeHash. *)
Theorem ContentAddress_field_order_irrelevant
    (pkg name : string) (m : methods) (fields1 fields2 : list (StructField * rvalue)) :
  NoDup (field_names fields1) →
  fields1 ≡ₚ fields2 →
  (∀ digest,
     reflectiveContentAddress digest (KStruct fields1) =
       foldl hashField (Ok digest) (sort_Slice field_less fields1)
     ∧ StronglySorted (λ a b, (bytes_Compare (string_bytes (Name a.1))
                                            (string_bytes (Name b.1)) ≤ 0)%Z)
                      (sort_Slice field_less fields1)
     ∧ reflectiveContentAddress digest (KStruct fields1) =
       reflectiveContentAddress digest (KStruct fields2))
  ∧ ContentAddress (MkValue pkg name (RV m (KStruct fields1))) =
    ContentAddress (MkValue pkg name (RV m (KStruct fields2))).
Proof.
  intros Hnd Hp.
  assert (Hnd2 : NoDup (field_names fields2)).
  { unfold field_names. by rewrite <-Hp. }
  assert (Hsort : sort_Slice field_less fields1 = sort_Slice field_less fields2).
  { apply sort_Slice_perm_eq; [apply _| |done].
    intros x y Hx Hy. by apply (field_less_separates fields1). }
  assert (Heq : ∀ digest, reflectiveContentAddress digest (KStruct fields1) =
                          reflectiveContentAddress digest (KStruct fields2)).
  { intros digest. rewrite !reflectiveContentAddress_sorted by done. by rewrite Hsort. }
  split.
  - intros digest. split; [by apply reflectiveContentAddress_sorted|]. split; [|done].
    eapply StronglySorted_mono; [|apply (sort_Slice_sorted field_less)].
    intros a b. unfold not_after, field_less, string_less, hash_less, string_bytes.
    rewrite (bytes_Compare_antisym (String.list_byte_of_string (Name a.1))). lia.
  - unfold ContentAddress. cbn [reflected shape_of methods_of newNodeHash PkgPath TypeName].
    destruct (ContentAddresser m); [done|]. by rewrite Heq.
Qed.

Lemma ContentAddress_field_order_witness :
  ContentAddress (MkValue "digitaltwin" "someOrder" (RV no_methods
    (KStruct [int_field "A" 1; int_field "B" 2; int_field "C" 3]))) =
  ContentAddress (MkValue "digitaltwin" "someOrder" (RV no_methods
    (KStruct [int_field "C" 3; int_field "A" 1; int_field "B" 2]))).
Proof.
  apply (ContentAddress_field_order_irrelevant "digitaltwin" "someOrder" no_methods
           [int_field "A" 1; int_field "B" 2; int_field "C" 3]
           [int_field "C" 3; int_field "A" 1; int_field "B" 2]).
  - apply (bool_decide_unpack _). vm_compute. exact I.
  - symmetry.
    apply (Permutation_cons_append [int_field "A" 1; int_field "B" 2] (int_field "C" 3)).
Defined.

(** *** Nil interfaces and nil pointers *)

(** A payload with an embedded InformationElement and one more exported
    field [When]. *)
Definition marker_field : StructField * rvalue :=
  (Field "InformationElement" true true, RV no_methods (KStruct [])).
Definition Event (when : rvalue) : Value :=
  MkValue "example" "Event"
    (RV no_methods (KStruct [marker_field; (Field "When" true false, when)])).

(** [time.Time] has three unexported fields; [*time.Time] implements
    encoding.BinaryMarshaler through the value method of [time.Time], which
    panics on a nil pointer and returns 15 bytes for the zero time. *)
Definition time_zero : shape :=
  KStruct [ (Field "wall" false false, RV no_methods (KFixed (FUint 8 0)));
            (Field "ext" false false, RV no_methods (KFixed (FInt 8 0)));
            (Field "loc" false false, RV no_methods (KPtr (KStruct []) None)) ].
Definition nil_time_pointer : rvalue :=
  RV (Methods None
        (Some (Panic "value method time.Time.MarshalBinary called using nil *Time pointer")))
     (KPtr time_zero None).
Definition zero_time_pointer : rvalue :=
  RV (Methods None
        (Some (Ok [x01; x00; x00; x00; x00; x00; x00; x00; x00; x00; x00; x00; x00;
                   xff; xff])))
     (KPtr time_zero (Some time_zero)).

(** As stated, C7 fails: a nil [*time.Time] field is handed to
    MarshalBinary before the nil-pointer branch is reached.  Hashing the
    payload with the nil pointer panics, while the payload pointing at the
    zero time has a NodeHash. *)
Lemma nil_pointer_not_always_zero_value :
  ContentAddress (Event nil_time_pointer) =
    Panic "value method time.Time.MarshalBinary called using nil *Time pointer"
  ∧ (∃ h, ContentAddress (Event zero_time_pointer) = Ok h)
  ∧ ContentAddress (Event nil_time_pointer) ≠ ContentAddress (Event zero_time_pointer).
Proof.
  assert (H1 : ContentAddress (Event nil_time_pointer) =
    Panic "value method time.Time.MarshalBinary called using nil *Time pointer")
    by (vm_compute; reflexivity).
  assert (H2 : ∃ h, ContentAddress (Event zero_time_pointer) = Ok h)
    by (eexists; vm_compute; reflexivity).
  split; [done|]. split; [done|].
  destruct H2 as [h H2]. rewrite H1, H2. discriminate.
Qed.

(** C7, amended.  A nil interface field is skipped: after its name nothing
    is written.  A nil pointer field whose type implements neither
    ContentAddresser nor BinaryMarshaler is hashed as the zero value of the
    pointed-to type, so the payload with the field nil and the payload with
    the field pointing at a zero value have the same NodeHash. *)
Theorem nil_pointer_hashes_as_zero_value (m : methods) :
  ContentAddresser m = None →
  BinaryMarshaler m = None →
  (∀ digest field im, fieldValue digest field (RV im (KInterface None)) = Ok digest)
  ∧ (∀ digest field zero,
       fieldValue digest field (RV m (KPtr zero None)) =
       fieldValue digest field (RV m (KPtr zero (Some zero))))
  ∧ (∀ pkg name tm before after field zero,
       ContentAddress (MkValue pkg name (RV tm (KStruct
         (before ++ (field, RV m (KPtr zero None)) :: after)))) =
       ContentAddress (MkValue pkg name (RV tm (KStruct
         (before ++ (field, RV m (KPtr zero (Some zero))) :: after))))).
Proof.
  destruct m as [ca bm]. simpl. intros -> ->.
  change (Methods None None) with no_methods.
  assert (Hptr : ∀ digest field zero,
    fieldValue digest field (RV no_methods (KPtr zero None)) =
    fieldValue digest field (RV no_methods (KPtr zero (Some zero)))).
  { intros digest field zero. reflexivity. }
  split; [|split].
  - intros digest field im. destruct im; reflexivity.
  - exact Hptr.
  - intros pkg name tm before after field zero.
    unfold ContentAddress. cbn [reflected shape_of methods_of].
    destruct (ContentAddresser tm); [done|].
    rewrite !reflectiveContentAddress_struct, !fmap_app, !fmap_cons.
    do 5 f_equal.
Qed.

Lemma nil_pointer_hashes_as_zero_value_witness :
  ContentAddress (Event (RV no_methods (KPtr (KString "") None))) =
  ContentAddress (Event (RV no_methods (KPtr (KString "") (Some (KString ""))))).
Proof.
  apply (proj2 (proj2 (nil_pointer_hashes_as_zero_value no_methods eq_refl eq_refl))
           "example"%string "Event"%string no_methods [marker_field] []
           (Field "When" true false) (KString "")).
Defined.

(** ** AssemblyGraph: identity and in-place sorting *)

Ltac go_unfold :=
  cbv beta iota zeta delta
    [mbind Go_bind go_bind mret Go_ret go_ret panic lift
     load_builder load_array load_nodes load_edgesets load_edgeset
     load_adjacency load store alloc] in *.

Lemma foldl_Write_hashes (rs : list contentAddress) (h : hash_Hash) :
  foldl (λ h r, hash_Write h r) h rs = h ++ mjoin rs.
Proof.
  rewrite (foldl_Write (λ r, r) rs h). by rewrite list_fmap_id.
Qed.

Lemma sort_Slice_length {A} (less : A → A → bool) (l : list A) :
  length (sort_Slice less l) = length l.
Proof. apply Permutation_length, merge_sort_Permutation. Qed.

Lemma take_sorted_prefix (n : nat) (xs : list contentAddress) :
  take n (sort_Slice hash_less (take n xs) ++ drop n xs) =
  sort_Slice hash_less (take n xs).
Proof.
  destruct (decide (n ≤ length xs)%nat) as [Hle|Hgt].
  - rewrite take_app_length'; [done|].
    rewrite sort_Slice_length, length_take. lia.
  - rewrite drop_ge by lia. rewrite app_nil_r. apply take_ge.
    rewrite sort_Slice_length, length_take. lia.
Qed.

(** Stepping through a computation in the heap monad. *)
Lemma bind_Ok {A B} (c : Go A) (k : A → Go B) h a h' :
  c h = (Ok a, h') → (c ≫= k) h = k a h'.
Proof. intros H. unfold mbind, Go_bind, go_bind. by rewrite H. Qed.

Lemma bind_Panic {A B} (c : Go A) (k : A → Go B) h msg h' :
  c h = (Panic msg, h') → (c ≫= k) h = (Panic msg, h').
Proof. intros H. unfold mbind, Go_bind, go_bind. by rewrite H. Qed.

Lemma bind_Err {A B} (c : Go A) (k : A → Go B) h e h' :
  c h = (Err e, h') → (c ≫= k) h = (Err e, h').
Proof. intros H. unfold mbind, Go_bind, go_bind. by rewrite H. Qed.

Lemma load_array_Some l h xs :
  h !! l = Some (OArray xs) → load_array l h = (Ok xs, h).
Proof. intros H. go_unfold. by rewrite H. Qed.

Lemma store_Some l o h o' :
  h !! l = Some o' → store l o h = (Ok (), <[l := o]> h).
Proof. intros H. go_unfold. by rewrite H. Qed.

Lemma slice_read_Slice a n h xs :
  h !! a = Some (OArray xs) → slice_read (Slice a n) h = (Ok (take n xs), h).
Proof.
  intros H. unfold slice_read.
  by rewrite (bind_Ok _ _ _ _ _ (load_array_Some _ _ _ H)).
Qed.

Lemma sort_in_place_Slice a n h xs :
  h !! a = Some (OArray xs) →
  sort_in_place (Slice a n) h =
  (Ok (), <[a := OArray (sort_Slice hash_less (take n xs) ++ drop n xs)]> h).
Proof.
  intros H. unfold sort_in_place.
  rewrite (bind_Ok _ _ _ _ _ (load_array_Some _ _ _ H)).
  by apply store_Some with (OArray xs).
Qed.

(** Reading a slice never changes the heap. *)
Lemma slice_read_heap s h : (slice_read s h).2 = h.
Proof.
  destruct s as [|a n]; [reflexivity|]. unfold slice_read. go_unfold.
  by destruct (h !! a) as [[]|].
Qed.

Lemma slice_read_Ok s h rs h' :
  slice_read s h = (Ok rs, h') →
  h' = h ∧
  match s with
  | nil_slice => rs = []
  | Slice a n => ∃ xs, h !! a = Some (OArray xs) ∧ rs = take n xs
  end.
Proof.
  destruct s as [|a n]; unfold slice_read; go_unfold.
  - by intros [= <- <-].
  - destruct (h !! a) as [[]|] eqn:E; intros [= <- <-]. eauto.
Qed.

(** What [AssemblyID] does on a graph whose roots can be read: it returns
    the sum of the sorted roots and leaves them sorted in their array;
    arrays other than that of [Root] are untouched. *)
Lemma AssemblyID_spec a h roots :
  slice_read (AssemblyGraph_Roots a) h = (Ok roots, h) →
  ∃ h', AssemblyID a h = (Ok (sha1_Sum (mjoin (sort_Slice hash_less roots))), h')
        ∧ slice_read (AssemblyGraph_Roots a) h' = (Ok (sort_Slice hash_less roots), h')
        ∧ ∀ l, (∀ n, Root a ≠ Slice l n) → h' !! l = h !! l.
Proof.
  unfold AssemblyGraph_Roots. intros [_ Hr]%slice_read_Ok.
  unfold AssemblyID. destruct (Root a) as [|arr n].
  - subst roots. exists h. by repeat split.
  - destruct Hr as (xs & Hxs & ->).
    set (h' := <[arr := OArray (sort_Slice hash_less (take n xs) ++ drop n xs)]> h).
    assert (Hh' : h' !! arr = Some (OArray (sort_Slice hash_less (take n xs) ++ drop n xs)))
      by apply lookup_insert_eq.
    exists h'. split; [|split].
    + rewrite (bind_Ok _ _ _ _ _ (sort_in_place_Slice _ n _ _ Hxs)).
      rewrite (bind_Ok _ _ _ _ _ (slice_read_Slice _ n _ _ Hh')).
      by rewrite take_sorted_prefix, foldl_Write_hashes.
    + rewrite (slice_read_Slice _ n _ _ Hh'). by rewrite take_sorted_prefix.
    + intros l Hl. unfold h'. rewrite lookup_insert_ne; [done|].
      intros ->. by apply (Hl n).
Qed.

(** C4. AssemblyID is the SHA-1 sum of the root hashes, sorted by
    [bytes.Compare] and concatenated, and reads nothing but the Root slice:
    two graphs whose root slices hold the same hashes, in any order and
    whatever their vertices and edges, have the same ComponentID. *)
Theorem AssemblyID_depends_on_roots_only
    (a a' : AssemblyGraph) (h h' : heap) (roots roots' : list NodeHash) :
  slice_read (AssemblyGraph_Roots a) h = (Ok roots, h) →
  slice_read (AssemblyGraph_Roots a') h' = (Ok roots', h') →
  roots ≡ₚ roots' →
  (AssemblyID a h).1 = Ok (sha1_Sum (mjoin (sort_Slice hash_less roots)))
  ∧ StronglySorted (λ x y, (bytes_Compare x y ≤ 0)%Z) (sort_Slice hash_less roots)
  ∧ (AssemblyID a' h').1 = (AssemblyID a h).1.
Proof.
  intros H1 H2 Hp.
  destruct (AssemblyID_spec a h roots H1) as (h1 & -> & _).
  destruct (AssemblyID_spec a' h' roots' H2) as (h2 & -> & _).
  simpl. split; [done|]. split.
  - eapply StronglySorted_mono; [|apply (sort_Slice_sorted hash_less)].
    intros x y. unfold not_after, hash_less.
    rewrite (bytes_Compare_antisym x y). lia.
  - by rewrite (sort_hashes_perm _ _ Hp).
Qed.

Lemma AssemblyID_roots_witness :
  let r1 := pad20 [x01] in
  let r2 := pad20 [x02] in
  (AssemblyID (Graph (Slice 1 2) (Some 2%positive) None)
     (<[1%positive := OArray [r2; r1]]> {[ 2%positive := ONodes ∅ ]})).1 =
  (AssemblyID (Graph (Slice 1 2) None None) {[ 1%positive := OArray [r1; r2] ]}).1.
Proof.
  intros r1 r2.
  apply (AssemblyID_depends_on_roots_only
           (Graph (Slice 1 2) None None) (Graph (Slice 1 2) (Some 2%positive) None)
           {[ 1%positive := OArray [r1; r2] ]}
           (<[1%positive := OArray [r2; r1]]> {[ 2%positive := ONodes ∅ ]})
           [r1; r2] [r2; r1]).
  - vm_compute. reflexivity.
  - vm_compute. reflexivity.
  - apply perm_swap.
Defined.

(** *** Invariants of heap computations *)

(** [c] keeps [P]: from a heap satisfying [P] it ends (normally or not)
    in one satisfying [P]. *)
Definition preserves {A} (P : heap → Prop) (c : Go A) : Prop :=
  ∀ h, P h → P (c h).2.

Section preserves.
Context (P : heap → Prop).

Lemma preserves_ret {A} (a : A) : preserves P (mret a).
Proof. by intros h. Qed.
Lemma preserves_panic {A} msg : preserves P (@panic A msg).
Proof. by intros h. Qed.
Lemma preserves_lift {A} (r : result A) : preserves P (lift r).
Proof. by intros h. Qed.
Lemma preserves_load l : preserves P (load l).
Proof. intros h Hh. unfold load. by destruct (h !! l). Qed.
Lemma preserves_bind {A B} (c : Go A) (k : A → Go B) :
  preserves P c → (∀ a, preserves P (k a)) → preserves P (c ≫= k).
Proof.
  intros Hc Hk h Hh. specialize (Hc h Hh).
  unfold mbind, Go_bind, go_bind. destruct (c h) as [[a|e|msg] h']; simpl in *; auto.
  by apply Hk.
Qed.
Lemma preserves_load_array l : preserves P (load_array l).
Proof.
  apply preserves_bind; [apply preserves_load|].
  intros []; auto using preserves_ret, preserves_panic.
Qed.
Lemma preserves_load_nodes l : preserves P (load_nodes l).
Proof.
  apply preserves_bind; [apply preserves_load|].
  intros []; auto using preserves_ret, preserves_panic.
Qed.
Lemma preserves_load_adjacency l : preserves P (load_adjacency l).
Proof.
  apply preserves_bind; [apply preserves_load|].
  intros []; auto using preserves_ret, preserves_panic.
Qed.
Lemma preserves_slice_read s : preserves P (slice_read s).
Proof.
  destruct s; [apply preserves_ret|].
  apply preserves_bind; [apply preserves_load_array|]. intros; apply preserves_ret.
Qed.
Lemma preserves_adjacency_get m n : preserves P (adjacency_get m n).
Proof.
  destruct m; [|apply preserves_ret].
  apply preserves_bind; [apply preserves_load_adjacency|]. intros; apply preserves_ret.
Qed.
Lemma preserves_foldl {A B} (step : Go B → A → Go B) (xs : list A) (acc : Go B) :
  (∀ acc x, preserves P acc → preserves P (step acc x)) →
  preserves P acc → preserves P (foldl step acc xs).
Proof.
  intros Hstep. revert acc. induction xs as [|x xs IH]; intros acc Hacc; simpl; auto.
Qed.
End preserves.

(** *** Sorted roots survive every later in-place sort *)

(** The first [n] elements of the array at [arr] are sorted. *)
Definition sorted_prefix (arr : loc) (n : nat) (h : heap) : Prop :=
  ∃ xs, h !! arr = Some (OArray xs)
        ∧ StronglySorted (not_after hash_less) (take n xs).

Lemma StronglySorted_take {A} (R : relation A) n (l : list A) :
  StronglySorted R l → StronglySorted R (take n l).
Proof.
  intros Hs. rewrite <-(take_drop n l) in Hs. by apply StronglySorted_app_1_l in Hs.
Qed.

Lemma sort_hashes_sorted_id (l : list contentAddress) :
  StronglySorted (not_after hash_less) l → sort_Slice hash_less l = l.
Proof.
  apply sort_Slice_sorted_id; [apply _|]. intros; by apply hash_less_separates.
Qed.

Lemma sort_in_place_sorted_prefix arr n s :
  preserves (sorted_prefix arr n) (sort_in_place s).
Proof.
  intros h (xs & Hxs & Hs). destruct s as [|a m]; [by exists xs|].
  unfold sort_in_place.
  destruct (h !! a) as [o|] eqn:Ha.
  2:{ erewrite bind_Panic; [by exists xs|]. go_unfold. by rewrite Ha. }
  assert ((∃ ys, o = OArray ys) ∨ ∃ msg, load_array a h = (Panic msg, h))
    as [[ys ->]|[msg Hp]].
  { go_unfold. rewrite Ha. destruct o; eauto. }
  2:{ erewrite bind_Panic by done. by exists xs. }
  rewrite (bind_Ok _ _ _ _ _ (load_array_Some _ _ _ Ha)).
  rewrite (store_Some _ _ _ _ Ha). simpl.
  destruct (decide (a = arr)) as [->|Hne].
  2:{ exists xs. by rewrite lookup_insert_ne. }
  assert (ys = xs) as -> by congruence.
  eexists. rewrite lookup_insert_eq. split; [done|].
  destruct (decide (n ≤ m)%nat) as [Hnm|Hnm].
  - rewrite take_app.
    assert (take (n - length (sort_Slice hash_less (take m xs))) (drop m xs) = []) as ->.
    { rewrite sort_Slice_length, length_take.
      destruct (decide (m ≤ length xs)%nat).
      - replace (n - m `min` length xs)%nat with 0%nat by lia. done.
      - rewrite drop_ge by lia. by destruct (n - _)%nat. }
    rewrite app_nil_r. apply StronglySorted_take, (sort_Slice_sorted hash_less).
  - assert (take m xs = take m (take n xs)) as Hpre.
    { rewrite take_take. f_equal. lia. }
    rewrite sort_hashes_sorted_id.
    + by rewrite take_drop.
    + rewrite Hpre. by apply StronglySorted_take.
Qed.

(** C10. AssemblyID sorts the backing array of the receiver's Root slice:
    afterwards Roots() of the same graph (or of any copy of the struct,
    which shares the array) reads the root hashes in lexicographic order,
    not in the order they were supplied.  AssemblyHash starts by calling
    AssemblyID, and when it returns the roots are sorted as well. *)
Theorem AssemblyID_sorts_roots_in_place
    (a : AssemblyGraph) (h : heap) (roots : list NodeHash) :
  slice_read (AssemblyGraph_Roots a) h = (Ok roots, h) →
  (∀ h', h' = (AssemblyID a h).2 →
     slice_read (AssemblyGraph_Roots a) h' = (Ok (sort_Slice hash_less roots), h')
     ∧ (∀ a', Root a' = Root a →
          slice_read (AssemblyGraph_Roots a') h' = (Ok (sort_Slice hash_less roots), h')))
  ∧ sort_Slice hash_less roots ≡ₚ roots
  ∧ StronglySorted (λ x y, (bytes_Compare x y ≤ 0)%Z) (sort_Slice hash_less roots)
  ∧ (∀ h'', h'' = (AssemblyHash a h).2 →
       ∃ rs, slice_read (AssemblyGraph_Roots a) h'' = (Ok rs, h'')
             ∧ StronglySorted (λ x y, (bytes_Compare x y ≤ 0)%Z) rs).
Proof.
  intros Hr.
  assert (Hmono : ∀ l, StronglySorted (not_after hash_less) l →
                       StronglySorted (λ x y, (bytes_Compare x y ≤ 0)%Z) l).
  { intros l. apply StronglySorted_mono. intros x y. unfold not_after, hash_less.
    rewrite (bytes_Compare_antisym x y). lia. }
  destruct (AssemblyID_spec a h roots Hr) as (h1 & Hid & Hr1 & _).
  split; [|split; [|split]].
  - intros h' ->. rewrite Hid. simpl. split; [done|].
    intros a' Ha'. unfold AssemblyGraph_Roots in *. by rewrite Ha'.
  - apply (sort_Slice_Permutation hash_less).
  - apply Hmono, (sort_Slice_sorted hash_less).
  - intros h'' ->. unfold AssemblyGraph_Roots in *.
    destruct (Root a) as [|arr n] eqn:Ea.
    { exists []. split; [reflexivity|constructor]. }
    assert (Hpre : sorted_prefix arr n (AssemblyHash a h).2).
    { unfold AssemblyHash. rewrite (bind_Ok _ _ _ _ _ Hid).
      assert (Hh1 : sorted_prefix arr n h1).
      { apply slice_read_Ok in Hr1 as [_ (xs & Hxs & Hs)]. exists xs. split; [done|].
        rewrite <-Hs. apply (sort_Slice_sorted hash_less). }
      revert Hh1. generalize h1. apply preserves_bind.
      { destruct (Vertices a);
          [apply preserves_load_nodes|apply (preserves_ret _ (∅ : gmap NodeHash Value))]. }
      intros vs. apply preserves_bind; [|intros; apply preserves_ret].
      apply preserves_foldl; [|apply preserves_ret].
      intros acc from Hacc. apply preserves_bind; [done|]. intros d.
      apply preserves_bind; [apply preserves_adjacency_get|]. intros s.
      apply preserves_bind; [apply sort_in_place_sorted_prefix|]. intros _.
      apply preserves_bind; [apply preserves_slice_read|]. intros; apply preserves_ret. }
    destruct Hpre as (xs & Hxs & Hs). exists (take n xs).
    split; [by apply slice_read_Slice|by apply Hmono].
Qed.

Lemma AssemblyID_sorts_roots_witness :
  let r1 := pad20 [x01] in
  let r2 := pad20 [x02] in
  let a := Graph (Slice 1 2) None None in
  let h := {[ 1%positive := OArray [r2; r1] ]} : heap in
  slice_read (AssemblyGraph_Roots a) (AssemblyID a h).2 =
  (Ok (sort_Slice hash_less [r2; r1]), (AssemblyID a h).2).
Proof.
  intros r1 r2 a h.
  assert (Hr : slice_read (AssemblyGraph_Roots a) h = (Ok [r2; r1], h))
    by (vm_compute; reflexivity).
  exact (proj1 (proj1 (AssemblyID_sorts_roots_in_place a h [r2; r1] Hr)
                      (AssemblyID a h).2 eq_refl)).
Defined.

(** ** The change engine: PartialDiff *)

Section PartialDiff.
Import neo4jengine.
Context (s partial : snapshot).

Definition is_created (kv : ComponentID * ComponentHash) : Prop := s !! kv.1 = None.
Definition is_updated (kv : ComponentID * ComponentHash) : Prop :=
  match s !! kv.1 with Some old => old ≠ kv.2 | None => False end.
Definition is_removed (id : ComponentID) : Prop := id ∈ dom s ∧ id ∉ dom partial.

#[global] Instance is_created_dec kv : Decision (is_created kv).
Proof. unfold is_created. apply _. Defined.
#[global] Instance is_updated_dec kv : Decision (is_updated kv).
Proof. unfold is_updated. destruct (s !! kv.1); apply _. Defined.
#[global] Instance is_removed_dec id : Decision (is_removed id).
Proof. unfold is_removed. apply _. Defined.

Lemma PartialDiff_loop1 order created updated :
  foldl (λ '(created, updated) '(id, newHash),
           match s !! id with
           | None => (created ++ [id], updated)
           | Some oldHash =>
               if decide (oldHash ≠ newHash) then (created, updated ++ [id])
               else (created, updated)
           end)
        (created, updated) order
  = (created ++ (filter is_created order).*1, updated ++ (filter is_updated order).*1).
Proof.
  revert created updated. induction order as [|[id new] order IH]; intros created updated.
  - simpl. by rewrite !app_nil_r.
  - simpl. rewrite !filter_cons.
    destruct (decide (is_created (id, new))) as [Hc|Hc];
      destruct (decide (is_updated (id, new))) as [Hu|Hu];
      unfold is_created, is_updated in Hc, Hu; simpl in Hc, Hu;
      destruct (s !! id) as [old|] eqn:E; try done.
    + rewrite IH. simpl. by rewrite <-app_assoc.
    + rewrite decide_True by done. rewrite IH. simpl. by rewrite <-app_assoc.
    + destruct (decide (old ≠ new)); [done|]. by rewrite IH.
Qed.

Lemma PartialDiff_loop2 dirtyRoots removed :
  foldl (λ removed id,
           let wasRoot := bool_decide (is_Some (s !! id)) in
           let nowRoot := bool_decide (is_Some (partial !! id)) in
           if negb nowRoot && wasRoot then removed ++ [id] else removed)
        removed dirtyRoots
  = removed ++ filter is_removed dirtyRoots.
Proof.
  revert removed. induction dirtyRoots as [|id l IH]; intros removed; simpl.
  - by rewrite app_nil_r.
  - rewrite IH, filter_cons.
    destruct (decide (is_removed id)) as [Hr|Hr]; unfold is_removed in Hr;
      rewrite !elem_of_dom in Hr.
    + destruct Hr as [H1 H2].
      rewrite (bool_decide_eq_true_2 _ H1), (bool_decide_eq_false_2 _ H2). simpl.
      by rewrite <-app_assoc.
    + destruct (bool_decide (is_Some (partial !! id))) eqn:E1;
        destruct (bool_decide (is_Some (s !! id))) eqn:E2; simpl; try done.
      exfalso. apply Hr. split.
      * by apply bool_decide_eq_true in E2.
      * by apply bool_decide_eq_false in E1.
Qed.

Lemma PartialDiffIn_unfold order dirtyRoots :
  PartialDiffIn order s partial dirtyRoots =
  ((filter is_created order).*1, (filter is_updated order).*1,
   filter is_removed dirtyRoots).
Proof.
  unfold PartialDiffIn. rewrite PartialDiff_loop1, PartialDiff_loop2. done.
Qed.

End PartialDiff.

(** The three lists of [PartialDiffIn], by membership. *)
Lemma PartialDiffIn_lists
    (S P : gmap ComponentID ComponentHash) (D : list ComponentID)
    (order : list (ComponentID * ComponentHash))
    (created updated removed : list ComponentID) :
  order ≡ₚ range_map P →
  neo4jengine.PartialDiffIn order S P D = (created, updated, removed) →
  (∀ id, id ∈ created ↔ id ∈ dom P ∧ id ∉ dom S)
  ∧ NoDup created
  ∧ (∀ id, id ∈ updated ↔
           ∃ old new, S !! id = Some old ∧ P !! id = Some new ∧ old ≠ new)
  ∧ NoDup updated
  ∧ removed = filter (λ id, id ∈ dom S ∧ id ∉ dom P) D
  ∧ (∀ id hash, P !! id = Some hash → S !! id = Some hash →
                (id ∉ created) ∧ (id ∉ updated) ∧ (id ∉ removed)).
Proof.
  intros Hp. rewrite PartialDiffIn_unfold. intros [= <- <- <-].
  assert (Hin : ∀ id new, (id, new) ∈ order ↔ P !! id = Some new).
  { intros id new. rewrite Hp. unfold range_map. apply elem_of_map_to_list. }
  assert (Hnd : NoDup order.*1).
  { rewrite Hp. apply NoDup_fst_map_to_list. }
  assert (Hc : ∀ id, id ∈ (filter (is_created S) order).*1 ↔ id ∈ dom P ∧ id ∉ dom S).
  { intros id. rewrite list_elem_of_fmap. split.
    - intros ([id' new] & -> & [Hcr Ho]%list_elem_of_filter). simpl.
      apply Hin in Ho. unfold is_created in Hcr. simpl in Hcr.
      rewrite elem_of_dom, not_elem_of_dom. eauto.
    - intros [[new Hnew]%elem_of_dom Hs%not_elem_of_dom].
      exists (id, new). split; [done|]. apply list_elem_of_filter. split; [done|].
      by apply Hin. }
  assert (Hu : ∀ id, id ∈ (filter (is_updated S) order).*1 ↔
                     ∃ old new, S !! id = Some old ∧ P !! id = Some new ∧ old ≠ new).
  { intros id. rewrite list_elem_of_fmap. split.
    - intros ([id' new] & -> & [Hup Ho]%list_elem_of_filter). simpl.
      apply Hin in Ho. unfold is_updated in Hup. simpl in Hup.
      destruct (S !! id') as [old|] eqn:E; [|done]. eauto.
    - intros (old & new & Hs & Hnew & Hne).
      exists (id, new). split; [done|]. apply list_elem_of_filter. split.
      + unfold is_updated. simpl. by rewrite Hs.
      + by apply Hin. }
  assert (Hsub : ∀ (Q : ComponentID * ComponentHash → Prop) `{!∀ x, Decision (Q x)},
                   NoDup (filter Q order).*1).
  { intros Q ?. eapply sublist_NoDup; [exact Hnd|]. apply fmap_sublist, sublist_filter. }
  split; [exact Hc|]. split; [apply Hsub|]. split; [exact Hu|]. split; [apply Hsub|].
  split; [done|].
  intros id hash HP HS. split; [|split].
  - rewrite Hc, not_elem_of_dom. intros [_ ?]. congruence.
  - rewrite Hu. intros (old & new & ? & ? & ?). congruence.
  - rewrite list_elem_of_filter. unfold is_removed. rewrite not_elem_of_dom.
    intros [[_ ?] _]. congruence.
Qed.

(** C1. PartialDiff(S, P, D): created holds exactly the ids of P that are
    not keys of S, updated exactly the ids of both whose hashes differ (each
    once, in the order the range over P visits them), removed is D filtered
    to the ids that are keys of S but not of P; an id with the same hash in
    both is in none of the three lists. *)
Theorem PartialDiff_exact
    (S P : gmap ComponentID ComponentHash) (D : list ComponentID)
    (order : list (ComponentID * ComponentHash))
    (created updated removed : list ComponentID) :
  order ≡ₚ range_map P →
  neo4jengine.PartialDiffIn order S P D = (created, updated, removed) →
  (∀ id, id ∈ created ↔ id ∈ dom P ∧ id ∉ dom S)
  ∧ NoDup created
  ∧ (∀ id, id ∈ updated ↔
           ∃ old new, S !! id = Some old ∧ P !! id = Some new ∧ old ≠ new)
  ∧ NoDup updated
  ∧ removed = filter (λ id, id ∈ dom S ∧ id ∉ dom P) D
  ∧ (∀ id hash, P !! id = Some hash → S !! id = Some hash →
                (id ∉ created) ∧ (id ∉ updated) ∧ (id ∉ removed)).
Proof.
  intros Hp. rewrite PartialDiffIn_unfold. intros [= <- <- <-].
  assert (Hin : ∀ id new, (id, new) ∈ order ↔ P !! id = Some new).
  { intros id new. rewrite Hp. unfold range_map. apply elem_of_map_to_list. }
  assert (Hnd : NoDup order.*1).
  { rewrite Hp. apply NoDup_fst_map_to_list. }
  assert (Hc : ∀ id, id ∈ (filter (is_created S) order).*1 ↔ id ∈ dom P ∧ id ∉ dom S).
  { intros id. rewrite list_elem_of_fmap. split.
    - intros ([id' new] & -> & [Hcr Ho]%list_elem_of_filter). simpl.
      apply Hin in Ho. unfold is_created in Hcr. simpl in Hcr.
      rewrite elem_of_dom, not_elem_of_dom. eauto.
    - intros [[new Hnew]%elem_of_dom Hs%not_elem_of_dom].
      exists (id, new). split; [done|]. apply list_elem_of_filter. split; [done|].
      by apply Hin. }
  assert (Hu : ∀ id, id ∈ (filter (is_updated S) order).*1 ↔
                     ∃ old new, S !! id = Some old ∧ P !! id = Some new ∧ old ≠ new).
  { intros id. rewrite list_elem_of_fmap. split.
    - intros ([id' new] & -> & [Hup Ho]%list_elem_of_filter). simpl.
      apply Hin in Ho. unfold is_updated in Hup. simpl in Hup.
      destruct (S !! id') as [old|] eqn:E; [|done]. eauto.
    - intros (old & new & Hs & Hnew & Hne).
      exists (id, new). split; [done|]. apply list_elem_of_filter. split.
      + unfold is_updated. simpl. by rewrite Hs.
      + by apply Hin. }
  assert (Hsub : ∀ (Q : ComponentID * ComponentHash → Prop) `{!∀ x, Decision (Q x)},
                   NoDup (filter Q order).*1).
  { intros Q ?. eapply sublist_NoDup; [exact Hnd|]. apply fmap_sublist, sublist_filter. }
  split; [exact Hc|]. split; [apply Hsub|]. split; [exact Hu|]. split; [apply Hsub|].
  split; [done|].
  intros id hash HP HS. split; [|split].
  - rewrite Hc, not_elem_of_dom. intros [_ ?]. congruence.
  - rewrite Hu. intros (old & new & ? & ? & ?). congruence.
  - rewrite list_elem_of_filter. unfold is_removed. rewrite not_elem_of_dom.
    intros [[_ ?] _]. congruence.
Qed.

Lemma PartialDiff_exact_witness :
  let idA := pad20 [x0a] in
  let idB := pad20 [x0b] in
  let idC := pad20 [x0c] in
  let S : gmap ComponentID ComponentHash := <[idA := pad20 [x01]]> {[ idB := pad20 [x02] ]} in
  let P : gmap ComponentID ComponentHash := <[idA := pad20 [x03]]> {[ idC := pad20 [x04] ]} in
  (∀ id, id ∈ [idC] ↔ id ∈ dom P ∧ id ∉ dom S)
  ∧ NoDup [idC]
  ∧ (∀ id, id ∈ [idA] ↔
           ∃ old new, S !! id = Some old ∧ P !! id = Some new ∧ old ≠ new)
  ∧ NoDup [idA]
  ∧ [idB] = filter (λ id, id ∈ dom S ∧ id ∉ dom P) [idB; idC]
  ∧ (∀ id hash, P !! id = Some hash → S !! id = Some hash →
                (id ∉ [idC]) ∧ (id ∉ [idA]) ∧ (id ∉ [idB])).
Proof.
  intros idA idB idC S P.
  apply (PartialDiff_exact S P [idB; idC] (range_map P) [idC] [idA] [idB]).
  - reflexivity.
  - vm_compute. reflexivity.
Defined.

(** ** The change engine: Update and WhatChanged *)

Section WhatChanged.
Import neo4jengine.

(** The snapshot obtained "by adding each created entry, replacing each
    updated entry, and deleting each removed entry" (the specification's
    words), written without reference to [Update]. *)
Definition add_entry (s : snapshot) (a : option Assembly) : snapshot :=
  match a with
  | Some a => <[Assembly_AssemblyID a := Assembly_AssemblyHash a]> s
  | None => s
  end.
Definition merge_changes (s : snapshot) (changes : GraphChanged) : snapshot :=
  let s := foldl (λ s c, add_entry s (created_Assembly c)) s (Created changes) in
  let s := foldl (λ s u, add_entry s (updated_Assembly u)) s (Updated changes) in
  foldl (λ s r, delete (removed_ID r) s) s (Removed changes).

Lemma foldl_result_stop {A B} (step : result B → A → result B) (l : list A) r :
  (∀ x, step (Err r) x = Err r) → foldl step (Err r) l = Err r.
Proof. intros H. induction l as [|x l IH]; simpl; [done|]. by rewrite H. Qed.

Lemma Update_loop {A} (get : A → option Assembly) (l : list A) (s s' : snapshot) :
  foldl (λ (acc : result snapshot) x,
           s ← acc;
           id ← call_AssemblyID (get x);
           hash ← call_AssemblyHash (get x);
           Ok (<[id := hash]> s))
        (Ok s) l = Ok s' →
  Forall (λ x, is_Some (get x)) l
  ∧ s' = foldl (λ s x, add_entry s (get x)) s l.
Proof.
  revert s. induction l as [|x l IH]; intros s; simpl.
  - by intros [= ->].
  - destruct (get x) as [a|] eqn:E; simpl.
    + intros [Hall ->]%IH. split; [|done].
      constructor; [by eexists|done].
    + intros H. exfalso. revert H.
      assert (∀ msg, foldl (λ (acc : result snapshot) x,
           s ← acc;
           id ← call_AssemblyID (get x);
           hash ← call_AssemblyHash (get x);
           Ok (<[id := hash]> s)) (Panic msg) l = Panic msg) as ->; [|done].
      intros msg. clear. induction l as [|y l IH]; simpl; [done|]. apply IH.
Qed.

Lemma Update_Ok s changes s' :
  Update s changes = Ok s' →
  s' = merge_changes s changes
  ∧ Forall (λ c, is_Some (created_Assembly c)) (Created changes)
  ∧ Forall (λ u, is_Some (updated_Assembly u)) (Updated changes).
Proof.
  unfold Update, merge_changes.
  destruct (foldl _ (Ok s) (Created changes)) as [s1| |] eqn:E1; simpl; try done.
  apply Update_loop in E1 as [Hc ->].
  destruct (foldl _ (Ok _) (Updated changes)) as [s2| |] eqn:E2; simpl; try done.
  apply Update_loop in E2 as [Hu ->].
  by intros [= <-].
Qed.

(** The loop of WhatChanged over the fetched assemblies. *)
Definition scan (s : snapshot) (assemblies : list Assembly)
  : snapshot * gmap ComponentID Assembly * nat :=
  foldl (λ '(next, changedAssemblies, rootlessAssemblies) a,
           let next : snapshot :=
             <[Assembly_AssemblyID a := Assembly_AssemblyHash a]> next in
           let changedAssemblies : gmap ComponentID Assembly :=
             if negb (ContainsAssembly s a)
             then <[Assembly_AssemblyID a := a]> changedAssemblies
             else changedAssemblies in
           let rootlessAssemblies :=
             if decide (length (Assembly_Roots a) = 0)%nat
             then S rootlessAssemblies else rootlessAssemblies in
           (next, changedAssemblies, rootlessAssemblies))
        (∅, ∅, 0%nat) assemblies.

Definition scan_inv (s next : snapshot) (changed : gmap ComponentID Assembly) : Prop :=
  (∀ id a, changed !! id = Some a → Assembly_AssemblyID a = id)
  ∧ (∀ id h, next !! id = Some h → s !! id ≠ Some h →
       ∃ a, changed !! id = Some a ∧ Assembly_AssemblyHash a = h).

Lemma scan_invariant s assemblies next changed rootless :
  scan s assemblies = (next, changed, rootless) → scan_inv s next changed.
Proof.
  unfold scan.
  assert (Hgen : ∀ l next0 changed0 rootless0,
    scan_inv s next0 changed0 →
    ∀ next changed rootless,
    foldl (λ '(next, changedAssemblies, rootlessAssemblies) a,
           let next : snapshot :=
             <[Assembly_AssemblyID a := Assembly_AssemblyHash a]> next in
           let changedAssemblies : gmap ComponentID Assembly :=
             if negb (ContainsAssembly s a)
             then <[Assembly_AssemblyID a := a]> changedAssemblies
             else changedAssemblies in
           let rootlessAssemblies :=
             if decide (length (Assembly_Roots a) = 0)%nat
             then S rootlessAssemblies else rootlessAssemblies in
           (next, changedAssemblies, rootlessAssemblies))
        (next0, changed0, rootless0) l = (next, changed, rootless) →
    scan_inv s next changed).
  { induction l as [|a l IH]; intros next0 changed0 rootless0 Hinv next' changed' rootless'.
    - simpl. by intros [= <- <- <-].
    - simpl. apply IH. destruct Hinv as [Ha Hb]. split.
      + intros id a'. destruct (ContainsAssembly s a); simpl; [apply Ha|].
        destruct (decide (Assembly_AssemblyID a = id)) as [<-|Hne].
        * rewrite lookup_insert_eq. by intros [= <-].
        * rewrite lookup_insert_ne by done. apply Ha.
      + intros id h. destruct (decide (Assembly_AssemblyID a = id)) as [<-|Hne].
        * rewrite lookup_insert_eq. intros [= <-] Hs.
          unfold ContainsAssembly.
          destruct (s !! Assembly_AssemblyID a) as [h0|] eqn:E; simpl.
          -- rewrite bool_decide_eq_false_2 by congruence. simpl.
             rewrite lookup_insert_eq. eauto.
          -- rewrite lookup_insert_eq. eauto.
        * rewrite lookup_insert_ne by done. intros Hn Hs.
          destruct (Hb id h Hn Hs) as (a' & Ha' & Hh). exists a'. split; [|done].
          destruct (ContainsAssembly s a); simpl; [done|].
          by rewrite lookup_insert_ne. }
  apply Hgen. split; intros ??; by rewrite lookup_empty.
Qed.

Lemma ClearTaints_snapshot e :
  engine_snapshot (ClearTaints e).2 = engine_snapshot e.
Proof. unfold ClearTaints. by destruct (taintedNodes e). Qed.

Lemma ClearTaints_drains e : taintedNodes (ClearTaints e).2 = None.
Proof. unfold ClearTaints. by destruct (taintedNodes e) eqn:E. Qed.

Lemma fetchTaintedAssemblies_engine env e :
  (fetchTaintedAssemblies env e).2 = (ClearTaints e).2.
Proof.
  unfold fetchTaintedAssemblies. destruct (ClearTaints e) as [taints e0]. simpl.
  by destruct (fetchPartialAssemblies env taints).
Qed.

(** The loop of WhatChanged over the taints. *)
Definition dirtyRootsOf (env : Backend) (taints : list RawNode)
  : result (list ComponentID) :=
  foldl (λ (acc : result (list ComponentID)) n,
           dirtyRoots ← acc;
           id ← wrapErr "component from" (componentID env n);
           Ok (dirtyRoots ++ [id]))
        (Ok []) taints.

(** The changeset WhatChanged assembles before it touches the snapshot. *)
Definition draft (env : Backend) (s : snapshot)
    (changed : gmap ComponentID Assembly)
    (created updated removed : list ComponentID) : GraphChanged :=
  MkGraphChanged
    (GraphHash s)
    ((λ id, MkCreated (changed !! id)) <$> created)
    ((λ id, MkUpdated (map_index s id) (changed !! id)) <$> updated)
    ((λ id, MkRemoved id (map_index s id)) <$> removed)
    zeroAddress
    (now env).

(** WhatChanged, step by step. *)
Lemma WhatChanged_unfold env e :
  WhatChanged env e =
  let e0 := (fetchTaintedAssemblies env e).2 in
  match (fetchTaintedAssemblies env e).1 with
  | Panic msg => (Panic msg, e0)
  | Err err => (Ok (zeroGraphChanged, Some (Wrap "fetch tainted assemblies" err)), e0)
  | Ok (taints, assemblies) =>
      let '(next, changed, rootless) := scan (engine_snapshot e0) assemblies in
      match dirtyRootsOf env taints with
      | Panic msg => (Panic msg, e0)
      | Err err => (Ok (zeroGraphChanged, Some err), e0)
      | Ok dirtyRoots =>
          let s := engine_snapshot e0 in
          let '(created, updated, removed) := PartialDiff s next dirtyRoots in
          let changes := draft env s changed created updated removed in
          if decide (0 < rootless)%nat
          then (Ok (changes, Some errFoundRootlessAssemblies), e0)
          else
            match Update s changes with
            | Panic msg => (Panic msg, e0)
            | Err err => (Err err, e0)
            | Ok s' =>
                (Ok (MkGraphChanged (GraphBefore changes) (Created changes)
                       (Updated changes) (Removed changes)
                       (GraphHash s') (Timestamp changes), None),
                 MkEngine s' (taintedNodes e0))
            end
      end
  end.
Proof.
  unfold WhatChanged. destruct (fetchTaintedAssemblies env e) as [[[taints assemblies]| |] e0];
    reflexivity.
Qed.

(** Whenever WhatChanged returns an error, the snapshot is the one it
    started from; whatever it returns, the taint set has been drained. *)
Lemma WhatChanged_error_keeps_snapshot env e changes err e' :
  WhatChanged env e = (Ok (changes, Some err), e') →
  engine_snapshot e' = engine_snapshot e ∧ taintedNodes e' = None.
Proof.
  rewrite WhatChanged_unfold. cbv zeta. rewrite fetchTaintedAssemblies_engine.
  pose proof (ClearTaints_snapshot e) as Hs. pose proof (ClearTaints_drains e) as Ht.
  destruct (fetchTaintedAssemblies env e).1 as [[taints assemblies]| |].
  - destruct (scan _ assemblies) as [[next changed] rootless].
    destruct (dirtyRootsOf env taints) as [dirtyRoots| |]; [|by intros [= <- <- <-]|done].
    destruct (PartialDiff _ next dirtyRoots) as [[created updated] removed].
    destruct (decide (0 < rootless)%nat); [by intros [= <- <- <-]|].
    destruct (Update _ _); intros [=].
  - by intros [= <- <- <-].
  - done.
Qed.

Lemma WhatChanged_success env e changes e' :
  WhatChanged env e = (Ok (changes, None), e') →
  ∃ assemblies next changed rootless dirtyRoots created updated removed,
    let s := engine_snapshot e in
    scan s assemblies = (next, changed, rootless)
    ∧ PartialDiff s next dirtyRoots = (created, updated, removed)
    ∧ Update s (draft env s changed created updated removed)
      = Ok (engine_snapshot e')
    ∧ changes = MkGraphChanged
                  (GraphHash s)
                  ((λ id, MkCreated (changed !! id)) <$> created)
                  ((λ id, MkUpdated (map_index s id) (changed !! id)) <$> updated)
                  ((λ id, MkRemoved id (map_index s id)) <$> removed)
                  (GraphHash (engine_snapshot e'))
                  (now env).
Proof.
  rewrite WhatChanged_unfold. cbv zeta. rewrite fetchTaintedAssemblies_engine.
  rewrite (ClearTaints_snapshot e).
  destruct (fetchTaintedAssemblies env e).1 as [[taints assemblies]| |]; [|done..].
  destruct (scan _ assemblies) as [[next changed] rootless] eqn:Escan.
  destruct (dirtyRootsOf env taints) as [dirtyRoots| |]; [|done..].
  destruct (PartialDiff _ next dirtyRoots) as [[created updated] removed] eqn:Ediff.
  destruct (decide (0 < rootless)%nat); [done|].
  destruct (Update _ _) as [s'| |] eqn:Eup; [|done..].
  intros [= <- <-]. simpl.
  exists assemblies, next, changed, rootless, dirtyRoots, created, updated, removed.
  done.
Qed.

Lemma lookup_foldl_entries {A} (mk : ComponentID → A) (get : A → option Assembly)
    (changed : gmap ComponentID Assembly) (next : snapshot)
    (ids : list ComponentID) (s : snapshot) (k : ComponentID) :
  (∀ id, get (mk id) = changed !! id) →
  (∀ id, id ∈ ids → ∃ a, changed !! id = Some a ∧ Assembly_AssemblyID a = id
                         ∧ next !! id = Some (Assembly_AssemblyHash a)) →
  foldl (λ s x, add_entry s (get x)) s (mk <$> ids) !! k =
  if decide (k ∈ ids) then next !! k else s !! k.
Proof.
  intros Hget. revert s. induction ids as [|id ids IH]; intros s Hids.
  - rewrite decide_False by apply not_elem_of_nil. done.
  - rewrite fmap_cons. cbn [foldl].
    rewrite IH by (intros; apply Hids; by right).
    destruct (Hids id) as (a & Ha & Hid & Hnext); [by left|].
    rewrite Hget, Ha. simpl. rewrite Hid.
    destruct (decide (k ∈ ids)) as [Hin|Hnin].
    + rewrite decide_True; [done|by right].
    + destruct (decide (k = id)) as [->|Hne].
      * rewrite decide_True by by left. by rewrite lookup_insert_eq.
      * rewrite decide_False by (by intros [?|?]%elem_of_cons).
        by rewrite lookup_insert_ne.
Qed.

Lemma lookup_foldl_delete {A} (key : A → ComponentID) (l : list A)
    (s : snapshot) (k : ComponentID) :
  foldl (λ s r, delete (key r) s) s l !! k =
  if decide (k ∈ key <$> l) then None else s !! k.
Proof.
  revert s. induction l as [|r l IH]; intros s.
  - rewrite decide_False by apply not_elem_of_nil. done.
  - rewrite fmap_cons. cbn [foldl].
    rewrite IH. destruct (decide (k ∈ key <$> l)) as [Hin|Hnin].
    + rewrite decide_True; [done|by right].
    + destruct (decide (k = key r)) as [->|Hne].
      * rewrite decide_True by by left. by rewrite lookup_delete_eq.
      * rewrite decide_False by (by intros [?|?]%elem_of_cons).
        by rewrite lookup_delete_ne.
Qed.

(** After a successful sweep the snapshot holds the fetched hash of every
    fetched component, has lost the removed ones, and is otherwise as
    before. *)
Lemma merged_lookup env s assemblies next changed rootless dirtyRoots
    created updated removed k :
  scan s assemblies = (next, changed, rootless) →
  PartialDiff s next dirtyRoots = (created, updated, removed) →
  merge_changes s (draft env s changed created updated removed) !! k =
  match next !! k with
  | Some h => Some h
  | None => if decide (k ∈ removed) then None else s !! k
  end.
Proof.
  intros [Hida Hchanged]%scan_invariant Hdiff.
  destruct (PartialDiffIn_lists s next dirtyRoots (range_map next) created updated removed)
    as (Hc & _ & Hu & _ & Hr & Hsame); [done|done|].
  unfold merge_changes, draft. cbn [Created Updated Removed].
  rewrite (lookup_foldl_delete removed_ID).
  rewrite <-list_fmap_compose. simpl. rewrite list_fmap_id.
  rewrite (lookup_foldl_entries _ updated_Assembly changed next); [|done|].
  2:{ intros id (old & new & Hs & Hn & Hne)%Hu.
      destruct (Hchanged id new Hn) as (a & Ha & Hh); [congruence|].
      exists a. rewrite Hh. eauto. }
  rewrite (lookup_foldl_entries _ created_Assembly changed next); [|done|].
  2:{ intros id [[new Hn]%elem_of_dom Hs%not_elem_of_dom]%Hc.
      destruct (Hchanged id new Hn) as (a & Ha & Hh); [congruence|].
      exists a. rewrite Hh. eauto. }
  destruct (next !! k) as [h|] eqn:En.
  - rewrite decide_False.
    2:{ rewrite Hr, list_elem_of_filter, not_elem_of_dom. intros [[_ ?] _]. congruence. }
    destruct (decide (k ∈ updated)); [done|].
    destruct (decide (k ∈ created)) as [|Hnc]; [done|].
    destruct (s !! k) as [old|] eqn:Es.
    + destruct (decide (old = h)) as [->|Hne]; [done|].
      exfalso. apply n. apply Hu. eauto.
    + exfalso. apply Hnc, Hc. rewrite elem_of_dom, not_elem_of_dom. eauto.
  - destruct (decide (k ∈ removed)); [done|].
    rewrite decide_False.
    2:{ rewrite Hu. intros (?&?&?&?&?). congruence. }
    rewrite decide_False; [done|].
    rewrite Hc, elem_of_dom. intros [[? ?] _]. congruence.
Qed.

End WhatChanged.

(** C3. On a successful WhatChanged, GraphBefore is the ForestHash of the
    snapshot the call started from and GraphAfter the ForestHash of the
    snapshot obtained from it by adding each created entry, replacing each
    updated entry and deleting each removed entry, which is the snapshot the
    engine keeps.  Entry by entry: a created component was absent and is now
    present with its hash, an updated one had its baseline hash and now has
    its new one, a removed one was present with the reported hash and is now
    absent, and every other component is as before. *)
Theorem WhatChanged_graph_hashes
    (env : neo4jengine.Backend) (e e' : neo4jengine.Engine) (changes : GraphChanged) :
  neo4jengine.WhatChanged env e = (Ok (changes, None), e') →
  let S := neo4jengine.engine_snapshot e in
  let S' := neo4jengine.engine_snapshot e' in
  GraphBefore changes = HashComponents S
  ∧ GraphAfter changes = HashComponents (merge_changes S changes)
  ∧ S' = merge_changes S changes
  ∧ Forall (λ c, ∃ a, created_Assembly c = Some a
                      ∧ S !! Assembly_AssemblyID a = None
                      ∧ S' !! Assembly_AssemblyID a = Some (Assembly_AssemblyHash a))
           (Created changes)
  ∧ Forall (λ u, ∃ a, updated_Assembly u = Some a
                      ∧ S !! Assembly_AssemblyID a = Some (Baseline u)
                      ∧ Baseline u ≠ Assembly_AssemblyHash a
                      ∧ S' !! Assembly_AssemblyID a = Some (Assembly_AssemblyHash a))
           (Updated changes)
  ∧ Forall (λ r, S !! removed_ID r = Some (removed_Hash r)
                 ∧ S' !! removed_ID r = None)
           (Removed changes)
  ∧ (∀ id,
       (∀ c a, c ∈ Created changes → created_Assembly c = Some a →
               Assembly_AssemblyID a ≠ id) →
       (∀ u a, u ∈ Updated changes → updated_Assembly u = Some a →
               Assembly_AssemblyID a ≠ id) →
       (∀ r, r ∈ Removed changes → removed_ID r ≠ id) →
       S' !! id = S !! id).
Proof.
  intros Hw S S'.
  destruct (WhatChanged_success env e changes e' Hw)
    as (assemblies & next & changed & rootless & dirtyRoots & created & updated
        & removed & Hscan & Hdiff & Hup & Hchanges).
  fold S in Hscan, Hdiff, Hup, Hchanges. fold S' in Hup, Hchanges.
  apply Update_Ok in Hup as (Hmerge & _ & _).
  assert (Hm : merge_changes S changes = S').
  { rewrite Hmerge, Hchanges. reflexivity. }
  assert (Hlook : ∀ k, S' !! k = match next !! k with
                                 | Some h => Some h
                                 | None => if decide (k ∈ removed) then None else S !! k
                                 end).
  { intros k. rewrite Hmerge. by eapply merged_lookup. }
  pose proof Hscan as [Hida Hchanged]%scan_invariant.
  destruct (PartialDiffIn_lists S next dirtyRoots (range_map next) created updated removed)
    as (Hc & _ & Hu & _ & Hr & Hsame); [done|done|].
  assert (Hcreated : ∀ id, id ∈ created →
            ∃ a, changed !! id = Some a ∧ Assembly_AssemblyID a = id
                 ∧ S !! id = None ∧ next !! id = Some (Assembly_AssemblyHash a)).
  { intros id [[new Hn]%elem_of_dom Hs%not_elem_of_dom]%Hc.
    destruct (Hchanged id new Hn) as (a & Ha & Hh); [congruence|].
    exists a. rewrite Hh. eauto. }
  assert (Hupdated : ∀ id, id ∈ updated →
            ∃ a old, changed !! id = Some a ∧ Assembly_AssemblyID a = id
                 ∧ S !! id = Some old ∧ old ≠ Assembly_AssemblyHash a
                 ∧ next !! id = Some (Assembly_AssemblyHash a)).
  { intros id (old & new & Hs & Hn & Hne)%Hu.
    destruct (Hchanged id new Hn) as (a & Ha & Hh); [congruence|].
    exists a, old. rewrite Hh. eauto 10. }
  rewrite Hm. subst changes. cbn [GraphBefore GraphAfter Created Updated Removed].
  split; [done|]. split; [done|]. split; [done|].
  split; [|split; [|split]].
  - apply Forall_fmap, Forall_forall. intros id (a & Ha & Hid & Hs & Hn)%Hcreated.
    exists a. simpl. rewrite Hid, Hlook, Hn. done.
  - apply Forall_fmap, Forall_forall.
    intros id (a & old & Ha & Hid & Hs & Hne & Hn)%Hupdated.
    exists a. simpl. rewrite Hid, Hlook, Hn. unfold map_index. rewrite Hs. done.
  - apply Forall_fmap, Forall_forall. intros id Hin. simpl.
    pose proof Hin as Hin'. rewrite Hr, list_elem_of_filter in Hin'.
    destruct Hin' as [[[old Hs]%elem_of_dom Hn%not_elem_of_dom] _].
    unfold map_index. rewrite Hs, Hlook, Hn. simpl. by rewrite decide_True.
  - intros id Hnc Hnu Hnr. rewrite Hlook.
    assert (id ∉ created) as Hc'.
    { intros Hin. pose proof Hin as (a & Ha & Hid & _)%Hcreated.
      apply (Hnc (MkCreated (changed !! id)) a); [|done|done].
      apply list_elem_of_fmap. by exists id. }
    assert (id ∉ updated) as Hu'.
    { intros Hin. pose proof Hin as (a & old & Ha & Hid & _)%Hupdated.
      apply (Hnu (MkUpdated (map_index S id) (changed !! id)) a); [|done|done].
      apply list_elem_of_fmap. by exists id. }
    assert (id ∉ removed) as Hr'.
    { intros Hin. apply (Hnr (MkRemoved id (map_index S id))); [|done].
      apply list_elem_of_fmap. by exists id. }
    destruct (next !! id) as [h|] eqn:En.
    + destruct (S !! id) as [old|] eqn:Es.
      * destruct (decide (old = h)) as [->|Hne]; [done|].
        exfalso. apply Hu', Hu. eauto.
      * exfalso. apply Hc', Hc. rewrite elem_of_dom, not_elem_of_dom. eauto.
    + by rewrite decide_False.
Qed.

(** *** A concrete engine *)

(** One registered payload type without fields, a node of it, and the
    assembly made of that node alone. *)
Definition NodeA : Value :=
  MkValue "enginetest" "NodeA" (RV no_methods (KStruct [marker_field])).
Definition hashA : NodeHash :=
  match ContentAddress NodeA with Ok h => h | _ => zeroAddress end.
Definition taintA : neo4jengine.RawNode := neo4jengine.MkRawNode "NodeA" hashA [] [].
Definition treeA : Assembly :=
  MkAssembly (sha1_Sum hashA) (sha1_Sum (sha1_Sum hashA ++ hashA)) [hashA].
Definition registry (n : neo4jengine.RawNode) : result Value :=
  if decide (neo4jengine.Label n = "NodeA") then Ok NodeA
  else Err (Error "unregistered label").

(** A transaction on a database that holds the single node A, a session
    that runs it and commits, and a database that cannot be reached. *)
Definition txA : neo4jengine.transaction := λ _, ([treeA], Ok ()).
Definition backendA : neo4jengine.Backend :=
  neo4jengine.MkBackend (neo4jengine.Transaction txA None None) registry 1.

(** An engine with an empty snapshot, after a write that touched A. *)
Definition engineA : neo4jengine.Engine :=
  neo4jengine.Taint [taintA] (neo4jengine.MkEngine ∅ None).

Lemma WhatChanged_graph_hashes_witness :
  match neo4jengine.WhatChanged backendA engineA with
  | (Ok (changes, None), e') =>
      GraphBefore changes = HashComponents (neo4jengine.engine_snapshot engineA)
      ∧ GraphAfter changes =
        HashComponents (merge_changes (neo4jengine.engine_snapshot engineA) changes)
  | _ => False
  end.
Proof.
  assert (∃ changes e',
            neo4jengine.WhatChanged backendA engineA = (Ok (changes, None), e'))
    as (changes & e' & E) by (eexists _, _; vm_compute; reflexivity).
  pose proof (WhatChanged_graph_hashes backendA engineA e' changes E) as H.
  rewrite E. split; [exact (proj1 H)|exact (proj1 (proj2 H))].
Defined.

(** *** Failed sweeps *)

Lemma scan_rootless s assemblies next changed rootless :
  scan s assemblies = (next, changed, rootless) →
  Exists (λ a, Assembly_Roots a = []) assemblies → (0 < rootless)%nat.
Proof.
  unfold scan.
  assert (Hgen : ∀ l next0 changed0 rootless0 next changed rootless,
    foldl (λ '(next, changedAssemblies, rootlessAssemblies) a,
           let next : gmap ComponentID ComponentHash :=
             <[Assembly_AssemblyID a := Assembly_AssemblyHash a]> next in
           let changedAssemblies : gmap ComponentID Assembly :=
             if negb (neo4jengine.ContainsAssembly s a)
             then <[Assembly_AssemblyID a := a]> changedAssemblies
             else changedAssemblies in
           let rootlessAssemblies :=
             if decide (length (Assembly_Roots a) = 0)%nat
             then S rootlessAssemblies else rootlessAssemblies in
           (next, changedAssemblies, rootlessAssemblies))
        (next0, changed0, rootless0) l = (next, changed, rootless) →
    (rootless0 ≤ rootless)%nat
    ∧ (Exists (λ a, Assembly_Roots a = []) l → (rootless0 < rootless)%nat)).
  { induction l as [|a l IH]; intros next0 changed0 rootless0 next' changed' rootless'.
    - simpl. intros [= <- <- <-]. split; [lia|]. by intros ?%Exists_nil.
    - simpl. intros [Hle Hex]%IH.
      destruct (decide (length (Assembly_Roots a) = 0)%nat) as [Hz|Hnz].
      + split; lia.
      + split; [done|]. intros [Ha|Hl]%Exists_cons; [|by apply Hex].
        rewrite Ha in Hnz. done. }
  intros H Hex. by apply (Hgen _ _ _ _ _ _ _ H).
Qed.

(** The branch of WhatChanged for rootless assemblies: were a fetched
    assembly without a root (and the component ids of the taints
    computed), WhatChanged would return the sentinel error with the
    snapshot it started from, and with the taints gone. *)
Lemma WhatChanged_rootless_returns_sentinel env e taints assemblies dirtyRoots :
  (neo4jengine.fetchTaintedAssemblies env e).1 = Ok (taints, assemblies) →
  dirtyRootsOf env taints = Ok dirtyRoots →
  Exists (λ a, Assembly_Roots a = []) assemblies →
  ∃ changes e',
    neo4jengine.WhatChanged env e
      = (Ok (changes, Some neo4jengine.errFoundRootlessAssemblies), e')
    ∧ neo4jengine.engine_snapshot e' = neo4jengine.engine_snapshot e
    ∧ neo4jengine.taintedNodes e' = None.
Proof.
  intros Hf Hd Hex. rewrite WhatChanged_unfold. cbv zeta. rewrite Hf, Hd.
  destruct (scan _ assemblies) as [[next changed] rootless] eqn:Escan.
  destruct (neo4jengine.PartialDiff _ next dirtyRoots) as [[created updated] removed].
  rewrite decide_True by (by eapply scan_rootless).
  eexists _, _. split; [done|].
  rewrite fetchTaintedAssemblies_engine.
  split; [apply ClearTaints_snapshot|apply ClearTaints_drains].
Qed.



(** ** Relationship assertions: the calls of [OneToOne] *)

Section OneToOne.
Import assert.

(** The three calls of [OneToOne], in the order of the source. *)
Definition retractFrom (source target : Value) : call :=
  CallRetractEdges source (TypeOf target).
Definition retractTo (source target : Value) : call :=
  CallRetractEdges target (TypeOf source).
Definition oneToOneCalls (source target : Value) : list call :=
  [retractFrom source target; retractTo source target; CallAssertEdge source target].

(** A retraction that reports (with a nil error) more than one removed
    edge, and one that reports at most one. *)
Definition tooMany (r : Z * option error) : Prop := r.2 = None ∧ (1 < r.1)%Z.
Definition atMostOne (r : Z * option error) : Prop := r.2 = None ∧ (r.1 ≤ 1)%Z.

Definition wrapped (context : string) (err : option error) : option error :=
  match err with
  | Some cause => Some (Wrap context cause)
  | None => None
  end.

Lemma newGraphIntegrityError_one_to_one direction n :
  direction ∈ ["from source"; "to target"] →
  @panicIntegrity unit "one-to-one" direction n
  = Panicked (graphIntegrityMessage "one-to-one" direction n).
Proof.
  intros Hd. unfold panicIntegrity, newGraphIntegrityError.
  rewrite (bool_decide_eq_true_2 (direction ∈ _)) by done.
  by rewrite bool_decide_eq_true_2 by set_solver.
Qed.

Lemma OneToOne_specialised `{GraphWriter W} x source target (w : W) :
  AssertOneToOne = Some x → OneToOne source target w = x source target w.
Proof. unfold OneToOne. by intros ->. Qed.

Lemma OneToMany_specialised `{GraphWriter W} x source target (w : W) :
  AssertOneToMany = Some x → OneToMany source target w = x source target w.
Proof. unfold OneToMany. by intros ->. Qed.

(** C8. [OneToOne source target] on a writer without a specialised
    asserter calls, in this order, [RetractEdges source (TypeOf target)],
    [RetractEdges target (TypeOf source)] and [AssertEdge source target]:
    the calls a recording writer receives are always a prefix of these
    three, whatever the writer answers, and all three when both
    retractions report at most one removed edge, in which case [OneToOne]
    returns normally (nil, or the wrapped error of [AssertEdge]).  It
    panics, with the inconsistent-graph error, exactly when the first
    retraction reports more than one removed edge, or the first reports at
    most one and the second more than one; a retraction that fails is
    returned as a wrapped error and ends the sequence. *)
Theorem OneToOne_calls_in_order_and_panics
    (script : list call → call → Z * option error)
    (before : list call) (source target : Value) :
  let c1 := retractFrom source target in
  let c2 := retractTo source target in
  let c3 := CallAssertEdge source target in
  let r1 := script before c1 in
  let r2 := script (before ++ [c1]) c2 in
  let r3 := script (before ++ [c1; c2]) c3 in
  let run := OneToOne source target (Scripted before script) in
  (∃ made, calls run.2 = before ++ made ∧ made `prefix_of` oneToOneCalls source target) ∧
  (atMostOne r1 → atMostOne r2 →
     calls run.2 = before ++ oneToOneCalls source target ∧
     run.1 = Return () (wrapped "assert edge" r3.2)) ∧
  (tooMany r1 →
     calls run.2 = before ++ [c1] ∧
     run.1 = Panicked (graphIntegrityMessage "one-to-one" "from source" r1.1)) ∧
  (atMostOne r1 → tooMany r2 →
     calls run.2 = before ++ [c1; c2] ∧
     run.1 = Panicked (graphIntegrityMessage "one-to-one" "to target" r2.1)) ∧
  ((∃ msg, run.1 = Panicked msg) ↔ tooMany r1 ∨ (atMostOne r1 ∧ tooMany r2)) ∧
  (∀ err, r1.2 = Some err →
     calls run.2 = before ++ [c1] ∧
     run.1 = Return () (Some (Wrap "retract edges from" err))) ∧
  (∀ err, atMostOne r1 → r2.2 = Some err →
     calls run.2 = before ++ [c1; c2] ∧
     run.1 = Return () (Some (Wrap "retract edges to" err))).
Proof.
  intros c1 c2 c3 r1 r2 r3 run.
  assert (Hfrom := newGraphIntegrityError_one_to_one "from source").
  assert (Hto := newGraphIntegrityError_one_to_one "to target").
  subst run. unfold OneToOne, assertEdge, tooMany, atMostOne, oneToOneCalls.
  cbn [AssertOneToOne RetractEdges AssertEdge scripted_writer answer calls assert.script].
  change (CallRetractEdges source (TypeOf target)) with c1.
  change (CallRetractEdges target (TypeOf source)) with c2.
  change (CallAssertEdge source target) with c3.
  change (script before c1) with r1.
  destruct r1 as [n1 [e1|]]; cbn [fst snd calls assert.script].
  { split; [exists [c1]; split; [done|]; by exists [c2; c3]|].
    repeat split; intros; destruct_and?; naive_solver. }
  destruct (Z.ltb_spec 1 n1) as [H1|H1].
  { rewrite Hfrom by set_solver. cbn [fst snd calls].
    split; [exists [c1]; split; [done|]; by exists [c2; c3]|].
    repeat split; intros; destruct_and?; naive_solver lia. }
  change (script (before ++ [c1]) c2) with r2.
  destruct r2 as [n2 [e2|]]; cbn [fst snd calls assert.script].
  { rewrite <- (assoc_L (++) before [c1] [c2]). cbn [app].
    split; [exists [c1; c2]; split; [done|]; by exists [c3]|].
    repeat split; intros; destruct_and?; naive_solver lia. }
  destruct (Z.ltb_spec 1 n2) as [H2|H2].
  { rewrite Hto by set_solver. cbn [fst snd calls].
    rewrite <- (assoc_L (++) before [c1] [c2]). cbn [app].
    split; [exists [c1; c2]; split; [done|]; by exists [c3]|].
    repeat split; intros; destruct_and?; naive_solver lia. }
  rewrite <- !(assoc_L (++) before). cbn [app].
  change (script (before ++ [c1; c2]) c3) with r3.
  destruct r3 as [n3 [e3|]]; cbn [fst snd calls wrapped].
  all: split; [exists [c1; c2; c3]; split; [done|]; by exists []|].
  all: repeat split; intros; destruct_and?; naive_solver lia.
Qed.

(** A run on a graph that already held two edges from the source: the
    first retraction reports 2 and [OneToOne] panics after that single
    call. *)
Example OneToOne_integrity_panic :
  let v := MkValue "example" "IMEI" (RV no_methods (KString "x")) in
  let u := MkValue "example" "IMSI" (RV no_methods (KString "x")) in
  let run := OneToOne v u (Scripted [] (λ _ _, (2%Z, None))) in
  calls run.2 = [retractFrom v u] ∧
  run.1 = Panicked
    "inconsistent graph detected: relationship one-to-one was violated with 2 affected edges from source".
Proof. split; reflexivity. Qed.

Example OneToOne_three_calls :
  let v := MkValue "example" "IMEI" (RV no_methods (KString "x")) in
  let u := MkValue "example" "IMSI" (RV no_methods (KString "x")) in
  let run := OneToOne v u (Scripted [] (λ _ _, (1%Z, None))) in
  calls run.2 = [CallRetractEdges v ("example", "IMSI");
                 CallRetractEdges u ("example", "IMEI");
                 CallAssertEdge v u] ∧
  run.1 = Return () None.
Proof. split; reflexivity. Qed.

End OneToOne.
(** ** Assemble copies: calls on the builder never reach an assembled graph *)

(** The pointers an object holds. *)
Definition slice_ptrs (s : slice) : list loc :=
  match s with nil_slice => [] | Slice a _ => [a] end.

Definition ptrs (o : object) : list loc :=
  match o with
  | OBuilder x =>
      slice_ptrs (roots x) ++ option_list (nodes x) ++
      option_list (neighbours x) ++ option_list (addr x)
  | OEdgeSets m => (map_to_list m).*2
  | OAdjacency m => (map_to_list m).*2 ≫= slice_ptrs
  | OArray _ | ONodes _ | OEdgeSet _ => []
  end.

(** A heap without dangling pointers, as a garbage-collected heap is. *)
Definition closed (h : heap) : Prop :=
  map_Forall (λ _ o, Forall (λ p, is_Some (h !! p)) (ptrs o)) h.

#[global] Instance closed_dec h : Decision (closed h).
Proof. unfold closed. apply _. Defined.

(** The calls that change a builder. *)
Inductive mutation : Type :=
| CallNodes (node : list Value)
| CallConnect (source target : Value)
| CallRoots (root : list Value)
| CallReset
| CallHint (n e : Z).

Definition mutate (b : loc) (m : mutation) : Go unit :=
  match m with
  | CallNodes node => Nodes b node
  | CallConnect source target => Connect b source target
  | CallRoots root => Roots b root
  | CallReset => Reset b
  | CallHint n e => Hint b n e
  end.

(** The heap after a sequence of calls on the builder at [b]; a call
    that panics leaves the heap as it was at the panic, and the sequence
    goes on (the caller may recover). *)
Definition mutations (b : loc) (ms : list mutation) (h : heap) : heap :=
  foldl (λ h m, (mutate b m h).2) h ms.

(** What a holder of an assembled graph reads from it. *)
Definition read {A} (c : Go A) (h : heap) : result A := (c h).1.

Definition graph_roots (g : AssemblyGraph) : Go (list NodeHash) :=
  slice_read (AssemblyGraph_Roots g).
Definition graph_nodes (g : AssemblyGraph) : Go (gmap NodeHash Value) :=
  match AssemblyGraph_Nodes g with
  | None => mret ∅
  | Some l => load_nodes l
  end.
Definition graph_edges (g : AssemblyGraph) (n : NodeHash) : Go (list NodeHash) :=
  s ← AssemblyGraph_EdgesOf g n; slice_read s.

(** The objects of a graph: the array of its roots, its two maps, and
    the arrays of the slices in its adjacency map. *)
Definition graph_object (g : AssemblyGraph) (h : heap) (l : loc) : Prop :=
  l ∈ slice_ptrs (Root g) ∨ Vertices g = Some l ∨ Neighbours g = Some l ∨
  ∃ m o, Neighbours g = Some m ∧ h !! m = Some o ∧ l ∈ ptrs o.

Lemma elem_of_slice_ptrs p s : p ∈ slice_ptrs s ↔ ∃ n, s = Slice p n.
Proof.
  destruct s as [|a n]; simpl.
  - split; [by intros ?%elem_of_nil|by intros [? ?]].
  - rewrite list_elem_of_singleton. split; [intros ->; eauto|by intros [? [= ->]]].
Qed.

Lemma elem_of_option_list {A} (x : A) o : x ∈ option_list o ↔ o = Some x.
Proof.
  destruct o; simpl.
  - rewrite list_elem_of_singleton. naive_solver.
  - split; [by intros ?%elem_of_nil|done].
Qed.

Lemma elem_of_ptrs_builder p x :
  p ∈ ptrs (OBuilder x) ↔
  p ∈ slice_ptrs (roots x) ∨ nodes x = Some p ∨ neighbours x = Some p ∨ addr x = Some p.
Proof. simpl. by rewrite !elem_of_app, !elem_of_option_list. Qed.

Lemma elem_of_ptrs_edgesets p m :
  p ∈ ptrs (OEdgeSets m) ↔ ∃ k, m !! k = Some p.
Proof.
  simpl. rewrite list_elem_of_fmap. split.
  - intros [[k q] [-> ?%elem_of_map_to_list]]. eauto.
  - intros [k ?]. exists (k, p). by rewrite elem_of_map_to_list.
Qed.

Lemma elem_of_ptrs_adjacency p m :
  p ∈ ptrs (OAdjacency m) ↔ ∃ k s, m !! k = Some s ∧ p ∈ slice_ptrs s.
Proof.
  simpl. rewrite list_elem_of_bind. split.
  - intros [s [? [[k s'] [-> ?%elem_of_map_to_list]]%list_elem_of_fmap]]. eauto.
  - intros (k & s & ? & ?). exists s. split; [done|].
    apply list_elem_of_fmap. exists (k, s). by rewrite elem_of_map_to_list.
Qed.

Section isolation.

(** The addresses under protection: no call writes to them, and no
    object outside them points to them. *)
Context (P : gset loc).

Definition good (h : heap) (p : loc) : Prop := (p ∉ P) ∧ is_Some (h !! p).
Definition good_slice (h : heap) (s : slice) : Prop := ∀ p, p ∈ slice_ptrs s → good h p.
Definition good_ref (h : heap) (r : option loc) : Prop := ∀ p, r = Some p → good h p.
Definition good_object (h : heap) (o : object) : Prop := ∀ p, p ∈ ptrs o → good h p.

Definition inv (h : heap) : Prop :=
  (∀ l, l ∈ P → is_Some (h !! l)) ∧
  (∀ l o, l ∉ P → h !! l = Some o → good_object h o).

(** From [h] to [h']: nothing was freed, nothing protected was written. *)
Definition ext (h h' : heap) : Prop :=
  (∀ l, is_Some (h !! l) → is_Some (h' !! l)) ∧ (∀ l, l ∈ P → h' !! l = h !! l).

(** Running [c] in [h] keeps the invariant and the protected objects,
    and a returned value satisfies [Q] in the heap it is returned in. *)
Definition wp {A} (c : Go A) (h : heap) (Q : A → heap → Prop) : Prop :=
  inv h → inv (c h).2 ∧ ext h (c h).2 ∧ ∀ a, (c h).1 = Ok a → Q a (c h).2.

Abbreviation safe c h := (wp c h (λ _ _, True)).

Lemma ext_refl h : ext h h.
Proof. by split. Qed.

Lemma ext_trans h1 h2 h3 : ext h1 h2 → ext h2 h3 → ext h1 h3.
Proof.
  intros [Ha Hb] [Hc Hd]. split; [by auto|].
  intros l Hl. by rewrite Hd, Hb.
Qed.

Lemma good_ext h h' p : ext h h' → good h p → good h' p.
Proof. intros [Ha _] [? ?]. split; auto. Qed.

Lemma good_slice_ext h h' s : ext h h' → good_slice h s → good_slice h' s.
Proof. intros ? H p ?. eapply good_ext; eauto. Qed.

Lemma good_ref_ext h h' r : ext h h' → good_ref h r → good_ref h' r.
Proof. intros ? H p ?. eapply good_ext; eauto. Qed.

Lemma good_object_ext h h' o : ext h h' → good_object h o → good_object h' o.
Proof. intros ? H p ?. eapply good_ext; eauto. Qed.

Lemma good_nil_slice h : good_slice h nil_slice.
Proof. by intros p ?%elem_of_nil. Qed.

Lemma good_Slice h a n : good h a → good_slice h (Slice a n).
Proof. intros ? p ?%list_elem_of_singleton. by subst. Qed.

Lemma good_Slice_inv h a n : good_slice h (Slice a n) → good h a.
Proof. intros H. apply H. simpl. by apply list_elem_of_singleton. Qed.

Lemma good_None h : good_ref h None.
Proof. by intros p ?. Qed.

Lemma good_Some h l : good h l ↔ good_ref h (Some l).
Proof. split; [by intros ? p [= <-]|intros H; by apply H]. Qed.

Lemma good_builder h x :
  good_object h (OBuilder x) ↔
  good_slice h (roots x) ∧ good_ref h (nodes x) ∧
  good_ref h (neighbours x) ∧ good_ref h (addr x).
Proof.
  unfold good_object, good_slice, good_ref. setoid_rewrite elem_of_ptrs_builder.
  naive_solver.
Qed.

(** *** Rules *)

Lemma wp_ret {A} (a : A) h (Q : A → heap → Prop) : Q a h → wp (mret a) h Q.
Proof. intros HQ Hinv. split; [done|]. split; [apply ext_refl|]. by intros ? [= <-]. Qed.

Lemma wp_panic {A} msg h (Q : A → heap → Prop) : wp (panic msg) h Q.
Proof. intros Hinv. split; [done|]. split; [apply ext_refl|]. by intros ? [=]. Qed.

Lemma wp_lift {A} (r : result A) h (Q : A → heap → Prop) :
  (∀ a, r = Ok a → Q a h) → wp (lift r) h Q.
Proof. intros HQ Hinv. split; [done|]. split; [apply ext_refl|]. exact HQ. Qed.

Lemma wp_bind {A B} (c : Go A) (k : A → Go B) h Q R :
  wp c h Q →
  (∀ a h', inv h' → ext h h' → Q a h' → wp (k a) h' R) →
  wp (c ≫= k) h R.
Proof.
  intros Hc Hk Hinv. destruct (Hc Hinv) as (Hinv' & Hext & HQ).
  unfold mbind, Go_bind, go_bind. destruct (c h) as [[a|e|msg] h'] eqn:E; simpl in *.
  - destruct (Hk a h' Hinv' Hext (HQ a eq_refl) Hinv') as (? & ? & ?).
    split; [done|]. split; [by eapply ext_trans|done].
  - split; [done|]. split; [done|]. by intros ? [=].
  - split; [done|]. split; [done|]. by intros ? [=].
Qed.

Lemma wp_mono {A} (c : Go A) h (Q Q' : A → heap → Prop) :
  wp c h Q → (∀ a h', inv h' → ext h h' → Q a h' → Q' a h') → wp c h Q'.
Proof.
  intros Hc HQ Hinv. destruct (Hc Hinv) as (? & ? & ?).
  split; [done|]. split; [done|]. auto.
Qed.

Lemma wp_load l h :
  wp (load l) h (λ o h', h' !! l = Some o ∧ (l ∉ P → good_object h' o)).
Proof.
  intros Hinv. unfold load. destruct (h !! l) as [o|] eqn:E; simpl.
  - split; [done|]. split; [apply ext_refl|]. intros ? [= <-].
    split; [done|]. intros ?. by eapply Hinv.
  - split; [done|]. split; [apply ext_refl|]. by intros ? [=].
Qed.

Lemma inv_insert h l o :
  inv h → l ∉ P → good_object h o → inv (<[l := o]> h).
Proof.
  intros [HP Hobj] Hl Ho.
  assert (Hext : ∀ p, good h p → good (<[l := o]> h) p).
  { intros p [? ?]. split; [done|]. rewrite lookup_insert_is_Some. 
    destruct (decide (l = p)); auto. }
  split.
  - intros l' ?. rewrite lookup_insert_is_Some. destruct (decide (l = l')); auto.
  - intros l' o' ? Hl' p Hp. apply Hext.
    apply lookup_insert_Some in Hl' as [[<- <-]|[? ?]]; [by apply Ho|by eapply Hobj].
Qed.

Lemma ext_insert h l o : l ∉ P → ext h (<[l := o]> h).
Proof.
  intros Hl. split.
  - intros l' ?. rewrite lookup_insert_is_Some. destruct (decide (l = l')); auto.
  - intros l' ?. apply lookup_insert_ne. by intros ->.
Qed.

Lemma wp_store l o h :
  l ∉ P → good_object h o → safe (store l o) h.
Proof.
  intros Hl Ho Hinv. unfold store. destruct (h !! l) eqn:E; simpl.
  - split; [by apply inv_insert|]. split; [by apply ext_insert|done].
  - split; [done|]. split; [apply ext_refl|done].
Qed.

Lemma wp_alloc o h :
  good_object h o → wp (alloc o) h (λ l h', good h' l).
Proof.
  intros Ho Hinv. unfold alloc. simpl.
  assert (Hfresh : h !! fresh (dom h) = None).
  { apply not_elem_of_dom, is_fresh. }
  assert (HP : fresh (dom h) ∉ P).
  { intros HP%Hinv. rewrite Hfresh in HP. by destruct HP. }
  split; [by apply inv_insert|]. split; [by apply ext_insert|].
  intros ? [= <-]. split; [done|]. by rewrite lookup_insert_eq.
Qed.

Lemma wp_for {A} (xs : list A) (body : A → Go unit) h :
  (∀ x h', x ∈ xs → inv h' → ext h h' → safe (body x) h') →
  safe (go_for xs body) h.
Proof.
  revert h. induction xs as [|x xs IH]; intros h Hbody; simpl.
  - by apply wp_ret.
  - apply (wp_bind _ _ _ (λ _ _, True)).
    + intros Hinv. by apply Hbody; [left| |apply ext_refl|].
    + intros _ h' Hinv Hext _. apply IH. intros y h'' ? ? ?.
      apply Hbody; [by right|done|by eapply ext_trans].
Qed.

(** After a step from [h] to [h'], what was known of [h] holds of [h']. *)
Ltac transport :=
  match goal with
  | Hext : ext ?h ?h' |- _ =>
      repeat match goal with
      | H : good h _ |- _ => apply (good_ext h h' _ Hext) in H
      | H : good_slice h _ |- _ => apply (good_slice_ext h h' _ Hext) in H
      | H : good_ref h _ |- _ => apply (good_ref_ext h h' _ Hext) in H
      | H : good_object h _ |- _ => apply (good_object_ext h h' _ Hext) in H
      end;
      clear Hext
  end.

(** [x ← c; k] with a rule for [c]: the side conditions of the rule
    come first, the continuation last, in the heap [h'] after [c]. *)
Tactic Notation "wp_step" constr(rule) "as" simple_intropattern(a) ident(h')
    simple_intropattern(H) :=
  eapply wp_bind;
  [apply rule|intros a h' _ ?Hext H; cbv beta in *; transport].

(** [c;; k] where [c] only has to be safe. *)
Tactic Notation "wp_seq" "as" simple_intropattern(a) ident(h') :=
  apply (wp_bind _ _ _ (λ _ _, True));
  [|intros a h' _ ?Hext _; cbv beta in *; transport].

Tactic Notation "wp_loop" "as" simple_intropattern(x) ident(h') :=
  apply wp_for; intros x h' _ _ ?Hext; cbv beta in *; transport.

Lemma good_object_plain h o : ptrs o = [] → good_object h o.
Proof. intros E p. rewrite E. by intros ?%elem_of_nil. Qed.

Lemma good_edgesets_insert h m k s :
  good_object h (OEdgeSets m) → good h s → good_object h (OEdgeSets (<[k := s]> m)).
Proof.
  intros Hm Hs p [k' Hk']%elem_of_ptrs_edgesets.
  apply lookup_insert_Some in Hk' as [[_ <-]|[_ ?]]; [done|].
  apply Hm, elem_of_ptrs_edgesets. eauto.
Qed.

Lemma good_adjacency_insert h m k s :
  good_object h (OAdjacency m) → good_slice h s →
  good_object h (OAdjacency (<[k := s]> m)).
Proof.
  intros Hm Hs p (k' & s' & Hk' & Hp)%elem_of_ptrs_adjacency.
  apply lookup_insert_Some in Hk' as [[_ <-]|[_ ?]]; [by apply Hs|].
  apply Hm, elem_of_ptrs_adjacency. eauto.
Qed.

Lemma good_Builder h r n e a :
  good_slice h r → good_ref h n → good_ref h e → good_ref h a →
  good_object h (OBuilder (Builder r n e a)).
Proof. intros. by apply good_builder. Qed.

Lemma wp_load_builder b h :
  wp (load_builder b) h (λ x h', b ∉ P → good_object h' (OBuilder x)).
Proof.
  unfold load_builder. wp_step wp_load as o h' [_ Ho].
  destruct o; try apply wp_panic. by apply wp_ret.
Qed.

Lemma wp_load_edgesets l h :
  wp (load_edgesets l) h (λ m h', l ∉ P → good_object h' (OEdgeSets m)).
Proof.
  unfold load_edgesets. wp_step wp_load as o h' [_ Ho].
  destruct o; try apply wp_panic. by apply wp_ret.
Qed.

Lemma wp_load_adjacency l h :
  wp (load_adjacency l) h (λ m h', l ∉ P → good_object h' (OAdjacency m)).
Proof.
  unfold load_adjacency. wp_step wp_load as o h' [_ Ho].
  destruct o; try apply wp_panic. by apply wp_ret.
Qed.

Lemma wp_load_array l h : safe (load_array l) h.
Proof.
  unfold load_array. wp_step wp_load as o h' _.
  destruct o; try apply wp_panic. by apply wp_ret.
Qed.

Lemma wp_load_nodes l h : safe (load_nodes l) h.
Proof.
  unfold load_nodes. wp_step wp_load as o h' _.
  destruct o; try apply wp_panic. by apply wp_ret.
Qed.

Lemma wp_load_edgeset l h : safe (load_edgeset l) h.
Proof.
  unfold load_edgeset. wp_step wp_load as o h' _.
  destruct o; try apply wp_panic. by apply wp_ret.
Qed.

Lemma wp_slice_read s h : safe (slice_read s) h.
Proof.
  destruct s as [|a n]; simpl; [by apply wp_ret|].
  wp_step wp_load_array as xs h' _. by apply wp_ret.
Qed.

Lemma wp_slice_set s i x h : good_slice h s → safe (slice_set s i x) h.
Proof.
  intros Hs. destruct s as [|a n]; simpl; [apply wp_panic|].
  apply good_Slice_inv in Hs. case_decide; [|apply wp_panic].
  wp_step wp_load_array as xs h' _.
  apply wp_store; [apply Hs|by apply good_object_plain].
Qed.

Lemma wp_make_slice n cap h :
  wp (make_slice n cap) h (λ s h', good_slice h' s).
Proof.
  unfold make_slice. wp_step wp_alloc as a h' Ha; [by apply good_object_plain|].
  apply wp_ret. by apply good_Slice.
Qed.

Lemma wp_append s x h :
  good_slice h s → wp (append s x) h (λ s' h', good_slice h' s').
Proof.
  intros Hs. destruct s as [|a n]; simpl.
  - wp_step wp_alloc as a h' Ha; [by apply good_object_plain|].
    apply wp_ret. by apply good_Slice.
  - apply good_Slice_inv in Hs. wp_step wp_load_array as xs h' _. case_decide.
    + wp_seq as _ h''; [apply wp_store; [apply Hs|by apply good_object_plain]|].
      apply wp_ret. by apply good_Slice.
    + wp_step wp_alloc as a' h'' Ha; [by apply good_object_plain|].
      apply wp_ret. by apply good_Slice.
Qed.

Lemma wp_len_nodes m h : safe (len_nodes m) h.
Proof.
  destruct m; simpl; [|by apply wp_ret].
  wp_step wp_load_nodes as m h' _. by apply wp_ret.
Qed.

Lemma wp_len_edgesets m h : safe (len_edgesets m) h.
Proof.
  destruct m; simpl; [|by apply wp_ret].
  wp_step wp_load_edgesets as m h' _. by apply wp_ret.
Qed.

Lemma wp_nodes_set m id n h : good_ref h m → safe (nodes_set m id n) h.
Proof.
  intros Hm. destruct m as [l|]; simpl; [|apply wp_panic].
  apply good_Some in Hm. wp_step wp_load_nodes as m h' _.
  apply wp_store; [apply Hm|by apply good_object_plain].
Qed.

Lemma wp_adjacency_set l id s h :
  good h l → good_slice h s → safe (adjacency_set l id s) h.
Proof.
  intros Hl Hs. unfold adjacency_set. wp_step wp_load_adjacency as adj h' Hadj.
  apply wp_store; [apply Hl|]. apply good_adjacency_insert; [|done].
  apply Hadj, Hl.
Qed.

Lemma wp_adjacency_get m id h :
  good_ref h m → wp (adjacency_get m id) h (λ s h', good_slice h' s).
Proof.
  intros Hm. destruct m as [l|]; simpl; [|apply wp_ret, good_nil_slice].
  apply good_Some in Hm. wp_step wp_load_adjacency as adj h' Hadj.
  apply wp_ret.
  destruct (adj !! id) as [s|] eqn:E; simpl; [|apply good_nil_slice].
  intros p Hp. apply Hadj; [apply Hm|]. apply elem_of_ptrs_adjacency. eauto.
Qed.

(** *** The builder's methods, on a builder outside the protected set *)

Lemma wp_copyCheck b h : good h b → safe (copyCheck b) h.
Proof.
  intros Hb. unfold copyCheck. wp_step wp_load_builder as x h' Hx.
  apply good_builder in Hx as (? & ? & ? & ?); [|apply Hb].
  destruct (addr x).
  - case_decide; [apply wp_panic|by apply wp_ret].
  - apply wp_store; [apply Hb|]. apply good_Builder; try done. by apply good_Some.
Qed.

Lemma wp_Nodes b node h : good h b → safe (Nodes b node) h.
Proof.
  intros Hb. unfold Nodes. wp_step wp_copyCheck as _ h1 _; [done|].
  wp_step wp_load_builder as x h2 Hx.
  apply good_builder in Hx as (? & ? & ? & ?); [|apply Hb].
  wp_seq as _ h3.
  { destruct (nodes x); [by apply wp_ret|].
    wp_step wp_alloc as l h3 Hl; [by apply good_object_plain|].
    apply wp_store; [apply Hb|]. apply good_Builder; try done. by apply good_Some. }
  wp_loop as n h4. wp_seq as id h5; [by apply wp_lift|].
  wp_step wp_load_builder as y h6 Hy.
  apply good_builder in Hy as (? & ? & ? & ?); [|apply Hb].
  by apply wp_nodes_set.
Qed.

Lemma wp_Connect b source target h : good h b → safe (Connect b source target) h.
Proof.
  intros Hb. unfold Connect. wp_step wp_copyCheck as _ h1 _; [done|].
  wp_step wp_Nodes as _ h2 _; [done|].
  wp_seq as from h3; [by apply wp_lift|].
  wp_seq as to h4; [by apply wp_lift|].
  wp_step wp_load_builder as x h5 Hx.
  apply good_builder in Hx as (? & ? & ? & ?); [|apply Hb].
  wp_seq as _ h6.
  { destruct (neighbours x); [by apply wp_ret|].
    wp_step wp_alloc as l h6 Hl; [by apply good_object_plain|].
    apply wp_store; [apply Hb|]. apply good_Builder; try done. by apply good_Some. }
  clear dependent x. wp_step wp_load_builder as x h7 Hx.
  apply good_builder in Hx as (_ & _ & Hl & _); [|apply Hb].
  destruct (neighbours x) as [l|]; [|apply wp_panic].
  apply good_Some in Hl. wp_step wp_load_edgesets as outer h8 Houter.
  specialize (Houter (proj1 Hl)).
  wp_seq as _ h9.
  { destruct (outer !! from); [by apply wp_ret|].
    wp_step wp_alloc as s h9 Hs; [by apply good_object_plain|].
    apply wp_store; [apply Hl|]. by apply good_edgesets_insert. }
  clear dependent outer. wp_step wp_load_edgesets as outer h10 Houter.
  specialize (Houter (proj1 Hl)).
  destruct (outer !! from) as [s|] eqn:E; [|apply wp_panic].
  assert (Hs : good h10 s) by (apply Houter, elem_of_ptrs_edgesets; eauto).
  wp_step wp_load_edgeset as inner h11 _.
  apply wp_store; [apply Hs|by apply good_object_plain].
Qed.

Lemma wp_Roots b root h : good h b → safe (Roots b root) h.
Proof.
  intros Hb. unfold Roots. wp_step wp_copyCheck as _ h1 _; [done|].
  wp_step wp_Nodes as _ h2 _; [done|].
  wp_step wp_load_builder as x h3 Hx.
  apply good_builder in Hx as (Hr & ? & ? & ?); [|apply Hb].
  wp_seq as _ h4.
  { case_decide.
    - destruct (roots x) as [|a n]; [apply wp_panic|].
      apply wp_store; [apply Hb|]. apply good_Builder; [|done..].
      by apply good_Slice, (good_Slice_inv h3 a n).
    - wp_step wp_make_slice as s h4 Hs.
      apply wp_store; [apply Hb|]. by apply good_Builder. }
  wp_loop as [i n] h5. wp_seq as id h6; [by apply wp_lift|].
  wp_step wp_load_builder as y h7 Hy.
  apply good_builder in Hy as (? & ? & ? & ?); [|apply Hb].
  by apply wp_slice_set.
Qed.

Lemma wp_Reset b h : good h b → safe (Reset b) h.
Proof.
  intros Hb. unfold Reset. wp_step wp_load_builder as _ h1 _.
  apply wp_store; [apply Hb|].
  apply good_Builder; auto using good_nil_slice, good_None.
Qed.

Lemma wp_hintNodes b n h : good h b → safe (hintNodes b n) h.
Proof.
  intros Hb. unfold hintNodes. wp_step wp_load_builder as x h1 Hx.
  apply good_builder in Hx as (? & ? & ? & ?); [|apply Hb].
  wp_step wp_alloc as l h2 Hl; [by apply good_object_plain|].
  wp_seq as old h3.
  { destruct (nodes x); [apply wp_load_nodes|by apply wp_ret]. }
  wp_seq as _ h4.
  { wp_loop as [k v] h4. by apply wp_nodes_set, good_Some. }
  apply wp_store; [apply Hb|]. apply good_Builder; try done. by apply good_Some.
Qed.

Lemma wp_Hint b n e h : good h b → safe (Hint b n e) h.
Proof.
  intros Hb. unfold Hint. wp_step wp_copyCheck as _ h1 _; [done|].
  wp_seq as _ h2.
  { destruct (n <? 0)%Z; [apply wp_panic|by apply wp_ret]. }
  wp_step wp_load_builder as x h3 _. wp_step wp_len_nodes as k h4 _.
  wp_seq as _ h5.
  { destruct (_ <? n)%Z; [by apply wp_hintNodes|by apply wp_ret]. }
  destruct (e <? 0)%Z; [apply wp_panic|by apply wp_ret].
Qed.

Lemma wp_mutate b m h : good h b → safe (mutate b m) h.
Proof.
  intros Hb. destruct m; simpl;
    auto using wp_Nodes, wp_Connect, wp_Roots, wp_Reset, wp_Hint.
Qed.

(** *** Assemble, on any builder *)

Definition good_graph (h : heap) (g : AssemblyGraph) : Prop :=
  good_slice h (Root g) ∧ good_ref h (Vertices g) ∧ good_ref h (Neighbours g).

Lemma wp_Assemble b h : wp (Assemble b) h (λ g h', good_graph h' g).
Proof.
  unfold Assemble. wp_step wp_load_builder as x h1 _.
  eapply wp_bind.
  { instantiate (1 := λ s h', good_slice h' s). case_decide.
    - wp_step wp_make_slice as s h2 Hs.
      wp_step wp_slice_read as xs h3 _.
      wp_seq as _ h4.
      + wp_loop as [i r] h4. by apply wp_slice_set.
      + by apply wp_ret.
    - apply wp_ret, good_nil_slice. }
  intros gRoot h2 _ ? HRoot; cbv beta in *; transport.
  wp_step wp_len_nodes as k h3 _.
  eapply wp_bind.
  { instantiate (1 := λ r h', good_ref h' r). case_decide.
    - wp_step wp_alloc as l h4 Hl; [by apply good_object_plain|].
      wp_seq as m h5.
      { destruct (nodes x); [apply wp_load_nodes|by apply wp_ret]. }
      wp_seq as _ h6.
      + wp_loop as [id n] h6. by apply wp_nodes_set, good_Some.
      + by apply wp_ret, good_Some.
    - apply wp_ret, good_None. }
  intros gVertices h4 _ ? HVertices; cbv beta in *; transport.
  wp_step wp_len_edgesets as k' h5 _.
  eapply wp_bind.
  { instantiate (1 := λ r h', good_ref h' r). case_decide.
    - wp_step wp_alloc as l h6 Hl; [by apply good_object_plain|].
      wp_seq as outer h7.
      { destruct (neighbours x).
        - eapply wp_mono; [apply wp_load_edgesets|done].
        - by apply wp_ret. }
      wp_seq as _ h8.
      + wp_loop as [id set] h8.
        wp_step wp_load_edgeset as inner h9 _.
        wp_step wp_make_slice as s h10 Hs.
        wp_seq as _ h11; [by apply wp_adjacency_set|].
        wp_loop as n h12.
        wp_step wp_adjacency_get as s1 h13 Hs1; [by apply good_Some|].
        wp_step wp_append as s2 h14 Hs2; [done|].
        by apply wp_adjacency_set.
      + by apply wp_ret, good_Some.
    - apply wp_ret, good_None. }
  intros gNeighbours h6 _ ? HNeighbours; cbv beta in *; transport.
  by apply wp_ret.
Qed.

End isolation.

(** *** The assembled graph and later calls on builders *)

Lemma closed_inv h : closed h → inv (dom h) h.
Proof.
  intros _. split.
  - intros l. apply elem_of_dom.
  - intros l o Hl Ho. destruct Hl. apply elem_of_dom. eauto.
Qed.

(** Once [h1] has been reached from a closed heap [h] without writing to
    the objects of [h], the objects made since can be put under
    protection. *)
Lemma inv_new_objects h h1 :
  closed h → ext (dom h) h h1 → inv (dom h1 ∖ dom h) h1.
Proof.
  intros Hclosed [Hdom Hsame]. split.
  - intros l [Hl _]%elem_of_difference. by apply elem_of_dom.
  - intros l o Hl Ho p Hp.
    assert (Hold : is_Some (h !! l)).
    { apply elem_of_dom. destruct (decide (l ∈ dom h)) as [|Hn]; [done|].
      destruct Hl. apply elem_of_difference. split; [|done].
      apply elem_of_dom. eauto. }
    rewrite Hsame in Ho by (by apply elem_of_dom).
    pose proof (Hclosed l o Ho) as Hptrs. rewrite Forall_forall in Hptrs.
    specialize (Hptrs p Hp). split; [|by apply Hdom].
    intros [_ Hn]%elem_of_difference. apply Hn. by apply elem_of_dom.
Qed.

Lemma Assemble_builder_allocated b h g h1 :
  Assemble b h = (Ok g, h1) → is_Some (h !! b).
Proof.
  unfold Assemble, load_builder, load.
  unfold mbind at 1, Go_bind, go_bind at 1.
  unfold mbind at 1, Go_bind, go_bind at 1.
  destruct (h !! b); [eauto|]. intros [=].
Qed.

Lemma mutations_ext P b ms h :
  inv P h → good P h b →
  inv P (mutations b ms h) ∧ ext P h (mutations b ms h).
Proof.
  revert h. induction ms as [|m ms IH]; intros h Hinv Hb; simpl.
  - split; [done|apply ext_refl].
  - destruct (wp_mutate P b m h Hb Hinv) as (Hinv' & Hext & _).
    destruct (IH _ Hinv' (good_ext P _ _ _ Hext Hb)) as [? ?].
    split; [done|by eapply ext_trans].
Qed.

Lemma read_slice_same s h h' :
  (∀ p, p ∈ slice_ptrs s → h' !! p = h !! p) →
  read (slice_read s) h' = read (slice_read s) h.
Proof.
  intros Hs. destruct s as [|a n]; [done|].
  unfold read, slice_read, load_array, load. go_unfold.
  rewrite (Hs a) by (simpl; by apply list_elem_of_singleton).
  by destruct (h !! a) as [[]|].
Qed.

(** The objects of the graph that [Assemble] returns were all made by
    that call. *)
Lemma Assemble_objects_are_new b h g h1 :
  closed h → Assemble b h = (Ok g, h1) →
  ext (dom h) h h1 ∧ ∀ l, graph_object g h1 l → l ∈ dom h1 ∖ dom h.
Proof.
  intros Hclosed HA.
  destruct (wp_Assemble (dom h) b h (closed_inv h Hclosed)) as (Hinv & Hext & Hg).
  rewrite HA in Hinv, Hext, Hg. simpl in *.
  destruct (Hg g eq_refl) as (HR & HV & HN). split; [done|].
  assert (Hgood : ∀ p, good (dom h) h1 p → p ∈ dom h1 ∖ dom h).
  { intros p [? ?]. apply elem_of_difference. split; [by apply elem_of_dom|done]. }
  intros l [Hl|[Hl|[Hl|(m & o & Hm & Ho & Hl)]]]; apply Hgood; auto.
  destruct Hinv as [_ Hobj]. eapply Hobj; [|done..]. by apply HN.
Qed.

(** X1. [Assemble] hands out copies.  In a heap without dangling
    pointers, once [Assemble] on the builder at [b] has returned the graph
    [g], no sequence of later calls of [Nodes], [Connect], [Roots],
    [Reset] or [Hint], on that builder or on any builder that existed
    before, panicking or not, writes to an object of [g]: its array of
    roots, its node map, its adjacency map and the arrays of its edge
    slices stay as they were, and so does everything read through
    [Roots()], [Nodes()], [Value] and [EdgesOf]. *)
Theorem Assemble_graph_survives_builder_calls b h g h1 b' ms :
  closed h →
  Assemble b h = (Ok g, h1) →
  b' = b ∨ is_Some (h !! b') →
  let h2 := mutations b' ms h1 in
  (∀ l, graph_object g h1 l → h2 !! l = h1 !! l) ∧
  read (graph_roots g) h2 = read (graph_roots g) h1 ∧
  read (graph_nodes g) h2 = read (graph_nodes g) h1 ∧
  (∀ n, read (AssemblyGraph_Value g n) h2 = read (AssemblyGraph_Value g n) h1) ∧
  (∀ n, read (graph_edges g n) h2 = read (graph_edges g n) h1).
Proof.
  intros Hclosed HA Hb' h2.
  destruct (Assemble_objects_are_new b h g h1 Hclosed HA) as [Hext Hnew].
  assert (Hb : is_Some (h !! b')).
  { destruct Hb' as [->|]; [by eapply Assemble_builder_allocated|done]. }
  pose proof (inv_new_objects h h1 Hclosed Hext) as Hinv.
  assert (Hgood : good (dom h1 ∖ dom h) h1 b').
  { split; [|by apply Hext].
    intros [_ Hn]%elem_of_difference. apply Hn. by apply elem_of_dom. }
  destruct (mutations_ext _ b' ms h1 Hinv Hgood) as [_ [_ Hsame]].
  fold h2 in Hsame.
  assert (Hobj : ∀ l, graph_object g h1 l → h2 !! l = h1 !! l) by auto.
  split; [done|]. split; [|split; [|split]].
  - apply read_slice_same. intros p Hp. apply Hobj. by left.
  - unfold read, graph_nodes, AssemblyGraph_Nodes.
    destruct (Vertices g) as [l|] eqn:E; [|done].
    unfold load_nodes, load. go_unfold. rewrite (Hobj l) by (right; by left).
    by destruct (h1 !! l) as [[]|].
  - intros n. unfold read, AssemblyGraph_Value.
    destruct (Vertices g) as [l|] eqn:E; [|done].
    unfold load_nodes, load. go_unfold. rewrite (Hobj l) by (right; by left).
    by destruct (h1 !! l) as [[]|].
  - intros n. unfold read, graph_edges, AssemblyGraph_EdgesOf, adjacency_get.
    destruct (Neighbours g) as [l|] eqn:E; [|done].
    unfold load_adjacency, load. go_unfold.
    rewrite (Hobj l) by (right; right; by left).
    destruct (h1 !! l) as [o|] eqn:El; [|done].
    destruct o as [| | | | |adj]; try done.
    destruct (adj !! n) as [s|] eqn:En; simpl; [|done].
    apply (read_slice_same s). intros p Hp. apply Hobj.
    right; right; right. exists l, (OAdjacency adj). split; [done|]. split; [done|].
    apply elem_of_ptrs_adjacency. eauto.
Qed.

(** A builder with a root, two nodes and an edge, assembled, and then
    changed. *)
Definition node_of (name : string) : Value :=
  MkValue "example" "Node"
    (RV no_methods (KStruct [(Field "Name" true false, RV no_methods (KString name))])).

Definition builderHeap : heap :=
  mutations 1%positive
    [CallRoots [node_of "a"]; CallConnect (node_of "a") (node_of "b")]
    {[1%positive := OBuilder zeroBuilder]}.

Definition laterCalls : list mutation :=
  [CallRoots [node_of "c"; node_of "d"]; CallConnect (node_of "a") (node_of "c");
   CallNodes [node_of "e"]; CallReset].

Lemma Assemble_graph_survives_witness :
  closed builderHeap ∧
  ∃ g h1, Assemble 1%positive builderHeap = (Ok g, h1) ∧
    let h2 := mutations 1%positive laterCalls h1 in
    (∀ l, graph_object g h1 l → h2 !! l = h1 !! l) ∧
    read (graph_roots g) h2 = read (graph_roots g) h1 ∧
    read (graph_nodes g) h2 = read (graph_nodes g) h1 ∧
    (∀ n, read (AssemblyGraph_Value g n) h2 = read (AssemblyGraph_Value g n) h1) ∧
    (∀ n, read (graph_edges g n) h2 = read (graph_edges g n) h1).
Proof.
  assert (Hc : closed builderHeap).
  { refine (bool_decide_unpack _ _). vm_compute. exact I. }
  assert (HA : ∃ g h1, Assemble 1%positive builderHeap = (Ok g, h1)).
  { eexists _, _. vm_compute. reflexivity. }
  split; [exact Hc|]. destruct HA as (g & h1 & HA). exists g, h1.
  split; [exact HA|].
  exact (Assemble_graph_survives_builder_calls 1%positive builderHeap g h1
           1%positive laterCalls Hc HA (or_introl eq_refl)).
Defined.

(** ** Relationship assertions: the other three cardinalities *)

Section relationships.
Import assert.

Lemma newGraphIntegrityError_known relationship direction n :
  relationship ∈ ["one-to-one"; "one-to-many"; "many-to-one"] →
  direction ∈ ["from source"; "to target"] →
  @panicIntegrity unit relationship direction n
  = Panicked (graphIntegrityMessage relationship direction n).
Proof.
  intros Hr Hd. unfold panicIntegrity, newGraphIntegrityError.
  rewrite (bool_decide_eq_true_2 (relationship ∈ _)) by done.
  by rewrite (bool_decide_eq_true_2 (direction ∈ _)) by done.
Qed.

Lemma ManyToOne_specialised `{GraphWriter W} x source target (w : W) :
  AssertManyToOne = Some x → ManyToOne source target w = x source target w.
Proof. unfold ManyToOne. by intros ->. Qed.

Lemma ManyToMany_specialised `{GraphWriter W} x source target (w : W) :
  AssertManyToMany = Some x → ManyToMany source target w = x source target w.
Proof. unfold ManyToMany. by intros ->. Qed.

(** X2. [OneToMany source target] on a writer without a specialised
    asserter leaves the edges that go out of the source alone: whatever
    the writer answers, it calls [RetractEdges target (TypeOf source)]
    and then, at most, [AssertEdge source target].  It panics with the
    inconsistent-graph error exactly when that retraction reports (with
    a nil error) more than one removed edge, and then the edge is not
    asserted; a failed retraction is returned wrapped and ends the
    sequence. *)
Theorem OneToMany_calls_in_order_and_panics
    (script : list call → call → Z * option error)
    (before : list call) (source target : Value) :
  let c2 := retractTo source target in
  let c3 := CallAssertEdge source target in
  let r2 := script before c2 in
  let r3 := script (before ++ [c2]) c3 in
  let run := OneToMany source target (Scripted before script) in
  (calls run.2 = before ++ [c2] ∨ calls run.2 = before ++ [c2; c3]) ∧
  (atMostOne r2 →
     calls run.2 = before ++ [c2; c3] ∧
     run.1 = Return () (wrapped "assert edge" r3.2)) ∧
  (tooMany r2 →
     calls run.2 = before ++ [c2] ∧
     run.1 = Panicked (graphIntegrityMessage "one-to-many" "to target" r2.1)) ∧
  (∀ err, r2.2 = Some err →
     calls run.2 = before ++ [c2] ∧
     run.1 = Return () (Some (Wrap "retract edges to" err))) ∧
  ((∃ msg, run.1 = Panicked msg) ↔ tooMany r2).
Proof.
  intros c2 c3 r2 r3 run.
  assert (Hto := newGraphIntegrityError_known "one-to-many" "to target").
  subst run. unfold OneToMany, assertEdge, tooMany, atMostOne.
  cbn [AssertOneToMany RetractEdges AssertEdge scripted_writer answer calls assert.script].
  change (CallRetractEdges target (TypeOf source)) with c2.
  change (CallAssertEdge source target) with c3.
  change (script before c2) with r2.
  destruct r2 as [n2 [e2|]]; cbn [fst snd calls assert.script].
  { split; [by left|]. repeat split; intros; destruct_and?; naive_solver. }
  destruct (Z.ltb_spec 1 n2) as [H2|H2].
  { rewrite Hto by set_solver. cbn [fst snd calls].
    split; [by left|]. repeat split; intros; destruct_and?; naive_solver lia. }
  rewrite <- !(assoc_L (++) before). cbn [app].
  change (script (before ++ [c2]) c3) with r3.
  destruct r3 as [n3 [e3|]]; cbn [fst snd calls wrapped].
  all: split; [by right|].
  all: repeat split; intros; destruct_and?; naive_solver lia.
Qed.

(** X3. [ManyToOne source target] on a writer without a specialised
    asserter leaves the edges that come into the target alone: it calls
    [RetractEdges source (TypeOf target)] and then, at most, [AssertEdge
    source target].  It panics with the inconsistent-graph error exactly
    when that retraction reports (with a nil error) more than one
    removed edge, and then the edge is not asserted; a failed retraction
    is returned wrapped and ends the sequence. *)
Theorem ManyToOne_calls_in_order_and_panics
    (script : list call → call → Z * option error)
    (before : list call) (source target : Value) :
  let c1 := retractFrom source target in
  let c3 := CallAssertEdge source target in
  let r1 := script before c1 in
  let r3 := script (before ++ [c1]) c3 in
  let run := ManyToOne source target (Scripted before script) in
  (calls run.2 = before ++ [c1] ∨ calls run.2 = before ++ [c1; c3]) ∧
  (atMostOne r1 →
     calls run.2 = before ++ [c1; c3] ∧
     run.1 = Return () (wrapped "assert edge" r3.2)) ∧
  (tooMany r1 →
     calls run.2 = before ++ [c1] ∧
     run.1 = Panicked (graphIntegrityMessage "many-to-one" "from source" r1.1)) ∧
  (∀ err, r1.2 = Some err →
     calls run.2 = before ++ [c1] ∧
     run.1 = Return () (Some (Wrap "retract edges from" err))) ∧
  ((∃ msg, run.1 = Panicked msg) ↔ tooMany r1).
Proof.
  intros c1 c3 r1 r3 run.
  assert (Hfrom := newGraphIntegrityError_known "many-to-one" "from source").
  subst run. unfold ManyToOne, assertEdge, tooMany, atMostOne.
  cbn [AssertManyToOne RetractEdges AssertEdge scripted_writer answer calls assert.script].
  change (CallRetractEdges source (TypeOf target)) with c1.
  change (CallAssertEdge source target) with c3.
  change (script before c1) with r1.
  destruct r1 as [n1 [e1|]]; cbn [fst snd calls assert.script].
  { split; [by left|]. repeat split; intros; destruct_and?; naive_solver. }
  destruct (Z.ltb_spec 1 n1) as [H1|H1].
  { rewrite Hfrom by set_solver. cbn [fst snd calls].
    split; [by left|]. repeat split; intros; destruct_and?; naive_solver lia. }
  rewrite <- !(assoc_L (++) before). cbn [app].
  change (script (before ++ [c1]) c3) with r3.
  destruct r3 as [n3 [e3|]]; cbn [fst snd calls wrapped].
  all: split; [by right|].
  all: repeat split; intros; destruct_and?; naive_solver lia.
Qed.

(** X4. [ManyToMany source target] on a writer without a specialised
    asserter retracts nothing and never panics of its own: its one call
    is [AssertEdge source target], whose error, if any, it returns
    wrapped. *)
Theorem ManyToMany_only_asserts_the_edge
    (script : list call → call → Z * option error)
    (before : list call) (source target : Value) :
  let c3 := CallAssertEdge source target in
  let run := ManyToMany source target (Scripted before script) in
  calls run.2 = before ++ [c3] ∧
  run.1 = Return () (wrapped "assert edge" (script before c3).2) ∧
  ∀ node kind, CallRetractEdges node kind ∉ drop (length before) (calls run.2).
Proof.
  intros c3 run. subst run. unfold ManyToMany, assertEdge.
  cbn [AssertManyToMany AssertEdge scripted_writer answer calls assert.script].
  change (CallAssertEdge source target) with c3.
  destruct (script before c3) as [n3 [e3|]]; cbn [fst snd calls wrapped].
  all: split; [done|]; split; [done|].
  all: intros node kind; rewrite drop_app_length.
  all: by intros [=]%list_elem_of_singleton.
Qed.

End relationships.

(** ** Forest hashes: what is hashed and what is not *)

Lemma strictly_ascending_NoDup (ids : list contentAddress) :
  StronglySorted (λ a b, hash_less a b = true) ids → NoDup ids.
Proof.
  induction 1 as [|x l Hs IH Hx]; constructor; [|done].
  intros Hin. rewrite Forall_forall in Hx. specialize (Hx x Hin).
  unfold hash_less in Hx. assert (bytes_Compare x x = 0%Z) by by apply bytes_Compare_eq.
  lia.
Qed.

Lemma strictly_ascending_sorted (ids : list contentAddress) :
  StronglySorted (λ a b, hash_less a b = true) ids →
  StronglySorted (not_after hash_less) ids.
Proof.
  apply StronglySorted_mono. intros a b H. unfold not_after.
  by apply (less_asym (less := hash_less)).
Qed.

Lemma map_index_pairs (pairs : list (ComponentID * ComponentHash)) :
  NoDup pairs.*1 →
  map_index (list_to_map pairs) <$> pairs.*1 = pairs.*2.
Proof.
  intros Hnd. rewrite <-list_fmap_compose. apply list_fmap_ext.
  intros i [k v] Hi. simpl. unfold map_index.
  rewrite (proj1 (elem_of_list_to_map pairs k v Hnd)); [done|].
  by eapply list_elem_of_lookup_2.
Qed.

(** X5. [HashComponents] hashes the component hashes only, taken in
    ascending order of the component ids: for components listed with
    strictly ascending ids, the forest hash is the SHA-1 sum of their
    hashes concatenated in that order.  The ids themselves are not
    written, so they only matter for the order; a graph of one
    component has the same forest hash whatever the id of that component
    is. *)
Theorem HashComponents_does_not_hash_ids :
  (∀ pairs : list (ComponentID * ComponentHash),
     StronglySorted (λ a b, hash_less a b = true) pairs.*1 →
     HashComponents (list_to_map pairs) = sha1_Sum (mjoin pairs.*2))
  ∧ (∀ (id1 id2 : ComponentID) (h : ComponentHash),
       HashComponents {[id1 := h]} = HashComponents {[id2 := h]}).
Proof.
  assert (H : ∀ pairs : list (ComponentID * ComponentHash),
     StronglySorted (λ a b, hash_less a b = true) pairs.*1 →
     HashComponents (list_to_map pairs) = sha1_Sum (mjoin pairs.*2)).
  { intros pairs Hs. pose proof (strictly_ascending_NoDup _ Hs) as Hnd.
    unfold HashComponents. rewrite HashComponentsIn_unfold.
    assert (Hkeys : range_keys (list_to_map pairs : gmap _ _) ≡ₚ pairs.*1).
    { unfold range_keys, range_map. by rewrite map_to_list_to_map. }
    rewrite (sort_hashes_perm _ _ Hkeys).
    rewrite sort_hashes_sorted_id by by apply strictly_ascending_sorted.
    by rewrite map_index_pairs. }
  split; [exact H|]. intros id1 id2 h.
  rewrite <-(insert_empty (M := gmap ComponentID) id1 h).
  rewrite <-(insert_empty (M := gmap ComponentID) id2 h).
  change (<[id1:=h]> ∅) with (list_to_map [(id1, h)] : gmap ComponentID ComponentHash).
  change (<[id2:=h]> ∅) with (list_to_map [(id2, h)] : gmap ComponentID ComponentHash).
  rewrite !H; [done| |]; simpl; repeat constructor.
Qed.

Lemma foldl_insert_list_to_map (cs : list (ComponentID * ComponentHash)) :
  foldl (λ m c, <[c.1 := c.2]> m) (∅ : gmap ComponentID ComponentHash) cs
  = list_to_map (reverse cs).
Proof.
  induction cs as [|c cs IH] using rev_ind; [done|].
  rewrite foldl_app, reverse_app. simpl. by rewrite IH.
Qed.

(** X6. [ComputeForestHash] collects the references into a map keyed by
    component id before hashing: the result is that of [HashComponents]
    on the map in which, of two components with the same id, the later
    one stays.  So the order of components with distinct ids does not
    matter, and a component listed again replaces its earlier entry. *)
Theorem ComputeForestHash_order_and_duplicates :
  (∀ cs, ComputeForestHash cs = HashComponents (list_to_map (reverse cs)))
  ∧ (∀ cs cs', NoDup cs.*1 → cs ≡ₚ cs' → ComputeForestHash cs = ComputeForestHash cs')
  ∧ (∀ cs id h h', ComputeForestHash (cs ++ [(id, h); (id, h')])
                   = ComputeForestHash (cs ++ [(id, h')])).
Proof.
  assert (H : ∀ cs, ComputeForestHash cs = HashComponents (list_to_map (reverse cs))).
  { intros cs. unfold ComputeForestHash. cbv zeta. by rewrite foldl_insert_list_to_map. }
  split; [exact H|]. split.
  - intros cs cs' Hnd Hp. rewrite !H. f_equal. apply list_to_map_proper.
    + by rewrite fmap_reverse, reverse_Permutation.
    + by rewrite !reverse_Permutation.
  - intros cs id h h'. rewrite !H. f_equal.
    rewrite !reverse_app. simpl. by rewrite insert_insert_eq.
Qed.

(** ** Text form of content addresses: round trip and edges *)

(** The two digits [hex.Encode] writes for one byte. *)
Definition hex_pair (b : byte) : bytes :=
  [hex_digit (Byte.to_N b / 16); hex_digit (Byte.to_N b mod 16)].

Lemma MarshalText_pairs h : MarshalText h = mjoin (hex_pair <$> h).
Proof.
  unfold MarshalText, hex_Encode.
  by rewrite String.list_byte_of_string_of_list_byte.
Qed.

Lemma fromHexChar_hex_digit n : n < 16 → fromHexChar (hex_digit n) = Some n.
Proof.
  intros Hn.
  assert (Hcases : n ∈ N.of_nat <$> seq 0 16).
  { apply list_elem_of_fmap. exists (N.to_nat n). split; [lia|].
    apply elem_of_seq. lia. }
  simpl in Hcases. set_unfold.
  repeat (destruct Hcases as [->|Hcases]; [reflexivity|]). done.
Qed.

Lemma byte_of_digits b :
  byte_of_N (Byte.to_N b / 16 * 16 + Byte.to_N b mod 16) = b.
Proof.
  pose proof (Byte.to_N_bounded b) as Hb.
  rewrite N.mul_comm, <-N.div_mod by done.
  unfold byte_of_N. rewrite N.mod_small by lia. by rewrite Byte.of_to_N.
Qed.

Lemma take_S_insert {A} (dst : list A) i b :
  (i < length dst)%nat → take (S i) (<[i := b]> dst) = take i dst ++ [b].
Proof.
  intros Hi. rewrite (take_S_r _ _ b) by (by apply list_lookup_insert_eq).
  by rewrite take_insert_ge.
Qed.

Lemma hex_Decode_pair b bs dst i :
  hex_Decode dst i (mjoin (hex_pair <$> b :: bs)) =
  if decide (i < length dst)%nat
  then hex_Decode (<[i := b]> dst) (S i) (mjoin (hex_pair <$> bs))
  else (dst, i, Panic "index out of range").
Proof.
  pose proof (Byte.to_N_bounded b) as Hb.
  cbn [fmap list_fmap mjoin list_join hex_pair app hex_Decode].
  rewrite (fromHexChar_hex_digit (Byte.to_N b / 16))
    by (apply N.Div0.div_lt_upper_bound; lia).
  rewrite (fromHexChar_hex_digit (Byte.to_N b mod 16)) by (apply N.mod_lt; lia).
  by rewrite byte_of_digits.
Qed.

(** Decoding what [hex.Encode] wrote, into a [dst] with room for it. *)
Lemma hex_Decode_encoded bs : ∀ dst i,
  (i + length bs ≤ length dst)%nat →
  hex_Decode dst i (mjoin (hex_pair <$> bs))
  = (take i dst ++ bs ++ drop (i + length bs) dst, (i + length bs)%nat, Ok ()).
Proof.
  induction bs as [|b bs IH]; intros dst i Hlen.
  - simpl. by rewrite Nat.add_0_r, take_drop.
  - simpl in Hlen. rewrite hex_Decode_pair, decide_True by lia.
    rewrite IH by (rewrite length_insert; lia).
    rewrite take_S_insert, drop_insert_lt by lia.
    replace (S i + length bs)%nat with (i + length (b :: bs))%nat by (simpl; lia).
    by rewrite <-(assoc_L (++)).
Qed.

(** ... and into a [dst] that is too short: the call panics once [dst]
    is full. *)
Lemma hex_Decode_overflow bs : ∀ dst i,
  (i ≤ length dst)%nat → (length dst < i + length bs)%nat →
  hex_Decode dst i (mjoin (hex_pair <$> bs))
  = (take i dst ++ take (length dst - i) bs, length dst, Panic "index out of range").
Proof.
  induction bs as [|b bs IH]; intros dst i Hi Hlen; [simpl in Hlen; lia|].
  rewrite hex_Decode_pair. case_decide as Hlt.
  - simpl in Hlen. rewrite IH by (rewrite length_insert; lia).
    rewrite length_insert, take_S_insert by lia.
    replace (length dst - i)%nat with (S (length dst - S i)) by lia.
    by rewrite <-(assoc_L (++)).
  - assert (i = length dst) as -> by lia.
    by rewrite Nat.sub_diag, firstn_all, app_nil_r.
Qed.

(** X7. The text form of a content address reads back: for 20-byte
    arrays [h] and [h0], [UnmarshalText] into [h0] of what [MarshalText]
    gives for [h] returns nil and leaves [h] in the receiver; the text is
    40 bytes long. *)
Theorem UnmarshalText_MarshalText (h h0 : contentAddress) :
  length h = 20%nat → length h0 = 20%nat →
  UnmarshalText h0 (MarshalText h) = (h, Ok ()) ∧ length (MarshalText h) = 40%nat.
Proof.
  intros Hh Hh0. split.
  - unfold UnmarshalText. rewrite MarshalText_pairs.
    rewrite hex_Decode_encoded by (simpl; lia).
    simpl. rewrite Hh, decide_False by lia.
    by rewrite drop_ge, app_nil_r by lia.
  - rewrite MarshalText_pairs.
    assert (Hl : length (mjoin (hex_pair <$> h)) = (2 * length h)%nat).
    { clear. induction h as [|b h IH]; [done|].
      change (mjoin (hex_pair <$> b :: h)) with (hex_pair b ++ mjoin (hex_pair <$> h)).
      rewrite length_app, IH. simpl. lia. }
    rewrite Hl, Hh. done.
Qed.

Lemma UnmarshalText_MarshalText_witness :
  UnmarshalText zeroAddress (MarshalText (sha1_Sum [])) = (sha1_Sum [], Ok ())
  ∧ length (MarshalText (sha1_Sum [])) = 40%nat.
Proof.
  apply (UnmarshalText_MarshalText (sha1_Sum []) zeroAddress);
    vm_compute; reflexivity.
Defined.

(** X8. [UnmarshalText] decodes straight into the receiver and only
    then looks at the length.  A text of fewer than 20 encoded bytes
    (the empty text too) gives the "not enough bytes" error, and the
    head of the receiver is already overwritten by the bytes that were
    decoded; a text of more than 20 encoded bytes does not give an
    error: decoding runs past the end of the 20-byte array and the call
    panics, the receiver holding the first 20 decoded bytes. *)
Theorem UnmarshalText_wrong_length (bs h0 : bytes) :
  length h0 = 20%nat →
  ((length bs < 20)%nat →
     UnmarshalText h0 (mjoin (hex_pair <$> bs))
     = (bs ++ drop (length bs) h0, Err (Wrap "not enough bytes" ErrUnexpectedEOF)))
  ∧ ((20 < length bs)%nat →
     UnmarshalText h0 (mjoin (hex_pair <$> bs))
     = (take 20 bs, Panic "index out of range")).
Proof.
  intros Hh0. split; intros Hlen; unfold UnmarshalText.
  - rewrite hex_Decode_encoded by (simpl; lia). simpl.
    by rewrite decide_True by lia.
  - rewrite hex_Decode_overflow by (simpl; lia). simpl.
    by rewrite Hh0.
Qed.

Lemma UnmarshalText_wrong_length_witness :
  (UnmarshalText zeroAddress (mjoin (hex_pair <$> [xab; xcd]))
   = ([xab; xcd] ++ drop 2 zeroAddress, Err (Wrap "not enough bytes" ErrUnexpectedEOF)))
  ∧ (UnmarshalText zeroAddress (mjoin (hex_pair <$> replicate 21 xff))
     = (replicate 20 xff, Panic "index out of range")).
Proof.
  destruct (UnmarshalText_wrong_length [xab; xcd] zeroAddress eq_refl) as [H1 _].
  destruct (UnmarshalText_wrong_length (replicate 21 xff) zeroAddress eq_refl) as [_ H2].
  split; [apply H1; simpl; lia|apply H2; simpl; lia].
Defined.

(** ** Reflective content addressing: what the digest can tell apart *)

Definition string_field (name : string) (s : string) : StructField * rvalue :=
  (Field name true false, RV no_methods (KString s)).
Definition strings_field (name : string) (l : list string) : StructField * rvalue :=
  (Field name true false, RV no_methods (KSeq (ElemString l))).

Lemma string_bytes_app a b : string_bytes (a +:+ b) = string_bytes a ++ string_bytes b.
Proof.
  unfold string_bytes, String.list_byte_of_string.
  induction a as [|c a IH]; simpl; [done|]. by rewrite IH.
Qed.

(** X9. Strings are written to the digest as their bytes alone, with
    no length and no separator, so the digest cannot tell where one
    string ends: two values of one type share a content address when
    only the split of the text differs.  A field of type []string is
    hashed as the concatenation of its elements, and of two string
    fields [A] and [B], the text of [A] may absorb the name of [B]. *)
Theorem ContentAddress_strings_run_together (pkg name : string) :
  (∀ (field : string) (l1 l2 : list string),
     mjoin (string_bytes <$> l1) = mjoin (string_bytes <$> l2) →
     ContentAddress (MkValue pkg name (RV no_methods (KStruct [strings_field field l1])))
     = ContentAddress (MkValue pkg name (RV no_methods (KStruct [strings_field field l2]))))
  ∧ (∀ field, ContentAddress (MkValue pkg name
                 (RV no_methods (KStruct [strings_field field ["ab"; "c"]])))
            = ContentAddress (MkValue pkg name
                 (RV no_methods (KStruct [strings_field field ["a"; "bc"]]))))
  ∧ (∀ s t : string,
       ContentAddress (MkValue pkg name (RV no_methods
         (KStruct [string_field "A" s; string_field "B" ("B" +:+ t)])))
       = ContentAddress (MkValue pkg name (RV no_methods
         (KStruct [string_field "A" (s +:+ "B"); string_field "B" t])))).
Proof.
  assert (H1 : ∀ (field : string) (l1 l2 : list string),
     mjoin (string_bytes <$> l1) = mjoin (string_bytes <$> l2) →
     ContentAddress (MkValue pkg name (RV no_methods (KStruct [strings_field field l1])))
     = ContentAddress (MkValue pkg name (RV no_methods (KStruct [strings_field field l2])))).
  { intros field l1 l2 Heq. unfold ContentAddress.
    cbn [reflected shape_of methods_of no_methods ContentAddresser].
    assert (Hone : ∀ digest l,
      reflectiveContentAddress digest (KStruct [strings_field field l])
      = Ok (digest ++ string_bytes field ++ mjoin (string_bytes <$> l))).
    { intros digest l. rewrite reflectiveContentAddress_sorted
        by (simpl; repeat constructor; set_solver).
      change (sort_Slice field_less [strings_field field l]) with [strings_field field l].
      cbn [foldl hashField strings_field mbind result_bind bind IsExported negb Name
           IsInformationElement andb].
      rewrite andb_false_r.
      cbn [fieldValue methods_of no_methods ContentAddresser BinaryMarshaler writeElems].
      rewrite (foldl_Write string_bytes). unfold hash_Write. by rewrite <-app_assoc. }
    by rewrite !Hone, Heq. }
  split; [exact H1|]. split; [intros field; by apply H1|].
  intros s t. unfold ContentAddress.
  cbn [reflected shape_of methods_of no_methods ContentAddresser].
  assert (Htwo : ∀ digest a b,
    reflectiveContentAddress digest (KStruct [string_field "A" a; string_field "B" b])
    = Ok (digest ++ string_bytes "A" ++ string_bytes a ++ string_bytes "B" ++ string_bytes b)).
  { intros digest a b. rewrite reflectiveContentAddress_sorted
      by (apply (bool_decide_unpack _); vm_compute; exact I).
    change (sort_Slice field_less [string_field "A" a; string_field "B" b])
      with [string_field "A" a; string_field "B" b].
    cbn [foldl hashField string_field mbind result_bind bind IsExported negb Name
         IsInformationElement andb String.eqb Ascii.eqb Bool.eqb].
    cbn [fieldValue methods_of no_methods ContentAddresser BinaryMarshaler].
    cbn [mbind result_bind bind]. unfold hash_Write. by rewrite <-!app_assoc. }
  rewrite !Htwo, !string_bytes_app. by rewrite <-!app_assoc.
Qed.

(** *** Fields the reflective hasher passes over *)

(** The fields that reach the digest: exported ones, the embedded
    [InformationElement] apart. *)
Definition hashed (fv : StructField * rvalue) : Prop :=
  IsExported fv.1 = true ∧
  ((Name fv.1 =? "InformationElement")%string && IsInformationElement fv.1) = false.

#[global] Instance hashed_dec fv : Decision (hashed fv).
Proof. unfold hashed. apply _. Defined.

Lemma StronglySorted_filter {A} (R : relation A) (P : A → Prop)
    `{∀ x, Decision (P x)} (l : list A) :
  StronglySorted R l → StronglySorted R (filter P l).
Proof.
  induction 1 as [|x l Hs IH Hx]; [constructor|].
  rewrite filter_cons. case_decide; [|done].
  constructor; [done|]. apply Forall_forall. intros y [_ Hy]%list_elem_of_filter.
  rewrite Forall_forall in Hx. auto.
Qed.

Lemma sort_fields_filter (P : StructField * rvalue → Prop) `{∀ x, Decision (P x)}
    (fields : list (StructField * rvalue)) :
  NoDup (field_names fields) →
  sort_Slice field_less (filter P fields) = filter P (sort_Slice field_less fields).
Proof.
  intros Hnd.
  apply (StronglySorted_unique_strong (not_after field_less)).
  - intros x y Hx Hy Hxy Hyx.
    rewrite sort_Slice_Permutation in Hx by apply _.
    apply list_elem_of_filter in Hx as [_ Hx].
    apply list_elem_of_filter in Hy as [_ Hy].
    rewrite sort_Slice_Permutation in Hy by apply _.
    by apply (field_less_separates fields).
  - apply sort_Slice_sorted, _.
  - apply StronglySorted_filter, sort_Slice_sorted, _.
  - rewrite !sort_Slice_Permutation by apply _. done.
Qed.

Lemma foldl_hashField_filter (l : list (StructField * rvalue)) :
  ∀ acc, foldl hashField acc (filter hashed l) = foldl hashField acc l.
Proof.
  induction l as [|[field value] l IH]; intros acc; [done|].
  rewrite filter_cons. case_decide as Hh; simpl; [done|].
  rewrite IH. f_equal. unfold hashed in Hh. simpl in Hh.
  destruct acc as [digest| |]; simpl; try done.
  destruct (IsExported field); simpl; [|done].
  destruct ((Name field =? "InformationElement")%string && IsInformationElement field);
    [done|]. by destruct Hh.
Qed.

(** X10. The reflective hasher passes over unexported fields and over
    the embedded [InformationElement]: a struct (with distinct field
    names) has the content address of the struct left when those fields
    are taken away, whatever they hold; unsupported kinds, errors and
    panics in them go unnoticed. *)
Theorem ContentAddress_ignores_skipped_fields
    (pkg name : string) (m : methods) (fields : list (StructField * rvalue)) :
  NoDup (field_names fields) →
  (∀ digest, reflectiveContentAddress digest (KStruct fields)
             = reflectiveContentAddress digest (KStruct (filter hashed fields)))
  ∧ ContentAddress (MkValue pkg name (RV m (KStruct fields)))
    = ContentAddress (MkValue pkg name (RV m (KStruct (filter hashed fields)))).
Proof.
  intros Hnd.
  assert (Hnd' : NoDup (field_names (filter hashed fields))).
  { unfold field_names. eapply sublist_NoDup; [exact Hnd|].
    apply fmap_sublist, sublist_filter. }
  assert (Heq : ∀ digest, reflectiveContentAddress digest (KStruct fields)
             = reflectiveContentAddress digest (KStruct (filter hashed fields))).
  { intros digest. rewrite !reflectiveContentAddress_sorted by done.
    by rewrite sort_fields_filter, foldl_hashField_filter. }
  split; [exact Heq|]. unfold ContentAddress.
  cbn [reflected shape_of methods_of newNodeHash PkgPath TypeName].
  destruct (ContentAddresser m); [done|]. by rewrite Heq.
Qed.

(** A node with a private channel: the field is of a kind the hasher
    rejects, and it does not count. *)
Lemma ContentAddress_ignores_skipped_witness :
  ContentAddress (MkValue "example" "Node" (RV no_methods (KStruct
    [marker_field; string_field "Name" "a";
     (Field "done" false false, RV no_methods (KOther "chan"))])))
  = ContentAddress (MkValue "example" "Node" (RV no_methods (KStruct
    [string_field "Name" "a"]))).
Proof.
  apply (ContentAddress_ignores_skipped_fields "example" "Node" no_methods
           [marker_field; string_field "Name" "a";
            (Field "done" false false, RV no_methods (KOther "chan"))]).
  apply (bool_decide_unpack _). vm_compute. exact I.
Defined.

(** ** Snapshots: full diff, partial diff and update *)

Section Diff.
Import neo4jengine neo4jengine_snapshot.

Lemma Diff_loop2 (newer : snapshot) orderOld removed :
  foldl (λ removed id,
           if bool_decide (is_Some (newer !! id)) then removed else removed ++ [id])
        removed orderOld
  = removed ++ filter (λ id, id ∉ dom newer) orderOld.
Proof.
  revert removed. induction orderOld as [|id l IH]; intros removed; simpl.
  - by rewrite app_nil_r.
  - rewrite IH, filter_cons. case_bool_decide as Hin.
    + rewrite decide_False; [done|]. intros Hn. apply Hn. by apply elem_of_dom.
    + rewrite decide_True by (by rewrite elem_of_dom). by rewrite <-app_assoc.
Qed.

Lemma DiffIn_unfold order orderOld s newer :
  DiffIn order orderOld s newer =
  ((filter (is_created s) order).*1, (filter (is_updated s) order).*1,
   filter (λ id, id ∉ dom newer) orderOld).
Proof. unfold DiffIn. by rewrite PartialDiff_loop1, Diff_loop2. Qed.

(** The changeset [WhatChanged] would build from the three lists, for
    assemblies [asm id]. *)
Definition changeset (s newer : snapshot) (asm : ComponentID → Assembly)
    (created updated removed : list ComponentID) : GraphChanged :=
  MkGraphChanged
    (GraphHash s)
    ((λ id, MkCreated (Some (asm id))) <$> created)
    ((λ id, MkUpdated (map_index s id) (Some (asm id))) <$> updated)
    ((λ id, MkRemoved id (map_index s id)) <$> removed)
    (GraphHash newer)
    0.

Lemma Update_changeset s newer asm created updated removed :
  Update s (changeset s newer asm created updated removed)
  = Ok (merge_changes s (changeset s newer asm created updated removed)).
Proof.
  unfold Update, merge_changes, changeset. cbn [Created Updated Removed].
  assert (Hloop : ∀ {A} (get : A → option Assembly) (l : list A) (s0 : snapshot),
    Forall (λ x, is_Some (get x)) l →
    foldl (λ (acc : result snapshot) x,
           s ← acc;
           id ← call_AssemblyID (get x);
           hash ← call_AssemblyHash (get x);
           Ok (<[id := hash]> s))
        (Ok s0) l = Ok (foldl (λ s x, add_entry s (get x)) s0 l)).
  { intros A get l. induction l as [|x l IH]; intros s0 Hall; [done|].
    apply Forall_cons in Hall as [[a Ha] Hall]. simpl. rewrite Ha. simpl.
    by rewrite IH. }
  rewrite (Hloop _ created_Assembly) by (apply Forall_fmap, Forall_true; by eexists).
  simpl.
  rewrite (Hloop _ updated_Assembly) by (apply Forall_fmap, Forall_true; by eexists).
  done.
Qed.

Lemma lookup_foldl_added {A} (mk : ComponentID → A) (get : A → option Assembly)
    (asm : ComponentID → Assembly) (newer : snapshot)
    (ids : list ComponentID) (s : snapshot) (k : ComponentID) :
  (∀ id, get (mk id) = Some (asm id)) →
  (∀ id, id ∈ ids → Assembly_AssemblyID (asm id) = id
                    ∧ newer !! id = Some (Assembly_AssemblyHash (asm id))) →
  foldl (λ s x, add_entry s (get x)) s (mk <$> ids) !! k =
  if decide (k ∈ ids) then newer !! k else s !! k.
Proof.
  intros Hget. revert s. induction ids as [|id ids IH]; intros s Hids.
  - rewrite decide_False by apply not_elem_of_nil. done.
  - rewrite fmap_cons. cbn [foldl].
    rewrite IH by (intros; apply Hids; by right).
    destruct (Hids id) as (Hid & Hnew); [by left|].
    rewrite Hget. simpl. rewrite Hid.
    destruct (decide (k ∈ ids)) as [Hin|Hnin].
    + rewrite decide_True; [done|by right].
    + destruct (decide (k = id)) as [->|Hne].
      * rewrite decide_True by by left. by rewrite lookup_insert_eq.
      * rewrite decide_False by (by intros [?|?]%elem_of_cons).
        by rewrite lookup_insert_ne.
Qed.

(** X11. [Diff] and [Update] are inverse to each other.  Whatever order
    the two range loops of [Diff] run in, [created] holds the ids that
    only the newer snapshot has, [updated] the ids of both whose hashes
    differ, [removed] the ids that only the older one has, each id once;
    and [Update] of the older snapshot with the changeset built from
    these three lists (as [WhatChanged] builds it, from assemblies that
    carry the ids and hashes of the newer snapshot) gives the newer
    snapshot. *)
Theorem Update_after_Diff (s newer : snapshot) (asm : ComponentID → Assembly)
    (order : list (ComponentID * ComponentHash)) (orderOld : list ComponentID)
    (created updated removed : list ComponentID) :
  order ≡ₚ range_map newer →
  orderOld ≡ₚ range_keys s →
  (∀ id h, newer !! id = Some h →
           Assembly_AssemblyID (asm id) = id ∧ Assembly_AssemblyHash (asm id) = h) →
  DiffIn order orderOld s newer = (created, updated, removed) →
  (∀ id, id ∈ created ↔ id ∈ dom newer ∧ id ∉ dom s)
  ∧ (∀ id, id ∈ updated ↔
           ∃ old new, s !! id = Some old ∧ newer !! id = Some new ∧ old ≠ new)
  ∧ (∀ id, id ∈ removed ↔ id ∈ dom s ∧ id ∉ dom newer)
  ∧ NoDup (created ++ updated ++ removed)
  ∧ Update s (changeset s newer asm created updated removed) = Ok newer.
Proof.
  intros Hp Hold Hasm Hdiff.
  destruct (PartialDiffIn_lists s newer [] order created updated [])
    as (Hc & Hndc & Hu & Hndu & _ & _); [done| |].
  { rewrite PartialDiffIn_unfold. rewrite DiffIn_unfold in Hdiff.
    by injection Hdiff as <- <- _. }
  rewrite DiffIn_unfold in Hdiff. injection Hdiff as _ _ Hrem.
  assert (Hr : ∀ id, id ∈ removed ↔ id ∈ dom s ∧ id ∉ dom newer).
  { intros id. rewrite <-Hrem, list_elem_of_filter, Hold.
    unfold range_keys, range_map. rewrite list_elem_of_fmap. split.
    - intros [Hn ([k v] & -> & Hkv%elem_of_map_to_list)]. split; [|done].
      apply elem_of_dom. eauto.
    - intros [[v Hv]%elem_of_dom Hn]. split; [done|].
      exists (id, v). split; [done|]. by apply elem_of_map_to_list. }
  assert (Hndr : NoDup removed).
  { rewrite <-Hrem. apply NoDup_filter. rewrite Hold. apply NoDup_fst_map_to_list. }
  split; [exact Hc|]. split; [exact Hu|]. split; [exact Hr|]. split.
  { apply NoDup_app. split; [done|]. split.
    - intros id [Hin Hnot]%Hc [(old & ? & Hs & _)%Hu|[Hs _]%Hr]%elem_of_app.
      + apply Hnot, elem_of_dom. eauto.
      + done.
    - apply NoDup_app. split; [done|]. split; [|done].
      intros id (old & new & _ & Hn & _)%Hu [_ Hnot]%Hr.
      apply Hnot, elem_of_dom. eauto. }
  rewrite Update_changeset. f_equal. apply map_eq. intros k.
  unfold merge_changes, changeset. cbn [Created Updated Removed].
  rewrite (lookup_foldl_delete removed_ID).
  rewrite <-list_fmap_compose. simpl. rewrite list_fmap_id.
  rewrite (lookup_foldl_added _ updated_Assembly asm newer); [|done|].
  2:{ intros id (old & new & _ & Hn & _)%Hu. destruct (Hasm id new Hn) as [-> ->]. done. }
  rewrite (lookup_foldl_added _ created_Assembly asm newer); [|done|].
  2:{ intros id [[new Hn]%elem_of_dom _]%Hc. destruct (Hasm id new Hn) as [-> ->]. done. }
  destruct (decide (k ∈ removed)) as [[_ Hn%not_elem_of_dom]%Hr|Hnr]; [done|].
  destruct (decide (k ∈ updated)); [done|].
  destruct (decide (k ∈ created)) as [|Hnc]; [done|].
  destruct (newer !! k) as [new|] eqn:En, (s !! k) as [old|] eqn:Es; try done.
  - destruct (decide (old = new)) as [->|Hne]; [done|].
    exfalso. apply n. apply Hu. eauto.
  - exfalso. apply Hnc, Hc. rewrite elem_of_dom, not_elem_of_dom. eauto.
  - exfalso. apply Hnr, Hr. rewrite elem_of_dom, not_elem_of_dom. eauto.
Qed.

End Diff.

Lemma Update_after_Diff_witness :
  let idA := pad20 [x0a] in
  let idB := pad20 [x0b] in
  let idC := pad20 [x0c] in
  let S : gmap ComponentID ComponentHash := <[idA := pad20 [x01]]> {[ idB := pad20 [x02] ]} in
  let P : gmap ComponentID ComponentHash := <[idA := pad20 [x03]]> {[ idC := pad20 [x04] ]} in
  let asm := λ id, MkAssembly id (map_index P id) [] in
  neo4jengine_snapshot.Diff S P = ([idC], [idA], [idB])
  ∧ neo4jengine.Update S (changeset S P asm [idC] [idA] [idB]) = Ok P.
Proof.
  intros idA idB idC S P asm.
  assert (Hdiff : neo4jengine_snapshot.Diff S P = ([idC], [idA], [idB]))
    by (vm_compute; reflexivity).
  split; [exact Hdiff|].
  refine (proj2 (proj2 (proj2 (proj2
    (Update_after_Diff S P asm (range_map P) (range_keys S)
       [idC] [idA] [idB] _ _ _ Hdiff))))); [reflexivity|reflexivity|].
  intros id h Hh. split; [done|]. unfold asm, map_index. simpl. by rewrite Hh.
Defined.

(** ** The change engine: partial knowledge, taints and empty sweeps *)

Section engine_more.
Import neo4jengine neo4jengine_snapshot.

(** X12. [PartialDiff] never reports more than [Diff] on the same two
    snapshots.  Each of the two functions ranges over its maps in an
    order of its own, so the lists are compared up to order: the created
    and the updated ids of [PartialDiff] are those of [Diff], and
    [PartialDiff] reports as removed exactly the dirty roots that [Diff]
    reports as removed, in the order of the dirty roots.  A component that
    went away is missed when it is not among the dirty roots, and
    reported twice when it is listed twice. *)
Theorem PartialDiff_within_Diff (s partial : snapshot) (dirtyRoots : list ComponentID)
    (orderP orderD : list (ComponentID * ComponentHash)) (orderOld : list ComponentID) :
  orderP ≡ₚ range_map partial →
  orderD ≡ₚ range_map partial →
  orderOld ≡ₚ range_keys s →
  let p := PartialDiffIn orderP s partial dirtyRoots in
  let d := DiffIn orderD orderOld s partial in
  p.1.1 ≡ₚ d.1.1
  ∧ p.1.2 ≡ₚ d.1.2
  ∧ (∀ id, id ∈ p.2 ↔ id ∈ d.2 ∧ id ∈ dirtyRoots)
  ∧ p.2 = filter (λ id, id ∈ d.2) dirtyRoots.
Proof.
  intros HP HD Hold p d. subst p d. rewrite PartialDiffIn_unfold, DiffIn_unfold. simpl.
  assert (Hrem : ∀ id, id ∈ filter (λ id, id ∉ dom partial) orderOld
                       ↔ id ∈ dom s ∧ id ∉ dom partial).
  { intros id. rewrite list_elem_of_filter, Hold.
    unfold range_keys, range_map. rewrite list_elem_of_fmap. split.
    - intros [Hn ([k v] & -> & Hkv%elem_of_map_to_list)]. split; [|done].
      apply elem_of_dom. eauto.
    - intros [[v Hv]%elem_of_dom Hn]. split; [done|].
      exists (id, v). split; [done|]. by apply elem_of_map_to_list. }
  split; [by rewrite HP, HD|]. split; [by rewrite HP, HD|]. split.
  - intros id. rewrite list_elem_of_filter, Hrem. unfold is_removed. tauto.
  - apply list_filter_iff. intros id. rewrite Hrem. unfold is_removed. tauto.
Qed.

Lemma PartialDiff_within_Diff_witness :
  let idA := pad20 [x0a] in
  let idB := pad20 [x0b] in
  let idC := pad20 [x0c] in
  let idD := pad20 [x0d] in
  let idE := pad20 [x0e] in
  let S : gmap ComponentID ComponentHash :=
    <[idA := pad20 [x01]]> (<[idB := pad20 [x02]]> {[ idE := pad20 [x05] ]}) in
  let P : gmap ComponentID ComponentHash :=
    <[idA := pad20 [x03]]> (<[idC := pad20 [x04]]> {[ idD := pad20 [x06] ]}) in
  let p := PartialDiffIn (range_map P) S P [idB; idC; idB] in
  let d := DiffIn (reverse (range_map P)) (reverse (range_keys S)) S P in
  p.1.1 ≡ₚ d.1.1
  ∧ p.1.2 ≡ₚ d.1.2
  ∧ (∀ id, id ∈ p.2 ↔ id ∈ d.2 ∧ id ∈ [idB; idC; idB])
  ∧ p.2 = filter (λ id, id ∈ d.2) [idB; idC; idB].
Proof.
  intros idA idB idC idD idE S P.
  apply (PartialDiff_within_Diff S P [idB; idC; idB]
           (range_map P) (reverse (range_map P)) (reverse (range_keys S))).
  - reflexivity.
  - apply reverse_Permutation.
  - apply reverse_Permutation.
Defined.

(** The taint map after [Taint nodes] on an empty map. *)
Definition tainted (nodes : list RawNode) : gmap NodeHash RawNode :=
  foldl (λ m node, <[Address node := node]> m) ∅ nodes.

(** [n] is the last node of [nodes] with its content address. *)
Definition last_with_address (nodes : list RawNode) (n : RawNode) : Prop :=
  ∃ before after, nodes = before ++ n :: after ∧ Address n ∉ Address <$> after.

Lemma tainted_snoc nodes x : tainted (nodes ++ [x]) = <[Address x := x]> (tainted nodes).
Proof. unfold tainted. by rewrite foldl_app. Qed.

Lemma tainted_lookup nodes a n :
  tainted nodes !! a = Some n ↔ last_with_address nodes n ∧ Address n = a.
Proof.
  revert a n. induction nodes as [|x nodes IH] using rev_ind; intros a n.
  - unfold tainted. simpl. rewrite lookup_empty. split; [done|].
    intros [(before & after & H & _) _]. by destruct before.
  - rewrite tainted_snoc. destruct (decide (Address x = a)) as [<-|Hne].
    + rewrite lookup_insert_eq. split.
      * intros [= <-]. split; [|done]. exists nodes, []. split; [done|]. set_solver.
      * intros [(before & after & H & Hlast) Ha].
        destruct after as [|y after _] using rev_ind.
        -- apply app_inj_tail in H as [_ ->]. done.
        -- rewrite app_comm_cons, app_assoc in H. apply app_inj_tail in H as [_ <-].
           exfalso. apply Hlast. rewrite fmap_app. set_solver.
    + rewrite lookup_insert_ne by done. rewrite IH. split.
      * intros [(before & after & -> & Hlast) Ha]. split; [|done].
        exists before, (after ++ [x]). split; [by rewrite <-app_assoc|].
        rewrite fmap_app. set_solver.
      * intros [(before & after & H & Hlast) Ha]. split; [|done].
        destruct after as [|y after _] using rev_ind.
        -- apply app_inj_tail in H as [_ ->]. done.
        -- rewrite app_comm_cons, app_assoc in H. apply app_inj_tail in H as [-> <-].
           exists before, after. split; [done|].
           rewrite fmap_app in Hlast. set_solver.
Qed.

Lemma collect_values {K} `{Countable K} {V} (l : list (K * V)) acc :
  foldl (λ nodes kv, nodes ++ [kv.2]) acc l = acc ++ l.*2.
Proof.
  revert acc. induction l as [|x l IH]; intros acc; simpl.
  - by rewrite app_nil_r.
  - by rewrite IH, <-app_assoc.
Qed.

(** X13. [Taint] keys the dirty nodes by content address and
    [ClearTaints] hands them out once.  After any sequence of nodes has
    been tainted on a drained map, [ClearTaints] returns one node per
    content address, namely the last one tainted with that address (so
    every tainted node is represented, and a node tainted again replaces
    its earlier value), and it empties the map: a second [ClearTaints]
    returns nothing.  The snapshot is not touched. *)
Theorem ClearTaints_after_Taint (s : snapshot) (nodes : list RawNode) :
  let e := Taint nodes (MkEngine s None) in
  let out := (ClearTaints e).1 in
  let e' := (ClearTaints e).2 in
  NoDup (Address <$> out)
  ∧ (∀ n, n ∈ out ↔ last_with_address nodes n)
  ∧ (∀ n, n ∈ nodes → ∃ n', n' ∈ out ∧ Address n' = Address n)
  ∧ e' = MkEngine s None
  ∧ (ClearTaints e').1 = [].
Proof.
  intros e out e'. subst e out e'. unfold Taint, ClearTaints. simpl.
  fold (tainted nodes). rewrite collect_values. simpl.
  assert (Hout : ∀ n, n ∈ (range_map (tainted nodes)).*2 ↔ last_with_address nodes n).
  { intros n. unfold range_map. rewrite list_elem_of_fmap. split.
    - intros ([a n'] & -> & Hn%elem_of_map_to_list). by apply tainted_lookup in Hn as [? _].
    - intros Hn. exists (Address n, n). split; [done|].
      apply elem_of_map_to_list, tainted_lookup. done. }
  split; [|split; [exact Hout|split; [|done]]].
  - assert (Heq : Address <$> (range_map (tainted nodes)).*2
                  = (range_map (tainted nodes)).*1).
    { rewrite <-list_fmap_compose. apply list_fmap_ext. intros i [a n] Hi. simpl.
      apply list_elem_of_lookup_2, elem_of_map_to_list, tainted_lookup in Hi.
      by destruct Hi. }
    rewrite Heq. apply NoDup_fst_map_to_list.
  - intros n Hn.
    assert (Hsome : is_Some (tainted nodes !! Address n)).
    { clear Hout. induction nodes as [|x nodes IH] using rev_ind; [by apply elem_of_nil in Hn|].
      rewrite tainted_snoc. apply lookup_insert_is_Some.
      destruct (decide (Address x = Address n)); [by left|right].
      split; [done|]. apply IH. set_solver. }
    destruct Hsome as [n' Hn']. exists n'. split.
    + apply Hout. by apply tainted_lookup in Hn' as [? _].
    + by apply tainted_lookup in Hn' as [_ ?].
Qed.

(** Induction on a session along its retries. *)
Lemma session_retry_ind (P : session → Prop) :
  (∀ err, P (Unavailable err)) →
  (∀ tx commit, P (Transaction tx commit None)) →
  (∀ tx commit s, P s → P (Transaction tx commit (Some s))) →
  ∀ s, P s.
Proof.
  intros H1 H2 H3. fix IH 1.
  intros [err|tx commit [s|]]; [apply H1|apply H3, IH|apply H2].
Qed.

(** The same session over other transactions. *)
Fixpoint with_transactions (f : transaction → transaction) (s : session) : session :=
  match s with
  | Unavailable err => Unavailable err
  | Transaction tx commit retry =>
      Transaction (f tx) commit
        match retry with
        | Some s => Some (with_transactions f s)
        | None => None
        end
  end.

(** Without taints [work] runs no query and keeps nothing, so that the
    session alone decides how [ExecuteRead] ends. *)
Lemma ExecuteRead_no_taints (s : session) :
  (ExecuteRead s (work []) []).2 = []
  ∧ ((ExecuteRead s (work []) []).1 = Ok ()
     ∨ ∃ err, (ExecuteRead s (work []) []).1 = Err err)
  ∧ ∀ f, ExecuteRead (with_transactions f s) (work []) [] = ExecuteRead s (work []) [].
Proof.
  induction s as [err|tx commit|tx commit s IH] using session_retry_ind.
  - simpl. eauto.
  - destruct commit as [err|]; simpl; eauto.
  - destruct commit as [err|]; simpl; [|eauto]. done.
Qed.

(** X14. A sweep with nothing tainted asks the database nothing and
    changes nothing.  Whether the taint map is nil or empty, the sweep
    still opens a read transaction, in which [work] runs no query; the
    snapshot stays as it is and the taint map ends nil.  The sweep
    returns either a nil error with a changeset that has no created,
    updated or removed entry and whose [GraphBefore] and [GraphAfter] are
    both the hash of the snapshot, or the error of [ExecuteRead], wrapped,
    with the zero changeset: the former when the first transaction
    commits, the latter when the session cannot open one.  What the
    transactions would answer to a query makes no difference. *)
Theorem WhatChanged_nothing_tainted (env : Backend) (s : snapshot)
    (taints : option (gmap NodeHash RawNode)) :
  taints = None ∨ taints = Some ∅ →
  let e := MkEngine s taints in
  let quiet := MkGraphChanged (GraphHash s) [] [] [] (GraphHash s) (now env) in
  let failed err :=
    (zeroGraphChanged,
     Some (Wrap "fetch tainted assemblies" (Wrap "execute read" err))) in
  (WhatChanged env e).2 = MkEngine s None
  ∧ ((WhatChanged env e).1 = Ok (quiet, None)
     ∨ ∃ err, (WhatChanged env e).1 = Ok (failed err))
  ∧ (∀ tx retry, read_session env = Transaction tx None retry →
       (WhatChanged env e).1 = Ok (quiet, None))
  ∧ (∀ err, read_session env = Unavailable err →
       (WhatChanged env e).1 = Ok (failed err))
  ∧ (∀ f, WhatChanged (MkBackend (with_transactions f (read_session env))
                                  (decode env) (now env)) e
          = WhatChanged env e).
Proof.
  intros Htaints e quiet failed.
  assert (Hsweep : ∀ env0, now env0 = now env →
            WhatChanged env0 e =
            match (ExecuteRead (read_session env0) (work []) []).1 with
            | Ok _ => (Ok (quiet, None), MkEngine s None)
            | Err err => (Ok (failed err), MkEngine s None)
            | Panic msg => (Panic msg, MkEngine s None)
            end).
  { intros env0 Hnow.
    destruct (ExecuteRead_no_taints (read_session env0)) as (Hkept & _ & _).
    unfold WhatChanged, fetchTaintedAssemblies, fetchPartialAssemblies.
    assert (ClearTaints e = ([], MkEngine s None)) as ->.
    { subst e. destruct Htaints as [->| ->]; [done|].
      unfold ClearTaints, range_map. simpl. by rewrite map_to_list_empty. }
    destruct (ExecuteRead (read_session env0) (work []) []) as [[[]|err|msg] kept];
      simpl in Hkept; subst; [|done..].
    unfold PartialDiff, PartialDiffIn, Update.
    cbn -[GraphHash]. unfold range_map. rewrite map_to_list_empty. cbn -[GraphHash].
    by rewrite Hnow. }
  destruct (ExecuteRead_no_taints (read_session env)) as (_ & Hend & Hany).
  rewrite (Hsweep env eq_refl).
  split; [by destruct (ExecuteRead _ _ _).1|]. split.
  { destruct Hend as [->|[err ->]]; [by left|right; by exists err]. }
  split; [by intros tx retry ->|]. split; [by intros err ->|].
  intros f. rewrite (Hsweep (MkBackend _ _ _) eq_refl). simpl. by rewrite Hany.
Qed.

Lemma WhatChanged_nothing_tainted_witness :
  let e := MkEngine ∅ (Some ∅) in
  let quiet := MkGraphChanged (GraphHash ∅) [] [] [] (GraphHash ∅) (now backendA) in
  let failed err :=
    (zeroGraphChanged,
     Some (Wrap "fetch tainted assemblies" (Wrap "execute read" err))) in
  (WhatChanged backendA e).2 = MkEngine ∅ None
  ∧ ((WhatChanged backendA e).1 = Ok (quiet, None)
     ∨ ∃ err, (WhatChanged backendA e).1 = Ok (failed err))
  ∧ (∀ tx retry, read_session backendA = Transaction tx None retry →
       (WhatChanged backendA e).1 = Ok (quiet, None))
  ∧ (∀ err, read_session backendA = Unavailable err →
       (WhatChanged backendA e).1 = Ok (failed err))
  ∧ (∀ f, WhatChanged (MkBackend (with_transactions f (read_session backendA))
                                  (decode backendA) (now backendA)) e
          = WhatChanged backendA e).
Proof.
  apply (WhatChanged_nothing_tainted backendA ∅ (Some ∅)). right. reflexivity.
Defined.

End engine_more.

(** *** The assemblies one sweep fetches *)

Section fetch.
Import neo4jengine.

(** What the loops of [work] keep true of the ids seen so far and the
    assemblies kept so far in the same run. *)
Definition fetched_inv (seen : snapshot) (kept : list Assembly) : Prop :=
  NoDup (Assembly_AssemblyID <$> kept)
  ∧ (∀ a, a ∈ kept → seen !! Assembly_AssemblyID a = Some (Assembly_AssemblyHash a))
  ∧ (∀ id h, seen !! id = Some h →
       ∃ a, a ∈ kept ∧ Assembly_AssemblyID a = id ∧ Assembly_AssemblyHash a = h).

(** The body of the loop over the taints in [work]. *)
Definition queried (tx : transaction) (acc : result snapshot * list Assembly)
    (taint : RawNode) : result snapshot * list Assembly :=
  match acc with
  | (Ok seen, assemblies) =>
      let '(records, ended) := tx taint in
      match foldl collectAssembly (Ok seen, assemblies) records with
      | (Ok seen, assemblies) =>
          match ended with
          | Ok _ => (Ok seen, assemblies)
          | Err err => (Err err, assemblies)
          | Panic msg => (Panic msg, assemblies)
          end
      | failed => failed
      end
  | failed => failed
  end.

Lemma work_unfold (taints : list RawNode) (tx : transaction)
    (assemblies : list Assembly) :
  work taints tx assemblies =
  ((foldl (queried tx) (Ok ∅, assemblies) taints).1 ≫= λ _, Ok (),
   (foldl (queried tx) (Ok ∅, assemblies) taints).2).
Proof.
  unfold work. fold (queried tx). by destruct (foldl (queried tx) _ taints).
Qed.

(** The transactions of a session, in the order of the attempts. *)
Fixpoint transactions (s : session) : list transaction :=
  match s with
  | Unavailable _ => []
  | Transaction tx _ retry =>
      tx :: match retry with Some s => transactions s | None => [] end
  end.

Lemma collectAssembly_failed (records : list Assembly) (r : result snapshot)
    (assemblies : list Assembly) :
  (∀ seen, r ≠ Ok seen) → foldl collectAssembly (r, assemblies) records = (r, assemblies).
Proof.
  intros Hr. induction records as [|a l IH]; simpl; [done|].
  destruct r as [seen| |]; [by destruct (Hr seen)|done..].
Qed.

Lemma queried_failed (tx : transaction) (taints : list RawNode) (r : result snapshot)
    (assemblies : list Assembly) :
  (∀ seen, r ≠ Ok seen) → foldl (queried tx) (r, assemblies) taints = (r, assemblies).
Proof.
  intros Hr. induction taints as [|a l IH]; simpl; [done|].
  destruct r as [seen| |]; [by destruct (Hr seen)|done..].
Qed.

Lemma fetched_inv_keep (seen : snapshot) (kept : list Assembly) (a : Assembly) :
  fetched_inv seen kept →
  seen !! Assembly_AssemblyID a = None →
  fetched_inv (<[Assembly_AssemblyID a := Assembly_AssemblyHash a]> seen) (kept ++ [a]).
Proof.
  intros (Hnd & Hkept & Hseen) E. split; [|split].
  - rewrite fmap_app. apply NoDup_app. split; [done|]. split; [|apply NoDup_singleton].
    intros id (a' & -> & Ha)%list_elem_of_fmap [= Heq]%list_elem_of_singleton.
    apply Hkept in Ha. rewrite Heq in Ha. congruence.
  - intros a' [Ha|Ha]%elem_of_app; [|apply list_elem_of_singleton in Ha as ->].
    + destruct (decide (Assembly_AssemblyID a' = Assembly_AssemblyID a)) as [Heq|Hne].
      * apply Hkept in Ha. rewrite Heq in Ha. congruence.
      * rewrite lookup_insert_ne by done. by apply Hkept.
    + by rewrite lookup_insert_eq.
  - intros id h. destruct (decide (Assembly_AssemblyID a = id)) as [<-|Hne].
    + rewrite lookup_insert_eq. intros [= <-]. exists a. split; [|done].
      apply elem_of_app. right. by apply list_elem_of_singleton.
    + rewrite lookup_insert_ne by done. intros (a' & ? & ? & ?)%Hseen.
      exists a'. split; [|done]. apply elem_of_app. by left.
Qed.

(** The loop over the records of one query, from a state of the run in
    which [kept] has been appended to what the list held before. *)
Lemma collectAssembly_records (records : list Assembly) :
  ∀ (seen : snapshot) (kept : list Assembly),
  fetched_inv seen kept →
  ∃ r kept',
    (∀ before, foldl collectAssembly (Ok seen, before ++ kept) records
               = (r, before ++ kept'))
    ∧ NoDup (Assembly_AssemblyID <$> kept')
    ∧ (∀ a, a ∈ kept' → a ∈ kept ∨ a ∈ records)
    ∧ ∀ seen', r = Ok seen' →
        fetched_inv seen' kept' ∧ seen ⊆ seen'
        ∧ ∀ a, a ∈ records → seen' !! Assembly_AssemblyID a = Some (Assembly_AssemblyHash a).
Proof.
  induction records as [|x records IH]; intros seen kept Hinv.
  - exists (Ok seen), kept. split; [done|]. split; [apply Hinv|]. split; [auto|].
    intros seen' [= <-]. split; [done|]. split; [done|]. by intros a ?%elem_of_nil.
  - destruct (seen !! Assembly_AssemblyID x) as [h|] eqn:E.
    + destruct (decide (h ≠ Assembly_AssemblyHash x)) as [Hne|Heq].
      * eexists (Panic _), kept. split.
        { intros before. simpl. rewrite E, decide_True by done.
          by apply collectAssembly_failed. }
        split; [apply Hinv|]. split; [auto|]. done.
      * assert (h = Assembly_AssemblyHash x) as ->
          by (by destruct (decide (h = Assembly_AssemblyHash x))).
        destruct (IH seen kept Hinv) as (r & kept' & Hrun & Hnd & Hfrom & Hok).
        exists r, kept'. split.
        { intros before. simpl. rewrite E, decide_False by done. apply Hrun. }
        split; [done|]. split.
        { intros a Ha. destruct (Hfrom a Ha); [by left|right; by right]. }
        intros seen' ->. destruct (Hok seen' eq_refl) as (Hinv' & Hsub & Hrec).
        split; [done|]. split; [done|].
        intros a [->|Ha]%elem_of_cons; [|by apply Hrec].
        by apply (lookup_weaken _ _ _ _ E Hsub).
    + destruct (IH _ _ (fetched_inv_keep seen kept x Hinv E))
        as (r & kept' & Hrun & Hnd & Hfrom & Hok).
      exists r, kept'. split.
      { intros before. simpl. rewrite E, <-app_assoc. apply Hrun. }
      split; [done|]. split.
      { intros a Ha. destruct (Hfrom a Ha) as [Hx|?]; [|right; by right].
        apply elem_of_app in Hx as [?|Hx]; [by left|].
        apply list_elem_of_singleton in Hx as ->. right; by left. }
      intros seen' ->. destruct (Hok seen' eq_refl) as (Hinv' & Hsub & Hrec).
      split; [done|]. split.
      { etrans; [|exact Hsub]. by apply insert_subseteq. }
      intros a [->|Ha]%elem_of_cons; [|by apply Hrec].
      apply (lookup_weaken _ _ _ _ (lookup_insert_eq seen _ _) Hsub).
Qed.

(** The loop over the taints, likewise. *)
Lemma queried_taints (tx : transaction) (taints : list RawNode) :
  ∀ (seen : snapshot) (kept : list Assembly),
  fetched_inv seen kept →
  ∃ r kept',
    (∀ before, foldl (queried tx) (Ok seen, before ++ kept) taints
               = (r, before ++ kept'))
    ∧ NoDup (Assembly_AssemblyID <$> kept')
    ∧ (∀ a, a ∈ kept' → a ∈ kept ∨ ∃ taint, taint ∈ taints ∧ a ∈ (tx taint).1)
    ∧ ∀ seen', r = Ok seen' →
        fetched_inv seen' kept' ∧ seen ⊆ seen'
        ∧ ∀ taint, taint ∈ taints →
            (tx taint).2 = Ok ()
            ∧ ∀ a, a ∈ (tx taint).1 →
                seen' !! Assembly_AssemblyID a = Some (Assembly_AssemblyHash a).
Proof.
  induction taints as [|t taints IH]; intros seen kept Hinv.
  - exists (Ok seen), kept. split; [done|]. split; [apply Hinv|]. split; [auto|].
    intros seen' [= <-]. split; [done|]. split; [done|]. by intros a ?%elem_of_nil.
  - destruct (collectAssembly_records (tx t).1 seen kept Hinv)
      as (r1 & kept1 & Hrun1 & Hnd1 & Hfrom1 & Hok1).
    assert (Hfrom1' : ∀ a, a ∈ kept1 →
              a ∈ kept ∨ ∃ taint, taint ∈ t :: taints ∧ a ∈ (tx taint).1).
    { intros a Ha. destruct (Hfrom1 a Ha); [by left|right].
      exists t. split; [by left|done]. }
    destruct r1 as [seen1|err|msg].
    + destruct (Hok1 seen1 eq_refl) as (Hinv1 & Hsub1 & Hrec1).
      destruct (tx t) as [records [[]|err|msg]] eqn:Etx; simpl in *.
      * destruct (IH seen1 kept1 Hinv1) as (r & kept' & Hrun & Hnd & Hfrom & Hok).
        exists r, kept'. split.
        { intros before. rewrite Etx, Hrun1. apply Hrun. }
        split; [done|]. split.
        { intros a Ha. destruct (Hfrom a Ha) as [Ha1|(taint & ? & ?)].
          - by apply Hfrom1'.
          - right. exists taint. split; [by right|done]. }
        intros seen' ->. destruct (Hok seen' eq_refl) as (Hinv' & Hsub & Hrec).
        split; [done|]. split; [by etrans|].
        intros taint [->|Hin]%elem_of_cons; [|by apply Hrec].
        rewrite Etx. split; [done|]. intros a Ha.
        by apply (lookup_weaken _ _ _ _ (Hrec1 a Ha) Hsub).
      * exists (Err err), kept1. split.
        { intros before. rewrite Etx, Hrun1. by apply queried_failed. }
        split; [done|]. split; [done|]. done.
      * exists (Panic msg), kept1. split.
        { intros before. rewrite Etx, Hrun1. by apply queried_failed. }
        split; [done|]. split; [done|]. done.
    + exists (Err err), kept1. split.
      { intros before. simpl. destruct (tx t) as [records ended]. simpl in Hrun1.
        rewrite Hrun1. by apply queried_failed. }
      split; [done|]. split; [done|]. done.
    + exists (Panic msg), kept1. split.
      { intros before. simpl. destruct (tx t) as [records ended]. simpl in Hrun1.
        rewrite Hrun1. by apply queried_failed. }
      split; [done|]. split; [done|]. done.
Qed.

(** One run of [work]: it appends to the list it finds, and what it
    appends does not depend on that list. *)
Lemma work_appends (taints : list RawNode) (tx : transaction) :
  (∀ before, work taints tx before
             = ((work taints tx []).1, before ++ (work taints tx []).2))
  ∧ NoDup (Assembly_AssemblyID <$> (work taints tx []).2)
  ∧ (∀ a, a ∈ (work taints tx []).2 → ∃ taint, taint ∈ taints ∧ a ∈ (tx taint).1)
  ∧ ((work taints tx []).1 = Ok () →
     ∀ taint, taint ∈ taints →
       (tx taint).2 = Ok ()
       ∧ ∀ a, a ∈ (tx taint).1 →
           ∃ a', a' ∈ (work taints tx []).2
                 ∧ Assembly_AssemblyID a' = Assembly_AssemblyID a
                 ∧ Assembly_AssemblyHash a' = Assembly_AssemblyHash a).
Proof.
  assert (Hinv0 : fetched_inv ∅ []).
  { split; [constructor|]. split; [by intros a ?%elem_of_nil|].
    intros id h. by rewrite lookup_empty. }
  destruct (queried_taints tx taints ∅ [] Hinv0) as (r & kept & Hrun & Hnd & Hfrom & Hok).
  assert (Hwork : ∀ before, work taints tx before = (r ≫= λ _, Ok (), before ++ kept)).
  { intros before. rewrite work_unfold.
    specialize (Hrun before). rewrite app_nil_r in Hrun. by rewrite Hrun. }
  rewrite (Hwork []). simpl. split; [done|]. split; [done|]. split.
  - intros a Ha. destruct (Hfrom a Ha) as [?%elem_of_nil|?]; done.
  - intros Hr. destruct r as [seen'| |]; [|done..].
    destruct (Hok seen' eq_refl) as ((_ & _ & Hseen) & _ & Hrec).
    intros taint Hin. destruct (Hrec taint Hin) as [Hended Hlook].
    split; [done|]. intros a Ha. by apply Hseen, Hlook.
Qed.

(** [ExecuteRead] with [work]: the list after it is the list before it
    followed by what each run of [work] appended; when it ends without
    error, the last run has succeeded. *)
Lemma ExecuteRead_appends (taints : list RawNode) (s : session) :
  ∀ before : list Assembly,
  ∃ ran : list transaction,
    ran `prefix_of` transactions s
    ∧ (ExecuteRead s (work taints) before).2
      = before ++ concat ((λ tx, (work taints tx []).2) <$> ran)
    ∧ ((ExecuteRead s (work taints) before).1 = Ok () →
       ∃ earlier tx, ran = earlier ++ [tx] ∧ (work taints tx []).1 = Ok ()).
Proof.
  induction s as [err|tx commit|tx commit s IH] using session_retry_ind; intros before.
  - exists []. simpl. by rewrite app_nil_r.
  - destruct (work_appends taints tx) as (Hrun & _). simpl. rewrite (Hrun before).
    exists [tx]. split; [done|]. simpl. rewrite app_nil_r.
    destruct (work taints tx []).1 as [[]|err|msg] eqn:E; simpl.
    + destruct commit as [err|]; simpl; [done|]. split; [done|].
      intros _. exists [], tx. done.
    + done.
    + done.
  - destruct (work_appends taints tx) as (Hrun & _). simpl. rewrite (Hrun before).
    set (kept := (work taints tx []).2).
    destruct (IH (before ++ kept)) as (ran & Hpre & Hlist & Hok).
    assert (Hagain : ∃ ran : list transaction,
      ran `prefix_of` tx :: transactions s
      ∧ (ExecuteRead s (work taints) (before ++ kept)).2
        = before ++ concat ((λ tx, (work taints tx []).2) <$> ran)
      ∧ ((ExecuteRead s (work taints) (before ++ kept)).1 = Ok () →
         ∃ earlier tx, ran = earlier ++ [tx] ∧ (work taints tx []).1 = Ok ())).
    { exists (tx :: ran). split; [by apply prefix_cons|]. split.
      - rewrite Hlist. simpl. by rewrite app_assoc.
      - intros (earlier & tx' & -> & Htx')%Hok. by exists (tx :: earlier), tx'. }
    destruct (work taints tx []).1 as [[]|err|msg] eqn:E; simpl.
    + destruct commit as [err|]; simpl; [done|].
      exists [tx]. split; [apply prefix_cons, prefix_nil|]. simpl. rewrite app_nil_r.
      split; [done|]. intros _. exists [], tx. done.
    + done.
    + exists [tx]. split; [apply prefix_cons, prefix_nil|]. simpl. rewrite app_nil_r.
      done.
Qed.

(** X15. The assemblies one sweep fetches hold every component once for
    each run of [work].  When fetchPartialAssemblies returns without
    error, the list it returns is what the runs of [work] appended one
    after the other, in the transactions that [ExecuteRead] tried: the
    list is never reset between the attempts.  No two assemblies of one
    run have the same component id, and each of them is a record of the
    query of some taint.  In the last run every query has ended without
    error and every record of every query is represented by an assembly
    of that run with its id and hash (a record whose id came back before
    with another hash makes the sweep panic instead).  When the first
    transaction succeeds and commits, the returned list is that of its
    run alone, so that no two of the returned assemblies have the same
    component id. *)
Theorem fetchPartialAssemblies_each_component_once
    (env : Backend) (taints : list RawNode) (assemblies : list Assembly) :
  fetchPartialAssemblies env taints = Ok assemblies →
  (∃ (earlier : list transaction) (tx : transaction),
     (earlier ++ [tx]) `prefix_of` transactions (read_session env)
     ∧ assemblies = concat ((λ tx', (work taints tx' []).2) <$> earlier)
                    ++ (work taints tx []).2
     ∧ (∀ tx', tx' ∈ earlier ++ [tx] →
          NoDup (Assembly_AssemblyID <$> (work taints tx' []).2)
          ∧ ∀ a, a ∈ (work taints tx' []).2 →
              ∃ taint, taint ∈ taints ∧ a ∈ (tx' taint).1)
     ∧ (work taints tx []).1 = Ok ()
     ∧ (∀ taint, taint ∈ taints →
          (tx taint).2 = Ok ()
          ∧ ∀ a, a ∈ (tx taint).1 →
              ∃ a', a' ∈ (work taints tx []).2
                    ∧ Assembly_AssemblyID a' = Assembly_AssemblyID a
                    ∧ Assembly_AssemblyHash a' = Assembly_AssemblyHash a))
  ∧ (∀ tx retry,
       read_session env = Transaction tx None retry →
       (work taints tx []).1 = Ok () →
       assemblies = (work taints tx []).2
       ∧ NoDup (Assembly_AssemblyID <$> assemblies)).
Proof.
  unfold fetchPartialAssemblies. intros Hfetch. split.
  - destruct (ExecuteRead_appends taints (read_session env) [])
      as (ran & Hpre & Hlist & Hok).
    destruct (ExecuteRead (read_session env) (work taints) []) as [[[]|err|msg] kept];
      [|done..].
    injection Hfetch as <-. simpl in Hlist, Hok.
    destruct (Hok eq_refl) as (earlier & tx & -> & Htx).
    exists earlier, tx. split; [done|]. split.
    { rewrite Hlist, fmap_app, concat_app. simpl. by rewrite app_nil_r. }
    split.
    { intros tx' _. destruct (work_appends taints tx') as (_ & Hnd & Hfrom & _). done. }
    split; [done|]. by apply work_appends.
  - intros tx retry Hs Htx. rewrite Hs in Hfetch.
    destruct (work_appends taints tx) as (Hrun & Hnd & _).
    simpl in Hfetch. rewrite (Hrun []), Htx in Hfetch. simpl in Hfetch.
    by injection Hfetch as <-.
Qed.

(** A session whose first commit fails and whose second attempt
    succeeds, over the database that holds the single node A. *)
Definition backendRetried : Backend :=
  MkBackend (Transaction txA (Some (Error "commit failed"))
               (Some (Transaction txA None None)))
            registry 1.

Lemma fetchPartialAssemblies_witness :
  fetchPartialAssemblies backendRetried [taintA; taintA] = Ok [treeA; treeA]
  ∧ (∃ (earlier : list transaction) (tx : transaction),
       (earlier ++ [tx]) `prefix_of` transactions (read_session backendRetried)
       ∧ [treeA; treeA]
         = concat ((λ tx', (work [taintA; taintA] tx' []).2) <$> earlier)
           ++ (work [taintA; taintA] tx []).2
       ∧ (∀ tx', tx' ∈ earlier ++ [tx] →
            NoDup (Assembly_AssemblyID <$> (work [taintA; taintA] tx' []).2)
            ∧ ∀ a, a ∈ (work [taintA; taintA] tx' []).2 →
                ∃ taint, taint ∈ [taintA; taintA] ∧ a ∈ (tx' taint).1)
       ∧ (work [taintA; taintA] tx []).1 = Ok ()
       ∧ (∀ taint, taint ∈ [taintA; taintA] →
            (tx taint).2 = Ok ()
            ∧ ∀ a, a ∈ (tx taint).1 →
                ∃ a', a' ∈ (work [taintA; taintA] tx []).2
                      ∧ Assembly_AssemblyID a' = Assembly_AssemblyID a
                      ∧ Assembly_AssemblyHash a' = Assembly_AssemblyHash a)).
Proof.
  assert (Hfetch : fetchPartialAssemblies backendRetried [taintA; taintA]
                   = Ok [treeA; treeA]) by (vm_compute; reflexivity).
  split; [exact Hfetch|].
  exact (proj1 (fetchPartialAssemblies_each_component_once
                  backendRetried [taintA; taintA] [treeA; treeA] Hfetch)).
Defined.

End fetch.

(** ** The node registry: labels and types stay paired *)

Section registry.
Import noderegistry.

(** The two maps are inverse to each other. *)
Definition paired (r : nodeRegistry) : Prop :=
  ∀ label rt, mLabelToType r !! label = Some rt ↔ mTypeToLabel r !! rt = Some label.

Lemma RegisterLabel_cases label rt r :
  paired r →
  let out := RegisterLabel label rt r in
  match mLabelToType r !! label, mTypeToLabel r !! rt with
  | None, None =>
      out = (Ok (), MkRegistry (<[label := rt]> (mLabelToType r))
                               (<[rt := label]> (mTypeToLabel r)))
  | Some t, Some l =>
      if decide (t = rt) then out = (Ok (), r) ∧ l = label
      else ∃ msg, out = (Panic msg, r)
  | _, _ => ∃ msg, out = (Panic msg, r)
  end.
Proof.
  intros Hp. unfold RegisterLabel, LoadOrStore. destruct r as [l2t t2l]. simpl in *.
  destruct (l2t !! label) as [t|] eqn:El, (t2l !! rt) as [l|] eqn:Et; simpl.
  - destruct (decide (t = rt)) as [->|Hne].
    + assert (l = label) as ->.
      { apply Hp in El. simpl in El. congruence. }
      rewrite bool_decide_eq_false_2 by (intros H; by apply H). simpl.
      by rewrite bool_decide_eq_false_2 by (intros H; by apply H).
    + rewrite bool_decide_eq_true_2 by done. simpl. eauto.
  - destruct (decide (t = rt)) as [->|Hne].
    + apply Hp in El. simpl in El. congruence.
    + rewrite bool_decide_eq_true_2 by done. simpl. eauto.
  - rewrite (bool_decide_eq_true_2 (l ≠ label)).
    2:{ intros ->. apply Hp in Et. simpl in Et. congruence. }
    simpl. rewrite delete_insert_id by done. eauto.
  - done.
Qed.

Lemma RegisterLabel_paired label rt r :
  paired r → paired (RegisterLabel label rt r).2.
Proof.
  intros Hp. pose proof (RegisterLabel_cases label rt r Hp) as H. cbv zeta in H.
  destruct (mLabelToType r !! label) as [t|] eqn:El,
           (mTypeToLabel r !! rt) as [l|] eqn:Et.
  - destruct (decide (t = rt)); [destruct H as [-> _]|destruct H as [msg ->]]; done.
  - destruct H as [msg ->]; done.
  - destruct H as [msg ->]; done.
  - rewrite H. simpl. intros label' rt'. simpl.
    destruct (decide (label = label')) as [<-|Hl], (decide (rt = rt')) as [<-|Ht].
    + by rewrite !lookup_insert_eq.
    + rewrite lookup_insert_eq, lookup_insert_ne by done. split.
      * intros [= ?]. done.
      * intros H'%Hp. congruence.
    + rewrite lookup_insert_ne, lookup_insert_eq by done. split.
      * intros H'%Hp. congruence.
      * intros [= ?]. done.
    + rewrite !lookup_insert_ne by done. apply Hp.
Qed.

Lemma registrations_paired calls r : paired r → paired (registrations calls r).
Proof.
  revert r. induction calls as [|c calls IH]; intros r Hp; [done|].
  simpl. apply IH. by apply RegisterLabel_paired.
Qed.

Lemma paired_empty : paired emptyRegistry.
Proof. intros label rt. simpl. by rewrite !lookup_empty. Qed.

(** X16. The registry pairs labels and types one to one, and a refused
    registration leaves no trace.  After any sequence of [RegisterLabel]
    calls on the empty registry, panicking ones included, a label maps to
    a type exactly when the type maps back to the label.  On such a
    registry a call returns normally exactly when neither the label nor
    the type is taken by another partner; otherwise it panics and both
    maps are as before the call (the roll-back undoes the label just
    stored and nothing else). *)
Theorem RegisterLabel_keeps_pairs (calls : list (string * GoType))
    (label : string) (rt : GoType) :
  let r := registrations calls emptyRegistry in
  let out := RegisterLabel label rt r in
  (∀ label' rt', TypeOf r label' = Some rt' ↔ LabelOf r rt' = Some label')
  ∧ (∀ label' rt', TypeOf out.2 label' = Some rt' ↔ LabelOf out.2 rt' = Some label')
  ∧ (out.1 = Ok () ↔
       (TypeOf r label = None ∨ TypeOf r label = Some rt)
       ∧ (LabelOf r rt = None ∨ LabelOf r rt = Some label))
  ∧ (out.1 ≠ Ok () → (∃ msg, out.1 = Panic msg) ∧ out.2 = r).
Proof.
  intros r out.
  assert (Hp : paired r) by apply registrations_paired, paired_empty.
  split; [exact Hp|]. split; [by apply RegisterLabel_paired|].
  pose proof (RegisterLabel_cases label rt r Hp) as H. cbv zeta in H.
  fold out in H. unfold TypeOf, LabelOf.
  destruct (mLabelToType r !! label) as [t|] eqn:El,
           (mTypeToLabel r !! rt) as [l|] eqn:Et.
  - destruct (decide (t = rt)) as [->|Hne].
    + destruct H as [-> ->]. simpl. split; [|done]. split; [auto|done].
    + destruct H as [msg ->]. simpl. split; [|eauto]. split; [done|].
      intros [[?|[= ?]] _]; done.
  - destruct H as [msg ->]. simpl. split; [|eauto]. split; [done|].
    intros [[?|[= ->]] _]; [done|]. apply Hp in El. congruence.
  - destruct H as [msg ->]. simpl. split; [|eauto]. split; [done|].
    intros [_ [?|[= ->]]]; [done|]. apply Hp in Et. congruence.
  - rewrite H. simpl. split; [|done]. split; auto.
Qed.

(** X17. A registration that succeeded is there to stay.  Once
    [RegisterLabel label rt] has returned normally, on a registry built
    by any calls before, [TypeOf label] is [rt] and [LabelOf rt] is
    [label], and no sequence of later calls changes that: later calls
    for the same label or the same type with another partner panic,
    and registering the same pair again succeeds and changes nothing. *)
Theorem RegisterLabel_is_permanent (before after : list (string * GoType))
    (label : string) (rt : GoType) :
  let r := registrations before emptyRegistry in
  (RegisterLabel label rt r).1 = Ok () →
  let r1 := (RegisterLabel label rt r).2 in
  let r2 := registrations after r1 in
  TypeOf r1 label = Some rt ∧ LabelOf r1 rt = Some label
  ∧ TypeOf r2 label = Some rt ∧ LabelOf r2 rt = Some label
  ∧ RegisterLabel label rt r2 = (Ok (), r2)
  ∧ (∀ rt', rt' ≠ rt → ∃ msg, RegisterLabel label rt' r2 = (Panic msg, r2))
  ∧ (∀ label', label' ≠ label → ∃ msg, RegisterLabel label' rt r2 = (Panic msg, r2)).
Proof.
  intros r Hok r1 r2.
  assert (Hp : paired r) by apply registrations_paired, paired_empty.
  assert (Hp1 : paired r1) by by apply RegisterLabel_paired.
  assert (Hp2 : paired r2) by by apply registrations_paired.
  assert (H1 : TypeOf r1 label = Some rt).
  { subst r1. pose proof (RegisterLabel_cases label rt r Hp) as H. cbv zeta in H.
    unfold TypeOf.
    destruct (mLabelToType r !! label) as [t|] eqn:El,
             (mTypeToLabel r !! rt) as [l|] eqn:Et.
    - destruct (decide (t = rt)) as [->|Hne].
      + destruct H as [-> _]. done.
      + destruct H as [msg H]. rewrite H in Hok. done.
    - destruct H as [msg H]. rewrite H in Hok. done.
    - destruct H as [msg H]. rewrite H in Hok. done.
    - rewrite H. simpl. by rewrite lookup_insert_eq. }
  assert (Hstay : ∀ calls r0, paired r0 → TypeOf r0 label = Some rt →
                    TypeOf (registrations calls r0) label = Some rt).
  { clear. induction calls as [|c calls IH]; intros r0 Hp0 H0; [done|].
    simpl. apply IH; [by apply RegisterLabel_paired|].
    pose proof (RegisterLabel_cases c.1 c.2 r0 Hp0) as H. cbv zeta in H.
    unfold TypeOf in *.
    destruct (mLabelToType r0 !! c.1) as [t|] eqn:El,
             (mTypeToLabel r0 !! c.2) as [l|] eqn:Et.
    - destruct (decide (t = c.2)); [destruct H as [-> _]|destruct H as [msg ->]]; done.
    - destruct H as [msg ->]; done.
    - destruct H as [msg ->]; done.
    - rewrite H. simpl. rewrite lookup_insert_ne; [done|]. intros Heq.
      rewrite Heq in El. congruence. }
  assert (H2 : TypeOf r2 label = Some rt) by by apply Hstay.
  split; [done|]. split; [by apply Hp1|]. split; [done|]. split; [by apply Hp2|].
  unfold TypeOf in H2. pose proof (proj1 (Hp2 _ _) H2) as H2'.
  split; [|split].
  - pose proof (RegisterLabel_cases label rt r2 Hp2) as H. cbv zeta in H.
    rewrite H2, H2' in H. rewrite decide_True in H by done. by destruct H.
  - intros rt' Hne.
    pose proof (RegisterLabel_cases label rt' r2 Hp2) as H. cbv zeta in H.
    rewrite H2 in H. destruct (mTypeToLabel r2 !! rt'); [|done].
    by rewrite decide_False in H by done.
  - intros label' Hne.
    pose proof (RegisterLabel_cases label' rt r2 Hp2) as H. cbv zeta in H.
    rewrite H2' in H. destruct (mLabelToType r2 !! label') as [t|] eqn:E; [|done].
    destruct (decide (t = rt)) as [->|]; [|done].
    destruct H as [_ ?]. congruence.
Qed.

Lemma RegisterLabel_is_permanent_witness :
  let r1 := (RegisterLabel "IMEI" ("twin", "IMEI") emptyRegistry).2 in
  let r2 := registrations [("IMSI", ("twin", "IMSI")); ("IMEI", ("other", "IMEI"))] r1 in
  TypeOf r1 "IMEI" = Some ("twin", "IMEI") ∧ LabelOf r1 ("twin", "IMEI") = Some "IMEI"
  ∧ TypeOf r2 "IMEI" = Some ("twin", "IMEI") ∧ LabelOf r2 ("twin", "IMEI") = Some "IMEI"
  ∧ RegisterLabel "IMEI" ("twin", "IMEI") r2 = (Ok (), r2)
  ∧ (∀ rt', rt' ≠ ("twin", "IMEI") → ∃ msg, RegisterLabel "IMEI" rt' r2 = (Panic msg, r2))
  ∧ (∀ label', label' ≠ "IMEI" →
       ∃ msg, RegisterLabel label' ("twin", "IMEI") r2 = (Panic msg, r2)).
Proof.
  apply (RegisterLabel_is_permanent []
           [("IMSI", ("twin", "IMSI")); ("IMEI", ("other", "IMEI"))]
           "IMEI" ("twin", "IMEI")).
  vm_compute. reflexivity.
Defined.

End registry.

(** ** Component changes and attribute tracking *)

Lemma foldl_snoc_fmap {A B} (f : A → B) (l : list A) (acc : list B) :
  foldl (λ acc x, acc ++ [f x]) acc l = acc ++ (f <$> l).
Proof.
  revert acc. induction l as [|x l IH]; intros acc; simpl.
  - by rewrite app_nil_r.
  - by rewrite IH, <-app_assoc.
Qed.

(** X18. [disassembleGraph] turns a changeset into one notification per
    entry, the created ones first, then the updated, then the removed,
    each in the order of its list and each stamped with [GraphAfter] and
    the timestamp of the changeset; of [IsCreated], [IsUpdated] and
    [IsRemoved] exactly one holds for each notification, according to
    the list it came from. *)
Theorem disassembleGraph_one_per_change (graph : GraphChanged) :
  let stamp v := MkComponentChanged (Some v) (GraphAfter graph) (Timestamp graph) in
  disassembleGraph graph
  = ((λ c, stamp (OfCreated c)) <$> Created graph)
    ++ ((λ u, stamp (OfUpdated u)) <$> Updated graph)
    ++ ((λ r, stamp (OfRemoved r)) <$> Removed graph)
  ∧ length (disassembleGraph graph)
    = (length (Created graph) + length (Updated graph) + length (Removed graph))%nat
  ∧ (∀ c, c ∈ disassembleGraph graph →
       changed_GraphHash c = GraphAfter graph
       ∧ changed_Timestamp c = Timestamp graph
       ∧ (IsCreated c, IsUpdated c, IsRemoved c)
         ∈ [(true, false, false); (false, true, false); (false, false, true)])
  ∧ length (filter (λ c, IsCreated c = true) (disassembleGraph graph))
    = length (Created graph)
  ∧ length (filter (λ c, IsUpdated c = true) (disassembleGraph graph))
    = length (Updated graph)
  ∧ length (filter (λ c, IsRemoved c = true) (disassembleGraph graph))
    = length (Removed graph).
Proof.
  intros stamp.
  assert (Heq : disassembleGraph graph
    = ((λ c, stamp (OfCreated c)) <$> Created graph)
      ++ ((λ u, stamp (OfUpdated u)) <$> Updated graph)
      ++ ((λ r, stamp (OfRemoved r)) <$> Removed graph)).
  { unfold disassembleGraph. cbv zeta.
    rewrite (foldl_snoc_fmap (λ c, stamp (OfCreated c))).
    rewrite (foldl_snoc_fmap (λ c, stamp (OfUpdated c))).
    rewrite (foldl_snoc_fmap (λ c, stamp (OfRemoved c))).
    by rewrite app_nil_l, <-app_assoc. }
  assert (Hall : ∀ {A} (wrap : A → AssemblyValue) (P : ComponentChanged → Prop)
                   `{∀ c, Decision (P c)} (l : list A),
            (∀ x, P (stamp (wrap x))) →
            filter P ((λ x, stamp (wrap x)) <$> l) = (λ x, stamp (wrap x)) <$> l).
  { intros A wrap P ? l HP. induction l as [|x l IH]; [done|].
    rewrite fmap_cons, filter_cons, decide_True by done. by rewrite IH. }
  assert (Hnone : ∀ {A} (wrap : A → AssemblyValue) (P : ComponentChanged → Prop)
                   `{∀ c, Decision (P c)} (l : list A),
            (∀ x, ¬ P (stamp (wrap x))) →
            filter P ((λ x, stamp (wrap x)) <$> l) = []).
  { intros A wrap P ? l HP. induction l as [|x l IH]; [done|].
    rewrite fmap_cons, filter_cons, decide_False by done. done. }
  split; [exact Heq|]. rewrite Heq. split; [|split; [|split; [|split]]].
  - rewrite !length_app, !length_fmap. lia.
  - intros c. rewrite !elem_of_app, !list_elem_of_fmap.
    intros [(x & -> & _)|[(x & -> & _)|(x & -> & _)]]; simpl;
      (split; [done|]); (split; [done|]); set_solver.
  - rewrite !filter_app.
    rewrite (Hall _ OfCreated), (Hnone _ OfUpdated), (Hnone _ OfRemoved) by done.
    simpl. by rewrite ?app_nil_r, length_fmap.
  - rewrite !filter_app.
    rewrite (Hnone _ OfCreated), (Hall _ OfUpdated), (Hnone _ OfRemoved) by done.
    simpl. by rewrite ?app_nil_r, length_fmap.
  - rewrite !filter_app.
    rewrite (Hnone _ OfCreated), (Hnone _ OfUpdated), (Hall _ OfRemoved) by done.
    simpl. by rewrite length_fmap.
Qed.

Section tracking.
Context {V : Type}.
Implicit Types (a : AttributeMap V) (m : gmap ComponentID V).

Lemma copy_entries m :
  foldl (λ dst kv, <[kv.1 := kv.2]> dst) (∅ : gmap ComponentID V) (map_to_list m) = m.
Proof.
  assert (H : ∀ (l : list (ComponentID * V)) dst, NoDup l.*1 →
            foldl (λ dst kv, <[kv.1 := kv.2]> dst) dst l
            = (list_to_map l : gmap ComponentID V) ∪ dst).
  { induction l as [|[k v] l IH]; intros dst Hnd; simpl.
    - by rewrite (left_id_L ∅ (∪)).
    - apply NoDup_cons in Hnd as [Hk Hnd]. rewrite IH by done.
      rewrite <-insert_union_r by by apply not_elem_of_list_to_map_1.
      by rewrite insert_union_l. }
  rewrite H by apply NoDup_fst_map_to_list.
  by rewrite list_to_map_to_list, (right_id_L ∅ (∪)).
Qed.

(** X19. An attribute map answers [Find] with what the last [Update]
    for that component decided.  [NewAttributeMap] starts from a copy of
    the entries it is given (none for a nil map).  [Update] with an
    assembly whose attribute is valid stores the value under the
    assembly's id, with one whose attribute is not valid removes the
    entry of that id; in both cases the other ids keep their entries;
    and when the attribute function or [AssemblyID] panics the map is as
    before. *)
Theorem AttributeMap_Find_after_Update (a : AttributeMap V) (assembly : AssemblyValue)
    (attr : AttributeFunc V) (m : gmap ComponentID V) :
  (∀ id, Find (NewAttributeMap attr (Some m)) id = m !! id
         ∧ Find (NewAttributeMap attr None) id = None)
  ∧ match attributeOf a assembly, AssemblyValue_AssemblyID assembly with
    | Ok (v, ok), Ok id =>
        (AttributeMap_Update a assembly).1 = Ok ()
        ∧ Find (AttributeMap_Update a assembly).2 id = (if ok then Some v else None)
        ∧ ∀ id', id' ≠ id →
            Find (AttributeMap_Update a assembly).2 id' = Find a id'
    | _, _ =>
        (AttributeMap_Update a assembly).1 ≠ Ok ()
        ∧ (AttributeMap_Update a assembly).2 = a
    end.
Proof.
  split.
  - intros id. unfold Find, NewAttributeMap. simpl. by rewrite copy_entries.
  - unfold AttributeMap_Update, Find.
    destruct (attributeOf a assembly) as [[v ok]| |];
      destruct (AssemblyValue_AssemblyID assembly) as [id| |]; try done.
    destruct ok; simpl.
    + split; [done|]. split; [by rewrite lookup_insert_eq|].
      intros id' Hne. by rewrite lookup_insert_ne.
    + split; [done|]. split; [by rewrite lookup_delete_eq|].
      intros id' Hne. by rewrite lookup_delete_ne.
Qed.

(** A changeset without its removed entries. *)
Definition without_removed (msg : received) : received :=
  match msg with
  | Decoded g =>
      Decoded (MkGraphChanged (GraphBefore g) (Created g) (Updated g) []
                              (GraphAfter g) (Timestamp g))
  | other => other
  end.

(** A changeset with other hashes of the graph before and after. *)
Definition rehashed (before after : ForestHash) (msg : received) : received :=
  match msg with
  | Decoded g =>
      Decoded (MkGraphChanged before (Created g) (Updated g) (Removed g)
                              after (Timestamp g))
  | other => other
  end.

Lemma trackRound_zero a msg :
  match trackRound zeroAddress a msg with
  | Running t _ => t = zeroAddress
  | Fatal reason _ => reason ≠ "Exiting due to detected discontinuity"
  | _ => True
  end
  ∧ trackRound zeroAddress a (without_removed msg) = trackRound zeroAddress a msg
  ∧ ∀ before after,
      trackRound zeroAddress a (rehashed before after msg) = trackRound zeroAddress a msg.
Proof.
  destruct msg as [| | |g]; [done..|].
  unfold trackRound, without_removed, rehashed.
  cbn [Created Updated Removed GraphBefore].
  rewrite (bool_decide_eq_true_2 (zeroAddress = zeroAddress)) by done.
  cbn [negb andb]. split; [|done].
  by destruct (updateAll OfUpdated (Updated g) _) as [[| |] ?].
Qed.

(** X20. [TrackAttribute] never finds a discontinuity and never drops
    a removed component.  Its variable [trackedGraph] is declared and
    compared but never assigned, so it is the zero hash in every round:
    whatever messages arrive, the procedure does not stop with the
    discontinuity error (the [GraphBefore] and [GraphAfter] of the
    messages have no influence at all), and the [Removed] entries of the
    changesets are not read: with or without them the map ends up the
    same, so the attribute of a removed component stays in the map. *)
Theorem TrackAttribute_ignores_continuity_and_removals
    (a : AttributeMap V) (msgs : list received) :
  match TrackAttribute a msgs with
  | Running trackedGraph _ => trackedGraph = zeroAddress
  | Fatal reason _ => reason ≠ "Exiting due to detected discontinuity"
  | _ => True
  end
  ∧ TrackAttribute a (without_removed <$> msgs) = TrackAttribute a msgs
  ∧ ∀ before after : ForestHash,
      TrackAttribute a (rehashed before after <$> msgs) = TrackAttribute a msgs.
Proof.
  unfold TrackAttribute.
  assert (Hstop : ∀ (l : list received) st,
            (∀ t (am : AttributeMap V), st ≠ Running t am) →
            foldl (λ st msg, match st with
                             | Running trackedGraph m => trackRound trackedGraph m msg
                             | stopped => stopped
                             end) st l = st).
  { induction l as [|x l IH]; intros st Hst; [done|]. simpl.
    destruct st as [t am| | |]; try (by apply IH). by destruct (Hst t am). }
  revert a. induction msgs as [|msg msgs IH]; intros a; [done|].
  rewrite !fmap_cons. cbn [foldl].
  destruct (trackRound_zero a msg) as (Hz & -> & Hre).
  destruct (trackRound zeroAddress a msg) as [t a'| | |] eqn:E.
  - subst t. destruct (IH a') as (H1 & H2 & H3). split; [done|]. split; [done|].
    intros before after. rewrite fmap_cons. cbn [foldl]. rewrite Hre. apply H3.
  - rewrite !Hstop by done. split; [done|]. split; [done|].
    intros before after. rewrite fmap_cons. cbn [foldl]. by rewrite Hre, Hstop.
  - rewrite !Hstop by done. split; [done|]. split; [done|].
    intros before after. rewrite fmap_cons. cbn [foldl]. by rewrite Hre, Hstop.
  - rewrite !Hstop by done. split; [done|]. split; [done|].
    intros before after. rewrite fmap_cons. cbn [foldl]. by rewrite Hre, Hstop.
Qed.

End tracking.

(** ** Recorded compilations: replay and targets *)

Section compilation.
Import assert compilation.

(** X21. [Replay] runs the steps in order and stops at the first one
    that fails: replaying two recordings one after the other is
    replaying the first and, if that returned nil, the second on the
    writer as the first left it; when a step returns an error or panics,
    that is the outcome of the replay and no later step touches the
    writer.  Replaying one step is doing it, and an empty recording
    returns nil without a call. *)
Theorem Replay_in_order_until_failure `{GraphWriter W}
    (steps1 steps2 : list Step) (step : Step) (w : W) :
  Replay (steps1 ++ steps2) w
  = match Replay steps1 w with
    | (Return _ None, w1) => Replay steps2 w1
    | failed => failed
    end
  ∧ (∀ w1, Replay steps1 w = (Return () None, w1) →
       Replay (steps1 ++ step :: steps2) w
       = match Do step w1 with
         | (Return _ None, w2) => Replay steps2 w2
         | (Return _ (Some err), w2) => (Return () (Some err), w2)
         | (Panicked msg, w2) => (Panicked msg, w2)
         end)
  ∧ Replay [] w = (Return () None, w)
  ∧ (∀ out w1, Do step w = (out, w1) → Replay [step] w = (out, w1)).
Proof.
  assert (Happ : ∀ steps1 steps2 (w : W),
    Replay (steps1 ++ steps2) w
    = match Replay steps1 w with
      | (Return _ None, w1) => Replay steps2 w1
      | failed => failed
      end).
  { clear. intros steps1 steps2. induction steps1 as [|s steps1 IH]; intros w; [done|].
    simpl. destruct (Do s w) as [[[] [err|]|msg] w1]; [done| |done]. apply IH. }
  split; [apply Happ|]. split; [|split; [done|]].
  - intros w1 Hw1. rewrite Happ, Hw1. done.
  - intros out w1 Hdo. simpl. rewrite Hdo. by destruct out as [[] [err|]|msg].
Qed.

(** The loop of [Targets] over the flattened targets. *)
Definition visit (yield : list Value → Value → bool)
    (acc : result (gset NodeHash * list Value * bool)) (target : Value)
  : result (gset NodeHash * list Value * bool) :=
  '(seen, yielded, stopped) ← acc;
  if stopped : bool then Ok (seen, yielded, stopped)
  else
    ca ← MustContentAddress target;
    if decide (ca ∈ seen) then Ok (seen, yielded, stopped)
    else Ok ({[ca]} ∪ seen, yielded ++ [target], negb (yield yielded target)).

Lemma Targets_visit steps yield :
  Targets steps yield
  = ('(_, yielded, _) ← foldl (visit yield) (Ok (∅, [], false)) (steps ≫= Step_Targets);
     Ok yielded).
Proof. reflexivity. Qed.

Lemma visit_run (yield : list Value → Value → bool) targets : ∀ seen yielded stopped seen' yielded' stopped',
  (∀ v, v ∈ yielded → ∃ ca, MustContentAddress v = Ok ca ∧ ca ∈ seen) →
  (∀ ca, ca ∈ seen → ∃ v, v ∈ yielded ∧ MustContentAddress v = Ok ca) →
  (∀ i j v v' ca, yielded !! i = Some v → yielded !! j = Some v' →
     MustContentAddress v = Ok ca → MustContentAddress v' = Ok ca → i = j) →
  foldl (visit yield) (Ok (seen, yielded, stopped)) targets
    = Ok (seen', yielded', stopped') →
  (∀ v, v ∈ yielded' → ∃ ca, MustContentAddress v = Ok ca ∧ ca ∈ seen')
  ∧ (∀ ca, ca ∈ seen' → ∃ v, v ∈ yielded' ∧ MustContentAddress v = Ok ca)
  ∧ (∀ i j v v' ca, yielded' !! i = Some v → yielded' !! j = Some v' →
       MustContentAddress v = Ok ca → MustContentAddress v' = Ok ca → i = j)
  ∧ (∃ more, yielded' = yielded ++ more ∧ more `sublist_of` targets)
  ∧ (stopped = false → stopped' = false →
       ∀ v, v ∈ targets → ∃ ca, MustContentAddress v = Ok ca ∧ ca ∈ seen')
  ∧ (stopped = true → yielded' = yielded).
Proof.
  induction targets as [|t targets IH];
    intros seen yielded stopped seen' yielded' stopped' Hy Hs Hinj.
  - simpl. intros [= <- <- <-]. split; [done|]. split; [done|]. split; [done|].
    split; [exists []; by rewrite app_nil_r|]. split; [|done].
    by intros _ _ v ?%elem_of_nil.
  - simpl. destruct stopped.
    { intros Hfold. destruct (IH _ _ _ _ _ _ Hy Hs Hinj Hfold)
        as (H1 & H2 & H3 & (more & -> & Hsub) & _ & H5).
      split; [done|]. split; [done|]. split; [done|].
      split; [exists more; split; [done|by apply sublist_cons]|].
      split; [done|]. intros _. by apply H5. }
    destruct (MustContentAddress t) as [ca| |] eqn:Et; simpl.
    2,3: intros H; exfalso; revert H; clear;
      match goal with |- foldl ?f ?bad _ = _ → _ =>
        assert (foldl f bad targets = bad) as ->; [|done] end;
      induction targets as [|y l IH]; simpl; [done|apply IH].
    destruct (decide (ca ∈ seen)) as [Hin|Hnin].
    + intros Hfold. destruct (IH _ _ _ _ _ _ Hy Hs Hinj Hfold)
        as (H1 & H2 & H3 & (more & -> & Hsub) & H4 & _).
      split; [done|]. split; [done|]. split; [done|].
      split; [exists more; split; [done|by apply sublist_cons]|].
      split; [|done]. intros _ Hst v [->|Hv]%elem_of_cons; [|by apply H4].
      exists ca. split; [done|].
      destruct (Hs ca Hin) as (v & Hv & Hca).
      destruct (H1 v) as (ca' & Hca' & Hin'); [apply elem_of_app; by left|]. congruence.
    + intros Hfold.
      assert (Hy' : ∀ v, v ∈ yielded ++ [t] →
                ∃ ca0, MustContentAddress v = Ok ca0 ∧ ca0 ∈ {[ca]} ∪ seen).
      { intros v [Hv|Hv]%elem_of_app.
        - destruct (Hy v Hv) as (ca0 & ? & ?). exists ca0.
          split; [done|]. apply elem_of_union. by right.
        - apply list_elem_of_singleton in Hv as ->. exists ca.
          split; [done|]. apply elem_of_union. left. by apply elem_of_singleton. }
      assert (Hs' : ∀ ca0, ca0 ∈ {[ca]} ∪ seen →
                ∃ v, v ∈ yielded ++ [t] ∧ MustContentAddress v = Ok ca0).
      { intros ca0 [Hin|Hin]%elem_of_union.
        - apply elem_of_singleton in Hin as ->. exists t.
          split; [|done]. apply elem_of_app. right. by apply list_elem_of_singleton.
        - destruct (Hs ca0 Hin) as (v & ? & ?). exists v.
          split; [|done]. apply elem_of_app. by left. }
      assert (Hinj' : ∀ i j v v' ca0, (yielded ++ [t]) !! i = Some v →
                (yielded ++ [t]) !! j = Some v' →
                MustContentAddress v = Ok ca0 → MustContentAddress v' = Ok ca0 → i = j).
      { intros i j v v' ca0 Hi Hj Hv Hv'.
        apply lookup_snoc_Some in Hi as [[Hli Hi]|[-> ->]];
          apply lookup_snoc_Some in Hj as [[Hlj Hj]|[-> ->]].
        - by eapply Hinj.
        - exfalso. apply Hnin. apply list_elem_of_lookup_2 in Hi.
          destruct (Hy v Hi) as (ca1 & ? & ?). congruence.
        - exfalso. apply Hnin. apply list_elem_of_lookup_2 in Hj.
          destruct (Hy v' Hj) as (ca1 & ? & ?). congruence.
        - done. }
      destruct (IH _ _ _ _ _ _ Hy' Hs' Hinj' Hfold)
        as (H1 & H2 & H3 & (more & -> & Hsub) & H4 & H5).
      split; [done|]. split; [done|]. split; [done|].
      split; [exists (t :: more); split; [by rewrite <-app_assoc|by apply sublist_skip]|].
      split; [|done]. intros _ Hst.
      destruct (yield yielded t) eqn:Ey; simpl in *.
      * intros v [->|Hv]%elem_of_cons; [|by apply H4].
        exists ca. split; [done|].
        destruct (H1 t) as (ca' & ? & ?);
          [apply elem_of_app; left; apply elem_of_app; right; by apply list_elem_of_singleton|].
        congruence.
      * (* the consumer stopped here, yet the run ended unstopped: impossible *)
        exfalso. clear -Hfold Hst.
        assert (Hkeep : ∀ l s y s' y' st',
                  foldl (visit yield) (Ok (s, y, true)) l = Ok (s', y', st') → st' = true).
        { induction l as [|x l IHl]; intros s y s' y' st'; simpl.
          - by intros [= _ _ <-].
          - apply IHl. }
        apply Hkeep in Hfold. congruence.
Qed.

(** X22. [Targets] yields every affected node once.  Run to the end
    against a consumer that never stops, it yields values with pairwise
    different content addresses, each of them a target of a step, in the
    order of first occurrence, and every target of every step has the
    content address of a yielded value.  A consumer that stops early has
    been given a beginning of that sequence.  When a target cannot be
    hashed the iteration panics. *)
Theorem Targets_each_node_once (steps : list Step)
    (yield : list Value → Value → bool) (yielded : list Value) :
  Targets steps yield = Ok yielded →
  (∀ i j v v' ca, yielded !! i = Some v → yielded !! j = Some v' →
     MustContentAddress v = Ok ca → MustContentAddress v' = Ok ca → i = j)
  ∧ yielded `sublist_of` (steps ≫= Step_Targets)
  ∧ (∀ v, v ∈ yielded → ∃ ca, MustContentAddress v = Ok ca)
  ∧ ((∀ i v, yielded !! i = Some v → yield (take i yielded) v = true) →
       ∀ step v, step ∈ steps → v ∈ Step_Targets step →
         ∃ v' ca, v' ∈ yielded ∧ MustContentAddress v = Ok ca
                  ∧ MustContentAddress v' = Ok ca).
Proof.
  rewrite Targets_visit.
  destruct (foldl (visit yield) _ _) as [[[seen ys] stopped]| |] eqn:E; simpl; [|done..].
  intros [= <-].
  assert (Hfinal := E).
  apply visit_run in E as (H1 & H2 & H3 & (more & Hmore & Hsub) & H4 & _);
    [|by intros v ?%elem_of_nil|by intros ca ?%elem_of_empty
     |by intros i j v v' ca Hnil; rewrite lookup_nil in Hnil].
  simpl in Hmore. subst more.
  split; [exact H3|]. split; [exact Hsub|]. split.
  { intros v Hv. destruct (H1 v Hv) as (ca & ? & _). eauto. }
  intros Hgo step v Hstep Hv.
  assert (Hst : stopped = false).
  { clear -Hfinal Hgo.
    assert (Hgen : ∀ l s y st s' y' st',
      foldl (visit yield) (Ok (s, y, st)) l = Ok (s', y', st') →
      st = false →
      (∀ i v, y' !! i = Some v → (length y ≤ i)%nat → yield (take i y') v = true) →
      st' = false).
    { induction l as [|x l IHl]; intros s y st s' y' st'; simpl.
      - by intros [= _ _ <-].
      - intros Hf -> Hy'. destruct (MustContentAddress x) as [ca| |] eqn:Ex; simpl in Hf.
        2,3: exfalso; revert Hf; clear;
          match goal with |- foldl ?f ?bad _ = _ → _ =>
            assert (foldl f bad l = bad) as ->; [|done] end;
          induction l as [|z l IH]; simpl; [done|apply IH].
        destruct (decide (ca ∈ s)).
        + by eapply IHl.
        + assert (Hpre : ∃ more, y' = (y ++ [x]) ++ more).
          { clear -Hf. revert Hf. generalize (negb (yield y x)) as b.
            generalize ({[ca]} ∪ s) as s0. generalize (y ++ [x]) as y0.
            induction l as [|z l IH]; intros y0 s0 b; simpl.
            - intros [= _ <- _]. exists []. by rewrite app_nil_r.
            - destruct b; [apply IH|].
              destruct (MustContentAddress z) as [cz| |]; simpl.
              2,3: intros Hf; exfalso; revert Hf; clear;
                match goal with |- foldl ?f ?bad _ = _ → _ =>
                  assert (foldl f bad l = bad) as ->; [|done] end;
                induction l as [|z' l IH]; simpl; [done|apply IH].
              destruct (decide (cz ∈ s0)); [apply IH|].
              intros (more & ->)%IH. exists (z :: more). by rewrite <-!app_assoc. }
          destruct Hpre as [more ->].
          assert (Hyx : yield y x = true).
          { specialize (Hy' (length y) x).
            rewrite <-app_assoc, lookup_app_r, Nat.sub_diag in Hy' by lia.
            rewrite take_app_length in Hy'. apply Hy'; [done|lia]. }
          rewrite Hyx in Hf. simpl in Hf. eapply IHl; [exact Hf|done|].
          intros i v Hi Hle. apply Hy'; [done|]. rewrite length_app in Hle. simpl in Hle. lia. }
    eapply Hgen; [exact Hfinal|done|]. intros i v Hi _. by apply Hgo. }
  destruct (H4 eq_refl Hst v) as (ca & Hca & Hin).
  { apply list_elem_of_bind. eauto. }
  destruct (H2 ca Hin) as (v' & Hv' & Hca'). eauto.
Qed.

Definition recorded : list Step :=
  [assertEdge (node_of "a") (node_of "b"); retractNode (node_of "a");
   assertNode (node_of "c")].

Lemma Targets_each_node_once_witness :
  let yielded := [node_of "a"; node_of "b"; node_of "c"] in
  (∀ i j v v' ca, yielded !! i = Some v → yielded !! j = Some v' →
     MustContentAddress v = Ok ca → MustContentAddress v' = Ok ca → i = j)
  ∧ yielded `sublist_of` (recorded ≫= Step_Targets)
  ∧ (∀ v, v ∈ yielded → ∃ ca, MustContentAddress v = Ok ca)
  ∧ ((∀ i v, yielded !! i = Some v → (λ _ _, true) (take i yielded) v = true) →
       ∀ step v, step ∈ recorded → v ∈ Step_Targets step →
         ∃ v' ca, v' ∈ yielded ∧ MustContentAddress v = Ok ca
                  ∧ MustContentAddress v' = Ok ca).
Proof.
  apply (Targets_each_node_once recorded (λ _ _, true)).
  vm_compute. reflexivity.
Defined.

Lemma visit_failed (yield : list Value → Value → bool) (acc : result (gset NodeHash * list Value * bool)) targets :
  (∀ st, acc ≠ Ok st) → foldl (visit yield) acc targets = acc.
Proof.
  intros Hacc. induction targets as [|t targets IH]; [done|]. simpl.
  destruct acc as [st| |]; [by destruct (Hacc st)|exact IH..].
Qed.

Lemma visit_stopped (yield : list Value → Value → bool) seen yielded targets :
  foldl (visit yield) (Ok (seen, yielded, true)) targets = Ok (seen, yielded, true).
Proof. induction targets as [|t targets IH]; [done|exact IH]. Qed.

Lemma visit_extends (yield : list Value → Value → bool) targets : ∀ seen yielded stopped seen' yielded' stopped',
  foldl (visit yield) (Ok (seen, yielded, stopped)) targets = Ok (seen', yielded', stopped') →
  yielded `prefix_of` yielded'.
Proof.
  induction targets as [|t targets IH]; intros seen yielded stopped seen' yielded' stopped'.
  - by intros [= _ <- _].
  - simpl. destruct stopped; [apply IH|].
    destruct (MustContentAddress t) as [ca| |]; simpl;
      [|by rewrite visit_failed..].
    destruct (decide (ca ∈ seen)); [apply IH|].
    intros Hpre%IH. etrans; [|exact Hpre]. by apply prefix_app_r.
Qed.

Lemma visit_until_stopped (yield : list Value → Value → bool) targets : ∀ seen yielded seen' yielded' stopped' seen1 all stopped1,
  foldl (visit yield) (Ok (seen, yielded, false)) targets = Ok (seen', yielded', stopped') →
  foldl (visit (λ _ _, true)) (Ok (seen, yielded, false)) targets
    = Ok (seen1, all, stopped1) →
  yielded' `prefix_of` all
  ∧ (∀ i v, yielded' !! i = Some v → (length yielded ≤ i)%nat → (S i < length yielded')%nat →
       yield (take i yielded') v = true)
  ∧ (yielded' ≠ all →
       ∃ front v, yielded' = front ++ [v] ∧ (length yielded ≤ length front)%nat
                  ∧ yield front v = false).
Proof.
  induction targets as [|t targets IH];
    intros seen yielded seen' yielded' stopped' seen1 all stopped1.
  - simpl. intros [= _ <- _] [= _ <- _]. split; [done|]. split; [|done].
    intros i v Hi%lookup_lt_Some. lia.
  - simpl. destruct (MustContentAddress t) as [ca| |]; simpl;
      [|by rewrite visit_failed..].
    destruct (decide (ca ∈ seen)); [apply IH|].
    destruct (yield yielded t) eqn:Ey; simpl.
    + intros Hrun Hall.
      assert (Hpre := visit_extends _ _ _ _ _ _ _ _ Hrun).
      destruct (IH _ _ _ _ _ _ _ _ Hrun Hall) as (H1 & H2 & H3).
      split; [done|]. split.
      * intros i v Hi Hle Hlt.
        destruct (decide (i = length yielded)) as [->|Hne].
        -- destruct Hpre as [more ->]. rewrite <-app_assoc in Hi |- *.
           rewrite take_app_length.
           rewrite lookup_app_r, Nat.sub_diag in Hi by lia. by injection Hi as <-.
        -- apply H2; [done| |done]. rewrite length_app. simpl. lia.
      * intros Hne. destruct (H3 Hne) as (front & v & -> & Hlen & Hv).
        exists front, v. split; [done|]. split; [|done].
        rewrite length_app in Hlen. lia.
    + rewrite visit_stopped. intros [= _ <- _] Hall%visit_extends.
      split; [done|]. split.
      * intros i v _ Hle Hlt. rewrite length_app in Hlt. simpl in Hlt. lia.
      * intros _. by exists yielded, t.
Qed.

(** X23. A consumer of [Targets] that stops early has been given a
    beginning of what a consumer that never stops is given: the values
    it received are a prefix of the full sequence, every value but the
    last it received was answered with true, and when the two sequences
    differ its last answer was false. *)
Theorem Targets_stops_when_told (steps : list Step)
    (yield : list Value → Value → bool) (yielded all : list Value) :
  Targets steps yield = Ok yielded →
  Targets steps (λ _ _, true) = Ok all →
  yielded `prefix_of` all
  ∧ (∀ i v, yielded !! i = Some v → (S i < length yielded)%nat →
       yield (take i yielded) v = true)
  ∧ (yielded ≠ all → ∃ front v, yielded = front ++ [v] ∧ yield front v = false).
Proof.
  rewrite !Targets_visit.
  destruct (foldl (visit yield) _ _) as [[[seen ys] stopped]| |] eqn:Erun;
    simpl; [|done..].
  destruct (foldl (visit (λ _ _, true)) _ _) as [[[seen1 ys1] stopped1]| |] eqn:Eall;
    simpl; [|done..].
  intros [= <-] [= <-].
  destruct (visit_until_stopped _ _ _ _ _ _ _ _ _ _ Erun Eall) as (H1 & H2 & H3).
  split; [done|]. split.
  - intros i v Hi Hlt. apply H2; [done|simpl; lia|done].
  - intros Hne. destruct (H3 Hne) as (front & v & ? & _ & ?). eauto.
Qed.

(** A consumer that takes two values. *)
Definition takeTwo (given : list Value) (_ : Value) : bool :=
  Nat.ltb (length given) 1.

Lemma MustContentAddress_no_error (node : Value) (e : error) :
  MustContentAddress node ≠ Err e.
Proof. unfold MustContentAddress. by destruct (ContentAddress node). Qed.

Lemma visit_no_error (yield : list Value → Value → bool) targets :
  ∀ acc, (∀ e, acc ≠ Err e) → ∀ e, foldl (visit yield) acc targets ≠ Err e.
Proof.
  induction targets as [|t targets IH]; intros acc Hacc; [done|].
  simpl. apply IH. intros e. destruct acc as [[[seen yielded] []]|e'|msg]; simpl; [done| |by destruct (Hacc e')|done].
  destruct (MustContentAddress t) as [ca|e'|msg] eqn:Et; simpl; [|by destruct (MustContentAddress_no_error t e')|done].
  by destruct (decide (ca ∈ seen)).
Qed.

Lemma Targets_stops_when_told_witness :
  let yield := takeTwo in
  let yielded := [node_of "a"; node_of "b"] in
  let all := [node_of "a"; node_of "b"; node_of "c"] in
  yielded `prefix_of` all
  ∧ (∀ i v, yielded !! i = Some v → (S i < length yielded)%nat →
       yield (take i yielded) v = true)
  ∧ (yielded ≠ all → ∃ front v, yielded = front ++ [v] ∧ yield front v = false).
Proof.
  apply (Targets_stops_when_told recorded takeTwo
           [node_of "a"; node_of "b"] [node_of "a"; node_of "b"; node_of "c"]).
  - vm_compute. reflexivity.
  - vm_compute. reflexivity.
Defined.

(** X24. [Targets] has no error result, it panics: whatever the
    consumer, the iteration never ends in an error value, and with a
    consumer that never stops it returns normally exactly when every
    target of every step has a content address; one target that cannot
    be hashed makes it panic. *)
Theorem Targets_panics_on_unhashable (steps : list Step) :
  (∀ yield e, Targets steps yield ≠ Err e)
  ∧ ((∀ step v, step ∈ steps → v ∈ Step_Targets step →
        ∃ ca, MustContentAddress v = Ok ca)
     ↔ ∃ yielded, Targets steps (λ _ _, true) = Ok yielded).
Proof.
  split.
  { intros yield e. rewrite Targets_visit.
    pose proof (visit_no_error yield (steps ≫= Step_Targets) (Ok (∅, [], false))) as Hno.
    destruct (foldl _ _ _) as [[[seen yielded] stopped]|e'|msg]; simpl; [done| |done].
    by destruct (Hno ltac:(done) e'). }
  rewrite Targets_visit.
  assert (Hgen : ∀ targets seen yielded,
    (∀ v, v ∈ targets → ∃ ca, MustContentAddress v = Ok ca)
    ↔ ∃ st, foldl (visit (λ _ _, true)) (Ok (seen, yielded, false)) targets = Ok st).
  { induction targets as [|t targets IH]; intros seen yielded.
    - split; [by eexists|]. by intros _ v ?%elem_of_nil.
    - simpl. destruct (MustContentAddress t) as [ca| |] eqn:Et; simpl.
      + assert (Hstep : ∃ seen' yielded',
          (if decide (ca ∈ seen) then Ok (seen, yielded, false)
           else Ok ({[ca]} ∪ seen, yielded ++ [t], false))
          = Ok (seen', yielded', false)).
        { destruct (decide (ca ∈ seen)); by eexists _, _. }
        destruct Hstep as (seen' & yielded' & Hstep).
        replace (if decide (ca ∈ seen) then Ok (seen, yielded, false)
                 else Ok ({[ca]} ∪ seen, yielded ++ [t], negb true))
          with (Ok (A:=gset NodeHash * list Value * bool) (seen', yielded', false)).
        rewrite <-IH. split.
        * intros H v Hv. apply H. by right.
        * intros H v [->|Hv]%elem_of_cons; [eauto|by apply H].
      + rewrite visit_failed by done. split; [|by intros [? ?]].
        intros H. destruct (H t) as [? ?]; [by left|congruence].
      + rewrite visit_failed by done. split; [|by intros [? ?]].
        intros H. destruct (H t) as [? ?]; [by left|congruence]. }
  split.
  - intros Hall. destruct (proj1 (Hgen (steps ≫= Step_Targets) ∅ [])) as [[[s y] st] ->].
    + intros v (step & Hv & Hstep)%list_elem_of_bind. eauto.
    + by exists y.
  - intros [yielded Hrun] step v Hstep Hv.
    apply (proj2 (Hgen (steps ≫= Step_Targets) ∅ [])).
    + destruct (foldl _ _ _) as [st| |]; [by exists st|done..].
    + apply list_elem_of_bind. eauto.
Qed.

(** X25. A [Recorder] keeps the steps in the order they were recorded,
    after those it already held, and [Reset] forgets the earlier ones:
    replaying the steps of a recorder that was reset and then recorded
    into is replaying exactly what was recorded since. *)
Theorem Recorder_keeps_order (r : Recorder) (calls : list Step) :
  Recorder_Steps (foldl (λ r step, record step r) r calls)
  = Recorder_Steps r ++ calls
  ∧ Recorder_Steps (foldl (λ r step, record step r) (Recorder_Reset r) calls)
    = calls
  ∧ Recorder_Steps (foldl (λ r step, record step r) zeroRecorder calls) = calls
  ∧ Recorder_Steps (Recorder_Reset (foldl (λ r step, record step r) r calls)) = [].
Proof.
  assert (Hgen : ∀ l r,
    Recorder_Steps (foldl (λ r step, record step r) r l) = Recorder_Steps r ++ l).
  { clear. induction l as [|s l IH]; intros r; simpl.
    - by rewrite app_nil_r.
    - rewrite IH. unfold Recorder_Steps, record. simpl. by rewrite <-app_assoc. }
  split; [apply Hgen|]. split; [by rewrite Hgen|]. split; [by rewrite Hgen|done].
Qed.

End compilation.

(** ** What a builder has accumulated, and what [Assemble] returns *)

(** The content of a builder: the root hashes in call order, the nodes by
    content address, and the set of targets of every source. *)
Record built := Built {
  built_roots : list NodeHash;
  built_nodes : gmap NodeHash Value;
  built_edges : gmap NodeHash (gset NodeHash);
}.

(** A slice whose elements are [rs]. *)
Definition slice_holds (s : slice) (rs : list NodeHash) (h : heap) : Prop :=
  match s with
  | nil_slice => rs = []
  | Slice a n => ∃ xs, h !! a = Some (OArray xs) ∧ (n ≤ length xs)%nat ∧ take n xs = rs
  end.

(** A map[NodeHash]Value reference whose entries are [m]. *)
Definition nodes_hold (r : option loc) (m : gmap NodeHash Value) (h : heap) : Prop :=
  match r with
  | None => m = ∅
  | Some l => h !! l = Some (ONodes m)
  end.

(** A map[NodeHash]map[NodeHash]struct{} reference whose entries are
    [e]; every source has an inner map of its own. *)
Definition edges_hold (r : option loc) (e : gmap NodeHash (gset NodeHash)) (h : heap)
  : Prop :=
  match r with
  | None => e = ∅
  | Some l =>
      ∃ outer, h !! l = Some (OEdgeSets outer)
        ∧ (∀ from, match outer !! from with
                   | None => e !! from = None
                   | Some s => ∃ inner, h !! s = Some (OEdgeSet inner)
                                        ∧ e !! from = Some inner
                   end)
        ∧ (∀ k1 k2 s, outer !! k1 = Some s → outer !! k2 = Some s → k1 = k2)
  end.

Definition fields (x : AssemblyBuilder) (σ : built) (h : heap) : Prop :=
  slice_holds (roots x) (built_roots σ) h
  ∧ nodes_hold (nodes x) (built_nodes σ) h
  ∧ edges_hold (neighbours x) (built_edges σ) h.

(** The builder at address [b] holds [σ]; it has not been used yet, or
    it was used at this address. *)
Definition holds (b : loc) (σ : built) (h : heap) : Prop :=
  ∃ x, h !! b = Some (OBuilder x)
       ∧ (addr x = None ∨ addr x = Some b)
       ∧ fields x σ h.

(** [c] started in [h] returns normally, with a result and a heap that
    satisfy [Q]. *)
Definition runs {A} (c : Go A) (h : heap) (Q : A → heap → Prop) : Prop :=
  ∃ a h', c h = (Ok a, h') ∧ Q a h'.

Lemma runs_ret {A} (a : A) (h : heap) (Q : A → heap → Prop) : Q a h → runs (mret a) h Q.
Proof. intros HQ. by exists a, h. Qed.

Lemma runs_bind {A B} (c : Go A) (k : A → Go B) (h : heap) (Q : B → heap → Prop) :
  runs c h (λ a h', runs (k a) h' Q) → runs (c ≫= k) h Q.
Proof.
  intros (a & h' & Hc & (r & h'' & Hk & HQ)). exists r, h''. split; [|done].
  unfold mbind, Go_bind, go_bind. by rewrite Hc.
Qed.

Lemma runs_mono {A} (c : Go A) (h : heap) (Q Q' : A → heap → Prop) :
  runs c h Q → (∀ a h', Q a h' → Q' a h') → runs c h Q'.
Proof. intros (a & h' & Hc & HQ) HQQ'. exists a, h'. auto. Qed.

Lemma runs_lift {A} (r : result A) (a : A) (h : heap) (Q : A → heap → Prop) :
  r = Ok a → Q a h → runs (lift r) h Q.
Proof. intros -> HQ. by exists a, h. Qed.

Lemma runs_load (l : loc) (o : object) (h : heap) (Q : object → heap → Prop) :
  h !! l = Some o → Q o h → runs (load l) h Q.
Proof. intros Hl HQ. exists o, h. split; [|done]. unfold load. by rewrite Hl. Qed.

Lemma runs_store (l : loc) (o : object) (h : heap) (Q : unit → heap → Prop) :
  is_Some (h !! l) → Q () (<[l := o]> h) → runs (store l o) h Q.
Proof.
  intros [o' Hl] HQ. exists (), (<[l := o]> h). split; [|done].
  unfold store. by rewrite Hl.
Qed.

Lemma runs_alloc (o : object) (h : heap) (Q : loc → heap → Prop) :
  (∀ l, h !! l = None → Q l (<[l := o]> h)) → runs (alloc o) h Q.
Proof.
  intros HQ. exists (fresh (dom h)), (<[fresh (dom h) := o]> h). split; [done|].
  apply HQ. apply not_elem_of_dom, is_fresh.
Qed.

Lemma runs_load_builder (b : loc) (x : AssemblyBuilder) (h : heap) (Q : AssemblyBuilder → heap → Prop) :
  h !! b = Some (OBuilder x) → Q x h → runs (load_builder b) h Q.
Proof.
  intros Hb HQ. apply runs_bind. apply (runs_load _ _ _ _ Hb). by apply runs_ret.
Qed.
Lemma runs_load_array (l : loc) (xs : list NodeHash) (h : heap) (Q : list NodeHash → heap → Prop) :
  h !! l = Some (OArray xs) → Q xs h → runs (load_array l) h Q.
Proof.
  intros Hb HQ. apply runs_bind. apply (runs_load _ _ _ _ Hb). by apply runs_ret.
Qed.
Lemma runs_load_nodes (l : loc) (m : gmap NodeHash Value) (h : heap) (Q : gmap NodeHash Value → heap → Prop) :
  h !! l = Some (ONodes m) → Q m h → runs (load_nodes l) h Q.
Proof.
  intros Hb HQ. apply runs_bind. apply (runs_load _ _ _ _ Hb). by apply runs_ret.
Qed.
Lemma runs_load_edgesets (l : loc) (m : gmap NodeHash loc) (h : heap) (Q : gmap NodeHash loc → heap → Prop) :
  h !! l = Some (OEdgeSets m) → Q m h → runs (load_edgesets l) h Q.
Proof.
  intros Hb HQ. apply runs_bind. apply (runs_load _ _ _ _ Hb). by apply runs_ret.
Qed.
Lemma runs_load_edgeset (l : loc) (s : gset NodeHash) (h : heap) (Q : gset NodeHash → heap → Prop) :
  h !! l = Some (OEdgeSet s) → Q s h → runs (load_edgeset l) h Q.
Proof.
  intros Hb HQ. apply runs_bind. apply (runs_load _ _ _ _ Hb). by apply runs_ret.
Qed.
Lemma runs_load_adjacency (l : loc) (m : gmap NodeHash slice) (h : heap) (Q : gmap NodeHash slice → heap → Prop) :
  h !! l = Some (OAdjacency m) → Q m h → runs (load_adjacency l) h Q.
Proof.
  intros Hb HQ. apply runs_bind. apply (runs_load _ _ _ _ Hb). by apply runs_ret.
Qed.

(** Reading is monotone in the heap. *)
Lemma slice_holds_mono (s : slice) (rs : list NodeHash) (h h' : heap) : h ⊆ h' → slice_holds s rs h → slice_holds s rs h'.
Proof.
  intros Hsub. destruct s as [|a n]; [done|]. intros (xs & Ha & Hn & Hrs).
  exists xs. split; [|done]. by eapply lookup_weaken.
Qed.
Lemma nodes_hold_mono (r : option loc) (m : gmap NodeHash Value) (h h' : heap) : h ⊆ h' → nodes_hold r m h → nodes_hold r m h'.
Proof. intros Hsub. destruct r as [l|]; [|done]. simpl. intros Hl. by eapply lookup_weaken. Qed.
Lemma edges_hold_mono (r : option loc) (e : gmap NodeHash (gset NodeHash)) (h h' : heap) : h ⊆ h' → edges_hold r e h → edges_hold r e h'.
Proof.
  intros Hsub. destruct r as [l|]; [|done]. intros (outer & Hl & Hin & Hinj).
  exists outer. split; [by eapply lookup_weaken|]. split; [|done].
  intros from. specialize (Hin from). destruct (outer !! from) as [s|]; [|done].
  destruct Hin as (inner & Hs & He). exists inner. split; [|done]. by eapply lookup_weaken.
Qed.
Lemma holds_mono (b : loc) (σ : built) (h h' : heap) : h ⊆ h' → holds b σ h → holds b σ h'.
Proof.
  intros Hsub (x & Hb & Haddr & Hr & Hn & He). exists x.
  split; [by eapply lookup_weaken|]. split; [done|].
  split; [by eapply slice_holds_mono|]. split; [by eapply nodes_hold_mono|].
  by eapply edges_hold_mono.
Qed.

Lemma slice_holds_read (s : slice) (rs : list NodeHash) (h : heap) : slice_holds s rs h → slice_read s h = (Ok rs, h).
Proof.
  destruct s as [|a n]; simpl; [by intros ->|]. intros (xs & Ha & _ & <-).
  unfold load_array, load, mbind, Go_bind, go_bind. by rewrite Ha.
Qed.

(** *** The three copies of [Assemble] *)

Lemma imap_shift {A} (k : nat) (l : list A) :
  imap ((λ i r, (k + i, r)%nat) ∘ S) l = imap (λ i r, (S k + i, r)%nat) l.
Proof. apply imap_ext. intros i x _. simpl. f_equal. lia. Qed.

(** [copy(g.Root, b.roots)] *)
Lemma runs_copy (a : loc) (N : nat) (rs : list NodeHash) : ∀ (pre : list NodeHash) (h : heap),
  h !! a = Some (OArray (pre ++ replicate (length rs) zeroAddress)) →
  N = (length pre + length rs)%nat →
  runs (go_for (imap (λ i r, (length pre + i, r)%nat) rs)
               (λ '(i, r), slice_set (Slice a N) i r)) h
       (λ _ h', h' !! a = Some (OArray (pre ++ rs))
                ∧ ∀ p, p ≠ a → h' !! p = h !! p).
Proof.
  induction rs as [|r rs IH]; intros pre h Ha HN.
  - apply runs_ret. simpl in Ha. by rewrite app_nil_r in *.
  - rewrite imap_cons. cbn [go_for]. apply runs_bind.
    unfold slice_set. rewrite decide_True by (simpl in HN; lia).
    apply runs_bind. apply (runs_load_array _ _ _ _ Ha).
    apply runs_store; [by eexists|].
    rewrite imap_shift.
    assert (Hins : <[(length pre + 0)%nat := r]> (pre ++ replicate (length (r :: rs)) zeroAddress)
                   = (pre ++ [r]) ++ replicate (length rs) zeroAddress).
    { rewrite Nat.add_0_r, insert_app_r_alt, Nat.sub_diag by lia. simpl.
      by rewrite <-app_assoc. }
    rewrite Hins.
    replace (S (length pre)) with (length (pre ++ [r])) by (rewrite length_app; simpl; lia).
    eapply runs_mono.
    + apply IH; [by rewrite lookup_insert_eq|]. rewrite length_app. simpl in *. lia.
    + simpl. intros _ h' [Ha' Hother]. split; [by rewrite <-app_assoc in Ha'|].
      intros p Hp. rewrite Hother by done. by rewrite lookup_insert_ne.
Qed.

(** The loop that copies the nodes. *)
Lemma runs_copy_nodes (l : loc) (kvs : list (NodeHash * Value)) :
  ∀ (acc : gmap NodeHash Value) (h : heap),
  h !! l = Some (ONodes acc) →
  runs (go_for kvs (λ '(id, n), nodes_set (Some l) id n)) h
       (λ _ h', h' !! l = Some (ONodes (foldl (λ m kv, <[kv.1 := kv.2]> m) acc kvs))
                ∧ ∀ p, p ≠ l → h' !! p = h !! p).
Proof.
  induction kvs as [|[id n] kvs IH]; intros acc h Hl.
  - by apply runs_ret.
  - cbn [go_for foldl]. apply runs_bind. unfold nodes_set.
    apply runs_bind. apply (runs_load_nodes _ _ _ _ Hl).
    apply runs_store; [by eexists|].
    eapply runs_mono; [apply IH; by rewrite lookup_insert_eq|].
    simpl. intros _ h' [Hl' Hother]. split; [done|].
    intros p Hp. rewrite Hother by done. by rewrite lookup_insert_ne.
Qed.

Lemma foldl_insert_union {K V} `{Countable K} (kvs : list (K * V)) :
  ∀ acc : gmap K V, NoDup kvs.*1 →
  foldl (λ m kv, <[kv.1 := kv.2]> m) acc kvs = list_to_map kvs ∪ acc.
Proof.
  induction kvs as [|[k v] kvs IH]; intros acc Hnd; simpl.
  - by rewrite (left_id_L ∅ (∪)).
  - apply NoDup_cons in Hnd as [Hk Hnd]. rewrite IH by done.
    rewrite <-insert_union_r, insert_union_l; [done|].
    by apply not_elem_of_list_to_map_1.
Qed.

Lemma foldl_insert_map_to_list {K V} `{Countable K} (m : gmap K V) :
  foldl (λ m kv, <[kv.1 := kv.2]> m) ∅ (map_to_list m) = m.
Proof.
  rewrite foldl_insert_union by apply NoDup_fst_map_to_list.
  by rewrite list_to_map_to_list, (right_id_L ∅ (∪)).
Qed.

(** The inner loop that appends the targets of one source. *)
Lemma runs_fill (l : loc) (id : NodeHash) (a : loc) (xs : list NodeHash) :
  ∀ (pre : list NodeHash) (adj : gmap NodeHash slice) (h : heap),
  a ≠ l →
  h !! l = Some (OAdjacency adj) →
  adj !! id = Some (Slice a (length pre)) →
  h !! a = Some (OArray (pre ++ replicate (length xs) zeroAddress)) →
  runs (go_for xs (λ n, s ← adjacency_get (Some l) id;
                        s ← append s n;
                        adjacency_set l id s)) h
       (λ _ h', h' !! l = Some (OAdjacency (<[id := Slice a (length pre + length xs)]> adj))
                ∧ h' !! a = Some (OArray (pre ++ xs))
                ∧ ∀ p, p ≠ l → p ≠ a → h' !! p = h !! p).
Proof.
  induction xs as [|x xs IH]; intros pre adj h Hal Hl Hid Ha.
  - apply runs_ret. simpl in *. rewrite Nat.add_0_r, app_nil_r in *.
    by rewrite insert_id.
  - cbn [go_for]. apply runs_bind. apply runs_bind.
    unfold adjacency_get. apply runs_bind. apply (runs_load_adjacency _ _ _ _ Hl).
    apply runs_ret. rewrite Hid. simpl default.
    apply runs_bind. unfold append. apply runs_bind.
    apply (runs_load_array _ _ _ _ Ha).
    rewrite decide_True by (rewrite length_app, length_replicate; simpl; lia).
    apply runs_bind. apply runs_store; [by eexists|]. apply runs_ret.
    unfold adjacency_set. apply runs_bind.
    apply (runs_load_adjacency _ adj); [by rewrite lookup_insert_ne|].
    apply runs_store; [rewrite lookup_insert_ne by done; by eexists|].
    assert (Hins : <[length pre := x]> (pre ++ replicate (length (x :: xs)) zeroAddress)
                   = (pre ++ [x]) ++ replicate (length xs) zeroAddress).
    { rewrite insert_app_r_alt, Nat.sub_diag by lia. simpl. by rewrite <-app_assoc. }
    rewrite Hins.
    eapply runs_mono.
    + apply (IH (pre ++ [x])); [done|by rewrite lookup_insert_eq| |].
      * rewrite lookup_insert_eq, length_app. simpl. f_equal. f_equal. lia.
      * by rewrite lookup_insert_ne, lookup_insert_eq.
    + simpl. intros _ h' (Hl' & Ha' & Hother). split; [|split].
      * rewrite Hl', insert_insert_eq, length_app. simpl.
        by replace (length pre + 1 + length xs)%nat
          with (length pre + S (length xs))%nat by lia.
      * by rewrite <-app_assoc in Ha'.
      * intros p Hpl Hpa. rewrite Hother by done. by rewrite !lookup_insert_ne.
Qed.

(** The loop over the sources. *)
Lemma runs_adjacency (l : loc) (kvs : list (NodeHash * loc)) :
  ∀ (adj : gmap NodeHash slice) (h : heap),
  h !! l = Some (OAdjacency adj) →
  NoDup kvs.*1 →
  (∀ id s, (id, s) ∈ kvs → ∃ inner, h !! s = Some (OEdgeSet inner)) →
  runs (go_for kvs (λ '(id, set),
          inner ← load_edgeset set;
          s ← make_slice 0 (size inner);
          adjacency_set l id s;;
          go_for (elements inner) (λ n,
            s ← adjacency_get (Some l) id;
            s ← append s n;
            adjacency_set l id s))) h
       (λ _ h', (∀ p o, p ≠ l → h !! p = Some o → h' !! p = Some o)
                ∧ ∃ adj', h' !! l = Some (OAdjacency adj')
                  ∧ (∀ id, id ∉ kvs.*1 → adj' !! id = adj !! id)
                  ∧ (∀ id s inner, (id, s) ∈ kvs → h !! s = Some (OEdgeSet inner) →
                       ∃ a, adj' !! id = Some (Slice a (size inner))
                            ∧ h' !! a = Some (OArray (elements inner)))).
Proof.
  induction kvs as [|[id set] kvs IH]; intros adj h Hl Hnd Hsets.
  - apply runs_ret. split; [done|]. exists adj. split; [done|]. split; [done|].
    by intros id s inner ?%elem_of_nil.
  - apply NoDup_cons in Hnd as [Hid Hnd].
    destruct (Hsets id set) as [inner Hset]; [by left|].
    cbn [go_for]. apply runs_bind. apply runs_bind.
    apply (runs_load_edgeset _ _ _ _ Hset).
    apply runs_bind. unfold make_slice. apply runs_bind.
    apply runs_alloc. intros a Ha. apply runs_ret.
    assert (Hal : a ≠ l) by (intros ->; congruence).
    apply runs_bind. unfold adjacency_set at 1. apply runs_bind.
    apply (runs_load_adjacency _ adj); [by rewrite lookup_insert_ne|].
    apply runs_store; [rewrite lookup_insert_ne by done; by eexists|].
    eapply runs_mono.
    { apply (runs_fill l id a (elements inner) []); [done|by rewrite lookup_insert_eq| |].
      - by rewrite lookup_insert_eq.
      - rewrite lookup_insert_ne, lookup_insert_eq by done. done. }
    simpl. intros _ h3 (Hl3 & Ha3 & Hother3).
    assert (Hold : ∀ p o, p ≠ l → h !! p = Some o → h3 !! p = Some o).
    { intros p o Hp Hpo. assert (p ≠ a) by (intros ->; congruence).
      rewrite Hother3 by done. by rewrite !lookup_insert_ne. }
    eapply runs_mono.
    { apply IH; [exact Hl3|done|]. intros id' s' Hin.
      destruct (Hsets id' s') as [inner' Hs']; [by right|]. exists inner'.
      apply Hold; [intros ->; congruence|done]. }
    simpl. intros _ h' (Hkeep & adj' & Hl' & Hout & Hin).
    split; [by auto|]. exists adj'. split; [done|]. split.
    + intros id' Hid'. apply not_elem_of_cons in Hid' as [Hne Hid'].
      rewrite Hout by done. by rewrite !lookup_insert_ne.
    + intros id' s' inner' [[= -> ->]|Hin']%elem_of_cons Hs'.
      * rewrite Hset in Hs'. injection Hs' as <-. exists a.
        rewrite Hout by done. rewrite lookup_insert_eq. split; [done|].
        apply Hkeep; done.
      * apply (Hin id' s' inner'); [done|]. apply Hold; [intros ->; congruence|done].
Qed.

(** A map[NodeHash][]NodeHash reference that lists, for every source of
    [e], its targets in an array of its own. *)
Definition adjacency_holds (r : option loc) (e : gmap NodeHash (gset NodeHash))
    (h : heap) : Prop :=
  match r with
  | None => e = ∅
  | Some l =>
      ∃ adj, h !! l = Some (OAdjacency adj)
        ∧ ∀ from, match adj !! from with
                  | None => e !! from = None
                  | Some s => ∃ inner a, e !! from = Some inner
                                ∧ s = Slice a (size inner)
                                ∧ h !! a = Some (OArray (elements inner))
                  end
  end.

Lemma runs_Assemble_roots (s : slice) (rs : list NodeHash) (h : heap) :
  slice_holds s rs h →
  runs (if decide (slice_len s ≠ 0)%nat
        then s' ← make_slice (slice_len s) (slice_len s);
             xs ← slice_read s;
             go_for (imap (λ i r, (i, r)) xs) (λ '(i, r), slice_set s' i r);;
             mret s'
        else mret nil_slice) h
       (λ g h', h ⊆ h' ∧ slice_holds g rs h' ∧ (rs = [] → g = nil_slice)).
Proof.
  intros Hs. destruct (decide (slice_len s ≠ 0)%nat) as [Hlen|Hlen].
  - destruct s as [|a0 n]; [done|]. simpl in Hlen. destruct Hs as (xs & Ha0 & Hn & Hrs).
    assert (Hlrs : length rs = n) by (subst rs; rewrite length_take; lia).
    apply runs_bind. unfold make_slice. apply runs_bind. apply runs_alloc.
    intros a Ha. apply runs_ret.
    assert (Haa : a0 ≠ a) by (intros ->; congruence).
    apply runs_bind. unfold slice_read. apply runs_bind.
    apply (runs_load_array _ xs); [by rewrite lookup_insert_ne|].
    apply runs_ret. rewrite Hrs. apply runs_bind. simpl slice_len.
    eapply runs_mono.
    { apply (runs_copy a n rs []); [|simpl; lia].
      rewrite lookup_insert_eq. simpl. by rewrite Hlrs. }
    simpl. intros _ h' [Ha' Hother]. apply runs_ret.
    split; [|split].
    + apply map_subseteq_spec. intros p o Hp.
      rewrite Hother by (intros ->; congruence). by rewrite lookup_insert_ne by (intros ->; congruence).
    + exists rs. split; [done|]. split; [lia|]. apply take_ge. lia.
    + intros ->. simpl in Hlrs. lia.
  - apply runs_ret. split; [done|]. split; [|done].
    destruct s as [|a0 n]; [done|]. simpl in Hlen.
    destruct Hs as (xs & _ & _ & <-). assert (n = 0)%nat as -> by lia. done.
Qed.

Lemma runs_Assemble_nodes (r : option loc) (m : gmap NodeHash Value) (h : heap) :
  nodes_hold r m h →
  runs (if decide (size m ≠ 0)%nat
        then l ← alloc (ONodes ∅);
             m ← match r with None => mret ∅ | Some l0 => load_nodes l0 end;
             go_for (range_map m) (λ '(id, n), nodes_set (Some l) id n);;
             mret (Some l)
        else mret None) h
       (λ g h', h ⊆ h' ∧ nodes_hold g m h' ∧ (m = ∅ → g = None)).
Proof.
  intros Hr. destruct r as [l0|]; simpl in Hr.
  - destruct (decide (size m ≠ 0)%nat) as [Hsize|Hsize].
    + apply runs_bind. apply runs_alloc. intros l Hl.
      assert (Hll : l0 ≠ l) by (intros ->; congruence).
      apply runs_bind. apply (runs_load_nodes _ m); [by rewrite lookup_insert_ne|].
      apply runs_bind. eapply runs_mono.
      { apply (runs_copy_nodes l (range_map m) ∅). by rewrite lookup_insert_eq. }
      simpl. intros _ h' [Hl' Hother]. apply runs_ret. split; [|split].
      * apply map_subseteq_spec. intros p o Hp.
        rewrite Hother by (intros ->; congruence).
        by rewrite lookup_insert_ne by (intros ->; congruence).
      * simpl. rewrite Hl'. unfold range_map. by rewrite foldl_insert_map_to_list.
      * intros ->. by rewrite map_size_empty in Hsize.
    + apply runs_ret. split; [done|]. assert (m = ∅) as ->; [|done].
      apply map_size_empty_iff. lia.
  - subst m. rewrite decide_False by (intros H; by apply H).
    by apply runs_ret.
Qed.

Lemma runs_len_nodes (r : option loc) (m : gmap NodeHash Value) (h : heap)
    (Q : nat → heap → Prop) :
  nodes_hold r m h → Q (size m) h → runs (len_nodes r) h Q.
Proof.
  intros Hr HQ. destruct r as [l|]; simpl in *.
  - apply runs_bind. apply (runs_load_nodes _ _ _ _ Hr). by apply runs_ret.
  - subst m. by apply runs_ret.
Qed.

Lemma edges_hold_size (l : loc) (e : gmap NodeHash (gset NodeHash)) (h : heap)
    (outer : gmap NodeHash loc) :
  (∀ from, match outer !! from with
           | None => e !! from = None
           | Some s => ∃ inner, h !! s = Some (OEdgeSet inner) ∧ e !! from = Some inner
           end) →
  size outer = size e.
Proof.
  intros Hin. rewrite <-!size_dom. f_equal. apply set_eq. intros from.
  rewrite !elem_of_dom. specialize (Hin from).
  destruct (outer !! from) as [s|].
  - destruct Hin as (inner & _ & ->). split; by eauto.
  - rewrite Hin. split; by intros [? ?].
Qed.

Lemma runs_len_edgesets (r : option loc) (e : gmap NodeHash (gset NodeHash)) (h : heap)
    (Q : nat → heap → Prop) :
  edges_hold r e h → Q (size e) h → runs (len_edgesets r) h Q.
Proof.
  intros Hr HQ. destruct r as [l|]; simpl in *.
  - destruct Hr as (outer & Hl & Hin & _).
    apply runs_bind. apply (runs_load_edgesets _ _ _ _ Hl). apply runs_ret.
    by rewrite (edges_hold_size l e h outer Hin).
  - subst e. by apply runs_ret.
Qed.

Lemma runs_Assemble_edges (r : option loc) (e : gmap NodeHash (gset NodeHash))
    (h : heap) :
  edges_hold r e h →
  runs (if decide (size e ≠ 0)%nat
        then l ← alloc (OAdjacency ∅);
             outer ← match r with
                     | None => mret ∅
                     | Some l0 => load_edgesets l0
                     end;
             go_for (range_map outer) (λ '(id, set),
               inner ← load_edgeset set;
               s ← make_slice 0 (size inner);
               adjacency_set l id s;;
               go_for (elements inner) (λ n,
                 s ← adjacency_get (Some l) id;
                 s ← append s n;
                 adjacency_set l id s));;
             mret (Some l)
        else mret None) h
       (λ g h', h ⊆ h' ∧ adjacency_holds g e h' ∧ (e = ∅ → g = None)).
Proof.
  intros Hr. destruct r as [l0|]; simpl in Hr.
  - destruct Hr as (outer & Hl0 & Hin & Hinj).
    rewrite <-(edges_hold_size l0 e h outer Hin).
    destruct (decide (size outer ≠ 0)%nat) as [Hsize|Hsize].
    + apply runs_bind. apply runs_alloc. intros l Hl.
      assert (Hll : l0 ≠ l) by (intros ->; congruence).
      apply runs_bind. apply (runs_load_edgesets _ outer); [by rewrite lookup_insert_ne|].
      apply runs_bind. eapply runs_mono.
      { apply (runs_adjacency l (range_map outer) ∅); [by rewrite lookup_insert_eq| |].
        - apply NoDup_fst_map_to_list.
        - intros id s Hids%elem_of_map_to_list. specialize (Hin id). rewrite Hids in Hin.
          destruct Hin as (inner & Hs & _). exists inner.
          by rewrite lookup_insert_ne by (intros ->; congruence). }
      simpl. intros _ h' (Hkeep & adj' & Hl' & Hout & Hdone). apply runs_ret.
      split; [|split].
      * apply map_subseteq_spec. intros p o Hp. apply Hkeep; [intros ->; congruence|].
        by rewrite lookup_insert_ne by (intros ->; congruence).
      * exists adj'. split; [done|]. intros from. specialize (Hin from).
        destruct (outer !! from) as [s|] eqn:Hfrom.
        -- destruct Hin as (inner & Hs & He).
           destruct (Hdone from s inner) as (a & -> & Ha).
           { by apply elem_of_map_to_list. }
           { by rewrite lookup_insert_ne by (intros ->; congruence). }
           by exists inner, a.
        -- rewrite Hout, lookup_empty; [done|].
           intros ([id s] & -> & Hids%elem_of_map_to_list)%list_elem_of_fmap.
           simpl in Hfrom. congruence.
      * intros ->. exfalso. apply Hsize, map_size_empty_iff, map_empty. intros from.
        specialize (Hin from). destruct (outer !! from); [|done].
        by destruct Hin as (? & _ & ?).
    + apply runs_ret. split; [done|]. split; [|done]. simpl.
      assert (outer = ∅) as -> by (apply map_size_empty_iff; lia).
      apply map_empty. intros from. specialize (Hin from). by rewrite lookup_empty in Hin.
  - subst e. rewrite decide_False by (intros H; by apply H).
    by apply runs_ret.
Qed.

Lemma runs_read {A} (c : Go A) (h : heap) (v : A) :
  runs c h (λ a _, a = v) → read c h = Ok v.
Proof. intros (a & h' & Hc & ->). unfold read. by rewrite Hc. Qed.

Lemma adjacency_holds_read (g : AssemblyGraph) (e : gmap NodeHash (gset NodeHash))
    (h : heap) (n : NodeHash) :
  adjacency_holds (Neighbours g) e h →
  read (graph_edges g n) h = Ok (elements (default ∅ (e !! n))).
Proof.
  intros Hadj. apply runs_read.
  unfold graph_edges, AssemblyGraph_EdgesOf, adjacency_get. apply runs_bind.
  destruct (Neighbours g) as [l|]; simpl in Hadj.
  - destruct Hadj as (adj & Hl & Hadj). specialize (Hadj n).
    apply runs_bind. apply (runs_load_adjacency _ _ _ _ Hl). apply runs_ret.
    destruct (adj !! n) as [s|]; simpl.
    + destruct Hadj as (inner & a & -> & -> & Ha). simpl.
      apply runs_bind. apply (runs_load_array _ _ _ _ Ha). apply runs_ret.
      by rewrite take_ge.
    + rewrite Hadj. apply runs_ret. simpl. by rewrite elements_empty.
  - subst e. apply runs_ret. simpl. apply runs_ret.
    rewrite lookup_empty. simpl. by rewrite elements_empty.
Qed.

(** X27. [Assemble] returns what the builder has accumulated and leaves
    the builder alone.  For a builder that holds the roots, nodes and
    edges [σ], [Assemble] returns normally, no object of the heap is
    changed (the graph is made of new objects), and the graph reads as
    [σ]: its roots are the builder's roots in order, its nodes are the
    builder's nodes, and the edges of every node list each target of
    that node once and nothing else.  An empty part of the builder is a
    nil field of the graph. *)
Theorem Assemble_returns_what_was_built (b : loc) (σ : built) (h : heap) :
  holds b σ h →
  ∃ g h', Assemble b h = (Ok g, h')
    ∧ h ⊆ h'
    ∧ holds b σ h'
    ∧ read (graph_roots g) h' = Ok (built_roots σ)
    ∧ read (graph_nodes g) h' = Ok (built_nodes σ)
    ∧ (∀ n, ∃ targets, read (graph_edges g n) h' = Ok targets
            ∧ NoDup targets
            ∧ ∀ t, t ∈ targets ↔ t ∈ default ∅ (built_edges σ !! n))
    ∧ (built_roots σ = [] → Root g = nil_slice)
    ∧ (built_nodes σ = ∅ → Vertices g = None)
    ∧ (built_edges σ = ∅ → Neighbours g = None).
Proof.
  intros Hholds. assert (Hholds' := Hholds).
  destruct Hholds' as (x & Hb & _ & Hroots & Hnodes & Hedges).
  change (runs (Assemble b) h (λ g h',
    h ⊆ h' ∧ holds b σ h'
    ∧ read (graph_roots g) h' = Ok (built_roots σ)
    ∧ read (graph_nodes g) h' = Ok (built_nodes σ)
    ∧ (∀ n, ∃ targets, read (graph_edges g n) h' = Ok targets
            ∧ NoDup targets
            ∧ ∀ t, t ∈ targets ↔ t ∈ default ∅ (built_edges σ !! n))
    ∧ (built_roots σ = [] → Root g = nil_slice)
    ∧ (built_nodes σ = ∅ → Vertices g = None)
    ∧ (built_edges σ = ∅ → Neighbours g = None))).
  unfold Assemble. apply runs_bind. apply (runs_load_builder _ _ _ _ Hb).
  apply runs_bind. eapply runs_mono; [by apply runs_Assemble_roots|].
  simpl. intros gRoot h1 (Hsub1 & HgRoot & Hnil1).
  assert (Hnodes1 : nodes_hold (nodes x) (built_nodes σ) h1)
    by by eapply nodes_hold_mono.
  apply runs_bind, (runs_len_nodes _ _ _ _ Hnodes1).
  apply runs_bind. eapply runs_mono; [by apply runs_Assemble_nodes|].
  simpl. intros gVertices h2 (Hsub2 & HgVertices & Hnil2).
  assert (Hedges2 : edges_hold (neighbours x) (built_edges σ) h2).
  { eapply edges_hold_mono; [|done]. by etrans. }
  apply runs_bind, (runs_len_edgesets _ _ _ _ Hedges2).
  apply runs_bind. eapply runs_mono; [by apply runs_Assemble_edges|].
  simpl. intros gNeighbours h3 (Hsub3 & HgNeighbours & Hnil3).
  apply runs_ret.
  assert (Hsub : h ⊆ h3) by (etrans; [|done]; by etrans).
  split; [done|]. split; [by eapply holds_mono|].
  split; [|split; [|split; [|done]]].
  - unfold read, graph_roots, AssemblyGraph_Roots. simpl.
    erewrite slice_holds_read; [done|]. eapply slice_holds_mono; [|done]. by etrans.
  - apply runs_read. unfold graph_nodes, AssemblyGraph_Nodes. simpl.
    assert (Hv := nodes_hold_mono _ _ _ _ Hsub3 HgVertices).
    destruct gVertices as [l|]; simpl in Hv.
    + by apply (runs_load_nodes _ _ _ _ Hv).
    + by apply runs_ret.
  - intros n. exists (elements (default ∅ (built_edges σ !! n))).
    split; [by apply adjacency_holds_read|]. split; [apply NoDup_elements|].
    intros t. apply elem_of_elements.
Qed.

(** *** The calls that fill a builder *)

(** The builder at [b] has been used at this address. *)
Definition used (b : loc) (h : heap) : Prop :=
  ∃ x, h !! b = Some (OBuilder x) ∧ addr x = Some b.

(** Insertion of the nodes with their content addresses, in call order. *)
Definition with_nodes (kvs : list (NodeHash * Value)) (m : gmap NodeHash Value)
  : gmap NodeHash Value :=
  foldl (λ m kv, <[kv.1 := kv.2]> m) m kvs.

(** One more target in the set of targets of a source. *)
Definition with_edge (from to : NodeHash) (e : gmap NodeHash (gset NodeHash))
  : gmap NodeHash (gset NodeHash) :=
  <[from := {[to]} ∪ default ∅ (e !! from)]> e.

(** Each value has the content address listed for it. *)
Definition hashed_as (node : list Value) (ids : list NodeHash) : Prop :=
  Forall2 (λ n id, MustContentAddress n = Ok id) node ids.

(** What a part of a builder reads is not touched by a change of objects
    of another kind. *)
Lemma slice_holds_frame (s : slice) (rs : list NodeHash) (h h' : heap) :
  (∀ p xs, h !! p = Some (OArray xs) → h' !! p = Some (OArray xs)) →
  slice_holds s rs h → slice_holds s rs h'.
Proof.
  intros Hframe. destruct s as [|a n]; [done|]. intros (xs & Ha & Hn & Hrs).
  exists xs. auto.
Qed.
Lemma nodes_hold_frame (r : option loc) (m : gmap NodeHash Value) (h h' : heap) :
  (∀ p m, h !! p = Some (ONodes m) → h' !! p = Some (ONodes m)) →
  nodes_hold r m h → nodes_hold r m h'.
Proof. intros Hframe. destruct r as [l|]; [|done]. simpl. auto. Qed.
Lemma edges_hold_frame (r : option loc) (e : gmap NodeHash (gset NodeHash))
    (h h' : heap) :
  (∀ p m, h !! p = Some (OEdgeSets m) → h' !! p = Some (OEdgeSets m)) →
  (∀ p s, h !! p = Some (OEdgeSet s) → h' !! p = Some (OEdgeSet s)) →
  edges_hold r e h → edges_hold r e h'.
Proof.
  intros Hframe1 Hframe2. destruct r as [l|]; [|done]. intros (outer & Hl & Hin & Hinj).
  exists outer. split; [auto|]. split; [|done].
  intros from. specialize (Hin from). destruct (outer !! from) as [s|]; [|done].
  destruct Hin as (inner & Hs & He). exists inner. auto.
Qed.

(** A lookup that an insertion elsewhere leaves alone. *)
Ltac elsewhere :=
  repeat (rewrite lookup_insert_ne by (intros ->; congruence)); try done.

Lemma runs_copyCheck (b : loc) (x : AssemblyBuilder) (h : heap)
    (Q : unit → heap → Prop) :
  h !! b = Some (OBuilder x) →
  (addr x = None ∨ addr x = Some b) →
  (∀ h', h' !! b = Some (OBuilder (Builder (roots x) (nodes x) (neighbours x) (Some b))) →
         (∀ p, p ≠ b → h' !! p = h !! p) → Q () h') →
  runs (copyCheck b) h Q.
Proof.
  intros Hb Haddr HQ. unfold copyCheck. apply runs_bind.
  apply (runs_load_builder _ _ _ _ Hb). destruct Haddr as [Haddr|Haddr]; rewrite Haddr.
  - apply runs_store; [by eexists|]. apply HQ; [by rewrite lookup_insert_eq|].
    intros p Hp. by rewrite lookup_insert_ne.
  - rewrite decide_False by (intros H; by apply H). apply runs_ret, HQ; [|done].
    rewrite Hb. destruct x. simpl in *. by subst.
Qed.

(** The loop of [Nodes]. *)
Lemma runs_Nodes_loop (b l : loc) (x : AssemblyBuilder) (node : list Value) :
  ∀ (ids : list NodeHash) (m : gmap NodeHash Value) (h : heap),
  hashed_as node ids →
  h !! b = Some (OBuilder x) → nodes x = Some l → h !! l = Some (ONodes m) →
  runs (go_for node (λ n,
          id ← lift (MustContentAddress n);
          x ← load_builder b;
          nodes_set (nodes x) id n)) h
       (λ _ h', h' !! l = Some (ONodes (with_nodes (zip ids node) m))
                ∧ ∀ p, p ≠ l → h' !! p = h !! p).
Proof.
  induction node as [|n node IH]; intros ids m h Hids Hb Hnodes Hl.
  - apply Forall2_nil_inv_l in Hids as ->. by apply runs_ret.
  - apply Forall2_cons_inv_l in Hids as (id & ids' & Hid & Hids & ->).
    cbn [go_for]. apply runs_bind. apply runs_bind. apply (runs_lift _ id); [done|].
    apply runs_bind. apply (runs_load_builder _ _ _ _ Hb). rewrite Hnodes.
    unfold nodes_set. apply runs_bind. apply (runs_load_nodes _ _ _ _ Hl).
    apply runs_store; [by eexists|].
    eapply runs_mono.
    + apply (IH ids' (<[id := n]> m)); [done| |done|by rewrite lookup_insert_eq].
      by elsewhere.
    + simpl. intros _ h' [Hl' Hother]. split; [done|].
      intros p Hp. rewrite Hother by done. by rewrite lookup_insert_ne.
Qed.

(** [Nodes]: the builder afterwards, as a struct and as content. *)
Lemma runs_Nodes (b : loc) (σ : built) (node : list Value) (ids : list NodeHash)
    (x : AssemblyBuilder) (h : heap) :
  h !! b = Some (OBuilder x) →
  (addr x = None ∨ addr x = Some b) →
  fields x σ h →
  hashed_as node ids →
  runs (Nodes b node) h
       (λ _ h', ∃ x', h' !! b = Some (OBuilder x') ∧ addr x' = Some b
                  ∧ roots x' = roots x ∧ neighbours x' = neighbours x
                  ∧ fields x' (Built (built_roots σ)
                                     (with_nodes (zip ids node) (built_nodes σ))
                                     (built_edges σ)) h').
Proof.
  intros Hb Haddr (Hr & Hn & He) Hids. unfold Nodes.
  apply runs_bind. apply (runs_copyCheck _ _ _ _ Hb Haddr). intros h1 Hb1 Hother1.
  assert (Hr1 : slice_holds (roots x) (built_roots σ) h1).
  { eapply slice_holds_frame; [|done]. intros p xs Hp.
    by rewrite Hother1 by (intros ->; congruence). }
  assert (Hn1 : nodes_hold (nodes x) (built_nodes σ) h1).
  { eapply nodes_hold_frame; [|done]. intros p xs Hp.
    by rewrite Hother1 by (intros ->; congruence). }
  assert (He1 : edges_hold (neighbours x) (built_edges σ) h1).
  { eapply edges_hold_frame; [| |done]; intros p xs Hp;
      by rewrite Hother1 by (intros ->; congruence). }
  clear Hr Hn He Hother1 Hb h.
  apply runs_bind. apply (runs_load_builder _ _ _ _ Hb1). cbn [nodes roots neighbours addr].
  destruct (nodes x) as [l|] eqn:Hnodes; simpl in Hn1.
  - apply runs_bind. apply runs_ret.
    eapply runs_mono.
    { eapply (runs_Nodes_loop b l); [done|exact Hb1|reflexivity|done]. }
    simpl. intros _ h' [Hl' Hother]. eexists. split.
    { rewrite Hother by (intros ->; congruence). exact Hb1. }
    split; [done|]. split; [done|]. split; [done|]. split; [|split]; simpl.
    + eapply slice_holds_frame; [|done]. intros p xs Hp.
      by rewrite Hother by (intros ->; congruence).
    + done.
    + eapply edges_hold_frame; [| |done]; intros p xs Hp;
        by rewrite Hother by (intros ->; congruence).
  - apply runs_bind. apply runs_bind. apply runs_alloc. intros l Hl.
    apply runs_store; [rewrite lookup_insert_ne by (intros ->; congruence); by eexists|].
    eapply runs_mono.
    { eapply (runs_Nodes_loop b l); [done|by rewrite lookup_insert_eq|reflexivity|].
      rewrite lookup_insert_ne by (intros ->; congruence). by rewrite lookup_insert_eq. }
    simpl. intros _ h' [Hl' Hother]. eexists. split.
    { rewrite Hother by (intros ->; congruence). by rewrite lookup_insert_eq. }
    split; [done|]. split; [done|]. split; [done|]. split; [|split]; simpl.
    + eapply slice_holds_frame; [|done]. intros p xs Hp.
      rewrite Hother by (intros ->; congruence). by elsewhere.
    + by rewrite Hn1.
    + eapply edges_hold_frame; [| |done]; intros p xs Hp;
        (rewrite Hother by (intros ->; congruence)); by elsewhere.
Qed.

(** Only the maps of edges differ. *)
Definition same_but_edges (h h' : heap) : Prop :=
  ∀ p o, h !! p = Some o →
    match o with
    | OEdgeSets _ | OEdgeSet _ => True
    | _ => h' !! p = Some o
    end.

(** The second half of [Connect]: the edge goes into the inner map of
    its source, which is made when the source has none. *)
Lemma runs_Connect_edge (b l : loc) (x : AssemblyBuilder)
    (e : gmap NodeHash (gset NodeHash)) (from to : NodeHash) (h : heap) :
  h !! b = Some (OBuilder x) → neighbours x = Some l → edges_hold (Some l) e h →
  runs (x ← load_builder b;
        match neighbours x with
        | None => panic "assignment to entry in nil map"
        | Some l =>
            outer ← load_edgesets l;
            (if outer !! from is None
             then s ← alloc (OEdgeSet ∅); store l (OEdgeSets (<[from := s]> outer))
             else mret ());;
            outer ← load_edgesets l;
            match outer !! from with
            | None => panic "assignment to entry in nil map"
            | Some s => inner ← load_edgeset s; store s (OEdgeSet ({[to]} ∪ inner))
            end
        end) h
       (λ _ h', edges_hold (Some l) (<[from := {[to]} ∪ default ∅ (e !! from)]> e) h'
                ∧ same_but_edges h h').
Proof.
  intros Hb Hnb (outer & Hl & Hin & Hinj).
  apply runs_bind. apply (runs_load_builder _ _ _ _ Hb). rewrite Hnb.
  apply runs_bind. apply (runs_load_edgesets _ _ _ _ Hl).
  destruct (outer !! from) as [s|] eqn:Hfrom.
  - assert (Hs := Hin from). rewrite Hfrom in Hs. destruct Hs as (inner & Hs & He).
    apply runs_bind. apply runs_ret.
    apply runs_bind. apply (runs_load_edgesets _ _ _ _ Hl). rewrite Hfrom.
    apply runs_bind. apply (runs_load_edgeset _ _ _ _ Hs).
    apply runs_store; [by eexists|]. rewrite He. simpl. split.
    + exists outer. split; [by elsewhere|]. split; [|done].
      intros k. destruct (decide (k = from)) as [->|Hk].
      * rewrite Hfrom. exists ({[to]} ∪ inner). by rewrite !lookup_insert_eq.
      * specialize (Hin k). rewrite lookup_insert_ne by done.
        destruct (outer !! k) as [s'|] eqn:Hk'; [|done].
        destruct Hin as (inner' & Hs' & He'). exists inner'. split; [|done].
        rewrite lookup_insert_ne; [done|]. intros ->. by apply Hk, (Hinj k from s').
    + intros p o Hp. destruct o; try done; by elsewhere.
  - assert (He := Hin from). rewrite Hfrom in He.
    apply runs_bind. apply runs_bind. apply runs_alloc. intros s Hs.
    apply runs_store; [rewrite lookup_insert_ne by (intros ->; congruence); by eexists|].
    apply runs_bind.
    apply (runs_load_edgesets _ (<[from := s]> outer)); [by rewrite lookup_insert_eq|].
    rewrite lookup_insert_eq.
    apply runs_bind. apply (runs_load_edgeset _ ∅).
    { rewrite lookup_insert_ne by (intros ->; congruence). by rewrite lookup_insert_eq. }
    apply runs_store.
    { rewrite lookup_insert_ne by (intros ->; congruence). rewrite lookup_insert_eq.
      by eexists. }
    rewrite He. simpl. split.
    + exists (<[from := s]> outer). split.
      { rewrite lookup_insert_ne by (intros ->; congruence). by rewrite lookup_insert_eq. }
      split.
      * intros k. destruct (decide (k = from)) as [->|Hk].
        -- rewrite !lookup_insert_eq. by exists ({[to]} ∪ ∅).
        -- specialize (Hin k). rewrite !(lookup_insert_ne _ from k) by done.
           destruct (outer !! k) as [s'|] eqn:Hk'; [|done].
           destruct Hin as (inner' & Hs' & He'). exists inner'. split; [|done].
           by elsewhere.
      * intros k1 k2 s0.
        destruct (decide (k1 = from)) as [->|Hk1]; destruct (decide (k2 = from)) as [->|Hk2];
          [done|..]; rewrite ?lookup_insert_eq, ?lookup_insert_ne by done.
        -- intros [= <-] Hk2'. specialize (Hin k2). rewrite Hk2' in Hin.
           destruct Hin as (? & ? & _). congruence.
        -- intros Hk1' [= <-]. specialize (Hin k1). rewrite Hk1' in Hin.
           destruct Hin as (? & ? & _). congruence.
        -- apply Hinj.
    + intros p o Hp. destruct o; try done; by elsewhere.
Qed.

(** The loop of [Roots]. *)
Lemma runs_Roots_loop (b a : loc) (N : nat) (x : AssemblyBuilder) (root : list Value) :
  ∀ (ids : list NodeHash) (k : nat) (xs : list NodeHash) (h : heap),
  hashed_as root ids →
  h !! b = Some (OBuilder x) → roots x = Slice a N → h !! a = Some (OArray xs) →
  (k + length root ≤ N)%nat → (N ≤ length xs)%nat →
  runs (go_for (imap (λ i n, (k + i, n)%nat) root) (λ '(i, n),
          id ← lift (MustContentAddress n);
          x ← load_builder b;
          slice_set (roots x) i id)) h
       (λ _ h', h' !! a = Some (OArray (take k xs ++ ids ++ drop (k + length root) xs))
                ∧ ∀ p, p ≠ a → h' !! p = h !! p).
Proof.
  induction root as [|n root IH]; intros ids k xs h Hids Hb Hroots Ha Hk HN.
  - apply Forall2_nil_inv_l in Hids as ->. apply runs_ret. simpl.
    by rewrite Nat.add_0_r, take_drop.
  - apply Forall2_cons_inv_l in Hids as (id & ids' & Hid & Hids & ->).
    simpl in Hk. rewrite imap_cons. cbn [go_for]. apply runs_bind.
    apply runs_bind. apply (runs_lift _ id); [done|].
    apply runs_bind. apply (runs_load_builder _ _ _ _ Hb). rewrite Hroots.
    unfold slice_set. rewrite decide_True by lia.
    apply runs_bind. apply (runs_load_array _ _ _ _ Ha).
    apply runs_store; [by eexists|]. rewrite Nat.add_0_r.
    rewrite imap_shift. eapply runs_mono.
    + apply (IH ids' (S k) (<[k := id]> xs)); [done| |done|by rewrite lookup_insert_eq| |].
      * rewrite lookup_insert_ne; [done|]. intros ->. congruence.
      * lia.
      * by rewrite length_insert.
    + simpl. intros _ h' [Ha' Hother]. split.
      * rewrite Ha'. do 2 f_equal.
        rewrite (take_S_r _ _ id) by (apply list_lookup_insert_eq; lia).
        rewrite take_insert_ge by lia. rewrite <-app_assoc. simpl. do 3 f_equal.
        rewrite drop_insert_lt by lia. f_equal. lia.
      * intros p Hp. rewrite Hother by done. by rewrite lookup_insert_ne.
Qed.

Lemma runs_Connect (b : loc) (σ : built) (source target : Value) (from to : NodeHash)
    (x : AssemblyBuilder) (h : heap) :
  h !! b = Some (OBuilder x) →
  (addr x = None ∨ addr x = Some b) →
  fields x σ h →
  MustContentAddress source = Ok from → MustContentAddress target = Ok to →
  runs (Connect b source target) h
       (λ _ h', ∃ x', h' !! b = Some (OBuilder x') ∧ addr x' = Some b
                  ∧ fields x' (Built (built_roots σ)
                                 (<[to := target]> (<[from := source]> (built_nodes σ)))
                                 (<[from := {[to]} ∪ default ∅ (built_edges σ !! from)]>
                                    (built_edges σ))) h').
Proof.
  intros Hb Haddr (Hr & Hn & He) Hfrom Hto. unfold Connect.
  apply runs_bind. apply (runs_copyCheck _ _ _ _ Hb Haddr). intros h1 Hb1 Hother1.
  assert (Hf1 : fields (Builder (roots x) (nodes x) (neighbours x) (Some b)) σ h1).
  { split; [|split]; simpl.
    - eapply slice_holds_frame; [|done]. intros p xs Hp.
      by rewrite Hother1 by (intros ->; congruence).
    - eapply nodes_hold_frame; [|done]. intros p xs Hp.
      by rewrite Hother1 by (intros ->; congruence).
    - eapply edges_hold_frame; [| |done]; intros p xs Hp;
        by rewrite Hother1 by (intros ->; congruence). }
  apply runs_bind. eapply runs_mono.
  { apply (runs_Nodes b σ [source; target] [from; to] _ h1 Hb1); [by right|done|].
    by repeat constructor. }
  simpl. intros _ h2 (x2 & Hb2 & Haddr2 & _ & _ & Hr2 & Hn2 & He2).
  simpl in Hr2, Hn2, He2.
  apply runs_bind. apply (runs_lift _ from); [done|].
  apply runs_bind. apply (runs_lift _ to); [done|].
  apply runs_bind. apply (runs_load_builder _ _ _ _ Hb2).
  destruct (neighbours x2) as [l|] eqn:Hnb.
  - apply runs_bind. apply runs_ret. eapply runs_mono.
    { by apply (runs_Connect_edge b l x2 (built_edges σ) from to). }
    simpl. intros _ h' [He' Hsame]. exists x2.
    split; [by apply (Hsame b _ Hb2)|]. split; [done|].
    split; [|split]; simpl.
    + eapply slice_holds_frame; [|done]. intros p xs Hp. by apply (Hsame p _ Hp).
    + eapply nodes_hold_frame; [|done]. intros p xs Hp. by apply (Hsame p _ Hp).
    + by rewrite Hnb.
  - simpl in He2. apply runs_bind. apply runs_bind. apply runs_alloc. intros l Hl.
    apply runs_store; [rewrite lookup_insert_ne by (intros ->; congruence); by eexists|].
    eapply runs_mono.
    { eapply (runs_Connect_edge b l _ (built_edges σ) from to);
        [by rewrite lookup_insert_eq|reflexivity|].
      exists ∅. split.
      { rewrite lookup_insert_ne by (intros ->; congruence). by rewrite lookup_insert_eq. }
      split; [|by intros k1 k2 s ?%lookup_empty_Some].
      intros k. rewrite lookup_empty. by rewrite He2, lookup_empty. }
    simpl. intros _ h' [He' Hsame]. eexists.
    split.
    { apply (Hsame b (OBuilder _)). by rewrite lookup_insert_eq. }
    split; [done|]. split; [|split]; simpl.
    + eapply slice_holds_frame; [|done]. intros p xs Hp.
      apply (Hsame p (OArray xs)). by elsewhere.
    + eapply nodes_hold_frame; [|done]. intros p xs Hp.
      apply (Hsame p (ONodes xs)). by elsewhere.
    + done.
Qed.

Lemma runs_Roots (b : loc) (σ : built) (root : list Value) (ids : list NodeHash)
    (x : AssemblyBuilder) (h : heap) :
  h !! b = Some (OBuilder x) →
  (addr x = None ∨ addr x = Some b) →
  fields x σ h →
  hashed_as root ids →
  runs (Roots b root) h
       (λ _ h', ∃ x', h' !! b = Some (OBuilder x') ∧ addr x' = Some b
                  ∧ fields x' (Built ids (with_nodes (zip ids root) (built_nodes σ))
                                     (built_edges σ)) h').
Proof.
  intros Hb Haddr (Hr & Hn & He) Hids. unfold Roots.
  assert (Hlen := Forall2_length _ _ _ Hids).
  apply runs_bind. apply (runs_copyCheck _ _ _ _ Hb Haddr). intros h1 Hb1 Hother1.
  assert (Hf1 : fields (Builder (roots x) (nodes x) (neighbours x) (Some b)) σ h1).
  { split; [|split]; simpl.
    - eapply slice_holds_frame; [|done]. intros p xs Hp.
      by rewrite Hother1 by (intros ->; congruence).
    - eapply nodes_hold_frame; [|done]. intros p xs Hp.
      by rewrite Hother1 by (intros ->; congruence).
    - eapply edges_hold_frame; [| |done]; intros p xs Hp;
        by rewrite Hother1 by (intros ->; congruence). }
  apply runs_bind. eapply runs_mono.
  { by apply (runs_Nodes b σ root ids _ h1 Hb1); [right|..]. }
  simpl. intros _ h2 (x2 & Hb2 & Haddr2 & _ & _ & Hr2 & Hn2 & He2).
  simpl in Hr2, Hn2, He2.
  apply runs_bind. apply (runs_load_builder _ _ _ _ Hb2).
  apply runs_bind.
  destruct (decide (length root < slice_len (roots x2))%nat) as [Hlt|Hge].
  - destruct (roots x2) as [|a n] eqn:Hroots; [simpl in Hlt; lia|].
    simpl in Hlt. destruct Hr2 as (xs & Ha & Hnxs & _).
    apply runs_store; [by eexists|].
    eapply runs_mono.
    { eapply (runs_Roots_loop b a (length root) _ root ids 0 xs);
        [done|by rewrite lookup_insert_eq|reflexivity| |simpl; lia|lia].
      rewrite lookup_insert_ne; [done|]. intros ->. congruence. }
    simpl. intros _ h' [Ha' Hother]. eexists. split.
    { rewrite Hother by (intros ->; congruence). by rewrite lookup_insert_eq. }
    split; [done|]. split; [|split]; simpl.
    + eexists. split; [done|]. split.
      * rewrite length_app, length_drop. lia.
      * rewrite take_app_length'; [done|lia].
    + eapply nodes_hold_frame; [|done]. intros p m Hp.
      rewrite Hother by (intros ->; congruence). by elsewhere.
    + eapply edges_hold_frame; [| |done]; intros p m Hp;
        (rewrite Hother by (intros ->; congruence)); by elsewhere.
  - apply runs_bind. unfold make_slice. apply runs_bind. apply runs_alloc.
    intros a Ha. apply runs_ret.
    apply runs_store; [rewrite lookup_insert_ne by (intros ->; congruence); by eexists|].
    eapply runs_mono.
    { eapply (runs_Roots_loop b a (length root) _ root ids 0
                (replicate (length root) zeroAddress));
        [done|by rewrite lookup_insert_eq|reflexivity| |simpl; lia|].
      - rewrite lookup_insert_ne by (intros ->; congruence). by rewrite lookup_insert_eq.
      - by rewrite length_replicate. }
    simpl. intros _ h' [Ha' Hother]. eexists. split.
    { rewrite Hother by (intros ->; congruence). by rewrite lookup_insert_eq. }
    split; [done|]. split; [|split]; simpl.
    + eexists. split; [done|]. split.
      * rewrite length_app, length_drop. lia.
      * rewrite take_app_length'; [done|lia].
    + eapply nodes_hold_frame; [|done]. intros p m Hp.
      rewrite Hother by (intros ->; congruence). by elsewhere.
    + eapply edges_hold_frame; [| |done]; intros p m Hp;
        (rewrite Hother by (intros ->; congruence)); by elsewhere.
Qed.

Lemma runs_Reset (b : loc) (x : AssemblyBuilder) (h : heap) :
  h !! b = Some (OBuilder x) →
  runs (Reset b) h (λ _ h', h' = <[b := OBuilder (Builder nil_slice None None None)]> h).
Proof.
  intros Hb. unfold Reset. apply runs_bind. apply (runs_load_builder _ _ _ _ Hb).
  by apply runs_store.
Qed.

Lemma used_holds (b : loc) (σ : built) (h : heap) (x : AssemblyBuilder) :
  h !! b = Some (OBuilder x) → addr x = Some b → fields x σ h →
  used b h ∧ holds b σ h.
Proof. intros Hb Haddr Hf. split; exists x; auto. Qed.

(** X26. The calls on a builder accumulate.  On a builder that holds
    [σ], with arguments that can be hashed, each call returns normally:
    [Nodes] adds the nodes under their content addresses (a later node
    replaces an earlier one with the same address) and changes nothing
    else; [Connect] adds its two nodes and puts the target into the set
    of targets of the source; [Roots] adds its nodes and replaces the
    roots by the addresses of its arguments, in order; [Reset] empties
    the builder.  After the first three the builder is marked as used at
    its address. *)
Theorem builder_calls_accumulate (b : loc) (σ : built) (h : heap) :
  holds b σ h →
  (∀ node ids, hashed_as node ids →
     ∃ h', Nodes b node h = (Ok (), h') ∧ used b h'
           ∧ holds b (Built (built_roots σ)
                            (with_nodes (zip ids node) (built_nodes σ))
                            (built_edges σ)) h')
  ∧ (∀ source target from to,
       MustContentAddress source = Ok from → MustContentAddress target = Ok to →
       ∃ h', Connect b source target h = (Ok (), h') ∧ used b h'
             ∧ holds b (Built (built_roots σ)
                              (<[to := target]> (<[from := source]> (built_nodes σ)))
                              (with_edge from to (built_edges σ))) h')
  ∧ (∀ root ids, hashed_as root ids →
       ∃ h', Roots b root h = (Ok (), h') ∧ used b h'
             ∧ holds b (Built ids (with_nodes (zip ids root) (built_nodes σ))
                              (built_edges σ)) h')
  ∧ (∃ h', Reset b h = (Ok (), h') ∧ holds b (Built [] ∅ ∅) h').
Proof.
  intros (x & Hb & Haddr & Hf). split; [|split; [|split]].
  - intros node ids Hids.
    destruct (runs_Nodes b σ node ids x h Hb Haddr Hf Hids)
      as ([] & h' & Hrun & x' & Hb' & Haddr' & _ & _ & Hf').
    exists h'. split; [done|]. by eapply used_holds.
  - intros source target from to Hfrom Hto.
    destruct (runs_Connect b σ source target from to x h Hb Haddr Hf Hfrom Hto)
      as ([] & h' & Hrun & x' & Hb' & Haddr' & Hf').
    exists h'. split; [done|]. by eapply used_holds.
  - intros root ids Hids.
    destruct (runs_Roots b σ root ids x h Hb Haddr Hf Hids)
      as ([] & h' & Hrun & x' & Hb' & Haddr' & Hf').
    exists h'. split; [done|]. by eapply used_holds.
  - destruct (runs_Reset b x h Hb) as ([] & h' & Hrun & ->).
    eexists. split; [done|].
    exists (Builder nil_slice None None None). rewrite lookup_insert_eq.
    split; [done|]. split; [by left|]. by repeat split.
Qed.

(** X28. A builder that was used and then copied by value is refused.
    When the struct at [b'] records in [addr] that it was used at
    another address [b], the calls [Nodes], [Connect], [Roots] and
    [Hint] on it panic, whatever their arguments, and leave the heap as
    it was; [Reset] is not refused, and after it the copy is an empty
    builder that can be used, while the original builder is untouched. *)
Theorem copied_builder_is_refused (b b' : loc) (x : AssemblyBuilder) (h : heap) :
  h !! b' = Some (OBuilder x) → addr x = Some b → b ≠ b' →
  (∀ m, m ≠ CallReset →
     mutate b' m h
     = (Panic "digitaltwin: illegal use of non-zero AssemblyBuilder copied by value", h))
  ∧ ∃ h', Reset b' h = (Ok (), h')
          ∧ holds b' (Built [] ∅ ∅) h'
          ∧ h' !! b = h !! b.
Proof.
  intros Hb Haddr Hne.
  assert (Hcheck : copyCheck b' h
    = (Panic "digitaltwin: illegal use of non-zero AssemblyBuilder copied by value", h)).
  { unfold copyCheck, mbind, Go_bind, go_bind.
    assert (load_builder b' h = (Ok x, h)) as ->.
    { by destruct (runs_load_builder b' x h (λ y h', y = x ∧ h' = h) Hb)
        as (? & ? & -> & -> & ->). }
    rewrite Haddr. by rewrite decide_True. }
  split.
  - intros [node|source target|root| |n e] Hm; simpl; [..|done|];
      unfold Nodes, Connect, Roots, Hint, mbind, Go_bind, go_bind; by rewrite Hcheck.
  - destruct (runs_Reset b' x h Hb) as ([] & h' & Hrun & ->).
    eexists. split; [done|]. split.
    + exists (Builder nil_slice None None None). rewrite lookup_insert_eq.
      split; [done|]. split; [by left|]. by repeat split.
    + by rewrite lookup_insert_ne.
Qed.

(** The content address of a value that has one. *)
Definition hash_of (v : Value) : NodeHash :=
  match MustContentAddress v with Ok ca => ca | _ => zeroAddress end.

(** What [builderHeap] was filled with: the root a and the edge a -> b. *)
Definition builderContent : built :=
  let a := node_of "a" in
  let b := node_of "b" in
  Built [hash_of a]
        (<[hash_of b := b]> (<[hash_of a := a]> (with_nodes [(hash_of a, a)] ∅)))
        (with_edge (hash_of a) (hash_of b) ∅).

Lemma node_of_hashed (name : string) :
  name ∈ ["a"; "b"] → MustContentAddress (node_of name) = Ok (hash_of (node_of name)).
Proof.
  intros Hname. repeat (apply elem_of_cons in Hname as [->|Hname]);
    [vm_compute; reflexivity..|by apply elem_of_nil in Hname].
Qed.

Lemma builderHeap_holds : used 1%positive builderHeap ∧ holds 1%positive builderContent builderHeap.
Proof.
  destruct (runs_Roots 1%positive (Built [] ∅ ∅) [node_of "a"] [hash_of (node_of "a")]
              zeroBuilder {[1%positive := OBuilder zeroBuilder]})
    as ([] & h1 & Hrun1 & x1 & Hb1 & Haddr1 & Hf1).
  { apply lookup_singleton_eq. }
  { by left. }
  { by repeat split. }
  { constructor; [|constructor]. apply node_of_hashed. set_solver. }
  simpl in Hf1.
  destruct (runs_Connect 1%positive
              (Built [hash_of (node_of "a")]
                     (with_nodes [(hash_of (node_of "a"), node_of "a")] ∅) ∅)
              (node_of "a") (node_of "b")
              (hash_of (node_of "a")) (hash_of (node_of "b")) x1 h1 Hb1)
    as ([] & h2 & Hrun2 & x2 & Hb2 & Haddr2 & Hf2);
    [by right|done|apply node_of_hashed; set_solver..|].
  assert (builderHeap = h2) as ->.
  { unfold builderHeap, mutations. cbn [foldl mutate]. rewrite Hrun1. cbn [snd].
    by rewrite Hrun2. }
  by eapply used_holds.
Qed.

Lemma builder_calls_accumulate_witness :
  let b := 1%positive in
  let σ := builderContent in
  let h := builderHeap in
  (∀ node ids, hashed_as node ids →
     ∃ h', Nodes b node h = (Ok (), h') ∧ used b h'
           ∧ holds b (Built (built_roots σ)
                            (with_nodes (zip ids node) (built_nodes σ))
                            (built_edges σ)) h')
  ∧ (∀ source target from to,
       MustContentAddress source = Ok from → MustContentAddress target = Ok to →
       ∃ h', Connect b source target h = (Ok (), h') ∧ used b h'
             ∧ holds b (Built (built_roots σ)
                              (<[to := target]> (<[from := source]> (built_nodes σ)))
                              (with_edge from to (built_edges σ))) h')
  ∧ (∀ root ids, hashed_as root ids →
       ∃ h', Roots b root h = (Ok (), h') ∧ used b h'
             ∧ holds b (Built ids (with_nodes (zip ids root) (built_nodes σ))
                              (built_edges σ)) h')
  ∧ (∃ h', Reset b h = (Ok (), h') ∧ holds b (Built [] ∅ ∅) h').
Proof.
  exact (builder_calls_accumulate 1%positive builderContent builderHeap
           (proj2 builderHeap_holds)).
Defined.

Lemma Assemble_returns_what_was_built_witness :
  let b := 1%positive in
  let σ := builderContent in
  let h := builderHeap in
  ∃ g h', Assemble b h = (Ok g, h')
    ∧ h ⊆ h'
    ∧ holds b σ h'
    ∧ read (graph_roots g) h' = Ok (built_roots σ)
    ∧ read (graph_nodes g) h' = Ok (built_nodes σ)
    ∧ (∀ n, ∃ targets, read (graph_edges g n) h' = Ok targets
            ∧ NoDup targets
            ∧ ∀ t, t ∈ targets ↔ t ∈ default ∅ (built_edges σ !! n))
    ∧ (built_roots σ = [] → Root g = nil_slice)
    ∧ (built_nodes σ = ∅ → Vertices g = None)
    ∧ (built_edges σ = ∅ → Neighbours g = None).
Proof.
  exact (Assemble_returns_what_was_built 1%positive builderContent builderHeap
           (proj2 builderHeap_holds)).
Defined.

(** The builder of [builderHeap], copied by value to another address. *)
Definition usedBuilder : AssemblyBuilder :=
  match builderHeap !! 1%positive with
  | Some (OBuilder x) => x
  | _ => zeroBuilder
  end.

Lemma copied_builder_is_refused_witness :
  let h := <[2%positive := OBuilder usedBuilder]> builderHeap in
  (∀ m, m ≠ CallReset →
     mutate 2%positive m h
     = (Panic "digitaltwin: illegal use of non-zero AssemblyBuilder copied by value", h))
  ∧ ∃ h', Reset 2%positive h = (Ok (), h')
          ∧ holds 2%positive (Built [] ∅ ∅) h'
          ∧ h' !! 1%positive = h !! 1%positive.
Proof.
  apply (copied_builder_is_refused 1%positive 2%positive usedBuilder).
  - apply lookup_insert_eq.
  - vm_compute. reflexivity.
  - done.
Defined.

(** *** The graph of [Assemble] is a copy *)

(** What is read from a graph depends on the objects of the graph only. *)
Lemma graph_reads_same (g : AssemblyGraph) (h1 h2 : heap) :
  (∀ l, graph_object g h1 l → h2 !! l = h1 !! l) →
  read (graph_roots g) h2 = read (graph_roots g) h1
  ∧ read (graph_nodes g) h2 = read (graph_nodes g) h1
  ∧ (∀ n, read (AssemblyGraph_Value g n) h2 = read (AssemblyGraph_Value g n) h1)
  ∧ (∀ n, read (graph_edges g n) h2 = read (graph_edges g n) h1).
Proof.
  intros Hobj. split; [|split; [|split]].
  - apply read_slice_same. intros p Hp. apply Hobj. by left.
  - unfold read, graph_nodes, AssemblyGraph_Nodes.
    destruct (Vertices g) as [l|] eqn:E; [|done].
    unfold load_nodes, load. go_unfold. rewrite (Hobj l) by (right; by left).
    by destruct (h1 !! l) as [[]|].
  - intros n. unfold read, AssemblyGraph_Value.
    destruct (Vertices g) as [l|] eqn:E; [|done].
    unfold load_nodes, load. go_unfold. rewrite (Hobj l) by (right; by left).
    by destruct (h1 !! l) as [[]|].
  - intros n. unfold read, graph_edges, AssemblyGraph_EdgesOf, adjacency_get.
    destruct (Neighbours g) as [l|] eqn:E; [|done].
    unfold load_adjacency, load. go_unfold.
    rewrite (Hobj l) by (right; right; by left).
    destruct (h1 !! l) as [o|] eqn:El; [|done].
    destruct o as [| | | | |adj]; try done.
    destruct (adj !! n) as [s|] eqn:En; simpl; [|done].
    apply (read_slice_same s). intros p Hp. apply Hobj.
    right; right; right. exists l, (OAdjacency adj). split; [done|]. split; [done|].
    apply elem_of_ptrs_adjacency. eauto.
Qed.

(** [Assemble] on a builder that holds [σ] returns a graph that reads
    as [σ]. *)
Lemma runs_Assemble (b : loc) (σ : built) (h : heap) :
  holds b σ h →
  runs (Assemble b) h (λ g h',
    read (graph_roots g) h' = Ok (built_roots σ)
    ∧ read (graph_nodes g) h' = Ok (built_nodes σ)
    ∧ (∀ n, read (AssemblyGraph_Value g n) h' = Ok (built_nodes σ !! n))
    ∧ (∀ n, ∃ targets, read (graph_edges g n) h' = Ok targets
            ∧ NoDup targets
            ∧ ∀ t, t ∈ targets ↔ t ∈ default ∅ (built_edges σ !! n))).
Proof.
  intros (x & Hb & _ & Hroots & Hnodes & Hedges).
  unfold Assemble. apply runs_bind. apply (runs_load_builder _ _ _ _ Hb).
  apply runs_bind. eapply runs_mono; [by apply runs_Assemble_roots|].
  simpl. intros gRoot h1 (Hsub1 & HgRoot & _).
  assert (Hnodes1 : nodes_hold (nodes x) (built_nodes σ) h1)
    by by eapply nodes_hold_mono.
  apply runs_bind, (runs_len_nodes _ _ _ _ Hnodes1).
  apply runs_bind. eapply runs_mono; [by apply runs_Assemble_nodes|].
  simpl. intros gVertices h2 (Hsub2 & HgVertices & _).
  assert (Hedges2 : edges_hold (neighbours x) (built_edges σ) h2).
  { eapply edges_hold_mono; [|done]. by etrans. }
  apply runs_bind, (runs_len_edgesets _ _ _ _ Hedges2).
  apply runs_bind. eapply runs_mono; [by apply runs_Assemble_edges|].
  simpl. intros gNeighbours h3 (Hsub3 & HgNeighbours & _).
  apply runs_ret.
  assert (Hv := nodes_hold_mono _ _ _ _ Hsub3 HgVertices).
  split; [|split; [|split]].
  - unfold read, graph_roots, AssemblyGraph_Roots. simpl.
    erewrite slice_holds_read; [done|]. eapply slice_holds_mono; [|done]. by etrans.
  - apply runs_read. unfold graph_nodes, AssemblyGraph_Nodes. simpl.
    destruct gVertices as [l|]; simpl in Hv.
    + by apply (runs_load_nodes _ _ _ _ Hv).
    + by apply runs_ret.
  - intros n. apply runs_read. unfold AssemblyGraph_Value. simpl.
    destruct gVertices as [l|]; simpl in Hv.
    + apply runs_bind, (runs_load_nodes _ _ _ _ Hv). by apply runs_ret.
    + apply runs_ret. by rewrite Hv, lookup_empty.
  - intros n. exists (elements (default ∅ (built_edges σ !! n))).
    split; [by apply adjacency_holds_read|]. split; [apply NoDup_elements|].
    intros t. apply elem_of_elements.
Qed.

(** C9. [Assemble] returns copies of what the builder holds.  For a
    builder that holds the roots, nodes and edges [σ], in a heap without
    dangling pointers, [Assemble] returns a graph, and after any sequence
    of later calls of [Nodes], [Connect], [Roots], [Reset] or [Hint],
    panicking or not, on that builder or on any builder that existed
    before, the graph still reads as [σ]: its roots are the roots of [σ]
    in order, its nodes are the nodes of [σ], and the edges of every node
    are the list that was read before the calls, which holds each target
    of that node in [σ] once and nothing else. *)
Theorem Assemble_copies_builder_state (b : loc) (σ : built) (h : heap) :
  closed h →
  holds b σ h →
  ∃ g h1, Assemble b h = (Ok g, h1)
    ∧ ∀ (b' : loc) (ms : list mutation),
        b' = b ∨ is_Some (h !! b') →
        let h2 := mutations b' ms h1 in
        read (graph_roots g) h2 = Ok (built_roots σ)
        ∧ read (graph_nodes g) h2 = Ok (built_nodes σ)
        ∧ (∀ n, read (AssemblyGraph_Value g n) h2 = Ok (built_nodes σ !! n))
        ∧ (∀ n, ∃ targets,
             read (graph_edges g n) h1 = Ok targets
             ∧ read (graph_edges g n) h2 = Ok targets
             ∧ NoDup targets
             ∧ ∀ t, t ∈ targets ↔ t ∈ default ∅ (built_edges σ !! n)).
Proof.
  intros Hclosed Hholds.
  destruct (runs_Assemble b σ h Hholds) as (g & h1 & HA & Hr & Hn & Hv & He).
  exists g, h1. split; [done|]. intros b' ms Hb' h2.
  destruct (Assemble_objects_are_new b h g h1 Hclosed HA) as [Hext Hnew].
  assert (Hb : is_Some (h !! b')).
  { destruct Hb' as [->|]; [|done]. destruct Hholds as (x & -> & _). by eexists. }
  pose proof (inv_new_objects h h1 Hclosed Hext) as Hinv.
  assert (Hgood : good (dom h1 ∖ dom h) h1 b').
  { split; [|by apply Hext].
    intros [_ Hnot]%elem_of_difference. apply Hnot. by apply elem_of_dom. }
  destruct (mutations_ext _ b' ms h1 Hinv Hgood) as [_ [_ Hsame]].
  fold h2 in Hsame.
  destruct (graph_reads_same g h1 h2) as (Hr' & Hn' & Hv' & He'); [by auto|].
  split; [by rewrite Hr'|]. split; [by rewrite Hn'|].
  split; [intros n; by rewrite Hv'|].
  intros n. destruct (He n) as (targets & Hread & Hnd & Hin).
  exists targets. split; [done|]. split; [by rewrite He'|]. done.
Qed.

Lemma Assemble_copies_builder_state_witness :
  closed builderHeap
  ∧ holds 1%positive builderContent builderHeap
  ∧ ∃ g h1, Assemble 1%positive builderHeap = (Ok g, h1)
      ∧ ∀ (b' : loc) (ms : list mutation),
          b' = 1%positive ∨ is_Some (builderHeap !! b') →
          let h2 := mutations b' ms h1 in
          read (graph_roots g) h2 = Ok (built_roots builderContent)
          ∧ read (graph_nodes g) h2 = Ok (built_nodes builderContent)
          ∧ (∀ n, read (AssemblyGraph_Value g n) h2 = Ok (built_nodes builderContent !! n))
          ∧ (∀ n, ∃ targets,
               read (graph_edges g n) h1 = Ok targets
               ∧ read (graph_edges g n) h2 = Ok targets
               ∧ NoDup targets
               ∧ ∀ t, t ∈ targets ↔ t ∈ default ∅ (built_edges builderContent !! n)).
Proof.
  assert (Hc : closed builderHeap).
  { refine (bool_decide_unpack _ _). vm_compute. exact I. }
  split; [exact Hc|]. split; [exact (proj2 builderHeap_holds)|].
  exact (Assemble_copies_builder_state 1%positive builderContent builderHeap
           Hc (proj2 builderHeap_holds)).
Defined.

(** *** [Hint] *)

(** [c] started in [h] ends, normally or not, with an outcome and a heap
    that satisfy [Q]. *)
Definition ends {A} (c : Go A) (h : heap) (Q : result A → heap → Prop) : Prop :=
  Q (c h).1 (c h).2.

Lemma ends_bind {A B} (c : Go A) (k : A → Go B) (h : heap)
    (Q : result B → heap → Prop) :
  runs c h (λ a h', ends (k a) h' Q) → ends (c ≫= k) h Q.
Proof.
  intros (a & h' & Hc & Hk). unfold ends, mbind, Go_bind, go_bind in *. by rewrite Hc.
Qed.

Lemma ends_runs {A} (c : Go A) (h : heap) (Q : result A → heap → Prop) :
  runs c h (λ a h', Q (Ok a) h') → ends c h Q.
Proof. intros (a & h' & Hc & HQ). unfold ends. by rewrite Hc. Qed.

Lemma runs_hintNodes (b : loc) (n : nat) (σ : built) (x : AssemblyBuilder) (h : heap) :
  h !! b = Some (OBuilder x) → fields x σ h →
  runs (hintNodes b n) h
       (λ _ h', ∃ x', h' !! b = Some (OBuilder x') ∧ addr x' = addr x ∧ fields x' σ h').
Proof.
  intros Hb (Hr & Hn & He). unfold hintNodes.
  apply runs_bind. apply (runs_load_builder _ _ _ _ Hb).
  apply runs_bind. apply runs_alloc. intros l Hl.
  apply runs_bind.
  assert (Hold : runs (match nodes x with
                       | None => mret ∅
                       | Some l0 => load_nodes l0
                       end) (<[l := ONodes ∅]> h)
                 (λ old h', old = built_nodes σ ∧ h' = <[l := ONodes ∅]> h)).
  { destruct (nodes x) as [l0|]; simpl in Hn.
    - apply (runs_load_nodes _ (built_nodes σ)); [|done].
      by rewrite lookup_insert_ne by (intros ->; congruence).
    - by apply runs_ret. }
  eapply runs_mono; [exact Hold|]. simpl. intros old h1 [-> ->].
  apply runs_bind. eapply runs_mono.
  { apply (runs_copy_nodes l (range_map (built_nodes σ)) ∅). by rewrite lookup_insert_eq. }
  simpl. intros _ h2 [Hl2 Hother2].
  unfold range_map in Hl2. rewrite foldl_insert_map_to_list in Hl2.
  apply runs_store.
  { rewrite Hother2 by (intros ->; congruence).
    rewrite lookup_insert_ne by (intros ->; congruence). by eexists. }
  eexists. split; [by rewrite lookup_insert_eq|]. split; [done|].
  split; [|split]; simpl.
  - eapply slice_holds_frame; [|done]. intros p xs Hp.
    rewrite lookup_insert_ne by (intros ->; congruence).
    rewrite Hother2 by (intros ->; congruence). by elsewhere.
  - rewrite lookup_insert_ne by (intros ->; congruence). done.
  - eapply edges_hold_frame; [| |done]; intros p xs Hp;
      rewrite lookup_insert_ne by (intros ->; congruence);
      (rewrite Hother2 by (intros ->; congruence)); by elsewhere.
Qed.

(** X29. [Hint] never changes what a builder holds.  With counts that
    are not negative it returns normally; with a negative node count it
    panics at once; with a negative edge count it panics after the nodes
    have been moved to their new map.  In every case the builder holds
    the same roots, nodes and edges as before and is marked as used. *)
Theorem Hint_keeps_content (b : loc) (σ : built) (h : heap) (n e : Z) :
  holds b σ h →
  let out := Hint b n e h in
  used b out.2 ∧ holds b σ out.2
  ∧ out.1 = (if (n <? 0)%Z
             then Panic "digitaltwin.AssemblyBuilder.Grow: negative node count"
             else if (e <? 0)%Z
             then Panic "digitaltwin.AssemblyBuilder.Grow: negative edge count"
             else Ok ()).
Proof.
  intros (x & Hb & Haddr & Hf).
  change (ends (Hint b n e) h (λ r h',
    used b h' ∧ holds b σ h'
    ∧ r = (if (n <? 0)%Z
           then Panic "digitaltwin.AssemblyBuilder.Grow: negative node count"
           else if (e <? 0)%Z
           then Panic "digitaltwin.AssemblyBuilder.Grow: negative edge count"
           else Ok ()))).
  unfold Hint. apply ends_bind. apply (runs_copyCheck _ _ _ _ Hb Haddr).
  intros h1 Hb1 Hother1.
  assert (Hf1 : fields (Builder (roots x) (nodes x) (neighbours x) (Some b)) σ h1).
  { destruct Hf as (Hr & Hn & He). split; [|split]; simpl.
    - eapply slice_holds_frame; [|done]. intros p xs Hp.
      by rewrite Hother1 by (intros ->; congruence).
    - eapply nodes_hold_frame; [|done]. intros p xs Hp.
      by rewrite Hother1 by (intros ->; congruence).
    - eapply edges_hold_frame; [| |done]; intros p xs Hp;
        by rewrite Hother1 by (intros ->; congruence). }
  destruct (n <? 0)%Z eqn:Hn.
  { unfold ends. simpl. split; [|split; [|done]]; by eapply used_holds. }
  apply ends_bind. apply runs_ret.
  apply ends_bind. apply (runs_load_builder _ _ _ _ Hb1).
  apply ends_bind. apply (runs_len_nodes _ (built_nodes σ)); [apply Hf1|].
  assert (Hgrown : runs (if (Z.of_nat (size (built_nodes σ)) <? n)%Z
                         then hintNodes b (Z.to_nat n) else mret ()) h1
                     (λ _ h', ∃ x', h' !! b = Some (OBuilder x') ∧ addr x' = Some b
                                    ∧ fields x' σ h')).
  { destruct (Z.of_nat (size (built_nodes σ)) <? n)%Z.
    - by apply (runs_hintNodes b _ σ _ h1 Hb1).
    - apply runs_ret. eauto. }
  apply ends_bind. eapply runs_mono; [exact Hgrown|].
  simpl. intros _ h2 (x2 & Hb2 & Haddr2 & Hf2).
  destruct (e <? 0)%Z; unfold ends; simpl; (split; [|split; [|done]]); by eapply used_holds.
Qed.

Lemma Hint_keeps_content_witness :
  let out := Hint 1%positive 4 (-1) builderHeap in
  used 1%positive out.2 ∧ holds 1%positive builderContent out.2
  ∧ out.1 = (if (4 <? 0)%Z
             then Panic "digitaltwin.AssemblyBuilder.Grow: negative node count"
             else if (-1 <? 0)%Z
             then Panic "digitaltwin.AssemblyBuilder.Grow: negative edge count"
             else Ok ()).
Proof.
  exact (Hint_keeps_content 1%positive builderContent builderHeap 4 (-1)
           (proj2 builderHeap_holds)).
Defined.

(** ** Walking an assembly *)

Section walking.
Import walk.
Context {V S : Type} `{Visitor V S}.

(** Walking the children, one after the other. *)
Lemma children_cons (fuel : nat) (v : V) (tree : Tree) (acc : option S)
    (child : NodeHash) (children : list NodeHash) :
  foldl (λ (acc : option S) child, s ← acc; WalkSubtree fuel v tree child s)
        acc (child :: children)
  = foldl (λ (acc : option S) child, s ← acc; WalkSubtree fuel v tree child s)
          (s ← acc; WalkSubtree fuel v tree child s) children.
Proof. reflexivity. Qed.

Lemma children_stuck (fuel : nat) (v : V) (tree : Tree) (children : list NodeHash) :
  foldl (λ (acc : option S) child, s ← acc; WalkSubtree fuel v tree child s)
        None children = None.
Proof. induction children as [|c children IH]; [done|exact IH]. Qed.

(** More fuel does not change a walk that returned. *)
Lemma WalkSubtree_more_fuel (tree : Tree) (fuel : nat) :
  ∀ (fuel' : nat) (v : V) (node : NodeHash) (s s' : S),
  (fuel ≤ fuel')%nat →
  WalkSubtree fuel v tree node s = Some s' →
  WalkSubtree fuel' v tree node s = Some s'.
Proof.
  induction fuel as [|fuel IH]; intros fuel' v node s s' Hle; [done|].
  destruct fuel' as [|fuel']; [lia|]. simpl.
  destruct (Visit v (tree_Value tree node) s) as [[w|] s1]; [|done].
  assert (Hchildren : ∀ children acc s2,
    foldl (λ (acc : option S) child, s ← acc; WalkSubtree fuel w tree child s)
          acc children = Some s2 →
    foldl (λ (acc : option S) child, s ← acc; WalkSubtree fuel' w tree child s)
          acc children = Some s2).
  { induction children as [|c children IHc]; intros acc s2; [done|].
    rewrite !children_cons. destruct acc as [s0|]; simpl.
    - destruct (WalkSubtree fuel w tree c s0) as [s3|] eqn:Hc.
      + rewrite (IH fuel' w c s0 s3) by (done || lia). apply IHc.
      + by rewrite children_stuck.
    - by rewrite children_stuck. }
  destruct (foldl _ (Some s1) (tree_EdgesOf tree node)) as [s2|] eqn:Hfold; [|done].
  by rewrite (Hchildren _ _ _ Hfold).
Qed.

(** With a rank that decreases along the edges, fuel above the rank of a
    node is enough to walk its subtree. *)
Lemma WalkSubtree_ranked (tree : Tree) (rank : NodeHash → nat) :
  (∀ n c, c ∈ tree_EdgesOf tree n → (rank c < rank n)%nat) →
  ∀ (fuel : nat) (v : V) (node : NodeHash) (s : S),
  (rank node < fuel)%nat → is_Some (WalkSubtree fuel v tree node s).
Proof.
  intros Hrank. induction fuel as [|fuel IH]; intros v node s Hlt; [lia|].
  simpl. destruct (Visit v (tree_Value tree node) s) as [[w|] s1]; [|by eexists].
  assert (Hchildren : ∀ children s2,
    (∀ c, c ∈ children → (rank c < fuel)%nat) →
    is_Some (foldl (λ (acc : option S) child, s ← acc; WalkSubtree fuel w tree child s)
                   (Some s2) children)).
  { induction children as [|c children IHc]; intros s2 Hc; [by eexists|].
    rewrite children_cons. simpl.
    destruct (IH w c s2) as [s3 ->]; [apply Hc; by left|].
    apply IHc. intros c' Hc'. apply Hc. by right. }
  destruct (Hchildren (tree_EdgesOf tree node) s1) as [s2 ->]; [|by eexists].
  intros c Hc. specialize (Hrank node c Hc). lia.
Qed.

(** A walk that comes to a node from which the edges never end, with
    visitors that always descend, does not return. *)
Lemma WalkSubtree_endless (tree : Tree) (C : NodeHash → Prop) (W : V → Prop) :
  (∀ n, C n → ∃ c, c ∈ tree_EdgesOf tree n ∧ C c) →
  (∀ (v : V) node s, W v → ∃ w, (Visit v node s).1 = Some w ∧ W w) →
  ∀ (fuel : nat) (v : V) (node : NodeHash) (s : S),
  W v → C node → WalkSubtree fuel v tree node s = None.
Proof.
  intros Hnext Hdescend. induction fuel as [|fuel IH]; intros v node s Hv Hnode; [done|].
  simpl. destruct (Hdescend v (tree_Value tree node) s Hv) as (w & Hw & HWw).
  destruct (Visit v (tree_Value tree node) s) as [w' s1]. simpl in Hw. subst w'.
  destruct (Hnext node Hnode) as (c & Hc & HCc).
  assert (Hchildren : ∀ children acc, c ∈ children →
    foldl (λ (acc : option S) child, s ← acc; WalkSubtree fuel w tree child s)
          acc children = None).
  { induction children as [|c' children IHc]; intros acc Hin.
    - by apply elem_of_nil in Hin.
    - rewrite children_cons. apply elem_of_cons in Hin as [<-|Hin]; [|by apply IHc].
      destruct acc as [s0|]; simpl; [|by rewrite children_stuck].
      by rewrite IH, children_stuck. }
  by rewrite Hchildren.
Qed.

End walking.

(** X30. [Walk] returns on trees and directed acyclic graphs, and does
    not return on a cycle.  When a rank decreases along every edge, the
    walk returns (from some recursion depth on, with one result),
    whatever the visitor.  When a root lies on a cycle, or on any set of
    nodes that all have a child in the set, and the visitors always
    descend, the walk reaches no end at any recursion depth: it keeps no
    record of the nodes it has visited.  So does [Inspect] with a
    function that always returns true. *)
Theorem Walk_returns_without_cycles_only {V S : Type} `{walk.Visitor V S}
    (tree : walk.Tree) :
  (∀ rank : NodeHash → nat,
     (∀ n c, c ∈ walk.tree_EdgesOf tree n → (rank c < rank n)%nat) →
     ∀ (v : V) (s : S), ∃ fuel s',
       ∀ fuel', (fuel ≤ fuel')%nat → walk.Walk fuel' v tree s = Some s')
  ∧ (∀ (C : NodeHash → Prop) (W : V → Prop),
       (∀ n, C n → ∃ c, c ∈ walk.tree_EdgesOf tree n ∧ C c) →
       (∀ (v : V) node s, W v → ∃ w, (walk.Visit v node s).1 = Some w ∧ W w) →
       ∀ root, root ∈ walk.tree_Roots tree → C root →
       ∀ fuel (v : V) (s : S), W v → walk.Walk fuel v tree s = None)
  ∧ (∀ (C : NodeHash → Prop),
       (∀ n, C n → ∃ c, c ∈ walk.tree_EdgesOf tree n ∧ C c) →
       ∀ (S' : Type) (f : walk.inspector S'), (∀ node s, (f node s).1 = true) →
       ∀ root, root ∈ walk.tree_Roots tree → C root →
       ∀ fuel (s : S'), walk.Inspect fuel tree f s = None).
Proof.
  assert (Hendless : ∀ (V S : Type) (HV : walk.Visitor V S)
                       (C : NodeHash → Prop) (W : V → Prop),
       (∀ n, C n → ∃ c, c ∈ walk.tree_EdgesOf tree n ∧ C c) →
       (∀ (v : V) node s, W v → ∃ w, (walk.Visit v node s).1 = Some w ∧ W w) →
       ∀ root, root ∈ walk.tree_Roots tree → C root →
       ∀ fuel (v : V) (s : S), W v → walk.Walk fuel v tree s = None).
  { clear. intros V S HV C W Hnext Hdescend root Hroot HC fuel v s Hv. unfold walk.Walk.
    generalize (Some s). induction (walk.tree_Roots tree) as [|r roots IHr]; intros acc.
    + by apply elem_of_nil in Hroot.
    + rewrite children_cons. apply elem_of_cons in Hroot as [<-|Hroot]; [|by apply IHr].
      destruct acc as [s0|]; simpl; [|by rewrite children_stuck].
      by rewrite (WalkSubtree_endless tree C W Hnext Hdescend), children_stuck. }
  split; [|split].
  - intros rank Hrank v s.
    remember (Datatypes.S (max_list (rank <$> walk.tree_Roots tree))) as fuel eqn:Hfuel.
    assert (Hroots : ∀ rs s0,
      (∀ r, r ∈ rs → (rank r < fuel)%nat) →
      is_Some (foldl (λ (acc : option S) root, s ← acc; walk.WalkSubtree fuel v tree root s)
                     (Some s0) rs)).
    { induction rs as [|r rs IHr]; intros s0 Hr; [by eexists|].
      rewrite children_cons. simpl.
      destruct (WalkSubtree_ranked tree rank Hrank fuel v r s0) as [s1 ->];
        [apply Hr; by left|].
      apply IHr. intros r' Hr'. apply Hr. by right. }
    destruct (Hroots (walk.tree_Roots tree) s) as [s' Hs'].
    { intros r Hr. subst fuel. apply Nat.lt_succ_r, max_list_elem_of_le.
      apply list_elem_of_fmap. eauto. }
    exists fuel, s'. intros fuel' Hle. unfold walk.Walk. clear Hfuel Hroots Hendless. revert Hs'.
    generalize (Some s). induction (walk.tree_Roots tree) as [|r roots IHr]; intros acc; [done|].
    rewrite !children_cons. destruct acc as [s0|]; simpl; [|by rewrite children_stuck].
    destruct (walk.WalkSubtree fuel v tree r s0) as [s1|] eqn:Hr; [|by rewrite children_stuck].
    rewrite (WalkSubtree_more_fuel tree fuel fuel' v r s0 s1 Hle Hr). apply IHr.
  - by apply Hendless.
  - intros C Hnext S' f Hf root Hroot HC fuel s. unfold walk.Inspect.
    apply (Hendless _ _ _ C (λ g, g = f) Hnext) with root; [|done..].
    intros g node s0 ->. exists f. split; [|done].
    unfold walk.Visit, walk.inspector_Visit. specialize (Hf node s0).
    destruct (f node s0) as [descend s1]. simpl in *. by subst.
Qed.
